(* ===== verification/_CoqProject ===== *)
-Q . S2P
Prelude.v
Text.v
Crypto.v
Json.v
Encoding.v
Env.v
Sample.v
Errors.v
Codec.v
Announce.v
NetAddr.v
Registry.v
Plugin.v
Memory.v
Orchestrator.v
Backend.v
System.v
Tls.v
Path.v
Protogen.v
Words.v
Build.v
Syntax.v
Directives.v
Docs.v
Comments.v
Commentcheck.v
Report.v
