(* ===== verification/Prelude.v ===== *)
(** * Herrscher transport: a verification library

    herrscher-transport carries the plugin contracts of herrscher over the
    network: a plugin process announces itself over NATS, a host records the
    announcements it trusts, dials the plugins it needs over gRPC, and talks to
    them through proxies that offer the contracts' own interfaces. This library
    models the Go code of the repository (the files under src/) and proves what
    each part promises.

    ** The parts and how they interact

    - src/errors.go: the errors every other part returns ([Errors]).
    - src/codec.go, src/wire_error.go: arguments, results and the typed budget
      error as JSON ([Codec]), used by the proxies, the skeletons and the
      announcements.
    - src/announce.go, src/subjects.go: announcements sealed with an HMAC under
      a shared key, published and watched ([Announce]).
    - src/remote_registry.go: the registry behind a watcher, with its address
      gate, its queries and the dialing of an entry ([Registry]; the dialing of
      each port is in the file of the port).
    - src/plugin_router.go: one generic gRPC service per server, dispatching to
      one skeleton per port ([Plugin]).
    - src/memory_*.go, src/orchestrator_*.go: the two request/response ports, a
      skeleton over the real object and a proxy over a client ([Memory],
      [Orchestrator]).
    - src/backend_stream.go: the streaming port ([Backend]).
    - the plugins, the host and the network between them, put together from
      these parts ([System]).
    - src/tls.go: the credentials of both ends ([Tls]).
    - src/tools/protogen: the generator of the protobuf code ([Protogen]).
    - src/tools/commentcheck: the checker of comments: directives.go
      ([Directives]), docs.go ([Docs]), comments.go ([Comments]) and main.go
      ([Commentcheck], [Report]).

    ** The files

    - [Prelude]: bytes, results ([res], [let?]), explicit state ([do]), lemmas
      on lists and the automation.
    - [Text]: strings, integers in decimal and at 64 bits, UTF-8, %q.
    - [Crypto]: base64, SHA-256 and HMAC, computed.
    - [Json]: the JSON text of encoding/json, its printer and its scanner, with
      the round trip between them. [Encoding]: how Go values become JSON values
      and back, as the class [GoJson].
    - [Env]: the class of everything the repository takes from elsewhere
      (herrscher-contracts, contexts, error texts of encoding/json, the Unicode
      tables). [Sample]: a small concrete instance for the witnesses.
    - [NetAddr]: net.SplitHostPort, net.ParseIP and IsLoopback. [Path]:
      path/filepath on Unix. [Words]: cutting and trimming of strings at runes,
      and strconv.Unquote, the inverse of %q. [Build]: the expressions of
      go/build/constraint, their parser and their grammar. [Syntax]: the
      positions of go/token and the part of the syntax trees of go/ast the
      comment checker looks at.
    - one file per part, named above. [System] requires the parts of the library
      and none of the tools. The comment checker has one file for each
      of its source files, and [Report] for the order and the lines of its report.

    ** How code becomes definitions

    A Go string or []byte is a list of bytes, an int64 a [Z] with its range
    written out, a nil-able value an [option], a map a [gmap]. A call that
    returns an error is a [res]; every call site of the program reads the value
    only when the error is nil, so [Err] carries no value. Code that acts on
    the world (a real memory behind a skeleton, a network, a file system) takes
    and returns a state [W]. A function of a package outside the repository is
    an argument of the definition that calls it. A struct is a record, a method
    a definition with the method's name; where two parts have a method of the
    same name the file tells them apart ([Memory.Close], [Backend.Close]); a
    name that is a keyword of the language ends in an underscore ([Record_]).

    Methods that run under a mutex are single steps, except where the code
    depends on the lock: the goroutines of a backend turn take and release it
    in steps of their own ([Backend.step]), and a call of the router leaves it
    before it runs the skeleton, so the skeletons of concurrent calls take their
    steps in any order, those of one between those of another
    ([Plugin.serve_step]; what the atomic steps of a skeleton are is the class
    [Plugin.Threads]). Weak pointers and cleanups of the router claims are steps of
    the runtime ([Plugin.step]). What is sent, received and announced on the
    subject, and the changes of the host's wall clock, which may be set back, are
    steps of [System.step]; the contexts a backend turn derives are cancelled by an
    effect on the caller's world ([Backend.Respond]). A Go map is iterated in any
    order: [Registry.byCategory] and [Commentcheck.straysUnder] take the order, and
    the latter takes the sort of package slices as well. The texts of the errors of
    encoding/json are parameters, that of a type error by the type of the target;
    the text of a json.RawMessage is the one its value prints to, which the code
    only decodes once more ([Encoding.raw_json]).
    A pointer to a comment group is a number; the map of allowed groups is keyed
    by it, nil included. A file system that is only read is the class
    [Directives.FileSystem].

    ** What the theorems show

    - [Codec]: argument tuples are read back as written, any other number of
      arguments is refused with both counts, and domain errors cross the wire
      with their type or their text.
    - [Announce]: [openAnnouncement] decides the specification [Verdict], branch
      by branch; sealing and opening agree exactly within the window; who gets
      other contents accepted under a MAC than those it was issued for has found a
      second preimage of that MAC; each message runs exactly one hook.
    - [Registry]: over any sequence of messages the registry and the rejection
      hook partition them; every entry has an authentic, fresh and admitted
      origin; what a key holder announces in time is found by its category; without
      an allow function nothing is recorded; a dial without credentials reaches
      loopback only.
    - [Plugin]: dispatch to the first skeleton of a port; calls that overlap and
      run while ports are registered are their skeletons alone, those of the final
      router, under the same schedule; at most one router per server with no claim
      left behind.
    - [Memory], [Orchestrator]: the refinement. A proxy connected to a router is
      the real object, operation by operation, up to the fate of each call
      ([Plugin.fate]: delivered, its answer lost, or never reached); the network
      is any client with that contract ([Plugin.connected]). [remote_memory] and
      [remote_orchestrator] say it of any two objects with the interface, which is
      how [System] uses it. The skeleton is its contract: parse, perform, answer
      in band.
    - [Backend]: events and reply arrive in order or the turn ends in an error;
      every interleaving of callbacks is a sequential run, on the stream and as
      the caller of the proxy sees it; SendMsg is never entered twice; the handler
      can always finish; the context of the stream is cancelled on every path.
    - [System]: the registry of a host on a subject anyone can write to reaches
      exactly the states of an abstract directory without an attacker
      ([System.spec_step]); every entry and every dialed address is one a key
      holder stands behind; a captured announcement is worth nothing once its
      window has passed, as long as the clock is not set back into it, though within it an earlier entry may return
      ([System.earlier_entry_may_return]); and from an announcement to the calls through the proxy,
      for each of the three ports. An attacker can send anything but a MAC it has
      not seen ([System.unforged]), which [Announce.tampering_needs_collision]
      reduces to a second preimage of the HMAC.
    - [Tls]: the credentials of each side are mutual TLS against the configured
      CA, exactly when the three settings are complete and their files are good,
      and otherwise an error, the first of the five causes.
    - [Protogen]: dependency order of the descriptors, the check of the outputs,
      the command line, what is written and with which permissions, and the exit
      code of each failure.
    - [Directives]: the known directives are a closed list of exact forms; the
      words of a directive are read back from every spelling; the loops end.
    - [Docs], [Comments]: the allowed docs are those of exported identifiers, in
      tests those of examples; the findings of a file, one by one.
    - [Commentcheck], [Report]: what exit code 0 says of the trees checked, the
      five endings of the command, and a report whose findings are places the
      files of the tree give, in order, and whose lines tell findings apart. In a
      tree without line directives it depends neither on the order of a map nor on
      the sort; with line directives it keeps its places and may exchange the
      reasons of findings at one place ([Report.line_directives_exchange_reasons]
      shows a case).

    ** Bounds and fuel

    The JSON scanner runs with fuel twice the length of its input plus two, and
    [Json.parse_fuel_enough] shows that it never runs out of it, on any text; the
    nesting bound 10000 and the size bound of announcements are the code's. The
    loop over the words of a directive runs with fuel one more than the length of
    its text, and
    [Directives.words_loop_total] shows that every round consumes a byte; the
    loop over the parents of a directory runs with two more than the length of
    the path, and [Directives.root_loop_total] shows that a parent is shorter or a
    root; [Words.unquote_from] runs with the length of its word, and
    [Words.unquote_fuel] shows that more makes no difference, as [Build.lex_fuel]
    and [Build.parse_fuel] do for build constraints. Every other recursion is
    structural.
    The receive loop of the backend proxy runs over the messages a stream
    delivers before its error; a stream that never ends is no returned call.

    ** What is not modelled

    The generated protobuf code (its two messages are the envelopes of
    [Plugin]), gRPC, NATS, X.509 and the file system, which are parameters; in
    [System] NATS is the list of the messages sent so far, of which the host may
    receive any. The interrupt signal that cancels the context of protogen, which
    makes the compiler or a plugin fail early, is a failure of those. Of
    the comment checker: the parser of go/parser, whose result is a parameter
    (where its token files matter it is assumed to place the lines and comments of
    a file in order in a range of their own, [Report.parser_ok]; that a tree has no
    line directives is a hypothesis of its own, [Report.directive_free]); the listing of a tree and the matching of embed patterns,
    which are answers of the file system. [strconv.Unquote] is modelled for the
    two quotes the checker passes to it, double quotes and backquotes; the Unicode
    tables beyond ASCII are parameters ([Text.Unicode]). *)

From Stdlib Require Export ZArith Lia Strings.Byte Strings.String.
From stdpp Require Export base list gmap strings sorting.

#[export] Set Default Proof Using "Type".
#[export] Set Warnings "-clear-no-such-hyp".

Open Scope Z_scope.

(* ------------------------------------------------------------------ *)
(** ** Bytes and Go strings *)

(** A Go [string] and a Go [[]byte] are both sequences of 8-bit bytes. *)
Abbreviation bytes := (list byte).

#[global] Instance byte_eq_dec : EqDecision byte.
Proof. intros x y. apply Byte.byte_eq_dec. Defined.

Lemma byte_of_to_N (b : byte) : Byte.of_N (Byte.to_N b) = Some b.
Proof. apply Byte.of_to_N. Qed.

#[global] Program Instance byte_countable : Countable byte :=
  {| encode b := encode (Byte.to_N b);
     decode p := n ← decode p; Byte.of_N n |}.
Next Obligation. intros b. cbn -[encode decode]. rewrite decode_encode. apply byte_of_to_N. Qed.

(** [B "text"] is the Go string literal ["text"]. *)
Definition B (s : string) : bytes := list_byte_of_string s.
Arguments B _ : simpl never.

(** [chr "x"] is the byte of the Go rune literal ['x']. *)
Abbreviation chr c := (c%byte) (only parsing).

(** Go's [len] of a slice or a string. *)
Definition len {A} (l : list A) : Z := Z.of_nat (length l).

(** The value of a byte, and the byte of a number (the low eight bits). *)
Definition b2z (b : byte) : Z := Z.of_N (Byte.to_N b).

Definition z2b (z : Z) : byte :=
  match Byte.of_N (Z.to_N (z mod 256)) with
  | Some b => b
  | None => "000"%byte
  end.

Lemma b2z_range b : 0 <= b2z b < 256.
Proof. unfold b2z. pose proof (Byte.to_N_bounded b). lia. Qed.

Lemma z2b_b2z b : z2b (b2z b) = b.
Proof.
  unfold z2b. rewrite Z.mod_small by apply b2z_range.
  unfold b2z. rewrite N2Z.id, byte_of_to_N. done.
Qed.

Lemma b2z_z2b z : b2z (z2b z) = z mod 256.
Proof.
  unfold z2b, b2z.
  assert (0 <= z mod 256 < 256) as Hz by (apply Z.mod_pos_bound; lia).
  destruct (Byte.of_N (Z.to_N (z mod 256))) as [b|] eqn:E.
  - apply Byte.to_of_N in E. rewrite E. lia.
  - apply Byte.of_N_None_iff in E. lia.
Qed.

Lemma b2z_z2b_small z : 0 <= z < 256 -> b2z (z2b z) = z.
Proof. intros. rewrite b2z_z2b. apply Z.mod_small. done. Qed.

Lemma b2z_inj a b : b2z a = b2z b -> a = b.
Proof. intros E. by rewrite <- (z2b_b2z a), <- (z2b_b2z b), E. Qed.

(** Every byte, for properties decided by enumeration. *)
Definition all_bytes : list byte := z2b <$> (Z.of_nat <$> seq 0 256).

Lemma elem_of_all_bytes b : b ∈ all_bytes.
Proof.
  unfold all_bytes. apply list_elem_of_fmap. exists (b2z b). split; [by rewrite z2b_b2z|].
  apply list_elem_of_fmap. exists (Z.to_nat (b2z b)). pose proof (b2z_range b).
  split; [lia|]. apply elem_of_seq. lia.
Qed.

Lemma byte_forall (P : byte -> bool) : forallb P all_bytes = true -> forall b, P b = true.
Proof.
  intros H b. rewrite forallb_forall in H. apply H.
  apply list_elem_of_In, elem_of_all_bytes.
Qed.

(* ------------------------------------------------------------------ *)
(** ** Lists *)

Lemma Forall_mp {A} (P Q : A -> Prop) l : Forall (fun x => P x -> Q x) l -> Forall P l -> Forall Q l.
Proof. induction 1; inversion 1; constructor; auto. Qed.

(** A separator that occurs in neither prefix splits a list in one way. *)
Lemma app_sep_inj {A} (x : A) l1 l2 r1 r2 :
  x ∉ l1 -> x ∉ l2 -> l1 ++ x :: r1 = l2 ++ x :: r2 -> l1 = l2 /\ r1 = r2.
Proof.
  revert l2. induction l1 as [|a l1 IH]; intros [|b l2] H1 H2 E; simplify_eq/=; [done|..];
    rewrite ?not_elem_of_cons in *; [tauto..|].
  destruct (IH l2) as [-> ->]; tauto.
Qed.

Lemma elem_of_concat_map {A A'} (f : A -> list A') l x :
  x ∈ concat (map f l) <-> exists a, a ∈ l /\ x ∈ f a.
Proof.
  rewrite list_elem_of_In, in_concat. setoid_rewrite in_map_iff. setoid_rewrite list_elem_of_In. naive_solver.
Qed.

Lemma concat_nil_iff {A A'} (f : A -> list A') l : concat (map f l) = [] <-> Forall (fun a => f a = []) l.
Proof.
  induction l as [|a l IH]; cbn; [by split|]. rewrite Forall_cons, <-IH. split.
  - by intros [-> ->]%app_eq_nil.
  - by intros [-> ->].
Qed.

Lemma filter_nil_iff {A} (f : A -> bool) l : List.filter f l = [] <-> Forall (fun a => f a = false) l.
Proof.
  induction l as [|a l IH]; cbn; [by split|]. rewrite Forall_cons, <-IH. destruct (f a); naive_solver.
Qed.

(* ------------------------------------------------------------------ *)
(** ** Results *)

(** The value of a Go call that returns [(A, error)] or [error]: every call
    site of the program looks at the value only when the error is nil. *)
Inductive res (E A : Type) : Type :=
| Ok (a : A)
| Err (e : E).
Arguments Ok {E A} a.
Arguments Err {E A} e.

Definition res_bind {E A A'} (r : res E A) (k : A -> res E A') : res E A' :=
  match r with
  | Ok a => k a
  | Err e => Err e
  end.

Definition map_err {E E' A} (f : E -> E') (r : res E A) : res E' A :=
  match r with
  | Ok a => Ok a
  | Err e => Err (f e)
  end.

Declare Scope go_scope.
Delimit Scope go_scope with go.
Open Scope go_scope.

(** [let? x := e in k]: [x, err := e; if err != nil { return err }; k]. *)
Notation "'let?' x := e 'in' k" := (res_bind e (fun x => k))
  (at level 10, x pattern, e at level 200, k at level 200) : go_scope.

(** ** Stateful code: explicit passing of the world the code runs in. *)
Definition state_bind {W A A'} (m : W -> W * A) (k : A -> W -> W * A') : W -> W * A' :=
  fun w => let (w', a) := m w in k a w'.

Definition state_ret {W A} (a : A) : W -> W * A := fun w => (w, a).

Notation "'do' x <- m ';' k" := (state_bind m (fun x => k))
  (at level 10, x pattern, m at level 100, k at level 200) : go_scope.

(* ------------------------------------------------------------------ *)
(** ** Automation *)

Create HintDb go.

(** Evaluates both sides of an equation with the virtual machine, leaving the
    types alone. *)
Ltac vm_refl := match goal with |- _ = ?b => vm_cast_no_check (eq_refl b) end.

Ltac split_if :=
  match goal with
  | |- context [if ?c then _ else _] => destruct c eqn:?
  | H : context [if ?c then _ else _] |- _ => destruct c eqn:?
  end.

(** Case analysis on the scrutinee of a [match] or [if] of the goal or of a
    hypothesis, keeping the equation. *)
Ltac split_match :=
  match goal with
  | H : context [match ?c with _ => _ end] |- _ => destruct c eqn:?; simplify_eq/=
  | |- context [match ?c with _ => _ end] => destruct c eqn:?; simplify_eq/=
  end.

Ltac crush := repeat (split_match || simplify_eq/=); eauto with go.
