(* ===== verification/Text.v ===== *)
(** * Text: the parts of Go's strings, strconv, unicode/utf8 packages the code uses *)

From Stdlib Require Import Numbers.DecimalFacts Numbers.DecimalPos Numbers.DecimalN Numbers.DecimalZ.
From S2P Require Import Prelude.

(* ------------------------------------------------------------------ *)
(** ** Byte sequences *)

Definition has_prefix (s prefix : bytes) : bool := bool_decide (take (length prefix) s = prefix).

Definition in_range (x lo hi : Z) : bool := (lo <=? x) && (x <=? hi).

Definition is_digit (b : byte) : bool := in_range (b2z b) 48 57.

(** [strings.Join] *)
Fixpoint join (sep : bytes) (parts : list bytes) : bytes :=
  match parts with
  | [] => []
  | [p] => p
  | p :: ps => p ++ sep ++ join sep ps
  end.

Lemma join_cons sep p ps : ps <> [] -> join sep (p :: ps) = p ++ sep ++ join sep ps.
Proof. by destruct ps. Qed.

(* ------------------------------------------------------------------ *)
(** ** Decimal integers: [strconv.AppendInt(nil, z, 10)] and [strconv.ParseInt] *)

Definition min_int64 : Z := - 2 ^ 63.
Definition max_int64 : Z := 2 ^ 63 - 1.
Definition is_int64 (z : Z) : bool := in_range z min_int64 max_int64.

(** The value an [int64] holds after an operation whose exact result is [z]. *)
Definition wrap64 (z : Z) : Z := (z + 2 ^ 63) mod 2 ^ 64 - 2 ^ 63.

Fixpoint uint_bytes (u : Decimal.uint) : bytes :=
  match u with
  | Decimal.Nil => []
  | Decimal.D0 u => "0"%byte :: uint_bytes u
  | Decimal.D1 u => "1"%byte :: uint_bytes u
  | Decimal.D2 u => "2"%byte :: uint_bytes u
  | Decimal.D3 u => "3"%byte :: uint_bytes u
  | Decimal.D4 u => "4"%byte :: uint_bytes u
  | Decimal.D5 u => "5"%byte :: uint_bytes u
  | Decimal.D6 u => "6"%byte :: uint_bytes u
  | Decimal.D7 u => "7"%byte :: uint_bytes u
  | Decimal.D8 u => "8"%byte :: uint_bytes u
  | Decimal.D9 u => "9"%byte :: uint_bytes u
  end.

Definition format_int (z : Z) : bytes :=
  match Z.to_int z with
  | Decimal.Pos u => uint_bytes u
  | Decimal.Neg u => "-"%byte :: uint_bytes u
  end.

(** The value of a run of digits, most significant first. *)
Fixpoint digits_value (acc : Z) (s : bytes) : option Z :=
  match s with
  | [] => Some acc
  | c :: s => if is_digit c then digits_value (10 * acc + (b2z c - 48)) s else None
  end.

(** [strconv.ParseInt(s, 10, 64)] for a literal without a leading plus sign:
    at least one digit, an optional minus sign, and a value an int64 holds. *)
Definition parse_int (s : bytes) : option Z :=
  let check z := if is_int64 z then Some z else None in
  match s with
  | [] => None
  | c :: r =>
      if byte_eq_dec c "-"%byte
      then match r with [] => None | _ => z ← digits_value 0 r; check (- z) end
      else z ← digits_value 0 s; check z
  end.

(* ------------------------------------------------------------------ *)
(** ** UTF-8 *)

(** One step of a Go range loop over a string: a code point, or a byte that
    starts no valid encoding (the loop then sees U+FFFD with width one). *)
Inductive rune : Type :=
| Good (r : Z)
| Bad (b : byte).

Definition valid_rune (r : Z) : bool := in_range r 0 0xD7FF || in_range r 0xE000 0x10FFFF.

Definition cont (b : byte) : bool := in_range (b2z b) 0x80 0xBF.

(** [utf8.DecodeRune] of the non-empty string [c0 :: s]: the rune and its width. *)
Definition decode_rune (c0 : byte) (s : bytes) : rune * nat :=
  let x0 := b2z c0 in
  if x0 <? 0x80 then (Good x0, 1%nat)
  else if in_range x0 0xC2 0xDF then
    match s with
    | c1 :: _ =>
        if cont c1 then (Good ((x0 - 0xC0) * 64 + (b2z c1 - 0x80)), 2%nat) else (Bad c0, 1%nat)
    | _ => (Bad c0, 1%nat)
    end
  else if in_range x0 0xE0 0xEF then
    match s with
    | c1 :: c2 :: _ =>
        let lo := if x0 =? 0xE0 then 0xA0 else 0x80 in
        let hi := if x0 =? 0xED then 0x9F else 0xBF in
        if in_range (b2z c1) lo hi && cont c2
        then (Good ((x0 - 0xE0) * 4096 + (b2z c1 - 0x80) * 64 + (b2z c2 - 0x80)), 3%nat)
        else (Bad c0, 1%nat)
    | _ => (Bad c0, 1%nat)
    end
  else if in_range x0 0xF0 0xF4 then
    match s with
    | c1 :: c2 :: c3 :: _ =>
        let lo := if x0 =? 0xF0 then 0x90 else 0x80 in
        let hi := if x0 =? 0xF4 then 0x8F else 0xBF in
        if in_range (b2z c1) lo hi && cont c2 && cont c3
        then (Good ((x0 - 0xF0) * 262144 + (b2z c1 - 0x80) * 4096
                    + (b2z c2 - 0x80) * 64 + (b2z c3 - 0x80)), 4%nat)
        else (Bad c0, 1%nat)
    | _ => (Bad c0, 1%nat)
    end
  else (Bad c0, 1%nat).

(** [utf8.AppendRune] of a valid rune. *)
Definition encode_rune (r : Z) : bytes :=
  if r <? 0x80 then [z2b r]
  else if r <? 0x800 then [z2b (0xC0 + r / 64); z2b (0x80 + r mod 64)]
  else if r <? 0x10000 then
    [z2b (0xE0 + r / 4096); z2b (0x80 + r / 64 mod 64); z2b (0x80 + r mod 64)]
  else
    [z2b (0xF0 + r / 262144); z2b (0x80 + r / 4096 mod 64);
     z2b (0x80 + r / 64 mod 64); z2b (0x80 + r mod 64)].

(** The runes of a string; [skip] bytes belong to the rune already emitted. *)
Fixpoint runes_skip (skip : nat) (s : bytes) : list rune :=
  match s with
  | [] => []
  | c :: s =>
      match skip with
      | S k => runes_skip k s
      | O => let (r, width) := decode_rune c s in r :: runes_skip (width - 1) s
      end
  end.

Definition runes (s : bytes) : list rune := runes_skip 0 s.

Definition is_good (r : rune) : bool := match r with Good _ => true | Bad _ => false end.

(** [utf8.ValidString] *)
Definition valid_utf8 (s : bytes) : bool := forallb is_good (runes s).

Lemma runes_skip_drop k s : runes_skip k s = runes (drop k s).
Proof.
  revert k. induction s as [|c s IH]; intros k; [by destruct k|].
  destruct k; [done|]. cbn. apply IH.
Qed.

(** Turns the boolean comparisons of the context into arithmetic. *)
Ltac bdec :=
  unfold valid_rune, cont, in_range, is_digit in *;
  repeat match goal with
  | H : (_ && _) = true |- _ => apply andb_prop in H as [? ?]
  | H : (_ && _) = false |- _ => apply andb_false_iff in H
  | H : (_ || _) = true |- _ => apply orb_prop in H
  | H : (_ <=? _) = true |- _ => apply Z.leb_le in H
  | H : (_ <? _) = true |- _ => apply Z.ltb_lt in H
  | H : (_ <=? _) = false |- _ => apply Z.leb_gt in H
  | H : (_ <? _) = false |- _ => apply Z.ltb_ge in H
  | H : (_ =? _) = true |- _ => apply Z.eqb_eq in H
  | H : (_ =? _) = false |- _ => apply Z.eqb_neq in H
  | H : _ \/ _ |- _ => destruct H
  end.

Ltac zlia := Z.to_euclidean_division_equations; lia.

(** Records that every byte of the context is between 0 and 255. *)
Ltac byte_ranges :=
  repeat match goal with x : byte |- _ =>
    lazymatch goal with H : 0 <= b2z x < 256 |- _ => fail | _ => pose proof (b2z_range x) end
  end.

(** Follows the feasible branch of each [if] on an integer comparison. *)
Ltac if_lia :=
  match goal with
  | |- context [if ?c then _ else _] =>
      lazymatch c with
      | context [if _ then _ else _] => fail
      | _ => let E := fresh in destruct c eqn:E; bdec; try (exfalso; zlia)
      end
  end.

Lemma valid_rune_iff r : valid_rune r = true <-> 0 <= r <= 0xD7FF \/ 0xE000 <= r <= 0x10FFFF.
Proof.
  unfold valid_rune, in_range.
  rewrite orb_true_iff, !andb_true_iff, !Z.leb_le. done.
Qed.

Lemma decode_rune_encode r rest :
  valid_rune r = true ->
  exists c t, encode_rune r = c :: t /\ decode_rune c (t ++ rest) = (Good r, S (length t)).
Proof.
  intros V. unfold encode_rune.
  repeat if_lia; (eexists _, _; split; [reflexivity|]); cbn [app length];
    unfold decode_rune, cont; rewrite !b2z_z2b_small by (bdec; zlia);
    repeat if_lia; repeat f_equal; bdec; zlia.
Qed.

Lemma runes_encode r s : valid_rune r = true -> runes (encode_rune r ++ s) = Good r :: runes s.
Proof.
  intros V. destruct (decode_rune_encode r s V) as (c & t & E & D).
  rewrite E. unfold runes. cbn. rewrite D, runes_skip_drop.
  replace (S (length t) - 1)%nat with (length t) by lia. by rewrite drop_app_length.
Qed.

(** A decoded rune is valid, and its encoding is the bytes it was read from. *)
Lemma decode_rune_good c s r n :
  decode_rune c s = (Good r, n) ->
  valid_rune r = true /\ c :: s = encode_rune r ++ drop (n - 1) s.
Proof.
  unfold decode_rune, cont. pose proof (b2z_range c) as Hc. intros D.
  assert (forall z, b2z c = z mod 256 -> z2b z = c) as Hz
    by (intros z E; apply b2z_inj; by rewrite b2z_z2b).
  repeat match type of D with
  | context [if ?b then _ else _] => lazymatch b with context [if _ then _ else _] => fail | _ => destruct b eqn:?; try discriminate D end
  | context [match ?l with [] => _ | _ :: _ => _ end] => destruct l as [|? ?]; try discriminate D
  end; injection D as <- <-.
  all: byte_ranges.
  all: bdec; try (exfalso; lia).
  all: split; [apply valid_rune_iff; lia|].
  all: cbn [drop Nat.sub]; unfold encode_rune; repeat if_lia; cbn [app].
  all: repeat f_equal; symmetry; apply b2z_inj; rewrite b2z_z2b; zlia.
Qed.

(** The strings [utf8.ValidString] accepts are the sequences of encoded runes. *)
Inductive Utf8 : bytes -> Prop :=
| Utf8_nil : Utf8 []
| Utf8_rune r s : valid_rune r = true -> Utf8 s -> Utf8 (encode_rune r ++ s).

Lemma valid_utf8_encode r s : valid_rune r = true -> valid_utf8 (encode_rune r ++ s) = valid_utf8 s.
Proof. intros V. unfold valid_utf8. by rewrite runes_encode. Qed.

Lemma valid_utf8_iff s : valid_utf8 s = true <-> Utf8 s.
Proof.
  split.
  - remember (length s) as n eqn:En. revert s En.
    induction (lt_wf n) as [n _ IH]; intros [|c s] -> V; [constructor|].
    unfold valid_utf8, runes in V. cbn in V.
    destruct (decode_rune c s) as [[r|b] w] eqn:D; [|done].
    apply decode_rune_good in D as [Hr E]. rewrite E. constructor; [done|].
    rewrite runes_skip_drop in V. eapply IH; [|done|exact V].
    rewrite length_drop. cbn. lia.
  - induction 1 as [|r s V _ IH]; [done|]. by rewrite valid_utf8_encode.
Qed.

Lemma Utf8_ascii c s : b2z c < 128 -> Utf8 s -> Utf8 (c :: s).
Proof.
  intros Hc Hs. pose proof (b2z_range c).
  replace (c :: s) with (encode_rune (b2z c) ++ s).
  - constructor; [apply valid_rune_iff; lia|done].
  - unfold encode_rune. if_lia. by rewrite z2b_b2z.
Qed.

Lemma Utf8_app s t : Utf8 s -> Utf8 t -> Utf8 (s ++ t).
Proof. induction 1; intros; cbn; rewrite <-?(assoc_L (++)); try constructor; auto. Qed.

Lemma Utf8_ascii_string s : Forall (fun c => b2z c < 128) s -> Utf8 s.
Proof. induction 1; [constructor|by apply Utf8_ascii]. Qed.

(** The Utf8 predicate on closed strings, by evaluation. *)
Ltac utf8 := apply Utf8_ascii_string; repeat constructor; vm_compute; reflexivity.

(* ------------------------------------------------------------------ *)
(** ** Lemmas on decimal integers *)

Lemma digits_value_acc u p :
  digits_value (Zpos p) (uint_bytes u) = Some (Zpos (Pos.of_uint_acc u p)).
Proof. revert p. induction u; intros p; [done|..]; cbn -[Z.mul]; rewrite <-IHu; f_equal; lia. Qed.

Lemma digits_value_uint u : digits_value 0 (uint_bytes u) = Some (Z.of_N (Pos.of_uint u)).
Proof. induction u; [done|done|..]; cbn; apply digits_value_acc. Qed.

Lemma uint_bytes_digits u : Forall (fun c => is_digit c = true) (uint_bytes u).
Proof. induction u; cbn; constructor; done. Qed.

Lemma uint_bytes_nonnil n : exists c s, uint_bytes (N.to_uint n) = c :: s /\ is_digit c = true.
Proof.
  pose proof (uint_bytes_digits (N.to_uint n)) as F.
  destruct (uint_bytes (N.to_uint n)) as [|c s] eqn:E.
  - destruct n as [|p]; [done|]. exfalso. cbn in E.
    pose proof (DecimalPos.Unsigned.to_uint_nonnil p). by destruct (Pos.to_uint p).
  - inversion F. eauto.
Qed.

(** The digits of a number: a lone zero, or no leading zero. *)
Definition canonical_digits (s : bytes) : Prop :=
  s = B "0" \/ exists c t, s = c :: t /\ in_range (b2z c) 49 57 = true /\ Forall (fun c => is_digit c = true) t.

Lemma uint_bytes_canonical n : canonical_digits (uint_bytes (N.to_uint n)).
Proof.
  assert (Decimal.unorm (N.to_uint n) = N.to_uint n) as <-.
  { rewrite <-DecimalN.Unsigned.to_of. by rewrite DecimalN.Unsigned.of_to. }
  generalize (N.to_uint n) as u. clear n. intros u. unfold Decimal.unorm.
  induction u as [|u IH|u|u|u|u|u|u|u|u|u]; cbn -[B]; [by left|exact IH|..].
  all: right; eexists _, _; split_and!; [done..|apply uint_bytes_digits].
Qed.

(** A formatted integer is an optional minus sign and canonical digits. *)
Lemma format_int_shape z :
  exists n, z = Z.of_N n /\ format_int z = uint_bytes (N.to_uint n)
    \/ z = - Z.of_N n /\ format_int z = "-"%byte :: uint_bytes (N.to_uint n).
Proof.
  unfold format_int. destruct z as [|p|p].
  - exists 0%N. by left.
  - exists (N.pos p). by left.
  - exists (N.pos p). by right.
Qed.

Lemma digits_value_N n : digits_value 0 (uint_bytes (N.to_uint n)) = Some (Z.of_N n).
Proof. rewrite digits_value_uint. f_equal. f_equal. apply (DecimalN.Unsigned.of_to n). Qed.

(** [strconv] round trip. *)
Lemma parse_format_int z : is_int64 z = true -> parse_int (format_int z) = Some z.
Proof.
  intros Hz. destruct (format_int_shape z) as (n & [(E & ->)|(E & ->)]);
    destruct (uint_bytes_nonnil n) as (c & s & Es & Hc).
  - unfold parse_int. rewrite Es. destruct (byte_eq_dec c "-"%byte) as [->|]; [done|].
    rewrite <-Es, digits_value_N. cbn. by rewrite <-E, Hz.
  - unfold parse_int. destruct (byte_eq_dec "-"%byte "-"%byte); [|done].
    rewrite Es. cbn -[digits_value]. rewrite <-Es, digits_value_N. cbn. by rewrite <-E, Hz.
Qed.

Lemma format_int_inj z z' : format_int z = format_int z' -> z = z'.
Proof.
  assert (forall n s, uint_bytes (N.to_uint n) <> "-"%byte :: s) as Hne.
  { intros n s E. destruct (uint_bytes_nonnil n) as (c & s' & E' & Hc). rewrite E in E'. by simplify_eq. }
  destruct (format_int_shape z) as (n & [[-> ->]|[-> ->]]), (format_int_shape z') as (n' & [[-> ->]|[-> ->]]);
    intros E; simplify_eq/=; try (by destruct (Hne _ _ E)); try (by destruct (Hne _ _ (eq_sym E)));
    apply (f_equal (digits_value 0)) in E; rewrite !digits_value_N in E; simplify_eq; lia.
Qed.

(** The bytes of a formatted integer are digits and minus signs. *)
Lemma format_int_bytes z : Forall (fun c => is_digit c = true \/ c = "-"%byte) (format_int z).
Proof.
  destruct (format_int_shape z) as (n & [(_ & ->)|(_ & ->)]); [|constructor; [by right|]];
    (eapply Forall_impl; [apply uint_bytes_digits|by left]).
Qed.

(* ------------------------------------------------------------------ *)
(** ** Quotation: [strconv.Quote], the [%q] verb of fmt *)

(** The code point tables of package unicode beyond ASCII are data of the Go
    distribution, and a parameter of the model. *)
Class Unicode := {
  print_table : Z -> bool;
  upper_table : Z -> bool;
  lower_table : Z -> bool;
  digit_table : Z -> bool;
  letter_table : Z -> bool
}.

Definition hex_digit (n : Z) : byte := z2b (if n <? 10 then 48 + n else 87 + n).

(** [n] lower-case hexadecimal digits of [z]. *)
Fixpoint hex (n : nat) (z : Z) : bytes :=
  match n with
  | O => []
  | S n => hex n (z / 16) ++ [hex_digit (z mod 16)]
  end.

Section quote.
Context `{Unicode}.

(** [strconv.IsPrint] *)
Definition is_print (r : Z) : bool := if r <? 0x80 then in_range r 0x20 0x7E else print_table r.

Definition quote_rune (r : rune) : bytes :=
  match r with
  | Bad b => B "\x" ++ hex 2 (b2z b)
  | Good r =>
      if (r =? 34) || (r =? 92) then B "\" ++ [z2b r]
      else if is_print r then encode_rune r
      else if r =? 7 then B "\a" else if r =? 8 then B "\b"
      else if r =? 12 then B "\f" else if r =? 10 then B "\n"
      else if r =? 13 then B "\r" else if r =? 9 then B "\t"
      else if r =? 11 then B "\v"
      else if (r <? 32) || (r =? 127) then B "\x" ++ hex 2 r
      else if r <? 0x10000 then B "\u" ++ hex 4 r
      else B "\U" ++ hex 8 r
  end.

Definition quote (s : bytes) : bytes :=
  ["034"%byte] ++ concat (quote_rune <$> runes s) ++ ["034"%byte].
End quote.
