(* ===== verification/Crypto.v ===== *)
(** * Crypto: encoding/base64, crypto/sha256 and crypto/hmac

    Executable definitions of the three standard-library algorithms the
    announcement protocol is built on, with their published test vectors. *)

From S2P Require Import Prelude Text.

(* ------------------------------------------------------------------ *)
(** ** base64.StdEncoding *)

Definition base64_digit (n : Z) : byte :=
  z2b (if n <? 26 then 65 + n else if n <? 52 then 71 + n else if n <? 62 then n - 4
       else if n =? 62 then 43 else 47).

Definition base64_value (c : byte) : option Z :=
  let x := b2z c in
  if in_range x 65 90 then Some (x - 65)
  else if in_range x 97 122 then Some (x - 71)
  else if in_range x 48 57 then Some (x + 4)
  else if x =? 43 then Some 62
  else if x =? 47 then Some 63
  else None.

Fixpoint base64_encode (s : bytes) : bytes :=
  match s with
  | [] => []
  | [a] => let x := b2z a in
      [base64_digit (x / 4); base64_digit (x mod 4 * 16); "="%byte; "="%byte]
  | [a; b] => let x := b2z a in let y := b2z b in
      [base64_digit (x / 4); base64_digit (x mod 4 * 16 + y / 16);
       base64_digit (y mod 16 * 4); "="%byte]
  | a :: b :: c :: s => let x := b2z a in let y := b2z b in let z := b2z c in
      base64_digit (x / 4) :: base64_digit (x mod 4 * 16 + y / 16)
      :: base64_digit (y mod 16 * 4 + z / 64) :: base64_digit (z mod 64) :: base64_encode s
  end.

(** The decoder on a string without line breaks: quanta of four digits, the
    last one padded. The spare bits of a padded quantum are not checked. *)
Fixpoint base64_quanta (s : bytes) : option bytes :=
  match s with
  | [] => Some []
  | a :: b :: c :: d :: s =>
      x ← base64_value a; y ← base64_value b;
      let first := z2b (x * 4 + y / 16) in
      match base64_value c, base64_value d with
      | Some z, Some w =>
          t ← base64_quanta s; Some (first :: z2b (y * 16 + z / 4) :: z2b (z * 64 + w) :: t)
      | Some z, None =>
          if bool_decide (d = "="%byte /\ s = []) then Some [first; z2b (y * 16 + z / 4)] else None
      | None, _ =>
          if bool_decide (c = "="%byte /\ d = "="%byte /\ s = []) then Some [first] else None
      end
  | _ => None
  end.

(** Carriage returns and line feeds are skipped. *)
Definition base64_decode (s : bytes) : option bytes :=
  base64_quanta (filter (fun c => c <> "010"%byte /\ c <> "013"%byte) s).

Lemma base64_value_digit n : 0 <= n < 64 -> base64_value (base64_digit n) = Some n.
Proof.
  intros Hn. unfold base64_value, base64_digit.
  repeat if_lia; f_equal; rewrite b2z_z2b_small in * by lia; lia.
Qed.

Lemma base64_digit_ascii n :
  0 <= n < 64 ->
  base64_digit n <> "010"%byte /\ base64_digit n <> "013"%byte /\ 43 <= b2z (base64_digit n) < 128.
Proof.
  intros Hn. assert (43 <= b2z (base64_digit n) < 128) as Hr.
  { unfold base64_digit. repeat if_lia; rewrite b2z_z2b_small by lia; lia. }
  split_and!; try lia; intros E; rewrite E in Hr; unfold b2z in Hr; cbn in Hr; lia.
Qed.

(** Induction three bytes at a time. *)
Lemma triple_ind (P : bytes -> Prop) :
  P [] -> (forall a, P [a]) -> (forall a b, P [a; b]) ->
  (forall a b c s, P s -> P (a :: b :: c :: s)) -> forall s, P s.
Proof.
  intros H0 H1 H2 H3. fix IH 1. intros [|a [|b [|c s]]]; [auto..|]. apply H3, IH.
Qed.

Lemma base64_encode_chars s :
  Forall (fun c => c <> "010"%byte /\ c <> "013"%byte /\ 43 <= b2z c < 128) (base64_encode s).
Proof.
  induction s as [|a|a b|a b c s IH] using triple_ind; cbn -[Z.mul Z.div Z.modulo];
    byte_ranges;
    repeat constructor; try done; try (apply base64_digit_ascii; zlia); try (unfold b2z; cbn; lia).
  all: done.
Qed.

Lemma base64_filter_encode s :
  filter (fun c => c <> "010"%byte /\ c <> "013"%byte) (base64_encode s) = base64_encode s.
Proof.
  pose proof (base64_encode_chars s) as F. induction F as [|c t (H1 & H2 & _) _ IH]; [done|].
  rewrite filter_cons_True by done. by rewrite IH.
Qed.

Theorem base64_round_trip s : base64_decode (base64_encode s) = Some s.
Proof.
  unfold base64_decode. rewrite base64_filter_encode.
  induction s as [|a|a b|a b c s IH] using triple_ind; [done|..];
    byte_ranges;
    cbn -[Z.mul Z.div Z.modulo base64_value base64_digit];
    rewrite ?base64_value_digit by zlia; cbn -[Z.mul Z.div Z.modulo base64_value base64_digit].
  - do 2 f_equal. apply b2z_inj. rewrite b2z_z2b. zlia.
  - do 2 f_equal; [|f_equal]; apply b2z_inj; rewrite b2z_z2b; zlia.
  - rewrite IH. cbn. do 2 f_equal; [|f_equal; [|f_equal]]; apply b2z_inj; rewrite b2z_z2b; zlia.
Qed.

(* ------------------------------------------------------------------ *)
(** ** sha256 *)

Module Sha256.

Definition add32 (x y : Z) : Z := (x + y) mod 2 ^ 32.
Definition rotr (n x : Z) : Z := Z.lor (Z.shiftr x n) (Z.shiftl x (32 - n) mod 2 ^ 32).
Definition not32 (x : Z) : Z := 2 ^ 32 - 1 - x.

Definition ch (x y z : Z) : Z := Z.lxor (Z.land x y) (Z.land (not32 x) z).
Definition maj (x y z : Z) : Z := Z.lxor (Z.lxor (Z.land x y) (Z.land x z)) (Z.land y z).
Definition big_sigma0 x := Z.lxor (Z.lxor (rotr 2 x) (rotr 13 x)) (rotr 22 x).
Definition big_sigma1 x := Z.lxor (Z.lxor (rotr 6 x) (rotr 11 x)) (rotr 25 x).
Definition small_sigma0 x := Z.lxor (Z.lxor (rotr 7 x) (rotr 18 x)) (Z.shiftr x 3).
Definition small_sigma1 x := Z.lxor (Z.lxor (rotr 17 x) (rotr 19 x)) (Z.shiftr x 10).

(** The constants are the first 32 bits of the fractional parts of the cube roots
    of the first 64 primes, and of the square roots of the first 8. *)
Definition primes : list Z :=
  filter (fun n => Forall (fun d => n mod d <> 0) (filter (fun d => d * d <= n) (Z.of_nat <$> seq 2 18)))
    (Z.of_nat <$> seq 2 310).

(** The integer cube root of [n], bit by bit from bit [k - 1]. *)
Fixpoint cube_root (k : nat) (root n : Z) : Z :=
  match k with
  | O => root
  | S k =>
      let next := root + 2 ^ Z.of_nat k in
      cube_root k (if next * next * next <=? n then next else root) n
  end.

Definition round_constants : list Z :=
  Eval vm_compute in (fun p => cube_root 36 0 (p * 2 ^ 96) mod 2 ^ 32) <$> primes.

Definition initial_state : list Z :=
  Eval vm_compute in (fun p => Z.sqrt (p * 2 ^ 64) mod 2 ^ 32) <$> take 8 primes.

(** The message padded to a multiple of 64 bytes. *)
Definition pad (s : bytes) : bytes :=
  let n := length s in
  s ++ "128"%byte :: replicate ((119 - n mod 64) mod 64) "000"%byte
    ++ ((fun i => z2b (Z.shiftr (8 * Z.of_nat n) (56 - 8 * i))) <$> [0; 1; 2; 3; 4; 5; 6; 7]).

Fixpoint words (s : bytes) : list Z :=
  match s with
  | a :: b :: c :: d :: s =>
      (((b2z a * 256 + b2z b) * 256 + b2z c) * 256 + b2z d) :: words s
  | _ => []
  end.

(** The message schedule, from the last sixteen words (newest first). *)
Fixpoint schedule (n : nat) (recent : list Z) : list Z :=
  match n with
  | O => []
  | S n =>
      match recent with
      | [w15; w14; w13; w12; w11; w10; w9; w8; w7; w6; w5; w4; w3; w2; w1; w0] =>
          let w := add32 (add32 (small_sigma1 w14) w9) (add32 (small_sigma0 w1) w0) in
          w :: schedule n [w; w15; w14; w13; w12; w11; w10; w9; w8; w7; w6; w5; w4; w3; w2; w1]
      | _ => []
      end
  end.

Definition round (state : list Z) (kw : Z * Z) : list Z :=
  match state with
  | [a; b; c; d; e; f; g; h] =>
      let t1 := add32 (add32 (add32 h (big_sigma1 e)) (ch e f g)) (add32 kw.1 kw.2) in
      let t2 := add32 (big_sigma0 a) (maj a b c) in
      [add32 t1 t2; a; b; c; add32 d t1; e; f; g]
  | _ => state
  end.

Definition compress (state : list Z) (block : list Z) : list Z :=
  let w := block ++ schedule 48 (reverse block) in
  zip_with add32 state (foldl round state (zip round_constants w)).

Fixpoint blocks (n : nat) (state : list Z) (w : list Z) : list Z :=
  match n with
  | O => state
  | S n => blocks n (compress state (take 16 w)) (drop 16 w)
  end.

Definition word_bytes (w : Z) : bytes :=
  (fun i => z2b (Z.shiftr w (24 - 8 * i))) <$> [0; 1; 2; 3].

Definition sum (s : bytes) : bytes :=
  let w := words (pad s) in concat (word_bytes <$> blocks (length w / 16) initial_state w).

End Sha256.

(* ------------------------------------------------------------------ *)
(** ** hmac with sha256: blocks of 64 bytes, sums of 32 *)

Definition xor_bytes (mask : Z) (s : bytes) : bytes := (fun b => z2b (Z.lxor (b2z b) mask)) <$> s.

Definition hmac_sha256 (key message : bytes) : bytes :=
  let key := if (64 <? length key)%nat then Sha256.sum key else key in
  let key := key ++ replicate (64 - length key) "000"%byte in
  Sha256.sum (xor_bytes 0x5c key ++ Sha256.sum (xor_bytes 0x36 key ++ message)).

Definition hex_bytes (s : bytes) : bytes := concat ((fun b => hex 2 (b2z b)) <$> s).

Example sha256_abc :
  hex_bytes (Sha256.sum (B "abc")) = B "ba7816bf8f01cfea414140de5dae2223b00361a396177a9cb410ff61f20015ad".
Proof. vm_compute. reflexivity. Qed.

Example sha256_two_blocks :
  hex_bytes (Sha256.sum (B "abcdbcdecdefdefgefghfghighijhijkijkljklmklmnlmnomnopnopq"))
  = B "248d6a61d20638b8e5c026930c3e6039a33ce45964ff2167f6ecedd419db06c1".
Proof. vm_compute. reflexivity. Qed.

(** RFC 4231, test case 2. *)
Example hmac_rfc4231 :
  hex_bytes (hmac_sha256 (B "Jefe") (B "what do ya want for nothing?"))
  = B "5bdcc146bf60754e6a042426089575c75a003f089d2739839dec58b964ec3843".
Proof. vm_compute. reflexivity. Qed.
