(* ===== verification/Json.v ===== *)
(** * Json: the encoding/json package

    JSON values, the compact text json.Marshal writes, and the scanner of
    json.Unmarshal and json.Decoder. The text is parsed with a fuel that
    [parse_prefix] sets to twice the length of the input plus two:
    [parse_fuel_enough] shows it is enough for every text. *)

From S2P Require Import Prelude Text Crypto.

(** A JSON value. A number is its literal, a string the Go string it decodes
    to, and an object keeps its members in order, duplicates included. *)
Inductive json : Type :=
| JNull
| JBool (b : bool)
| JNum (literal : bytes)
| JStr (s : bytes)
| JArr (elems : list json)
| JObj (members : list (bytes * json)).

Section json_induction.
Context (P : json -> Prop).
Hypotheses (Hnull : P JNull) (Hbool : forall b, P (JBool b)) (Hnum : forall l, P (JNum l))
  (Hstr : forall s, P (JStr s))
  (Harr : forall l, Forall P l -> P (JArr l))
  (Hobj : forall l, Forall (fun kv => P kv.2) l -> P (JObj l)).

Fixpoint json_induction (j : json) : P j :=
  match j with
  | JNull => Hnull
  | JBool b => Hbool b
  | JNum l => Hnum l
  | JStr s => Hstr s
  | JArr l => Harr l ((fix go l : Forall P l :=
      match l with [] => Forall_nil_2 _ | x :: l => Forall_cons_2 _ _ _ (json_induction x) (go l) end) l)
  | JObj l => Hobj l ((fix go l : Forall (fun kv : bytes * json => P kv.2) l :=
      match l with [] => Forall_nil_2 _ | x :: l => Forall_cons_2 _ _ _ (json_induction x.2) (go l) end) l)
  end.
End json_induction.

(* ------------------------------------------------------------------ *)
(** ** Encoding: compact text with HTML escaping *)

Definition escape_rune (r : rune) : bytes :=
  match r with
  | Bad _ => B "\ufffd"
  | Good r =>
      if (r =? 34) || (r =? 92) then B "\" ++ [z2b r]
      else if r =? 8 then B "\b" else if r =? 12 then B "\f"
      else if r =? 10 then B "\n" else if r =? 13 then B "\r" else if r =? 9 then B "\t"
      else if (r <? 32) || (r =? 60) || (r =? 62) || (r =? 38) then B "\u00" ++ hex 2 r
      else if (r =? 0x2028) || (r =? 0x2029) then B "\u202" ++ hex 1 (r mod 16)
      else encode_rune r
  end.

Definition print_string (s : bytes) : bytes :=
  "034"%byte :: concat (escape_rune <$> runes s) ++ ["034"%byte].

Fixpoint print (j : json) : bytes :=
  match j with
  | JNull => B "null"
  | JBool true => B "true"
  | JBool false => B "false"
  | JNum l => l
  | JStr s => print_string s
  | JArr l => B "[" ++ join (B ",") (map print l) ++ B "]"
  | JObj l => B "{" ++ join (B ",") (map (fun kv => print_string kv.1 ++ B ":" ++ print kv.2) l) ++ B "}"
  end.

(* ------------------------------------------------------------------ *)
(** ** Scanning *)

Definition is_ws (c : byte) : bool :=
  bool_decide (c = " "%byte \/ c = "009"%byte \/ c = "010"%byte \/ c = "013"%byte).

Fixpoint skip_ws (s : bytes) : bytes :=
  match s with
  | c :: r => if is_ws c then skip_ws r else s
  | [] => []
  end.

Definition hex_value (c : byte) : option Z :=
  let x := b2z c in
  if in_range x 48 57 then Some (x - 48)
  else if in_range x 97 102 then Some (x - 87)
  else if in_range x 65 70 then Some (x - 55)
  else None.

Definition parse_hex4 (s : bytes) : option (Z * bytes) :=
  match s with
  | a :: b :: c :: d :: s =>
      a ← hex_value a; b ← hex_value b; c ← hex_value c; d ← hex_value d;
      Some (((a * 16 + b) * 16 + c) * 16 + d, s)
  | _ => None
  end.

(** The text after a backslash: what it stands for, and what follows. A
    surrogate that is not the first half of a pair stands for U+FFFD. *)
Definition unescape (s : bytes) : option (bytes * bytes) :=
  match s with
  | [] => None
  | c :: s =>
      if bool_decide (c = "034"%byte \/ c = "\"%byte \/ c = "/"%byte) then Some ([c], s)
      else if bool_decide (c = "b"%byte) then Some (["008"%byte], s)
      else if bool_decide (c = "f"%byte) then Some (["012"%byte], s)
      else if bool_decide (c = "n"%byte) then Some (["010"%byte], s)
      else if bool_decide (c = "r"%byte) then Some (["013"%byte], s)
      else if bool_decide (c = "t"%byte) then Some (["009"%byte], s)
      else if bool_decide (c = "u"%byte) then
        '(r, s) ← parse_hex4 s;
        if in_range r 0xD800 0xDFFF then
          let low :=
            if has_prefix s (B "\u") then
              '(r2, s2) ← parse_hex4 (drop 2 s);
              if in_range r 0xD800 0xDBFF && in_range r2 0xDC00 0xDFFF
              then Some ((r - 0xD800) * 1024 + (r2 - 0xDC00) + 0x10000, s2) else None
            else None in
          match low with
          | Some (r, s) => Some (encode_rune r, s)
          | None => Some (encode_rune 0xFFFD, s)
          end
        else Some (encode_rune r, s)
      else None
  end.

(** The rest of a string literal, after its opening quote. *)
Fixpoint parse_chars (n : nat) (s : bytes) : option (bytes * bytes) :=
  match n, s with
  | S n, c :: s =>
      if bool_decide (c = "034"%byte) then Some ([], s)
      else if bool_decide (c = "\"%byte) then
        '(out, s) ← unescape s; '(t, s) ← parse_chars n s; Some (out ++ t, s)
      else if b2z c <? 32 then None
      else
        let (r, width) := decode_rune c s in
        let out := match r with Good r => encode_rune r | Bad _ => encode_rune 0xFFFD end in
        '(t, s) ← parse_chars n (drop (width - 1) s); Some (out ++ t, s)
  | _, _ => None
  end.

Definition parse_string (s : bytes) : option (bytes * bytes) := parse_chars (length s) s.

Fixpoint span_digits (s : bytes) : bytes * bytes :=
  match s with
  | c :: r => if is_digit c then let (d, r) := span_digits r in (c :: d, r) else ([], s)
  | [] => ([], [])
  end.

Definition some_digits (s : bytes) : option (bytes * bytes) :=
  match span_digits s with
  | ([], _) => None
  | (d, r) => Some (d, r)
  end.

(** [-? (0 | [1-9][0-9]* ) (. [0-9]+)? ([eE] [+-]? [0-9]+)?], longest match. *)
Definition num_sign (s : bytes) : bytes * bytes :=
  match s with
  | c :: r => if bool_decide (c = "-"%byte) then ([c], r) else ([], s)
  | [] => ([], [])
  end.

Definition num_int (s : bytes) : option (bytes * bytes) :=
  match s with
  | c :: r =>
      if bool_decide (c = "0"%byte) then Some ([c], r)
      else if is_digit c then let (d, r) := span_digits r in Some (c :: d, r) else None
  | [] => None
  end.

Definition num_frac (s : bytes) : option (bytes * bytes) :=
  match s with
  | c :: r => if bool_decide (c = "."%byte) then '(d, r) ← some_digits r; Some (c :: d, r) else Some ([], s)
  | [] => Some ([], [])
  end.

Definition num_exp (s : bytes) : option (bytes * bytes) :=
  match s with
  | c :: r =>
      if bool_decide (c = "e"%byte \/ c = "E"%byte) then
        match r with
        | c' :: r' =>
            if bool_decide (c' = "+"%byte \/ c' = "-"%byte)
            then '(d, r) ← some_digits r'; Some (c :: c' :: d, r)
            else '(d, r) ← some_digits r; Some (c :: d, r)
        | [] => None
        end
      else Some ([], s)
  | [] => Some ([], [])
  end.

Definition parse_number (s : bytes) : option (bytes * bytes) :=
  let (sign, s) := num_sign s in
  '(int, s) ← num_int s; '(frac, s) ← num_frac s; '(exp, s) ← num_exp s;
  Some (sign ++ int ++ frac ++ exp, s).

(** Arrays and objects nest at most this deep. *)
Definition max_depth : N := 10000.

Definition literal (word : bytes) (j : json) (s : bytes) : option (json * bytes) :=
  if has_prefix s word then Some (j, drop (length word) s) else None.

Fixpoint parse_value (n : nat) (depth : N) (s : bytes) {struct n} : option (json * bytes) :=
  match n with
  | O => None
  | S n =>
      match skip_ws s with
      | [] => None
      | c :: r =>
          if bool_decide (c = "{"%byte) then
            if (max_depth <=? depth)%N then None
            else match skip_ws r with
            | [] => None
            | c' :: r' =>
                if bool_decide (c' = "}"%byte) then Some (JObj [], r')
                else '(l, r) ← parse_members n (depth + 1) (c' :: r'); Some (JObj l, r)
            end
          else if bool_decide (c = "["%byte) then
            if (max_depth <=? depth)%N then None
            else match skip_ws r with
            | [] => None
            | c' :: r' =>
                if bool_decide (c' = "]"%byte) then Some (JArr [], r')
                else '(l, r) ← parse_elems n (depth + 1) (c' :: r'); Some (JArr l, r)
            end
          else if bool_decide (c = "034"%byte) then '(t, r) ← parse_string r; Some (JStr t, r)
          else if bool_decide (c = "t"%byte) then literal (B "true") (JBool true) (c :: r)
          else if bool_decide (c = "f"%byte) then literal (B "false") (JBool false) (c :: r)
          else if bool_decide (c = "n"%byte) then literal (B "null") JNull (c :: r)
          else '(l, r) ← parse_number (c :: r); Some (JNum l, r)
      end
  end
with parse_elems (n : nat) (depth : N) (s : bytes) {struct n} : option (list json * bytes) :=
  match n with
  | O => None
  | S n =>
      '(j, r) ← parse_value n depth s;
      match skip_ws r with
      | c :: r =>
          if bool_decide (c = ","%byte) then '(l, r) ← parse_elems n depth r; Some (j :: l, r)
          else if bool_decide (c = "]"%byte) then Some ([j], r)
          else None
      | [] => None
      end
  end
with parse_members (n : nat) (depth : N) (s : bytes) {struct n} : option (list (bytes * json) * bytes) :=
  match n with
  | O => None
  | S n =>
      match skip_ws s with
      | c :: r =>
          if bool_decide (c = "034"%byte) then
            '(k, r) ← parse_string r;
            match skip_ws r with
            | c :: r =>
                if bool_decide (c = ":"%byte) then
                  '(j, r) ← parse_value n depth r;
                  match skip_ws r with
                  | c :: r =>
                      if bool_decide (c = ","%byte) then '(l, r) ← parse_members n depth r; Some ((k, j) :: l, r)
                      else if bool_decide (c = "}"%byte) then Some ([(k, j)], r)
                      else None
                  | [] => None
                  end
                else None
            | [] => None
            end
          else None
      | [] => None
      end
  end.

(** The first value of a text, and what follows it: [json.Decoder]. *)
Definition parse_prefix (s : bytes) : option (json * bytes) := parse_value (2 * length s + 2) 0 s.

(** A text that is one value: [json.Unmarshal]. *)
Definition parse (s : bytes) : option json :=
  '(j, r) ← parse_prefix s;
  match skip_ws r with [] => Some j | _ => None end.

(* ------------------------------------------------------------------ *)
(** ** The scanner reads back what the encoder writes *)

Lemma hex_value_digit n : 0 <= n < 16 -> hex_value (hex_digit n) = Some n.
Proof.
  intros Hn. unfold hex_value, hex_digit.
  repeat if_lia; f_equal; rewrite b2z_z2b_small in * by lia; lia.
Qed.

Lemma parse_hex4_low r s : 0 <= r < 256 -> parse_hex4 (B "00" ++ hex 2 r ++ s) = Some (r, s).
Proof.
  intros Hr. unfold B; cbn -[Z.mul Z.add]. rewrite !hex_value_digit by zlia. cbn -[Z.mul Z.add].
  do 2 f_equal. zlia.
Qed.

Lemma encode_rune_first r :
  valid_rune r = true ->
  exists c t, encode_rune r = c :: t /\ (0 <= r < 128 /\ c = z2b r \/ 128 <= r /\ 128 <= b2z c).
Proof.
  intros V%valid_rune_iff. unfold encode_rune.
  repeat if_lia; (eexists _, _; split; [reflexivity|]); [by left; split; [lia|]|right..];
    rewrite b2z_z2b_small; zlia.
Qed.

Lemma byte_neq_z c d : b2z c <> b2z d -> c <> d.
Proof. congruence. Qed.

Lemma parse_chars_raw n r t :
  valid_rune r = true -> 32 <= r -> r <> 34 -> r <> 92 ->
  parse_chars (S n) (encode_rune r ++ t) =
    '(u, s) ← parse_chars n t; Some (encode_rune r ++ u, s).
Proof.
  intros V H1 H2 H3.
  destruct (encode_rune_first r V) as (c & x & E & Hc).
  destruct (decode_rune_encode r t V) as (c' & x' & E' & D). rewrite E in E'. simplify_eq.
  assert (32 <= b2z c' /\ b2z c' <> 34 /\ b2z c' <> 92) as (? & ? & ?).
  { destruct Hc as [[? ->]|]; [rewrite b2z_z2b_small by lia|]; lia. }
  rewrite E. cbn [parse_chars app].
  rewrite !bool_decide_eq_false_2 by (apply byte_neq_z; done).
  destruct (b2z c' <? 32) eqn:?; [bdec; lia|].
  rewrite D, E. replace (S (length x') - 1)%nat with (length x') by lia.
  by rewrite drop_app_length.
Qed.

Lemma parse_chars_escape n r t :
  valid_rune r = true ->
  parse_chars (S n) (escape_rune (Good r) ++ t) =
    '(u, s) ← parse_chars n t; Some (encode_rune r ++ u, s).
Proof.
  intros V. unfold escape_rune.
  repeat match goal with
  | |- context [if (?x =? ?k) || _ then _ else _] => destruct (Z.eqb_spec x k) as [->|]; [by cbn|cbn [orb]]
  | |- context [if (?x =? ?k) then _ else _] => destruct (Z.eqb_spec x k) as [->|]; [by cbn|]
  end.
  apply valid_rune_iff in V as V'.
  destruct (_ || _) eqn:E.
  - assert (0 <= r < 256 /\ r < 128) as [? ?] by (bdec; lia).
    rewrite <-(assoc_L (++)). change (B "\u00" ++ hex 2 r ++ t) with ("\"%byte :: "u"%byte :: B "00" ++ hex 2 r ++ t).
    cbn [parse_chars]. rewrite bool_decide_eq_false_2, bool_decide_eq_true_2 by done.
    unfold unescape. rewrite !bool_decide_eq_false_2, bool_decide_eq_true_2 by intuition discriminate.
    rewrite parse_hex4_low by done. cbn -[parse_chars encode_rune].
    unfold in_range. destruct (_ && _) eqn:?; [bdec; lia|]. done.
  - apply parse_chars_raw; [done|bdec; lia..].
Qed.

Lemma parse_chars_print s n rest :
  Utf8 s -> (length (concat (escape_rune <$> runes s)) < n)%nat ->
  parse_chars n (concat (escape_rune <$> runes s) ++ "034"%byte :: rest) = Some (s, rest).
Proof.
  intros Hs. revert n. induction Hs as [|r s V _ IH]; intros n Hn.
  - destruct n; [cbn in Hn; lia|]. done.
  - rewrite runes_encode in * by done. rewrite fmap_cons in *. cbn [concat] in *.
    rewrite <-(assoc_L (++)). destruct n; [lia|].
    rewrite parse_chars_escape by done. rewrite length_app in Hn.
    rewrite IH; [done|].
    enough (0 < length (escape_rune (Good r)))%nat by lia.
    unfold escape_rune, B. destruct (encode_rune_first r V) as (? & ? & E & _). rewrite E.
    repeat (case_match; cbn; try lia).
Qed.

Lemma parse_string_print s rest :
  Utf8 s -> parse_string (concat (escape_rune <$> runes s) ++ "034"%byte :: rest) = Some (s, rest).
Proof. intros Hs. apply parse_chars_print; [done|]. rewrite length_app. cbn. lia. Qed.

(** The text that may follow a number: nothing the number could go on with. *)
Definition delim (s : bytes) : Prop :=
  match s with
  | [] => True
  | c :: _ => is_digit c = false /\ c <> "."%byte /\ c <> "e"%byte /\ c <> "E"%byte
  end.

Lemma span_digits_app s rest :
  delim rest ->
  span_digits (s ++ rest) = match span_digits s with (d, r) => (d, r ++ rest) end.
Proof.
  intros Hr. induction s as [|c s IH]; cbn.
  - destruct rest as [|c rest]; [done|]. cbn. by destruct Hr as [-> _].
  - destruct (is_digit c); [|done]. rewrite IH. by destruct (span_digits s).
Qed.

Lemma some_digits_app s rest d r :
  delim rest -> some_digits s = Some (d, r) -> some_digits (s ++ rest) = Some (d, r ++ rest).
Proof.
  intros Hr. unfold some_digits. rewrite span_digits_app by done.
  destruct (span_digits s) as [[|c d'] r']; intros; simplify_eq; done.
Qed.

Lemma num_int_app s rest d r :
  delim rest -> num_int s = Some (d, r) -> num_int (s ++ rest) = Some (d, r ++ rest).
Proof.
  intros Hr. destruct s as [|c s]; [done|]. cbn. repeat case_match; intros; simplify_eq; try done.
  - rewrite span_digits_app in * by done. by simplify_eq/=; repeat case_match; simplify_eq.
Qed.

Lemma num_frac_app s rest d r :
  delim rest -> num_frac s = Some (d, r) -> num_frac (s ++ rest) = Some (d, r ++ rest).
Proof.
  intros Hr. destruct s as [|c s]; cbn.
  - intros. simplify_eq. destruct rest as [|c rest]; [done|]. cbn.
    rewrite bool_decide_eq_false_2 by apply Hr. done.
  - case_bool_decide; intros; simplify_eq; [|done].
    destruct (some_digits s) as [[? ?]|] eqn:E; simplify_eq/=.
    by rewrite (some_digits_app _ _ _ _ Hr E).
Qed.

Lemma num_exp_app s rest d r :
  delim rest -> num_exp s = Some (d, r) -> num_exp (s ++ rest) = Some (d, r ++ rest).
Proof.
  intros Hr. destruct s as [|c s]; cbn.
  - intros. simplify_eq. destruct rest as [|c rest]; [done|]. cbn.
    rewrite bool_decide_eq_false_2 by (destruct Hr as (_ & _ & ? & ?); intuition). done.
  - case_bool_decide; intros; simplify_eq; [|done].
    destruct s as [|c' s]; [done|]. cbn. case_bool_decide.
    + destruct (some_digits s) as [[? ?]|] eqn:E; simplify_eq/=.
      by rewrite (some_digits_app _ _ _ _ Hr E).
    + destruct (some_digits (c' :: s)) as [[? ?]|] eqn:E; simplify_eq/=.
      rewrite app_comm_cons. by rewrite (some_digits_app _ _ _ _ Hr E).
Qed.

(** A literal is a number when the scanner takes all of it. *)
Definition number_literal (l : bytes) : Prop := parse_number l = Some (l, []).

#[global] Instance number_literal_dec l : Decision (number_literal l).
Proof. unfold number_literal. apply _. Defined.

Lemma parse_number_app l rest :
  delim rest -> number_literal l -> parse_number (l ++ rest) = Some (l, rest).
Proof.
  unfold number_literal, parse_number. intros Hr Hl.
  destruct l as [|c l]; [done|]. cbn [num_sign app] in *.
  assert (forall sign s, ('(int, s) ← num_int s; '(frac, s) ← num_frac s; '(exp, s) ← num_exp s;
     Some (sign ++ int ++ frac ++ exp, s)) = Some (c :: l, []) ->
     ('(int, s) ← num_int (s ++ rest); '(frac, s) ← num_frac s; '(exp, s) ← num_exp s;
     Some (sign ++ int ++ frac ++ exp, s)) = Some (c :: l, rest)) as H.
  { intros sign s H.
    destruct (num_int s) as [[int s1]|] eqn:E1; [|done]. cbn in H.
    rewrite (num_int_app _ _ _ _ Hr E1). cbn.
    destruct (num_frac s1) as [[frac s2]|] eqn:E2; [|done]. cbn in H.
    rewrite (num_frac_app _ _ _ _ Hr E2). cbn.
    destruct (num_exp s2) as [[ex s3]|] eqn:E3; [|done]. cbn in H.
    rewrite (num_exp_app _ _ _ _ Hr E3). cbn. injection H as -> ->. done. }
  case_bool_decide; [by apply (H [c] l)|by apply (H [] (c :: l))].
Qed.

Lemma span_digits_all s : Forall (fun c => is_digit c = true) s -> span_digits s = (s, []).
Proof. induction 1 as [|c s Hc _ IH]; [done|]. cbn. by rewrite Hc, IH. Qed.

Lemma number_literal_int z : number_literal (format_int z).
Proof.
  assert (forall n sign, (sign = [] \/ sign = ["-"%byte]) ->
    number_literal (sign ++ uint_bytes (N.to_uint n))) as H.
  { intros n sign Hs. unfold number_literal, parse_number.
    assert (num_sign (sign ++ uint_bytes (N.to_uint n)) = (sign, uint_bytes (N.to_uint n))) as ->.
    { destruct Hs as [-> | ->]; [|done]. cbn. destruct (uint_bytes_nonnil n) as (c & s & -> & Hc).
      cbn. rewrite bool_decide_eq_false_2 by (by intros ->). done. }
    enough (num_int (uint_bytes (N.to_uint n)) = Some (uint_bytes (N.to_uint n), [])) as ->
      by (cbn; by rewrite !app_nil_r).
    destruct (uint_bytes_canonical n) as [-> | (c & t & -> & Hc & Ht)]; [done|].
    cbn. case_bool_decide; [by subst|]. rewrite span_digits_all by done.
    assert (is_digit c = true) as ->; [|done].
    clear Hs. unfold is_digit, in_range in *. apply andb_true_iff. bdec. rewrite !Z.leb_le. lia. }
  destruct (format_int_shape z) as (n & [(_ & ->)|(_ & ->)]);
    [apply (H n []); by left|apply (H n ["-"%byte]); by right].
Qed.

Lemma number_literal_head l :
  number_literal l -> exists c t, l = c :: t /\ (c = "-"%byte \/ is_digit c = true).
Proof.
  unfold number_literal, parse_number. destruct l as [|c l]; [done|]. intros H.
  exists c, l. split; [done|]. cbn [num_sign] in H. case_bool_decide; [by left|]. right.
  cbn in H. case_bool_decide; [by subst|]. by destruct (is_digit c).
Qed.

(** The values the encoder is given: numbers are literals, strings are valid
    UTF-8 (json.Marshal replaces the bytes that are not). *)
Inductive wf_json : json -> Prop :=
| wf_null : wf_json JNull
| wf_bool b : wf_json (JBool b)
| wf_num l : number_literal l -> wf_json (JNum l)
| wf_str s : Utf8 s -> wf_json (JStr s)
| wf_arr l : Forall wf_json l -> wf_json (JArr l)
| wf_obj l : Forall (fun kv => Utf8 kv.1 /\ wf_json kv.2) l -> wf_json (JObj l).

(** How deep arrays and objects nest. *)
Fixpoint depth (j : json) : N :=
  match j with
  | JArr l => 1 + foldr (fun j d => N.max (depth j) d) 0%N l
  | JObj l => 1 + foldr (fun kv d => N.max (depth kv.2) d) 0%N l
  | _ => 0
  end.

(** No printed value starts with a blank or a closing bracket. *)
Definition value_head (c : byte) : Prop := is_ws c = false /\ c <> "]"%byte /\ c <> "}"%byte.

Lemma print_head j : wf_json j -> exists c t, print j = c :: t /\ value_head c.
Proof.
  intros [| [] | l Hl | | |]; try by (eexists _, _; split; [reflexivity|done]).
  destruct (number_literal_head l Hl) as (c & t & -> & Hc). exists c, t. split; [done|].
  destruct Hc as [-> | Hc]; [done|].
  split_and!; [|by intros ->..]. unfold is_ws. apply bool_decide_eq_false_2.
  by intros [->|[->|[->| ->]]].
Qed.

Lemma skip_ws_head c s : is_ws c = false -> skip_ws (c :: s) = c :: s.
Proof. intros H. cbn. by rewrite H. Qed.

Lemma parse_number_value n d l rest :
  number_literal l -> delim rest -> (1 <= n)%nat ->
  parse_value n d (l ++ rest) = Some (JNum l, rest).
Proof.
  intros Hl Hr Hn. destruct n as [|n]; [lia|].
  destruct (print_head (JNum l)) as (c & t & E & Hc & _); [by constructor|]. cbn in E.
  destruct (number_literal_head l Hl) as (c' & t' & E' & Hd). rewrite E in E'. simplify_eq.
  assert (forall x, is_digit x = false -> x <> "-"%byte -> c' <> x) as Hne.
  { intros x Hx Hx' ->. destruct Hd as [->|Hd]; [done|]. congruence. }
  cbn [parse_value app]. rewrite skip_ws_head by done.
  rewrite !bool_decide_eq_false_2 by (apply Hne; done).
  rewrite app_comm_cons, (parse_number_app _ _ Hr Hl). done.
Qed.

Definition parses_back (j : json) : Prop :=
  forall n d rest, (2 * length (print j) <= n)%nat -> (d + depth j <= max_depth)%N -> delim rest ->
  parse_value n d (print j ++ rest) = Some (j, rest).

Lemma skip_comma s : skip_ws (B "," ++ s) = ","%byte :: s.
Proof. done. Qed.

Lemma parse_elems_print l : forall n d rest,
  l <> [] -> Forall wf_json l -> Forall parses_back l ->
  (2 * length (join (B ",") (map print l)) + 1 <= n)%nat ->
  Forall (fun j => d + depth j <= max_depth)%N l ->
  parse_elems n d (join (B ",") (map print l) ++ B "]" ++ rest) = Some (l, rest).
Proof.
  induction l as [|j l IH]; intros n d rest Hne Hwf Hl Hn Hd; [done|].
  destruct n as [|n]; [lia|].
  inversion Hwf; inversion Hl; inversion Hd; subst; clear Hwf Hl Hd.
  destruct (decide (l = [])) as [->|Hl]; rewrite map_cons in *.
  - cbn [map join parse_elems] in *.
    match goal with H : parses_back j |- _ => rewrite (H n d) end; [|lia|done|done]. done.
  - assert (map print l <> []) by (by destruct l).
    rewrite join_cons in * by done. rewrite !length_app in Hn. change (length (B ",")) with 1%nat in Hn.
    rewrite <-!(assoc_L (++)). cbn [parse_elems].
    match goal with H : parses_back j |- _ => rewrite (H n d) end; [|lia|done|done].
    cbn [mbind option_bind]. rewrite skip_comma, bool_decide_eq_true_2 by done.
    rewrite IH; [done..|lia|done].
Qed.

Lemma parse_members_print l : forall n d rest,
  l <> [] -> Forall (fun kv => Utf8 kv.1 /\ wf_json kv.2) l -> Forall (fun kv => parses_back kv.2) l ->
  (2 * length (join (B ",") (map (fun kv => print_string kv.1 ++ B ":" ++ print kv.2) l)) + 1 <= n)%nat ->
  Forall (fun kv => d + depth kv.2 <= max_depth)%N l ->
  parse_members n d (join (B ",") (map (fun kv => print_string kv.1 ++ B ":" ++ print kv.2) l) ++ B "}" ++ rest)
    = Some (l, rest).
Proof.
  induction l as [|[k j] l IH]; intros n d rest Hne Hwf Hl Hn Hd; [done|].
  destruct n as [|n]; [lia|].
  inversion Hwf; inversion Hl; inversion Hd; subst; clear Hwf Hl Hd; cbn [fst snd] in *; destruct_and!.
  assert (forall rest', parse_members (S n) d ((print_string k ++ B ":" ++ print j) ++ rest')
    = '(j, r) ← parse_value n d (print j ++ rest');
      match skip_ws r with
      | c :: r =>
          if bool_decide (c = ","%byte) then '(l, r) ← parse_members n d r; Some ((k, j) :: l, r)
          else if bool_decide (c = "}"%byte) then Some ([(k, j)], r) else None
      | [] => None
      end) as Hstep.
  { intros rest'. unfold print_string. cbn [parse_members app skip_ws].
    change (is_ws "034"%byte) with false. cbn iota. rewrite bool_decide_eq_true_2 by done.
    rewrite <-!(assoc_L (++)). cbn [app].
    rewrite parse_string_print by done. done. }
  destruct (decide (l = [])) as [->|Hl]; rewrite map_cons in *; cbn [fst snd] in *.
  - cbn [map join] in *. rewrite Hstep. rewrite !length_app in Hn.
    match goal with H : parses_back j |- _ => rewrite (H n d) end; [|lia|done|done]. done.
  - assert (map (fun kv => print_string kv.1 ++ B ":" ++ print kv.2) l <> []) by (by destruct l).
    rewrite join_cons in * by done. rewrite !length_app in Hn. change (length (B ",")) with 1%nat in Hn.
    rewrite <-(assoc_L (++)), Hstep. rewrite <-(assoc_L (++)).
    match goal with H : parses_back j |- _ => rewrite (H n d) end; [|lia|done|done].
    cbn [mbind option_bind]. rewrite skip_comma, bool_decide_eq_true_2 by done.
    rewrite IH; [done..|lia|done].
Qed.

Lemma depth_list {A} (f : A -> N) d l :
  (d + (1 + foldr (fun x m => N.max (f x) m) 0%N l) <= max_depth)%N ->
  (d < max_depth)%N /\ Forall (fun x => d + 1 + f x <= max_depth)%N l.
Proof.
  intros H. split; [lia|]. revert H. generalize max_depth as M. intros M.
  induction l as [|x l IH]; intros H; constructor; cbn in H; [lia|apply IH; lia].
Qed.

Lemma print_length j : wf_json j -> (0 < length (print j))%nat.
Proof. intros Hwf. destruct (print_head j Hwf) as (? & ? & -> & _). cbn. lia. Qed.

Lemma parse_value_print j : wf_json j -> parses_back j.
Proof.
  induction j as [|b|l|s|l IH|l IH] using json_induction; intros Hwf n d rest Hn Hd Hr.
  all: pose proof (print_length _ Hwf) as Hpos; destruct n as [|n]; [lia|].
  - done.
  - by destruct b.
  - inversion Hwf. apply parse_number_value; [done|done|lia].
  - inversion Hwf as [| | |? Hs| |]. cbn [print]. unfold print_string.
    cbn [app parse_value]. rewrite skip_ws_head by done.
    rewrite <-(assoc_L (++)). cbn [app].
    rewrite !bool_decide_eq_false_2, bool_decide_eq_true_2 by done.
    by rewrite parse_string_print.
  - inversion Hwf as [| | | |? Hl|]; subst.
    cbn [print depth] in *.
    apply depth_list in Hd as [Hd Hds].
    change (B "[" ++ ?x) with ("["%byte :: x) in *. cbn [length app parse_value] in *.
    rewrite skip_ws_head by done. rewrite <-(assoc_L (++)).
    rewrite bool_decide_eq_false_2, bool_decide_eq_true_2 by done.
    destruct (N.leb_spec max_depth d); [lia|].
    destruct (decide (l = [])) as [->|Hne]; [done|].
    assert (exists c t, join (B ",") (map print l) = c :: t /\ value_head c) as (c & t & E & Hc & Hc' & _).
    { destruct l as [|j l]; [done|]. inversion Hl; subst.
      destruct (print_head j) as (c & t & E & Hc); [done|]. cbn. rewrite E.
      destruct (map print l); eauto. }
    rewrite E in *. cbn [app]. rewrite skip_ws_head, bool_decide_eq_false_2 by done.
    rewrite app_comm_cons, <-E. rewrite length_app, <-E in Hn.
    rewrite parse_elems_print; [done|done|done|by eapply Forall_mp|lia|done].
  - inversion Hwf as [| | | | |? Hl]; subst.
    cbn [print depth] in *.
    apply (depth_list (fun kv => depth kv.2)) in Hd as [Hd Hds].
    change (B "{" ++ ?x) with ("{"%byte :: x) in *. cbn [length app parse_value] in *.
    rewrite skip_ws_head by done. rewrite <-(assoc_L (++)).
    rewrite bool_decide_eq_true_2 by done.
    destruct (N.leb_spec max_depth d); [lia|].
    destruct (decide (l = [])) as [->|Hne]; [done|].
    assert (exists t, join (B ",") (map (fun kv => print_string kv.1 ++ B ":" ++ print kv.2) l) = "034"%byte :: t) as [t E].
    { destruct l as [|kv l]; [done|]. cbn. destruct (map _ l); eauto. }
    rewrite E in *. cbn [app]. rewrite skip_ws_head, bool_decide_eq_false_2 by done.
    rewrite app_comm_cons, <-E. rewrite length_app, <-E in Hn.
    rewrite parse_members_print; [done|done|done| |lia|done].
    eapply Forall_mp; [exact IH|]. eapply Forall_impl; [exact Hl|]. by intros ? [_ ?].
Qed.

Lemma skip_ws_blanks blanks : Forall (fun c => is_ws c = true) blanks -> skip_ws blanks = [].
Proof. induction 1 as [|c s Hc _ IH]; [done|]. cbn. by rewrite Hc. Qed.

Lemma blanks_delim blanks : Forall (fun c => is_ws c = true) blanks -> delim blanks.
Proof.
  intros [|c s Hc _]; [done|]. unfold is_ws in Hc. apply bool_decide_eq_true in Hc.
  by destruct Hc as [->|[->|[->| ->]]].
Qed.

(** The decoder reads back the value, whatever blanks follow it. *)
Lemma parse_prefix_print j blanks :
  wf_json j -> (depth j <= max_depth)%N -> Forall (fun c => is_ws c = true) blanks ->
  parse_prefix (print j ++ blanks) = Some (j, blanks).
Proof.
  intros Hwf Hd Hb. unfold parse_prefix.
  apply parse_value_print; [done|rewrite length_app; lia|lia|by apply blanks_delim].
Qed.

Theorem parse_print j :
  wf_json j -> (depth j <= max_depth)%N -> parse (print j) = Some j.
Proof.
  intros Hwf Hd. unfold parse.
  rewrite <-(app_nil_r (print j)), parse_prefix_print by done. done.
Qed.

(* ------------------------------------------------------------------ *)
(** ** The fuel of the scanner is enough for every text *)

Lemma skip_ws_length s : (length (skip_ws s) <= length s)%nat.
Proof. induction s as [|c s IH]; cbn; [done|]. destruct (is_ws c); cbn; lia. Qed.

Lemma parse_hex4_length s z r : parse_hex4 s = Some (z, r) -> (length r < length s)%nat.
Proof.
  destruct s as [|a [|b [|c [|d s]]]]; cbn; try done.
  destruct (hex_value a), (hex_value b), (hex_value c), (hex_value d); cbn; try done.
  intros [= _ <-]. lia.
Qed.

Lemma unescape_length s t r : unescape s = Some (t, r) -> (length r < length s)%nat.
Proof.
  destruct s as [|c s]; [done|]. unfold unescape.
  repeat (case_bool_decide; [intros [= _ <-]; cbn; lia|]). case_bool_decide; [|done].
  destruct (parse_hex4 s) as [[z s']|] eqn:Hs; [|done]. apply parse_hex4_length in Hs. cbn [mbind option_bind].
  destruct (in_range z _ _); [|intros [= _ <-]; cbn; lia].
  destruct (has_prefix s' _); [|intros [= _ <-]; cbn; lia].
  destruct (parse_hex4 (drop 2 s')) as [[z' s'']|] eqn:Hs'; cbn [mbind option_bind];
    [|intros [= _ <-]; cbn; lia].
  apply parse_hex4_length in Hs'. rewrite length_drop in Hs'.
  destruct (_ && _); intros [= _ <-]; cbn; lia.
Qed.

Lemma parse_chars_length n s t r : parse_chars n s = Some (t, r) -> (length r < length s)%nat.
Proof.
  revert s t r. induction n as [|n IH]; intros [|c s] t r; try done. cbn -[unescape decode_rune].
  case_bool_decide; [intros [= _ <-]; cbn; lia|]. case_bool_decide.
  - destruct (unescape s) as [[u s']|] eqn:Hu; [|done]. apply unescape_length in Hu. cbn [mbind option_bind].
    destruct (parse_chars n s') as [[t' r']|] eqn:Ht; [|done]. apply IH in Ht. intros [= _ <-]. lia.
  - destruct (_ <? _); [done|]. destruct (decode_rune c s) as [x width].
    destruct (parse_chars n _) as [[t' r']|] eqn:Ht; [|done]. apply IH in Ht. rewrite length_drop in Ht.
    intros [= _ <-]. lia.
Qed.

Lemma parse_string_length s t r : parse_string s = Some (t, r) -> (length r < length s)%nat.
Proof. apply parse_chars_length. Qed.

Lemma span_digits_length s : (length (span_digits s).2 <= length s)%nat.
Proof. induction s as [|c s IH]; cbn; [done|]. destruct (is_digit c); [|done]. destruct (span_digits s). cbn in *. lia. Qed.

Lemma some_digits_length s d r : some_digits s = Some (d, r) -> (length r <= length s)%nat.
Proof.
  unfold some_digits. pose proof (span_digits_length s). destruct (span_digits s) as [[|] r']; [done|].
  intros [= _ <-]. done.
Qed.

Lemma num_sign_length s : (length (num_sign s).2 <= length s)%nat.
Proof. destruct s as [|c s]; cbn; [done|]. case_bool_decide; cbn; lia. Qed.

Lemma num_int_length s d r : num_int s = Some (d, r) -> (length r < length s)%nat.
Proof.
  destruct s as [|c s]; [done|]. cbn. case_bool_decide; [intros [= _ <-]; lia|].
  destruct (is_digit c); [|done]. pose proof (span_digits_length s). destruct (span_digits s).
  intros [= _ <-]. cbn in *. lia.
Qed.

Lemma num_frac_length s d r : num_frac s = Some (d, r) -> (length r <= length s)%nat.
Proof.
  destruct s as [|c s]; [intros [= _ <-]; done|]. cbn. case_bool_decide; [|intros [= _ <-]; done].
  destruct (some_digits s) as [[d' r']|] eqn:Hd; [|done]. apply some_digits_length in Hd.
  intros [= _ <-]. lia.
Qed.

Lemma num_exp_length s d r : num_exp s = Some (d, r) -> (length r <= length s)%nat.
Proof.
  destruct s as [|c s]; [intros [= _ <-]; done|]. cbn. case_bool_decide; [|intros [= _ <-]; done].
  destruct s as [|c' s]; [done|]. case_bool_decide;
    destruct (some_digits _) as [[d' r']|] eqn:Hd; try done; apply some_digits_length in Hd;
    intros [= _ <-]; cbn in *; lia.
Qed.

Lemma parse_number_length s l r : parse_number s = Some (l, r) -> (length r < length s)%nat.
Proof.
  unfold parse_number. pose proof (num_sign_length s). destruct (num_sign s) as [sign s1]. cbn in *.
  destruct (num_int s1) as [[i s2]|] eqn:Hi; [|done]. cbn.
  destruct (num_frac s2) as [[f s3]|] eqn:Hf; [|done]. cbn.
  destruct (num_exp s3) as [[e s4]|] eqn:He; [|done]. cbn. intros [= _ <-].
  apply num_int_length in Hi. apply num_frac_length in Hf. apply num_exp_length in He. lia.
Qed.

Lemma literal_length w j s j' r : w <> [] -> literal w j s = Some (j', r) -> s <> [] -> (length r < length s)%nat.
Proof.
  intros Hw. unfold literal. destruct (has_prefix s w); [|done]. intros [= _ <-] Hs. rewrite length_drop.
  destruct w, s; try done. cbn. lia.
Qed.

(** Whatever is parsed takes at least one byte. *)
Definition shrinks (n : nat) : Prop :=
  (forall d s j r, parse_value n d s = Some (j, r) -> (length r < length s)%nat)
  /\ (forall d s l r, parse_elems n d s = Some (l, r) -> (length r < length s)%nat)
  /\ (forall d s l r, parse_members n d s = Some (l, r) -> (length r < length s)%nat).

Ltac drop_blanks :=
  match goal with
  | |- context [skip_ws ?s] =>
      let H := fresh in
      pose proof (skip_ws_length s) as H; destruct (skip_ws s) as [|? ?]; [try done|cbn [length] in H]
  end.

Lemma shrinks_value n : shrinks n -> forall d s j r, parse_value (S n) d s = Some (j, r) -> (length r < length s)%nat.
Proof.
  intros (IHv & IHe & IHm) d s j r. cbn [parse_value]. drop_blanks.
  case_bool_decide.
  { destruct (_ <=? _)%N; [done|]. drop_blanks. case_bool_decide; [intros [= _ <-]; lia|].
    destruct (parse_members n _ _) as [[l' r']|] eqn:Hm; [|done]. apply IHm in Hm. intros [= _ <-]. cbn in Hm. lia. }
  case_bool_decide.
  { destruct (_ <=? _)%N; [done|]. drop_blanks. case_bool_decide; [intros [= _ <-]; lia|].
    destruct (parse_elems n _ _) as [[l' r']|] eqn:Hm; [|done]. apply IHe in Hm. intros [= _ <-]. cbn in Hm. lia. }
  case_bool_decide.
  { destruct (parse_string _) as [[t r']|] eqn:Ht; [|done]. apply parse_string_length in Ht. intros [= _ <-]. lia. }
  do 3 (case_bool_decide; [intros Hl; apply literal_length in Hl; [cbn in Hl; lia|done|done]|]).
  destruct (parse_number _) as [[l' r']|] eqn:Hn; [|done]. apply parse_number_length in Hn.
  intros [= _ <-]. cbn in Hn. lia.
Qed.

Lemma shrinks_all n : shrinks n.
Proof.
  induction n as [|n IH]; [by split_and!|]. split_and!; [by apply shrinks_value|..]; destruct IH as (IHv & IHe & IHm).
  - intros d s l r. cbn [parse_elems]. destruct (parse_value n d s) as [[j s1]|] eqn:Hv; [|done].
    apply IHv in Hv. cbn [mbind option_bind]. drop_blanks.
    case_bool_decide; [|case_bool_decide; [intros [= _ <-]; lia|done]].
    destruct (parse_elems n d _) as [[l' r']|] eqn:He; [|done]. apply IHe in He. intros [= _ <-]. lia.
  - intros d s l r. cbn [parse_members]. drop_blanks. case_bool_decide; [|done].
    destruct (parse_string _) as [[k s1]|] eqn:Hk; [|done]. apply parse_string_length in Hk.
    cbn [mbind option_bind]. drop_blanks. case_bool_decide; [|done].
    destruct (parse_value n d _) as [[j s2]|] eqn:Hv; [|done]. apply IHv in Hv.
    cbn [mbind option_bind]. drop_blanks.
    case_bool_decide; [|case_bool_decide; [intros [= _ <-]; lia|done]].
    destruct (parse_members n d _) as [[l' r']|] eqn:He; [|done]. apply IHm in He. intros [= _ <-]. lia.
Qed.

(** Two fuels that suffice agree. *)
Definition agree (n m : nat) : Prop :=
  (forall d s, (2 * length s + 1 <= n)%nat -> (2 * length s + 1 <= m)%nat -> parse_value n d s = parse_value m d s)
  /\ (forall d s, (2 * length s + 2 <= n)%nat -> (2 * length s + 2 <= m)%nat -> parse_elems n d s = parse_elems m d s)
  /\ (forall d s, (2 * length s + 2 <= n)%nat -> (2 * length s + 2 <= m)%nat -> parse_members n d s = parse_members m d s).

Lemma agree_value n m :
  agree n m -> forall d s, (2 * length s + 1 <= S n)%nat -> (2 * length s + 1 <= S m)%nat ->
  parse_value (S n) d s = parse_value (S m) d s.
Proof.
  intros (_ & He & Hm) d s Hn Hm'. cbn [parse_value]. drop_blanks.
  case_bool_decide.
  { destruct (_ <=? _)%N; [done|]. drop_blanks. case_bool_decide; [done|].
    rewrite Hm; [done|cbn [length]; lia..]. }
  case_bool_decide; [|done].
  destruct (_ <=? _)%N; [done|]. drop_blanks. case_bool_decide; [done|].
  rewrite He; [done|cbn [length]; lia..].
Qed.

Lemma agree_all n : forall m, agree n m.
Proof.
  induction n as [|n IH]; intros m; [split_and!; intros; lia|].
  destruct m as [|m]; [split_and!; intros; lia|]. specialize (IH m).
  split_and!; [by apply agree_value|..]; destruct IH as (IHv & IHe & IHm).
  - intros d s Hn Hm. cbn [parse_elems]. rewrite <-(IHv d s) by lia.
    destruct (parse_value n d s) as [[j s1]|] eqn:Hv; [|done].
    apply (shrinks_all n) in Hv. cbn [mbind option_bind]. drop_blanks. case_bool_decide; [|done].
    by rewrite IHe by lia.
  - intros d s Hn Hm. cbn [parse_members]. drop_blanks. case_bool_decide; [|done].
    destruct (parse_string _) as [[k s1]|] eqn:Hk; [|done]. apply parse_string_length in Hk.
    cbn [mbind option_bind]. drop_blanks. case_bool_decide; [|done].
    rewrite <-(IHv d) by lia. destruct (parse_value n d _) as [[j s2]|] eqn:Hv; [|done].
    apply (shrinks_all n) in Hv. cbn [mbind option_bind]. drop_blanks. case_bool_decide; [|done].
    by rewrite IHm by lia.
Qed.

(** The scanner never runs out of fuel: with any larger fuel it reads the same
    of every text, well formed or not. *)
Theorem parse_fuel_enough n s : (2 * length s + 2 <= n)%nat -> parse_value n 0 s = parse_prefix s.
Proof. intros Hn. apply (agree_all n); lia. Qed.
