(* ===== verification/Encoding.v ===== *)
(** * Encoding: how Go values become JSON values and back

    The interface [GoJson] is what a Go type offers to encoding/json: its zero
    value, its JSON value, and how a JSON value is decoded over an old value of
    the type, with or without unknown fields refused. The instances are the
    built-in types the code marshals, and [decode_struct] is the decoding of a
    Go struct. *)

From S2P Require Import Prelude Text Crypto Json.

Class GoJson (A : Type) := {
  zero : A;
  (** the JSON value of a value, or the text of the marshal error *)
  to_json : A -> res bytes json;
  (** [from_json strict j old]: [j] decoded over [old]; [None] is a type error,
      or an unknown field when [strict] *)
  from_json : bool -> json -> A -> option A
}.

(** A value that JSON carries unchanged. *)
Definition lossless {A} `{GoJson A} (v : A) : Prop :=
  exists j, to_json v = Ok j /\ wf_json j /\ (depth j < max_depth)%N
    /\ forall strict, from_json strict j zero = Some v.

(** ** string *)
#[global] Instance string_json : GoJson bytes := {|
  zero := [];
  to_json s := Ok (JStr s);
  from_json _ j old :=
    match j with
    | JStr s => Some s
    | JNull => Some old
    | _ => None
    end
|}.

Lemma lossless_string s : Utf8 s -> lossless s.
Proof. intros Hs. exists (JStr s). split_and!; [done|by constructor|done|done]. Qed.

(** ** int and int64 *)
#[global] Instance int_json : GoJson Z := {|
  zero := 0;
  to_json z := Ok (JNum (format_int z));
  from_json _ j old :=
    match j with
    | JNum l => parse_int l
    | JNull => Some old
    | _ => None
    end
|}.

Lemma lossless_int z : is_int64 z = true -> lossless z.
Proof.
  intros Hz. exists (JNum (format_int z)).
  split_and!; [done|constructor; apply number_literal_int|done|].
  intros strict. by apply parse_format_int.
Qed.

(** ** bool *)
#[global] Instance bool_json : GoJson bool := {|
  zero := false;
  to_json b := Ok (JBool b);
  from_json _ j old :=
    match j with
    | JBool b => Some b
    | JNull => Some old
    | _ => None
    end
|}.

(** ** Pointers: nil is null; a value is decoded over the old target, or over a
    new zero value *)
#[global] Instance pointer_json {A} `{GoJson A} : GoJson (option A) := {|
  zero := None;
  to_json p :=
    match p with
    | None => Ok JNull
    | Some v => to_json v
    end;
  from_json strict j old :=
    match j with
    | JNull => Some None
    | _ => v ← from_json strict j (default zero old); Some (Some v)
    end
|}.

(** ** []byte: nil is null, other slices base64 text (the code marshals no
    empty slice that is not nil); an array of small numbers is decoded as well *)
Definition bytes_to_json (s : bytes) : json :=
  match s with
  | [] => JNull
  | _ => JStr (base64_encode s)
  end.

Definition byte_from_json (j : json) : option byte :=
  match j with
  | JNum l => z ← parse_int l; if in_range z 0 255 then Some (z2b z) else None
  | JNull => Some "000"%byte
  | _ => None
  end.

Definition bytes_from_json (j : json) (old : bytes) : option bytes :=
  match j with
  | JStr s => base64_decode s
  | JArr l => mapM byte_from_json l
  | JNull => Some []
  | _ => None
  end.

Lemma base64_encode_utf8 s : Utf8 (base64_encode s).
Proof. apply Utf8_ascii_string. eapply Forall_impl; [apply base64_encode_chars|]. cbn. lia. Qed.

Lemma bytes_from_to_json s old : bytes_from_json (bytes_to_json s) old = Some s.
Proof. destruct s as [|c s]; [done|]. apply base64_round_trip. Qed.

Lemma bytes_to_json_wf s : wf_json (bytes_to_json s) /\ depth (bytes_to_json s) = 0%N.
Proof. destruct s; split; try done; constructor. apply base64_encode_utf8. Qed.

(** ** Slices: nil is null *)
Fixpoint all_ok {E A} (l : list (res E A)) : res E (list A) :=
  match l with
  | [] => Ok []
  | r :: l => let? x := r in let? xs := all_ok l in Ok (x :: xs)
  end.

#[global] Instance slice_json {A} `{GoJson A} : GoJson (list A) := {|
  zero := [];
  to_json l :=
    match l with
    | [] => Ok JNull
    | _ => let? js := all_ok (map to_json l) in Ok (JArr js)
    end;
  from_json strict j old :=
    match j with
    | JNull => Some []
    | JArr l => mapM (fun j => from_json strict j zero) l
    | _ => None
    end
|}.

(** ** json.RawMessage: the text of one value. What is read is the text the value
    prints to, which may have other spaces and escapes than the input: the code
    only decodes it once more, and both texts decode to the same value
    ([Json.parse_print]). *)
Record RawMessage := Raw { raw_text : bytes }.

#[global] Instance raw_json : GoJson RawMessage := {|
  zero := Raw [];
  to_json r :=
    match raw_text r with
    | [] => Ok JNull
    | text => match parse text with Some j => Ok j | None => Err (B "invalid raw message") end
    end;
  from_json _ j _ := Some (Raw (print j))
|}.

(** ** Structs *)

(** A field: its JSON name, and how its value is decoded into the struct. *)
Definition field (A : Type) : Type := bytes * (bool -> json -> A -> option A).

(** encoding/json folds the case of a key that matches no field exactly. Besides
    the ASCII letters, U+017F folds to S and U+212A (the Kelvin sign) to K. *)
Definition fold_rune (r : rune) : rune :=
  match r with
  | Good r =>
      if in_range r 97 122 then Good (r - 32)
      else if r =? 0x17F then Good 83
      else if r =? 0x212A then Good 75
      else Good r
  | Bad b => Bad b
  end.

#[global] Instance rune_eq_dec : EqDecision rune.
Proof. solve_decision. Defined.

Definition same_fold (a b : bytes) : bool :=
  bool_decide (fold_rune <$> runes a = fold_rune <$> runes b).

Definition find_field {A} (fields : list (field A)) (key : bytes) : option (field A) :=
  match list_find (fun f => f.1 = key) fields with
  | Some (_, f) => Some f
  | None => snd <$> list_find (fun f => same_fold f.1 key = true) fields
  end.

Fixpoint decode_members {A} (strict : bool) (fields : list (field A)) (l : list (bytes * json)) (old : A) : option A :=
  match l with
  | [] => Some old
  | (key, j) :: l =>
      match find_field fields key with
      | Some f => new ← f.2 strict j old; decode_members strict fields l new
      | None => if strict then None else decode_members strict fields l old
      end
  end.

Definition decode_struct {A} (strict : bool) (fields : list (field A)) (j : json) (old : A) : option A :=
  match j with
  | JNull => Some old
  | JObj l => decode_members strict fields l old
  | _ => None
  end.

(** A field whose Go type is [A], with the setter of the struct. *)
Definition typed_field {A F} `{GoJson F} (name : bytes) (get : A -> F) (set : F -> A -> A) : field A :=
  (name, fun strict j s => v ← from_json strict j (get s); Some (set v s)).

(** Evaluates the lookup of a literal key among literal fields. *)
Ltac find_field :=
  match goal with
  | |- context [find_field ?fs ?k] =>
      let rec go l :=
        lazymatch l with
        | ?f :: ?l => first [replace (find_field fs k) with (Some f) by reflexivity | go l]
        end in
      go fs
  end.

(** Runs [decode_struct] on a literal object. *)
Ltac cbn_fields :=
  cbn -[find_field format_int parse_int print parse base64_decode base64_encode].
Ltac decode_fields :=
  cbn_fields;
  repeat (find_field; unfold typed_field; cbn_fields; rewrite ?parse_format_int by done; cbn_fields).

(** Shows that a value built from literal keys is well formed. *)
Ltac wf_json :=
  repeat first [assumption | apply wf_obj | apply wf_arr | apply wf_str | apply wf_null | apply wf_bool
               | apply wf_num; apply number_literal_int | apply Forall_nil_2 | apply Forall_cons_2
               | apply conj; cbn [fst snd] | utf8].
