(* ===== verification/Env.v ===== *)
(** * Env: what the code uses and the repository does not hold

    The types and constants of herrscher-contracts, the context package, the
    error texts of encoding/json and the code point tables of package unicode
    are a parameter of every other file, the class [Env]. Nothing is assumed
    of them beyond their types: a theorem that needs a value to survive its
    JSON encoding says so of that value ([Encoding.lossless]). *)

From S2P Require Import Prelude Text Json Encoding.

Class Env := {
  env_unicode :: Unicode;

  (** the texts of the errors encoding/json reports for an input: a scan
      error of Unmarshal, one of Decoder, and, for a target type with unknown
      fields refused or not, a value of another type than the target's or an
      unknown field *)
  json_syntax_text : bytes -> bytes;
  json_stream_text : bytes -> bytes;
  json_type_text : forall A : Type, GoJson A -> bool -> bytes -> bytes;

  (** whether the scanner of Decoder runs out of input inside a value, rather
      than meet a byte it refuses *)
  json_truncated : bytes -> bool;

  (** contexts, and the text of [ctx.Err()] when the context is done *)
  Ctx : Type;
  ctx_Err : Ctx -> option bytes;

  (** contracts: the plugin manifest and its category *)
  Manifest : Type;
  manifest_json :: GoJson Manifest;
  manifest_Category : Manifest -> bytes;
  CategoryMemory : bytes;
  CategoryOrchestrator : bytes;
  CategoryBackend : bytes;

  (** contracts: the data of the ports *)
  Node : Type;
  node_json :: GoJson Node;
  Query : Type;
  query_json :: GoJson Query;
  Subgraph : Type;
  subgraph_json :: GoJson Subgraph;
  Prompt : Type;
  prompt_json :: GoJson Prompt;
  BackendEvent : Type;
  event_json :: GoJson BackendEvent;

  (** contracts: the typed error that crosses the wire *)
  Budget : Type;
  budget_json :: GoJson Budget;
  budget_text : Budget -> bytes;

  (** contracts: notices for humans *)
  Code : Type;
  CodeAddressPlaintextRefused : Code;
  CodeUnexpected : Code;
  CodeSettingMissing : Code;
  CodeSettingInvalid : Code;
  Arg : Type;
  Text : bytes -> bytes -> Arg
}.
