(* ===== verification/Sample.v ===== *)
(** * Sample: a concrete environment

    An instance of [Env.Env] with small concrete types, on which the witnesses
    of the theorems are evaluated. It stands for no particular version of
    herrscher-contracts. *)

From S2P Require Import Prelude Text Json Encoding Env.

Record sample_manifest := { m_kind : bytes; m_category : bytes }.

#[global] Instance sample_manifest_json : GoJson sample_manifest := {|
  zero := {| m_kind := []; m_category := [] |};
  to_json m := Ok (JObj [(B "Kind", JStr (m_kind m)); (B "Category", JStr (m_category m))]);
  from_json strict := decode_struct strict [
    typed_field (B "Kind") m_kind (fun k m => {| m_kind := k; m_category := m_category m |});
    typed_field (B "Category") m_category (fun c m => {| m_kind := m_kind m; m_category := c |})]
|}.

Record sample_budget := { b_key : bytes; b_runes : Z; b_limit : Z }.

#[global] Instance sample_budget_json : GoJson sample_budget := {|
  zero := {| b_key := []; b_runes := 0; b_limit := 0 |};
  to_json b := Ok (JObj [(B "Key", JStr (b_key b)); (B "Runes", JNum (format_int (b_runes b)));
                         (B "Limit", JNum (format_int (b_limit b)))]);
  from_json strict := decode_struct strict [
    typed_field (B "Key") b_key (fun k b => {| b_key := k; b_runes := b_runes b; b_limit := b_limit b |});
    typed_field (B "Runes") b_runes (fun r b => {| b_key := b_key b; b_runes := r; b_limit := b_limit b |});
    typed_field (B "Limit") b_limit (fun l b => {| b_key := b_key b; b_runes := b_runes b; b_limit := l |})]
|}.

Definition sample_unicode : Unicode :=
  {| print_table _ := false; upper_table _ := false; lower_table _ := false; digit_table _ := false; letter_table _ := false |}.

Definition sample_env : Env := {|
  env_unicode := sample_unicode;
  json_syntax_text _ := B "syntax error";
  json_stream_text _ := B "stream error";
  json_type_text _ _ _ _ := B "type error";
  json_truncated _ := false;
  Ctx := option bytes;
  ctx_Err ctx := ctx;
  Manifest := sample_manifest;
  manifest_json := sample_manifest_json;
  manifest_Category := m_category;
  CategoryMemory := B "memory";
  CategoryOrchestrator := B "orchestrator";
  CategoryBackend := B "backend";
  Node := bytes;
  node_json := string_json;
  Query := bytes;
  query_json := string_json;
  Subgraph := list bytes;
  subgraph_json := slice_json;
  Prompt := bytes;
  prompt_json := string_json;
  BackendEvent := bytes;
  event_json := string_json;
  Budget := sample_budget;
  budget_json := sample_budget_json;
  budget_text b := B "over budget: " ++ b_key b;
  Code := bytes;
  CodeAddressPlaintextRefused := B "address.plaintext";
  CodeUnexpected := B "unexpected";
  CodeSettingMissing := B "setting.missing";
  CodeSettingInvalid := B "setting.invalid";
  Arg := bytes * bytes;
  Text := pair
|}.
