(* ===== verification/Errors.v ===== *)
(** * Errors: errors.go

    Every error value the code returns, the text of each ([Error]), the notices
    of three of them, and the tests the code makes on errors: [errors.Is]
    against a package variable and [errors.As] for a budget error. *)

From S2P Require Import Prelude Text Json Encoding Env.

(** Environment variables that name the TLS settings (tls.go). *)
Definition EnvTLSCA : bytes := B "HERRSCHER_TLS_CA".
Definition EnvTLSCert : bytes := B "HERRSCHER_TLS_CERT".
Definition EnvTLSKey : bytes := B "HERRSCHER_TLS_KEY".

(** The package variables built with [errors.New], compared by identity; the
    last two are io's. *)
Inductive sentinel : Type :=
| ErrInvalidFrame
| ErrTLSNotConfigured
| ErrPortRegistered
| ErrPluginServiceRegistered
| ErrNilHook
| ErrNoAnnounceKey
| ErrWeakAnnounceKey
| ErrUnauthenticatedAnnouncement
| ErrStaleAnnouncement
| ErrOversizedAnnouncement
| ErrMalformedAnnouncement
| ErrUnusableAnnouncement
| ErrAddrRefused
| errBackendStreamNotResponder
| EOF
| ErrUnexpectedEOF.

(** The variables of this package. *)
Definition of_package (s : sentinel) : Prop := s <> EOF /\ s <> ErrUnexpectedEOF.

#[global] Instance sentinel_eq_dec : EqDecision sentinel.
Proof. solve_decision. Defined.

Definition sentinel_text (s : sentinel) : bytes :=
  match s with
  | ErrInvalidFrame => B "transport: invalid frame (neither event nor done)"
  | ErrTLSNotConfigured => B "transport: TLS not configured"
  | ErrPortRegistered => B "transport: port already registered"
  | ErrPluginServiceRegistered => B "transport: Plugin service already registered on this server"
  | ErrNilHook => B "transport: nil announcement hook"
  | ErrNoAnnounceKey => B "transport: no announce key"
  | ErrWeakAnnounceKey => B "transport: announce key shorter than 32 bytes or all zero"
  | ErrUnauthenticatedAnnouncement => B "transport: announcement failed authentication"
  | ErrStaleAnnouncement => B "transport: announcement outside the freshness window"
  | ErrOversizedAnnouncement => B "transport: announcement exceeds the size bound"
  | ErrMalformedAnnouncement => B "transport: malformed announcement"
  | ErrUnusableAnnouncement => B "transport: announcement lacks an instance id, a category or a host:port address"
  | ErrAddrRefused => B "transport: announced address refused by the allowlist"
  | errBackendStreamNotResponder => B "backend stream: server does not respond"
  | EOF => B "EOF"
  | ErrUnexpectedEOF => B "unexpected EOF"
  end.

Section errors.
Context `{Env}.

Inductive error : Type :=
| Sentinel (s : sentinel)
| UnknownPortError (Port : bytes)
| UnknownMethodError (Service Method : bytes)
| ArgCountError (Want Got : Z)
| PlaintextDialError (Addr : bytes)
| TLSHalfConfiguredError (Missing : list bytes)
| CAFileError (File : bytes)
| remoteError (message : bytes)
| BudgetError (b : Budget)
| JsonSyntaxError (data : bytes)
| JsonStreamError (data : bytes)
| JsonTypeError (text : bytes)
| Foreign (text : bytes)
| Errorf (text : bytes) (wrapped : list error).

(** The method [Error()]: the text of an error. [Foreign] is an error of a
    package outside the repository, [Errorf] one of [fmt.Errorf] with [%w]. *)
Definition Error (e : error) : bytes :=
  match e with
  | Sentinel s => sentinel_text s
  | UnknownPortError port => B "transport: unknown port " ++ quote port
  | UnknownMethodError service method => B "transport: unknown method " ++ service ++ B "." ++ method
  | ArgCountError want got =>
      B "transport: expected " ++ format_int want ++ B " args, got " ++ format_int got
  | PlaintextDialError addr =>
      B "transport: refusing plaintext dial to non-loopback address " ++ quote addr
      ++ B "; configure TLS for remote plugins"
  | TLSHalfConfiguredError missing =>
      B "transport: TLS half-configured: " ++ join (B ", ") missing ++ B " missing (set "
      ++ EnvTLSCA ++ B ", " ++ EnvTLSCert ++ B " and " ++ EnvTLSKey
      ++ B " together, or none for loopback plaintext)"
  | CAFileError file => B "transport: CA " ++ quote file ++ B " held no usable certificate"
  | remoteError message => message
  | BudgetError b => budget_text b
  | JsonSyntaxError data => json_syntax_text data
  | JsonStreamError data => json_stream_text data
  | JsonTypeError text => text
  | Foreign text => text
  | Errorf text _ => text
  end.

(** [fmt.Errorf(prefix + "%w", err)] *)
Definition wrap (prefix : bytes) (err : error) : error := Errorf (prefix ++ Error err) [err].

Record Notice := { notice_Code : Code; notice_Args : list Arg }.

(** The methods [Notice()] of the three errors a human is told about. *)
Definition PlaintextDial_Notice (addr : bytes) : Notice :=
  {| notice_Code := CodeAddressPlaintextRefused; notice_Args := [Text (B "Address") addr] |}.

Definition TLSHalfConfigured_Notice (missing : list bytes) : Notice :=
  match missing with
  | [] => {| notice_Code := CodeUnexpected;
             notice_Args := [Text (B "Detail") (Error (TLSHalfConfiguredError missing))] |}
  | _ => {| notice_Code := CodeSettingMissing;
            notice_Args := [Text (B "Settings") (join (B ", ") missing)] |}
  end.

Definition CAFile_Notice (file : bytes) : Notice :=
  {| notice_Code := CodeSettingInvalid;
     notice_Args := [Text (B "Setting") EnvTLSCA; Text (B "Value") file] |}.

(** [errors.Is(err, s)]: some error of the tree is the variable [s]. *)
Fixpoint is_sentinel (s : sentinel) (e : error) : bool :=
  match e with
  | Sentinel s' => bool_decide (s = s')
  | Errorf _ wrapped => existsb (is_sentinel s) wrapped
  | _ => false
  end.

(** [errors.As(err, &budget)]: the first budget error of the tree, depth first. *)
Fixpoint as_budget (e : error) : option Budget :=
  match e with
  | BudgetError b => Some b
  | Errorf _ wrapped =>
      (fix first (l : list error) : option Budget :=
         match l with
         | [] => None
         | e :: l => match as_budget e with Some b => Some b | None => first l end
         end) wrapped
  | _ => None
  end.

Lemma is_sentinel_wrap s prefix e : is_sentinel s (wrap prefix e) = is_sentinel s e.
Proof. cbn. apply orb_false_r. Qed.

Lemma as_budget_wrap prefix e : as_budget (wrap prefix e) = as_budget e.
Proof. cbn. by destruct (as_budget e). Qed.
End errors.

Create Rewrite HintDb go.

#[export] Hint Rewrite @is_sentinel_wrap @as_budget_wrap : go.

Notation result A := (res error A).
