(* ===== verification/Codec.v ===== *)
(** * Codec: codec.go and wire_error.go

    JSON encoding of argument tuples, and the typed error that crosses the wire
    next to its text. The arguments of a call are a nested pair [A * (A' * unit)]
    of values with a [GoJson] instance, by the class [Args]. *)

From S2P Require Import Prelude Text Json Encoding Env Sample Errors.

Section codec.
Context `{Env}.

(* ---------------------------------------------------------------- *)
(** ** codec.go *)

Definition Marshal {A} `{GoJson A} (v : A) : result bytes :=
  match to_json v with
  | Ok j => Ok (print j)
  | Err text => Err (Foreign text)
  end.

(** The whole text is scanned before any of it is decoded. *)
Definition Unmarshal {A} `{GoJson A} (data : bytes) (v : A) : result A :=
  match parse data with
  | None => Err (JsonSyntaxError data)
  | Some j =>
      match from_json false j v with
      | Some v => Ok v
      | None => Err (JsonTypeError (json_type_text A _ false data))
      end
  end.

(** A tuple of arguments: the JSON values of [vals ...any], and the decoding
    of raw values into the destinations, from position [index] on. *)
Class Args (T : Type) := {
  arity : nat;
  args_zero : T;
  args_json : T -> list (res bytes json);
  decode_dst : Z -> list RawMessage -> T -> result T
}.

#[global] Instance args_nil : Args unit := {|
  arity := 0;
  args_zero := tt;
  args_json _ := [];
  decode_dst _ _ dst := Ok dst
|}.

#[global] Instance args_cons {A T} `{GoJson A} `{Args T} : Args (A * T) := {|
  arity := S arity;
  args_zero := (zero, args_zero);
  args_json '(v, vs) := to_json v :: args_json vs;
  decode_dst index raw '(v, vs) :=
    match raw with
    | [] => Ok (v, vs)
    | r :: raw =>
        let? v := map_err (wrap (B "transport: decode arg " ++ format_int index ++ B ": "))
                    (Unmarshal (raw_text r) v) in
        let? vs := decode_dst (index + 1) raw vs in
        Ok (v, vs)
    end
|}.

(** [Marshal(vals)]: a nil slice of arguments is null. *)
Definition encodeArgs {T} `{Args T} (vals : T) : result bytes :=
  match args_json vals with
  | [] => Ok (print JNull)
  | js =>
      match all_ok js with
      | Ok js => Ok (print (JArr js))
      | Err text => Err (Foreign text)
      end
  end.

Definition decodeArgs {T} `{Args T} (data : bytes) (dst : T) : result T :=
  let? raw := map_err (wrap (B "transport: decode args: ")) (Unmarshal data (zero : list RawMessage)) in
  if decide (length raw <> arity)
  then Err (ArgCountError (Z.of_nat arity) (Z.of_nat (length raw)))
  else decode_dst 0 raw dst.

(* ---------------------------------------------------------------- *)
(** ** wire_error.go *)

Definition wireErrorKindBudget : bytes := B "budget".

Record wireError := { Kind : bytes; Data : RawMessage }.

#[global] Instance wireError_json : GoJson wireError := {|
  zero := {| Kind := []; Data := Raw [] |};
  to_json w :=
    let? data :=
      match raw_text (Data w) with
      | [] => Ok []
      | _ => let? j := to_json (Data w) in Ok [(B "data", j)]
      end in
    Ok (JObj ((B "kind", JStr (Kind w)) :: data));
  from_json strict :=
    decode_struct strict [
      typed_field (B "kind") Kind (fun k w => {| Kind := k; Data := Data w |});
      typed_field (B "data") Data (fun d w => {| Kind := Kind w; Data := d |})]
|}.

(** nil is the empty payload. *)
Definition encodeWireError (err : error) : bytes :=
  match as_budget err with
  | None => []
  | Some budget =>
      match Marshal budget with
      | Err _ => []
      | Ok data =>
          match Marshal {| Kind := wireErrorKindBudget; Data := Raw data |} with
          | Err _ => []
          | Ok payload => payload
          end
      end
  end.

Definition decodeWireError (payload message : bytes) : error :=
  if decide (length payload = 0%nat) then remoteError message
  else
    match Unmarshal payload (zero : wireError) with
    | Err _ => remoteError message
    | Ok wire =>
        if decide (Kind wire = wireErrorKindBudget) then
          match Unmarshal (raw_text (Data wire)) (zero : Budget) with
          | Ok budget => BudgetError budget
          | Err _ => remoteError message
          end
        else remoteError message
    end.

(* ---------------------------------------------------------------- *)
(** ** Lemmas *)

Lemma Unmarshal_print {A} `{GoJson A} j (v old : A) :
  wf_json j -> (depth j <= max_depth)%N -> from_json false j old = Some v ->
  Unmarshal (print j) old = Ok v.
Proof. intros Hwf Hd Hj. unfold Unmarshal. by rewrite parse_print, Hj. Qed.

(** [json.Unmarshal] undoes [json.Marshal] on the values JSON carries. *)
Lemma Unmarshal_Marshal {A} `{GoJson A} (v : A) :
  lossless v -> exists data, Marshal v = Ok data /\ Unmarshal data zero = Ok v.
Proof.
  intros (j & Hj & Hwf & Hd & Hv). exists (print j). unfold Marshal. rewrite Hj.
  split; [done|]. apply Unmarshal_print; [done|lia|done].
Qed.

Lemma depth_arr js : Forall (fun j => depth j < max_depth)%N js -> (depth (JArr js) <= max_depth)%N.
Proof.
  intros Hd. cbn. enough (foldr (fun j d => N.max (depth j) d) 0%N js < max_depth)%N by lia.
  induction Hd; cbn; [done|lia].
Qed.

(** The tuples JSON carries unchanged, position by position. *)
Class ArgsLaws (T : Type) `{Args T} := {
  args_lossless : T -> Prop;
  args_round_trip v :
    args_lossless v ->
    exists js, all_ok (args_json v) = Ok js /\ length js = arity
      /\ Forall wf_json js /\ Forall (fun j => depth j < max_depth)%N js
      /\ forall index, decode_dst index (map (fun j => Raw (print j)) js) args_zero = Ok v
}.

#[global] Program Instance args_nil_laws : ArgsLaws unit := {| args_lossless _ := True |}.
Next Obligation. intros [] _. by exists []. Qed.

#[global] Program Instance args_cons_laws {A T} `{GoJson A} `{ArgsLaws T} : ArgsLaws (A * T) :=
  {| args_lossless v := lossless v.1 /\ args_lossless v.2 |}.
Next Obligation.
  intros A T ? ? ? [v vs] [(j & Hj & Hwf & Hd & Hv) Hvs]. cbn in *.
  destruct (args_round_trip vs Hvs) as (js & Hjs & Hlen & Hwfs & Hds & Hdec).
  exists (j :: js). cbn. rewrite Hj. cbn. rewrite Hjs. cbn.
  split_and!; [done|by rewrite Hlen|by constructor|by constructor|].
  intros index. rewrite (Unmarshal_print j v) by (done || lia). cbn. by rewrite Hdec.
Qed.

Lemma raw_list js :
  mapM (fun j => from_json (A := RawMessage) false j zero) js = Some (map (fun j => Raw (print j)) js).
Proof. induction js as [|j js IH]; [done|]. cbn in *. by rewrite IH. Qed.

Lemma decodeArgs_print {T} `{Args T} js (dst : T) :
  Forall wf_json js -> Forall (fun j => depth j < max_depth)%N js -> length js = arity ->
  decodeArgs (print (JArr js)) dst = decode_dst 0 (map (fun j => Raw (print j)) js) dst.
Proof.
  intros Hwf Hd Hlen. unfold decodeArgs.
  rewrite (Unmarshal_print (JArr js) (map (fun j => Raw (print j)) js));
    [|by constructor|by apply depth_arr|apply raw_list].
  cbn -[decide]. rewrite length_map, decide_False by (intros []; done). done.
Qed.

(** The wire error that carries the text of [j] survives the wire. *)
Lemma wireError_round_trip j :
  wf_json j -> (depth j < max_depth)%N ->
  let w := {| Kind := wireErrorKindBudget; Data := Raw (print j) |} in
  exists payload, Marshal w = Ok payload /\ payload <> [] /\ Unmarshal payload zero = Ok w.
Proof.
  intros Hwf Hd w. set (wj := JObj [(B "kind", JStr wireErrorKindBudget); (B "data", j)]).
  assert (to_json w = Ok wj) as Hw.
  { cbn -[parse print]. destruct (print_head j Hwf) as (c & t & Et & _). rewrite Et.
    cbn -[parse print]. rewrite <-Et, parse_print by (done || lia). done. }
  assert (wf_json wj) as Hwf' by (unfold wj; wf_json).
  exists (print wj). split_and!.
  - unfold Marshal. by rewrite Hw.
  - by destruct (print_head wj Hwf') as (? & ? & -> & _).
  - apply Unmarshal_print; [done| |].
    + change (depth wj) with (1 + N.max 0 (N.max (depth j) 0))%N. lia.
    + cbn -[find_field print]. by decode_fields.
Qed.

Lemma args_cross {T} `{!Args T, !ArgsLaws T} (vals : T) :
  args_lossless vals ->
  exists data, encodeArgs vals = Ok data /\ decodeArgs data args_zero = Ok vals.
Proof.
  intros Hv. destruct (args_round_trip vals Hv) as (js & Hjs & Hlen & Hwf & Hd & Hdec).
  unfold encodeArgs. destruct (args_json vals) as [|r rs] eqn:Er.
  - exists (print JNull). split; [done|]. cbn in Hjs. simplify_eq.
    rewrite <-(Hdec 0). unfold decodeArgs.
    rewrite (Unmarshal_print JNull []) by (constructor || done). cbn -[decide] in *.
    rewrite decide_False by (rewrite Hlen; tauto). done.
  - rewrite <-Er, Hjs in *. eexists. split; [done|]. by rewrite decodeArgs_print.
Qed.

(** How an error of the far side arrives. *)
Definition crossing (err : error) : error :=
  match as_budget err with
  | Some b => BudgetError b
  | None => remoteError (Error err)
  end.

Lemma wire_error_crosses err :
  (forall b, as_budget err = Some b -> lossless b) ->
  decodeWireError (encodeWireError err) (Error err) = crossing err.
Proof.
  intros Hb. unfold crossing, encodeWireError. destruct (as_budget err) as [b|]; [|done].
  destruct (Hb b eq_refl) as (j & Hj & Hwf & Hd & Hv).
  assert (Marshal b = Ok (print j)) as -> by (unfold Marshal; by rewrite Hj).
  destruct (wireError_round_trip j Hwf Hd) as (payload & -> & Hne & Hu).
  unfold decodeWireError. rewrite decide_False by (by destruct payload).
  rewrite Hu. cbn -[decide print]. rewrite decide_True by done.
  by rewrite (Unmarshal_print j b) by (done || lia).
Qed.
End codec.

(** Shows that a tuple is lossless from its positions. *)
Ltac lossless_args :=
  repeat first [exact I
               | split; [first [assumption | by apply lossless_string | by apply lossless_int]|]].

(* ------------------------------------------------------------------ *)
(** ** Theorems *)

(** C9. The two halves of the wire codec agree: a tuple of arguments that JSON
    carries unchanged is encoded, and [decodeArgs] reads the same tuple back,
    for every number of arguments (the empty tuple, sent as null, included). *)
Theorem decode_encode_args `{E : Env} {T} `{!Args T, !ArgsLaws T} (vals : T) :
  args_lossless vals ->
  exists data, encodeArgs vals = Ok data /\ decodeArgs data args_zero = Ok vals.
Proof. apply args_cross. Qed.

(** [decodeArgs] is fail-closed on arity: a payload it decodes into at least
    one destination is the JSON array of exactly as many elements. *)
Theorem decodeArgs_arity `{E : Env} {T} `{!Args T} (data : bytes) (dst v : T) :
  (0 < arity (T := T))%nat -> decodeArgs data dst = Ok v ->
  exists l, parse data = Some (JArr l) /\ length l = arity.
Proof.
  intros Hpos. unfold decodeArgs, Unmarshal.
  destruct (parse data) as [[| | | |l|]|]; cbn -[decide]; try done.
  - intros. case_decide; [done|]. cbn in *. lia.
  - change (mapM _ l) with (mapM (fun j => from_json (A := RawMessage) false j zero) l).
    rewrite raw_list. cbn -[decide]. rewrite length_map. case_decide as Hl; [done|].
    intros _. exists l. split; [done|]. destruct (decide (length l = arity)); tauto.
Qed.

(** A payload with another number of arguments is refused with the counts,
    whatever the arguments are. *)
Theorem decodeArgs_count_error `{E : Env} {T} `{!Args T} (data : bytes) (l : list json) (dst : T) :
  parse data = Some (JArr l) -> length l <> arity (T := T) ->
  decodeArgs data dst = Err (ArgCountError (Z.of_nat (arity (T := T))) (Z.of_nat (length l))).
Proof.
  intros Hp Hl. unfold decodeArgs, Unmarshal. rewrite Hp. cbn -[decide].
  change (mapM _ l) with (mapM (fun j => from_json (A := RawMessage) false j zero) l).
  rewrite raw_list. cbn -[decide]. by rewrite length_map, decide_True.
Qed.

(** C29. A domain error crosses the wire: the budget error anywhere in its chain
    arrives as the same typed error, and every other error as a remote error
    with the same text. *)
Theorem wire_error_round_trip `{E : Env} (err : error) :
  (forall b, as_budget err = Some b -> lossless b) ->
  decodeWireError (encodeWireError err) (Error err)
  = match as_budget err with
    | Some b => BudgetError b
    | None => remoteError (Error err)
    end.
Proof. apply wire_error_crosses. Qed.

(* ------------------------------------------------------------------ *)
(** ** Witnesses *)

#[local] Existing Instance sample_env.

Lemma decode_encode_args_witness :
  exists data,
    encodeArgs (T := bytes * (Z * unit)) (B "facts/x", (3, tt)) = Ok data
    /\ decodeArgs (T := bytes * (Z * unit)) data args_zero = Ok (B "facts/x", (3, tt)).
Proof.
  apply (decode_encode_args (T := bytes * (Z * unit)) (B "facts/x", (3, tt))).
  split; [apply lossless_string; utf8|]. split; [by apply lossless_int|exact I].
Defined.

Lemma decodeArgs_arity_witness :
  exists l, parse (B "[3]") = Some (JArr l) /\ length l = arity (T := Z * unit).
Proof.
  apply (decodeArgs_arity (T := Z * unit) (B "[3]") (0, tt) (3, tt));
    [cbn; lia|vm_refl].
Defined.

Lemma decodeArgs_count_error_witness :
  decodeArgs (T := Z * (Z * unit)) (B "[3]") args_zero = Err (ArgCountError 2 1).
Proof.
  refine (decodeArgs_count_error (T := Z * (Z * unit)) (B "[3]") [JNum (B "3")] args_zero _ _);
    [vm_refl|cbn; lia].
Defined.

Definition sample_budget_error : error :=
  wrap (B "record: ") (BudgetError {| b_key := B "facts/x"; b_runes := 900; b_limit := 400 |}).

Lemma sample_budget_lossless (b : sample_budget) :
  Utf8 (b_key b) -> is_int64 (b_runes b) = true -> is_int64 (b_limit b) = true -> lossless b.
Proof.
  destruct b as [k r l]. intros Hk Hr Hl. eexists. split; [reflexivity|]. split_and!.
  - cbn in *. wf_json.
  - done.
  - intros strict. cbn -[find_field format_int parse_int] in *. decode_fields. done.
Qed.

Lemma wire_error_round_trip_witness :
  decodeWireError (encodeWireError sample_budget_error) (Error sample_budget_error)
  = BudgetError {| b_key := B "facts/x"; b_runes := 900; b_limit := 400 |}.
Proof.
  apply (wire_error_round_trip sample_budget_error).
  intros b [= <-]. apply sample_budget_lossless; [utf8|reflexivity|reflexivity].
Defined.
