(* ===== verification/Announce.v ===== *)
(** * Announce: announce.go and subjects.go

    The sealed announcement: the key, the authenticated envelope, the checks of
    a received message in their order, and the publication and subscription on
    the announce subject. Times are nanoseconds since the Unix epoch; the NATS
    connection is a parameter of the operations that use it. *)

From S2P Require Import Prelude Text Crypto Json Encoding Env Sample Errors Codec.

(** subjects.go *)
Definition SubjectAnnounce : bytes := B "plugins.announce".

Definition SessionEvents (session : bytes) : bytes := B "session." ++ session ++ B ".events".

(* ------------------------------------------------------------------ *)
(** ** time.Time and time.Duration *)

(** [t.Sub(u)] saturates at the bounds of an int64. *)
Definition time_Sub (t u : Z) : Z := Z.max min_int64 (Z.min max_int64 (t - u)).

(** [d.Abs()] of the least duration is the greatest one. *)
Definition duration_Abs (d : Z) : Z :=
  if 0 <=? d then d else if d =? min_int64 then max_int64 else - d.

(** [t.UnixNano()] *)
Definition time_UnixNano (t : Z) : Z := wrap64 t.

Definition Second : Z := 1000000000.

Definition AnnounceWindow : Z := 10 * Second.
Definition minAnnounceKeyLen : Z := 32.
Definition maxAnnounceBytes : Z := 32 * 1024.

(* ------------------------------------------------------------------ *)
(** ** The key *)

(** The secret the key points to; [None] is the nil pointer of the zero key. *)
Record AnnounceKey := { material : option bytes }.

Definition nonZeroByte (b : byte) : bool := bool_decide (b <> "000"%byte).

Definition AnnounceKey_String (k : AnnounceKey) : bytes := B "transport.AnnounceKey(redacted)".
Definition AnnounceKey_GoString (k : AnnounceKey) : bytes := AnnounceKey_String k.
Definition AnnounceKey_LogValue (k : AnnounceKey) : bytes := AnnounceKey_String k.

Definition usable (k : AnnounceKey) : bool := match material k with Some _ => true | None => false end.

(** The bytes the MAC authenticates: the issue time in decimal, a line feed,
    the body. *)
Definition mac_message (issuedAtUnixNano : Z) (body : bytes) : bytes :=
  format_int issuedAtUnixNano ++ "010"%byte :: body.

(** The MAC under the secret the key points to. *)
Definition mac (secret : bytes) (issuedAtUnixNano : Z) (body : bytes) : bytes :=
  hmac_sha256 secret (mac_message issuedAtUnixNano body).

Section announce.
Context `{Env}.

Definition ParseAnnounceKey (secret : bytes) : result AnnounceKey :=
  if (len secret <? minAnnounceKeyLen) || negb (existsb nonZeroByte secret)
  then Err (Sentinel ErrWeakAnnounceKey)
  else Ok {| material := Some secret |}.

(* ---------------------------------------------------------------- *)
(** ** The data *)

Record Announcement := Ann { ann_Manifest : Manifest; ann_GrpcAddr : bytes; ann_InstanceID : bytes }.

#[global] Instance Announcement_json : GoJson Announcement := {|
  zero := Ann zero [] [];
  to_json a :=
    let? m := to_json (ann_Manifest a) in
    Ok (JObj [(B "Manifest", m); (B "GrpcAddr", JStr (ann_GrpcAddr a)); (B "InstanceID", JStr (ann_InstanceID a))]);
  from_json strict := decode_struct strict [
    typed_field (B "Manifest") ann_Manifest (fun m a => Ann m (ann_GrpcAddr a) (ann_InstanceID a));
    typed_field (B "GrpcAddr") ann_GrpcAddr (fun g a => Ann (ann_Manifest a) g (ann_InstanceID a));
    typed_field (B "InstanceID") ann_InstanceID (fun i a => Ann (ann_Manifest a) (ann_GrpcAddr a) i)]
|}.

(** An announced remote plugin (remote_registry.go), of the same fields. *)
Record RemoteEntry := Entry { entry_Manifest : Manifest; entry_GrpcAddr : bytes; entry_InstanceID : bytes }.

Definition entry (a : Announcement) : RemoteEntry :=
  Entry (ann_Manifest a) (ann_GrpcAddr a) (ann_InstanceID a).

Record announceEnvelope := Envelope { IssuedAtUnixNano : Z; Body : bytes; MAC : bytes }.

#[global] Instance announceEnvelope_json : GoJson announceEnvelope := {|
  zero := Envelope 0 [] [];
  to_json e := Ok (JObj [(B "issued_at_unix_nano", JNum (format_int (IssuedAtUnixNano e)));
                         (B "body", bytes_to_json (Body e)); (B "mac", bytes_to_json (MAC e))]);
  from_json strict := decode_struct strict [
    typed_field (B "issued_at_unix_nano") IssuedAtUnixNano (fun t e => Envelope t (Body e) (MAC e));
    (B "body", fun _ j e => b ← bytes_from_json j (Body e); Some (Envelope (IssuedAtUnixNano e) b (MAC e)));
    (B "mac", fun _ j e => m ← bytes_from_json j (MAC e); Some (Envelope (IssuedAtUnixNano e) (Body e) m))]
|}.

(* ---------------------------------------------------------------- *)
(** ** Sealing and opening *)

Definition sealAnnouncement (key : AnnounceKey) (ann : Announcement) (now : Z) : result bytes :=
  match material key with
  | None => Err (Sentinel ErrNoAnnounceKey)
  | Some secret =>
      let? body := map_err (wrap (B "transport: marshal announcement: ")) (Marshal ann) in
      let issuedAt := time_UnixNano now in
      map_err (wrap (B "transport: marshal announcement: "))
        (Marshal (Envelope issuedAt body (mac secret issuedAt body)))
  end.

(** What [Decoder.Decode] reports when the data does not start with a value. *)
Definition stream_error (data : bytes) : error :=
  match skip_ws data with
  | [] => Sentinel EOF
  | _ => if json_truncated data then Sentinel ErrUnexpectedEOF else JsonStreamError data
  end.

(** A [json.Decoder] that refuses unknown fields reads one value, and nothing
    but blanks may follow it. *)
Definition decodeStrict {A} `{GoJson A} (data : bytes) (target : A) : result A :=
  let malformed err :=
    Errorf (Error (Sentinel ErrMalformedAnnouncement) ++ B ": " ++ Error err)
      [Sentinel ErrMalformedAnnouncement; err] in
  match parse_prefix data with
  | None => Err (malformed (stream_error data))
  | Some (j, rest) =>
      match from_json true j target with
      | None => Err (malformed (JsonTypeError (json_type_text A _ true data)))
      | Some v =>
          match skip_ws rest with
          | [] => Ok v
          | _ => Err (Errorf (Error (Sentinel ErrMalformedAnnouncement) ++ B ": trailing data after the value")
                        [Sentinel ErrMalformedAnnouncement])
          end
      end
  end.

(** The freshness check: the issue time is too far from the local clock. *)
Definition stale (now issuedAtUnixNano : Z) : bool :=
  AnnounceWindow <? duration_Abs (time_Sub now issuedAtUnixNano).

Definition openAnnouncement (key : AnnounceKey) (payload : bytes) (now : Z) : result Announcement :=
  match material key with
  | None => Err (Sentinel ErrNoAnnounceKey)
  | Some secret =>
      if (maxAnnounceBytes <? len payload) then Err (Sentinel ErrOversizedAnnouncement)
      else
        let? envelope := decodeStrict payload (zero : announceEnvelope) in
        if decide (MAC envelope <> mac secret (IssuedAtUnixNano envelope) (Body envelope))
        then Err (Sentinel ErrUnauthenticatedAnnouncement)
        else if stale now (IssuedAtUnixNano envelope) then Err (Sentinel ErrStaleAnnouncement)
        else decodeStrict (Body envelope) (zero : Announcement)
  end.

(* ---------------------------------------------------------------- *)
(** ** Publishing and watching *)

(** [publish] is the method of the NATS connection. *)
Definition Announce {W} (publish : bytes -> bytes -> W -> W * result unit)
    (ann : Announcement) (key : AnnounceKey) (now : Z) (w : W) : W * result unit :=
  match sealAnnouncement key ann now with
  | Err err => (w, Err err)
  | Ok payload =>
      let (w, r) := publish SubjectAnnounce payload w in
      (w, map_err (wrap (B "transport: publish announcement: ")) r)
  end.

(** A hook changes the world it runs in; [None] is a nil hook. What is
    returned is the handler the subscription runs on each message, one at a
    time, with the time it runs at. [subscribe] is the connection's. *)
Definition subscribeAnnouncements {W} (subscribe : bytes -> result unit) (key : AnnounceKey)
    (onAnnouncement : option (Announcement -> W -> W)) (onRejected : option (error -> W -> W))
    : result (Z -> bytes -> W -> W) :=
  match onAnnouncement, onRejected with
  | Some onAnnouncement, Some onRejected =>
      if negb (usable key) then Err (Sentinel ErrNoAnnounceKey)
      else
        let? _ := subscribe SubjectAnnounce in
        Ok (fun now data w =>
              match openAnnouncement key data now with
              | Err err => onRejected err w
              | Ok ann => onAnnouncement ann w
              end)
  | _, _ => Err (Sentinel ErrNilHook)
  end.

Definition WatchAnnouncements {W} (subscribe : bytes -> result unit) (key : AnnounceKey)
    (onAnnouncement : option (Announcement -> W -> W)) (onRejected : option (error -> W -> W)) :=
  subscribeAnnouncements subscribe key onAnnouncement onRejected.

(** The messages a subscription receives, in order, with their times. *)
Definition deliver {W} (handler : Z -> bytes -> W -> W) (messages : list (Z * bytes)) (w : W) : W :=
  foldl (fun w m => handler m.1 m.2 w) w messages.
End announce.

(* ------------------------------------------------------------------ *)
(** ** Lemmas *)

Section lemmas.
Context `{E : Env}.

Lemma format_int_no_lf z : "010"%byte ∉ format_int z.
Proof.
  intros Hin. pose proof (format_int_bytes z) as F. rewrite Forall_forall in F.
  by destruct (F _ Hin).
Qed.

Lemma stale_iff now issued : stale now issued = true <-> AnnounceWindow < Z.abs (now - issued).
Proof.
  unfold stale, duration_Abs, time_Sub, AnnounceWindow, Second, min_int64, max_int64.
  rewrite Z.ltb_lt. repeat case_match; bdec; lia.
Qed.

Lemma time_UnixNano_int64 t : is_int64 t = true -> time_UnixNano t = t.
Proof.
  unfold time_UnixNano, wrap64, is_int64, in_range, min_int64, max_int64. intros. bdec.
  rewrite Z.mod_small; lia.
Qed.

Lemma decodeStrict_print {A} `{!GoJson A} j (v old : A) :
  wf_json j -> (depth j <= max_depth)%N -> from_json true j old = Some v ->
  decodeStrict (print j) old = Ok v.
Proof.
  intros Hwf Hd Hj. unfold decodeStrict.
  by rewrite <-(app_nil_r (print j)), parse_prefix_print, Hj by done.
Qed.

Lemma decodeStrict_malformed {A} `{!GoJson A} data (old : A) err :
  decodeStrict data old = Err err ->
  exists text more, err = Errorf text (Sentinel ErrMalformedAnnouncement :: more)
    /\ Forall (fun e => forall s, of_package s -> is_sentinel s e = false) more.
Proof.
  unfold decodeStrict. intros. repeat case_match; simplify_eq; do 2 eexists; (split; [done|]);
    repeat constructor; intros s [? ?]; unfold stream_error; repeat case_match; try done; by apply bool_decide_eq_false.
Qed.

(** A decoding error is the malformed announcement, and no other variable of the
    package. *)
Lemma decodeStrict_classified {A} `{!GoJson A} data (old : A) err :
  decodeStrict data old = Err err ->
  forall s, of_package s -> is_sentinel s err = true <-> s = ErrMalformedAnnouncement.
Proof.
  intros (text & more & -> & Hmore)%decodeStrict_malformed s Hs. cbn.
  replace (existsb (is_sentinel s) more) with false; [rewrite orb_false_r; apply bool_decide_eq_true|].
  induction Hmore as [|e more He _ IH]; [done|]. cbn. by rewrite (He s Hs), <-IH.
Qed.

(** Under [errors.Is] an error is exactly one of the given variables. *)
Definition classified (among : list sentinel) (err : error) : Prop :=
  exists s, s ∈ among /\ forall s', of_package s' -> is_sentinel s' err = true <-> s' = s.

Lemma classified_sentinel among s : s ∈ among -> classified among (Sentinel s).
Proof. intros Hs. exists s. split; [done|]. intros s' _. cbn. apply bool_decide_eq_true. Qed.

Lemma malformed_classified among err :
  (forall s, of_package s -> is_sentinel s err = true <-> s = ErrMalformedAnnouncement) ->
  ErrMalformedAnnouncement ∈ among -> classified among err.
Proof. intros He Hin. by exists ErrMalformedAnnouncement. Qed.

Lemma Announcement_lossless (a : Announcement) :
  lossless (ann_Manifest a) -> Utf8 (ann_GrpcAddr a) -> Utf8 (ann_InstanceID a) ->
  exists j, to_json a = Ok j /\ wf_json j /\ (depth j <= max_depth)%N
    /\ forall strict, from_json strict j zero = Some a.
Proof.
  destruct a as [m g i]. cbn [ann_Manifest ann_GrpcAddr ann_InstanceID].
  intros (j & Hj & Hwf & Hd & Hm) Hg Hi. eexists. split; [cbn; rewrite Hj; reflexivity|]. split_and!.
  - wf_json.
  - cbn. lia.
  - intros strict. decode_fields. rewrite Hm. decode_fields. done.
Qed.

Lemma announceEnvelope_lossless (e : announceEnvelope) :
  is_int64 (IssuedAtUnixNano e) = true -> lossless e.
Proof.
  destruct e as [t b m]. cbn [IssuedAtUnixNano]. intros Ht. eexists. split; [reflexivity|].
  cbn [IssuedAtUnixNano Body MAC].
  pose proof (bytes_to_json_wf b) as [Hb Hbd]. pose proof (bytes_to_json_wf m) as [Hm Hmd]. split_and!.
  - wf_json.
  - change (depth _) with (1 + N.max 0 (N.max (depth (bytes_to_json b)) (N.max (depth (bytes_to_json m)) 0)))%N.
    by rewrite Hbd, Hmd.
  - intros strict. cbn -[find_field bytes_to_json bytes_from_json format_int parse_int].
    find_field. unfold typed_field. cbn -[find_field bytes_to_json bytes_from_json format_int parse_int].
    rewrite parse_format_int by done. cbn -[find_field bytes_to_json bytes_from_json].
    find_field. cbn -[find_field bytes_to_json bytes_from_json]. rewrite bytes_from_to_json.
    cbn -[find_field bytes_to_json bytes_from_json]. find_field.
    cbn -[find_field bytes_to_json bytes_from_json]. by rewrite bytes_from_to_json.
Qed.

Lemma time_UnixNano_range t : is_int64 (time_UnixNano t) = true.
Proof.
  unfold time_UnixNano, wrap64, is_int64, in_range, min_int64, max_int64.
  pose proof (Z.mod_pos_bound (t + 2 ^ 63) (2 ^ 64)). bdec. lia.
Qed.

(** What a payload sealed under a usable key holds. *)
Lemma sealed_envelope secret ann now payload :
  sealAnnouncement {| material := Some secret |} ann now = Ok payload ->
  exists body, Marshal ann = Ok body
    /\ decodeStrict payload zero = Ok (Envelope (time_UnixNano now) body (mac secret (time_UnixNano now) body)).
Proof.
  unfold sealAnnouncement. cbn [material]. destruct (Marshal ann) as [body|]; [|done]. cbn [map_err res_bind].
  destruct (announceEnvelope_lossless
    (Envelope (time_UnixNano now) body (mac secret (time_UnixNano now) body)) (time_UnixNano_range now))
    as (j & Hj & Hwf & Hd & Hv).
  unfold Marshal. rewrite Hj. cbn [map_err]. intros [= <-]. exists body. split; [done|].
  apply decodeStrict_print; [done|lia|done].
Qed.

(** An announcement JSON carries is read back from its body. *)
Lemma Announcement_read ann :
  lossless (ann_Manifest ann) -> Utf8 (ann_GrpcAddr ann) -> Utf8 (ann_InstanceID ann) ->
  exists body, Marshal ann = Ok body /\ decodeStrict body zero = Ok ann.
Proof.
  intros Hm Hg Hi. destruct (Announcement_lossless ann Hm Hg Hi) as (j & Hj & Hwf & Hd & Hv).
  exists (print j). split; [unfold Marshal; by rewrite Hj|]. by apply decodeStrict_print.
Qed.

Lemma sealAnnouncement_ok secret ann now :
  lossless (ann_Manifest ann) -> Utf8 (ann_GrpcAddr ann) -> Utf8 (ann_InstanceID ann) ->
  is_int64 now = true ->
  exists body payload,
    sealAnnouncement {| material := Some secret |} ann now = Ok payload
    /\ decodeStrict payload zero = Ok (Envelope now body (mac secret now body))
    /\ decodeStrict body zero = Ok ann.
Proof.
  intros Hm Hg Hi Hnow. destruct (Announcement_read ann Hm Hg Hi) as (body & Hbody & Hread).
  assert (exists payload, sealAnnouncement {| material := Some secret |} ann now = Ok payload) as [payload Hs].
  { unfold sealAnnouncement. cbn [material]. rewrite Hbody. cbn [map_err res_bind]. unfold Marshal. by eexists. }
  destruct (sealed_envelope _ _ _ _ Hs) as (body' & Hbody' & Henv). assert (body' = body) as -> by congruence.
  exists body, payload. by rewrite time_UnixNano_int64 in Henv.
Qed.

Lemma openAnnouncement_ok secret payload now ann :
  openAnnouncement {| material := Some secret |} payload now = Ok ann <->
  len payload <= maxAnnounceBytes
  /\ exists t body, decodeStrict payload zero = Ok (Envelope t body (mac secret t body))
  /\ Z.abs (now - t) <= AnnounceWindow /\ decodeStrict body zero = Ok ann.
Proof.
  unfold openAnnouncement. cbn [material].
  destruct (Z.ltb_spec maxAnnounceBytes (len payload)) as [Hlen|Hlen]; [split; [done|lia]|].
  destruct (decodeStrict payload zero) as [[t body m]|err]; cbn -[decide mac zero];
    [|by split; [|intros (_ & ? & ? & ? & _)]].
  pose proof (stale_iff now t). split.
  - case_decide as Hm; [done|]. destruct (stale now t) eqn:Hs; [done|]. intros Hann.
    split; [done|]. exists t, body. split_and!; [|lia|done].
    f_equal. f_equal. by destruct (decide (m = mac secret t body)).
  - intros (_ & t' & body' & [= -> -> ->] & Ht & Hann).
    rewrite decide_False by auto. destruct (stale now t') eqn:Hs; [lia|done].
Qed.
End lemmas.

(* ------------------------------------------------------------------ *)
(** ** Specification of the gate *)

(** The verdict on a message: the checks in the order they are made, each
    under the conditions that the earlier ones passed. *)
Inductive Verdict `{Env} (key : AnnounceKey) (payload : bytes) (now : Z) : result Announcement -> Prop :=
| verdict_no_key :
    material key = None -> Verdict key payload now (Err (Sentinel ErrNoAnnounceKey))
| verdict_oversized secret :
    material key = Some secret -> maxAnnounceBytes < len payload ->
    Verdict key payload now (Err (Sentinel ErrOversizedAnnouncement))
| verdict_malformed_envelope secret err :
    material key = Some secret -> len payload <= maxAnnounceBytes ->
    decodeStrict payload (zero : announceEnvelope) = Err err ->
    Verdict key payload now (Err err)
| verdict_unauthenticated secret t body m :
    material key = Some secret -> len payload <= maxAnnounceBytes ->
    decodeStrict payload zero = Ok (Envelope t body m) -> m <> mac secret t body ->
    Verdict key payload now (Err (Sentinel ErrUnauthenticatedAnnouncement))
| verdict_stale secret t body :
    material key = Some secret -> len payload <= maxAnnounceBytes ->
    decodeStrict payload zero = Ok (Envelope t body (mac secret t body)) ->
    AnnounceWindow < Z.abs (now - t) ->
    Verdict key payload now (Err (Sentinel ErrStaleAnnouncement))
| verdict_body secret t body r :
    material key = Some secret -> len payload <= maxAnnounceBytes ->
    decodeStrict payload zero = Ok (Envelope t body (mac secret t body)) ->
    Z.abs (now - t) <= AnnounceWindow -> decodeStrict body zero = r ->
    Verdict key payload now r.

(** Refutes a verdict whose conditions contradict those of the context. *)
Ltac refute :=
  inversion 1; subst;
  repeat match goal with
  | H1 : ?a = Ok _, H2 : ?a = Ok _ |- _ => rewrite H1 in H2
  | H1 : ?a = Some _, H2 : ?a = Some _ |- _ => rewrite H1 in H2
  end; simplify_eq; first [congruence | lia].

(** The five errors a message is rejected with. *)
Definition rejections : list sentinel :=
  [ErrNoAnnounceKey; ErrOversizedAnnouncement; ErrMalformedAnnouncement;
   ErrUnauthenticatedAnnouncement; ErrStaleAnnouncement].

Section theorems.
Context `{E : Env}.

(** C8. A sealed announcement of at most 32 KiB, opened under the key it was
    sealed with, is delivered unchanged exactly when the receiver's clock is
    within ten seconds of its issue time, edges included; outside that window
    it is refused as stale. *)
Theorem seal_open_round_trip (secret : bytes) (ann : Announcement) (issued now : Z) :
  lossless (ann_Manifest ann) -> Utf8 (ann_GrpcAddr ann) -> Utf8 (ann_InstanceID ann) ->
  is_int64 issued = true ->
  let key := {| material := Some secret |} in
  exists payload, sealAnnouncement key ann issued = Ok payload /\
    (len payload <= maxAnnounceBytes ->
     openAnnouncement key payload now =
       if Z.abs (now - issued) <=? AnnounceWindow then Ok ann else Err (Sentinel ErrStaleAnnouncement)).
Proof.
  intros Hm Hg Hi Ht key.
  destruct (sealAnnouncement_ok secret ann issued Hm Hg Hi Ht) as (body & payload & Hs & Hp & Hb).
  exists payload. split; [done|]. intros Hlen.
  unfold openAnnouncement, key. cbn [material].
  destruct (Z.ltb_spec maxAnnounceBytes (len payload)); [lia|].
  rewrite Hp. cbn -[decide mac zero]. rewrite decide_False by auto.
  pose proof (stale_iff now issued). destruct (stale now issued), (Z.leb_spec (Z.abs (now - issued)) AnnounceWindow);
    done || lia || intuition (discriminate || lia).
Qed.

(** C3. [openAnnouncement] implements the gate: its answer is the verdict of the
    specification, and no other answer is a verdict. *)
Theorem open_implements_verdict (key : AnnounceKey) (payload : bytes) (now : Z) (r : result Announcement) :
  openAnnouncement key payload now = r <-> Verdict key payload now r.
Proof.
  unfold openAnnouncement. destruct (material key) as [secret|] eqn:Hk.
  2: { split; [intros <-; by constructor|]. refute. }
  destruct (Z.ltb_spec maxAnnounceBytes (len payload)) as [Hlen|Hlen].
  { split; [intros <-; by econstructor|]. refute. }
  destruct (decodeStrict payload zero) as [[t body m]|err] eqn:Hp; cbn -[decide mac zero].
  2: { split; [intros <-; by econstructor|]. refute. }
  pose proof (stale_iff now t) as Hst. case_decide as Hm.
  { split; [intros <-; by econstructor|]. refute. }
  assert (m = mac secret t body) as -> by (by destruct (decide (m = mac secret t body))).
  destruct (stale now t).
  - assert (AnnounceWindow < Z.abs (now - t)) by (by apply Hst).
    split; [intros <-; by econstructor|]. refute.
  - assert (~ AnnounceWindow < Z.abs (now - t)) by (rewrite <-Hst; done).
    split; [intros; eapply verdict_body; first [eassumption | lia]|]. refute.
Qed.

(** Every rejection is classified: under [errors.Is] its error is one of the five
    documented ones, and no other variable of the package. *)
Theorem open_errors_classified (key : AnnounceKey) (payload : bytes) (now : Z) (err : error) :
  openAnnouncement key payload now = Err err -> classified rejections err.
Proof.
  unfold openAnnouncement. destruct (material key); [|intros [= <-]; apply classified_sentinel; repeat constructor].
  destruct (maxAnnounceBytes <? len payload); [intros [= <-]; apply classified_sentinel; repeat constructor|].
  destruct (decodeStrict payload zero) as [e|e] eqn:Hp; cbn -[decide mac zero];
    [|intros [= <-]; apply malformed_classified; [exact (decodeStrict_classified _ _ _ Hp)|repeat constructor]].
  case_decide; [intros [= <-]; apply classified_sentinel; repeat constructor|].
  destruct (stale now _); [intros [= <-]; apply classified_sentinel; repeat constructor|].
  intros Hb. apply malformed_classified; [exact (decodeStrict_classified _ _ _ Hb)|repeat constructor].
Qed.

(** With a usable key no message is refused for the lack of one. *)
Lemma open_keyed secret payload now err :
  openAnnouncement {| material := Some secret |} payload now = Err err ->
  is_sentinel ErrNoAnnounceKey err = false.
Proof.
  assert (forall A (J : GoJson A) data (old : A) e, decodeStrict data old = Err e ->
    is_sentinel ErrNoAnnounceKey e = false) as Hmal.
  { intros A J data old e He. apply not_true_is_false. intros Hs.
    apply (decodeStrict_classified _ _ _ He) in Hs; [done|by split]. }
  unfold openAnnouncement. cbn [material]. destruct (maxAnnounceBytes <? len payload); [by intros [= <-]|].
  destruct (decodeStrict payload zero) as [e|e] eqn:Hp; cbn -[decide mac zero]; [|intros [= <-]; by eapply Hmal].
  case_decide; [by intros [= <-]|]. destruct (stale now _); [by intros [= <-]|]. apply Hmal.
Qed.

(** The MAC authenticates the pair of issue time and body: no two pairs give
    the same authenticated bytes, whatever the body holds. *)
Theorem mac_message_injective (t t' : Z) (body body' : bytes) :
  mac_message t body = mac_message t' body' -> t = t' /\ body = body'.
Proof.
  by intros [?%format_int_inj ?]%app_sep_inj; [|apply format_int_no_lf..].
Qed.

(** C28. Tamper evidence. A message that is accepted while it carries the MAC a key
    holder issued for a time and a body holds that time and that body, and
    delivers what the body says; otherwise the bytes it authenticates, those of
    its own time and body, are others than the key holder's and have the same
    HMAC-SHA256 under the secret: its sender has found a second preimage of the
    MAC it carries. *)
Theorem tampering_needs_collision (secret payload body body' : bytes) (t t' now : Z) (ann : Announcement) :
  openAnnouncement {| material := Some secret |} payload now = Ok ann ->
  decodeStrict payload zero = Ok (Envelope t' body' (mac secret t body)) ->
  (t' = t /\ body' = body /\ decodeStrict body zero = Ok ann)
  \/ (mac_message t' body' <> mac_message t body
      /\ hmac_sha256 secret (mac_message t' body') = hmac_sha256 secret (mac_message t body)).
Proof.
  intros (_ & t1 & b1 & Hp & _ & Ha)%openAnnouncement_ok Hp'. rewrite Hp in Hp'.
  injection Hp' as -> -> Hm.
  destruct (decide (mac_message t' body' = mac_message t body)) as [E'|Hne].
  - left. unfold mac_message in E'.
    assert (t' = t /\ body' = body) as [-> ->]; [|done].
    apply app_sep_inj in E' as [->%format_int_inj ->]; [done|apply format_int_no_lf..].
  - right. by split.
Qed.

(** A secret is accepted as a key exactly when it has at least 32 bytes and
    one of them is not zero; the key then holds the secret unchanged. *)
Theorem ParseAnnounceKey_spec (secret : bytes) (key : AnnounceKey) :
  ParseAnnounceKey secret = Ok key <->
  32 <= len secret /\ (exists b, b ∈ secret /\ b <> "000"%byte) /\ key = {| material := Some secret |}.
Proof.
  unfold ParseAnnounceKey, minAnnounceKeyLen.
  destruct (Z.ltb_spec (len secret) 32) as [Hl|Hl]; cbn [orb]; [split; [done|lia]|].
  destruct (existsb nonZeroByte secret) eqn:Hz; cbn [negb].
  - apply existsb_exists in Hz as (b & Hb%list_elem_of_In & Hnz).
    unfold nonZeroByte in Hnz. rewrite bool_decide_eq_true in Hnz.
    split; [intros [= <-]; eauto|by intros (_ & _ & ->)].
  - split; [done|]. intros (_ & (b & Hb & Hnz) & _). exfalso.
    assert (existsb nonZeroByte secret = true); [|congruence].
    apply existsb_exists. exists b. split; [by apply list_elem_of_In|]. by apply bool_decide_eq_true.
Qed.

(** [Announce] publishes at most once, on the announce subject, what
    [sealAnnouncement] returned; without a usable key, or when the
    announcement does not marshal, nothing is published. *)
Theorem Announce_publishes (publish : bytes -> bytes -> list (bytes * bytes) -> list (bytes * bytes) * result unit)
    (ann : Announcement) (key : AnnounceKey) (now : Z) (log : list (bytes * bytes)) :
  (forall subject data log, (publish subject data log).1 = log ++ [(subject, data)]) ->
  (Announce publish ann key now log).1
  = log ++ match sealAnnouncement key ann now with
           | Ok payload => [(SubjectAnnounce, payload)]
           | Err _ => []
           end
  /\ (usable key = false -> Announce publish ann key now log = (log, Err (Sentinel ErrNoAnnounceKey))).
Proof.
  intros Hpub. unfold Announce. split.
  - destruct (sealAnnouncement key ann now) as [payload|err]; [|by rewrite app_nil_r].
    rewrite <-(Hpub SubjectAnnounce payload log). by destruct (publish _ _ _).
  - unfold usable, sealAnnouncement. by destruct (material key).
Qed.

(** A subscription is made exactly when both hooks are given, the key is
    usable and NATS accepts it; hooks are checked before the key. Its handler
    then calls, for the messages in order, one hook per message: the
    announcement hook with the announcement [openAnnouncement] returned, or
    the rejection hook with its error. *)
Theorem watch_one_hook_per_message {W} (subscribe : bytes -> result unit) (key : AnnounceKey)
    (onAnnouncement : option (Announcement -> W -> W)) (onRejected : option (error -> W -> W)) :
  match WatchAnnouncements subscribe key onAnnouncement onRejected with
  | Ok handler =>
      exists accept reject secret,
        onAnnouncement = Some accept /\ onRejected = Some reject /\ material key = Some secret
        /\ subscribe SubjectAnnounce = Ok tt
        /\ forall messages w,
             deliver handler messages w
             = foldl (fun w call => match call with inl ann => accept ann w | inr err => reject err w end) w
                 (map (fun m => match openAnnouncement key m.2 m.1 with Ok ann => inl ann | Err err => inr err end)
                    messages)
  | Err err =>
      err = Sentinel ErrNilHook /\ (onAnnouncement = None \/ onRejected = None)
      \/ err = Sentinel ErrNoAnnounceKey /\ is_Some onAnnouncement /\ is_Some onRejected /\ material key = None
      \/ subscribe SubjectAnnounce = Err err
  end.
Proof.
  unfold WatchAnnouncements, subscribeAnnouncements, usable.
  destruct onAnnouncement as [accept|], onRejected as [reject|]; [|by auto..].
  destruct (material key) as [secret|] eqn:Hk; cbn; [|by eauto 10].
  destruct (subscribe SubjectAnnounce) as [[]|err]; cbn; [|by auto].
  exists accept, reject, secret. split_and!; [done..|].
  unfold deliver. induction messages as [|[now data] messages IH]; intros w; [done|]. cbn. rewrite IH.
  by destruct (openAnnouncement key data now).
Qed.
End theorems.

(* ------------------------------------------------------------------ *)
(** ** Witnesses *)

#[local] Existing Instance sample_env.

Definition sample_secret : bytes := B "0123456789abcdef0123456789abcdef".
Definition sample_key : AnnounceKey := {| material := Some sample_secret |}.
Definition sample_now : Z := 1700000000 * Second.
Definition sample_announcement : Announcement :=
  Ann {| m_kind := B "sqlite"; m_category := B "memory" |} (B "127.0.0.1:50111") (B "abc").

Definition sample_payload : bytes :=
  match sealAnnouncement sample_key sample_announcement sample_now with
  | Ok payload => payload
  | Err _ => []
  end.

Definition sample_body : bytes :=
  match Marshal sample_announcement with
  | Ok body => body
  | Err _ => []
  end.

Lemma sample_manifest_lossless k c : Utf8 k -> Utf8 c -> lossless {| m_kind := k; m_category := c |}.
Proof.
  intros Hk Hc. eexists. split; [reflexivity|]. cbn [m_kind m_category]. split_and!.
  - wf_json.
  - done.
  - intros strict. by decode_fields.
Qed.

Lemma seal_open_round_trip_witness :
  exists payload, sealAnnouncement sample_key sample_announcement sample_now = Ok payload /\
    (len payload <= maxAnnounceBytes ->
     openAnnouncement sample_key payload (sample_now + AnnounceWindow)
     = if Z.abs (sample_now + AnnounceWindow - sample_now) <=? AnnounceWindow
       then Ok sample_announcement else Err (Sentinel ErrStaleAnnouncement)).
Proof.
  apply (seal_open_round_trip sample_secret sample_announcement sample_now);
    [apply sample_manifest_lossless; utf8|utf8|utf8|reflexivity].
Defined.

Lemma open_errors_classified_witness : classified rejections (Sentinel ErrStaleAnnouncement).
Proof.
  apply (open_errors_classified sample_key sample_payload 0). vm_refl.
Defined.

Lemma mac_message_injective_witness : 5 = 5 /\ B "body" = B "body".
Proof. apply (mac_message_injective 5 5 (B "body") (B "body")). reflexivity. Defined.

Lemma tampering_needs_collision_witness :
  (sample_now = sample_now /\ sample_body = sample_body
   /\ decodeStrict sample_body zero = Ok sample_announcement)
  \/ (mac_message sample_now sample_body <> mac_message sample_now sample_body
      /\ hmac_sha256 sample_secret (mac_message sample_now sample_body)
         = hmac_sha256 sample_secret (mac_message sample_now sample_body)).
Proof.
  apply (tampering_needs_collision sample_secret sample_payload sample_body sample_body
           sample_now sample_now sample_now sample_announcement); vm_refl.
Defined.

Lemma Announce_publishes_witness :
  let publish subject data log := (log ++ [(subject, data)], Ok tt) in
  (Announce publish sample_announcement sample_key sample_now []).1
  = [] ++ match sealAnnouncement sample_key sample_announcement sample_now with
          | Ok payload => [(SubjectAnnounce, payload)]
          | Err _ => []
          end
  /\ (usable sample_key = false ->
      Announce publish sample_announcement sample_key sample_now [] = ([], Err (Sentinel ErrNoAnnounceKey))).
Proof. intros publish. apply (Announce_publishes publish). reflexivity. Defined.
