(* ===== verification/NetAddr.v ===== *)
(** * NetAddr: the parts of package net the registry uses

    [net.SplitHostPort], [net.ParseIP] and [IP.IsLoopback], as functions of
    bytes, with what the registry's theorems need of them: the split of a plain
    host and port, and the parse of a dotted quad. *)

From S2P Require Import Prelude Text.

(* ------------------------------------------------------------------ *)
(** ** Searching bytes *)

(** The index of the first and of the last occurrence of a byte. *)
Fixpoint index_byte (c : byte) (s : bytes) : option nat :=
  match s with
  | [] => None
  | d :: s => if decide (d = c) then Some O else S <$> index_byte c s
  end.

Fixpoint last_index_byte (c : byte) (s : bytes) : option nat :=
  match s with
  | [] => None
  | d :: s =>
      match last_index_byte c s with
      | Some i => Some (S i)
      | None => if decide (d = c) then Some O else None
      end
  end.

Definition contains_byte (c : byte) (s : bytes) : bool := bool_decide (c ∈ s).

(* ------------------------------------------------------------------ *)
(** ** net.SplitHostPort: host and port, or the text of the [AddrError] *)

Definition addr_error (hostport why : bytes) : res bytes (bytes * bytes) :=
  Err (match hostport with
       | [] => why
       | _ => B "address " ++ hostport ++ B ": " ++ why
       end).

(** The checks made after the host is found, from offsets [j] and [k] on. *)
Definition split_finish (hostport host : bytes) (i j k : nat) : res bytes (bytes * bytes) :=
  if contains_byte "["%byte (drop j hostport) then addr_error hostport (B "unexpected '[' in address")
  else if contains_byte "]"%byte (drop k hostport) then addr_error hostport (B "unexpected ']' in address")
  else Ok (host, drop (S i) hostport).

Definition SplitHostPort (hostport : bytes) : res bytes (bytes * bytes) :=
  match last_index_byte ":"%byte hostport with
  | None => addr_error hostport (B "missing port in address")
  | Some i =>
      if bool_decide (head hostport = Some "["%byte) then
        match index_byte "]"%byte hostport with
        | None => addr_error hostport (B "missing ']' in address")
        | Some e =>
            if decide (S e = length hostport) then addr_error hostport (B "missing port in address")
            else if decide (S e = i) then
              split_finish hostport (take (e - 1) (drop 1 hostport)) i 1 (S e)
            else if bool_decide (hostport !! S e = Some ":"%byte)
            then addr_error hostport (B "too many colons in address")
            else addr_error hostport (B "missing port in address")
        end
      else
        let host := take i hostport in
        if contains_byte ":"%byte host then addr_error hostport (B "too many colons in address")
        else split_finish hostport host i 0 0
  end.

(* ------------------------------------------------------------------ *)
(** ** net.ParseIP: the sixteen bytes of an address *)

(** The parts of a string between the occurrences of a separator. *)
Fixpoint split_on (c : byte) (s : bytes) : list bytes :=
  match s with
  | [] => [[]]
  | d :: s =>
      if decide (d = c) then [] :: split_on c s
      else match split_on c s with
           | [] => [[d]]
           | p :: ps => (d :: p) :: ps
           end
  end.

(** A field of a dotted quad: digits without a leading zero, at most 255. *)
Definition parse_octet (s : bytes) : option Z :=
  match s with
  | [] => None
  | c :: r =>
      if bool_decide (c = "0"%byte /\ r <> []) then None
      else z ← digits_value 0 s; if z <=? 255 then Some z else None
  end.

Definition parse_ipv4 (s : bytes) : option (list Z) :=
  match split_on "."%byte s with
  | [a; b; c; d] =>
      a ← parse_octet a; b ← parse_octet b; c ← parse_octet c; d ← parse_octet d;
      Some [a; b; c; d]
  | _ => None
  end.

Definition hex_nibble (c : byte) : option Z :=
  let x := b2z c in
  if in_range x 48 57 then Some (x - 48)
  else if in_range x 97 102 then Some (x - 87)
  else if in_range x 65 70 then Some (x - 55)
  else None.

(** The run of hexadecimal digits a string starts with: its value, its length
    and what follows. *)
Fixpoint hex_run (acc : Z) (n : nat) (s : bytes) : Z * nat * bytes :=
  match s with
  | [] => (acc, n, [])
  | c :: r =>
      match hex_nibble c with
      | Some d => hex_run (acc * 16 + d) (S n) r
      | None => (acc, n, s)
      end
  end.

(** The groups of an IPv6 address. [out] holds the bytes read so far,
    [ellipsis] where the double colon stood; [n] is the number of groups there
    is still room for, eight at the start. What is returned is the text left. *)
Fixpoint ipv6_groups (n : nat) (out : list Z) (ellipsis : option nat) (s : bytes)
    : option (list Z * option nat * bytes) :=
  match n with
  | O => Some (out, ellipsis, s)
  | S n =>
      let '(acc, off, rest) := hex_run 0 0 s in
      if bool_decide (off = O \/ 4 < off)%nat then None
      else if bool_decide (head rest = Some "."%byte) then
        if bool_decide (ellipsis = None /\ length out <> 12%nat) then None
        else if bool_decide (16 < length out + 4)%nat then None
        else q ← parse_ipv4 s; Some (out ++ q, ellipsis, [])
      else
        let out := out ++ [acc / 256; acc mod 256] in
        match rest with
        | [] => Some (out, ellipsis, [])
        | c :: rest =>
            if decide (c <> ":"%byte) then None
            else match rest with
            | [] => None
            | c' :: rest' =>
                if decide (c' = ":"%byte) then
                  match ellipsis, rest' with
                  | Some _, _ => None
                  | None, [] => Some (out, Some (length out), [])
                  | None, _ => ipv6_groups n out (Some (length out)) rest'
                  end
                else ipv6_groups n out ellipsis rest
            end
        end
  end.

Definition expand_ellipsis (out : list Z) (ellipsis : option nat) : option (list Z) :=
  match ellipsis with
  | None => if decide (length out = 16%nat) then Some out else None
  | Some e =>
      if decide (length out = 16%nat) then None
      else Some (take e out ++ replicate (16 - length out) 0 ++ drop e out)
  end.

Definition parse_ipv6 (s : bytes) : option (list Z) :=
  let finish r :=
    '(out, ellipsis, rest) ← r;
    match rest with [] => expand_ellipsis out ellipsis | _ => None end in
  if has_prefix s (B "::") then
    match drop 2 s with
    | [] => Some (replicate 16 0)
    | r => finish (ipv6_groups 8 [] (Some O) r)
    end
  else finish (ipv6_groups 8 [] None s).

(** An IPv4 address in its sixteen-byte form. *)
Definition ipv4_mapped (q : list Z) : list Z := replicate 10 0 ++ [255; 255] ++ q.

(** The first dot or colon decides the family; a zone makes the parse fail. *)
Definition ParseIP (s : bytes) : option (list Z) :=
  if contains_byte "%"%byte s then None
  else
    match list_find (fun c => c = "."%byte \/ c = ":"%byte) s with
    | None => None
    | Some (_, c) =>
        if decide (c = "."%byte) then ipv4_mapped <$> parse_ipv4 s else parse_ipv6 s
    end.

(** 127.0.0.0/8, also in its mapped form, and ::1. *)
Definition IsLoopback (ip : list Z) : bool :=
  if decide (take 12 ip = replicate 10 0 ++ [255; 255])
  then bool_decide (ip !! 12%nat = Some 127)
  else bool_decide (ip = replicate 15 0 ++ [1]).

Definition is_loopback_text (s : bytes) : bool :=
  match ParseIP s with Some ip => IsLoopback ip | None => false end.

Example loopback_forms :
  is_loopback_text <$> [B "127.0.0.1"; B "127.255.0.9"; B "::1"; B "0:0:0:0:0:0:0:1"; B "::ffff:127.0.0.1"; B "::ffff:7f00:1"]
  = [true; true; true; true; true; true].
Proof. vm_compute. reflexivity. Qed.

Example not_loopback_forms :
  is_loopback_text <$> [B "10.0.0.5"; B "128.0.0.1"; B "127.0.0.01"; B "127.0.0"; B "127.0.0.256"; B "::"; B "::2";
    B "::1%lo"; B "1::1"; B "::1::"; B "fe80::1"; B "localhost"; B ""; B "127.0.0.1.1"; B "::127.0.0.1"]
  = [false; false; false; false; false; false; false; false; false; false; false; false; false; false; false].
Proof. vm_compute. reflexivity. Qed.

(* ------------------------------------------------------------------ *)
(** ** Lemmas *)

Lemma last_index_byte_none c b : c ∉ b -> last_index_byte c b = None.
Proof.
  induction b as [|d b IH]; [done|]. rewrite not_elem_of_cons. intros Hb. cbn.
  rewrite IH by tauto. rewrite decide_False by (intros ->; tauto). done.
Qed.

Lemma last_index_byte_app c a b : c ∉ b -> last_index_byte c (a ++ c :: b) = Some (length a).
Proof.
  intros Hb. induction a as [|d a IH]; cbn; [by rewrite last_index_byte_none, decide_True|]. by rewrite IH.
Qed.

Lemma contains_byte_false c s : c ∉ s -> contains_byte c s = false.
Proof. apply bool_decide_eq_false_2. Qed.

(** A plain host and a plain port are split at their colon. *)
Lemma SplitHostPort_plain host port :
  ":"%byte ∉ host -> ":"%byte ∉ port ->
  "["%byte ∉ host ++ port -> "]"%byte ∉ host ++ port ->
  SplitHostPort (host ++ ":"%byte :: port) = Ok (host, port).
Proof.
  intros Hh Hp Hl Hr. rewrite not_elem_of_app in Hl, Hr.
  unfold SplitHostPort. rewrite last_index_byte_app by done.
  rewrite bool_decide_eq_false_2.
  2: { destruct host as [|c host]; cbn; [congruence|]. rewrite not_elem_of_cons in Hl. intros [= ->]. tauto. }
  rewrite take_app_length, contains_byte_false by done.
  unfold split_finish. rewrite !drop_0.
  rewrite !contains_byte_false by (rewrite not_elem_of_app, not_elem_of_cons; split_and!; tauto || done).
  by rewrite drop_app_ge, Nat.sub_succ_l, Nat.sub_diag by lia.
Qed.

Lemma split_on_none c s : c ∉ s -> split_on c s = [s].
Proof.
  induction s as [|d s IH]; [done|]. rewrite not_elem_of_cons. intros [Hd Hs]. cbn.
  rewrite decide_False by done. by rewrite IH.
Qed.

Lemma split_on_app c p s : c ∉ p -> split_on c (p ++ c :: s) = p :: split_on c s.
Proof.
  induction p as [|d p IH]; [by cbn; rewrite decide_True|]. rewrite not_elem_of_cons. intros [Hd Hp]. cbn.
  rewrite decide_False by done. by rewrite IH.
Qed.

(** The text of a number below 256 holds digits only. *)
Lemma octet_digits z : 0 <= z -> Forall (fun c => is_digit c = true) (format_int z).
Proof.
  intros Hz. destruct (format_int_shape z) as (n & [[_ ->]|[E _]]); [apply uint_bytes_digits|].
  assert (n = 0%N) as -> by lia. rewrite E. repeat constructor.
Qed.

Lemma digits_not_in c z : 0 <= z -> is_digit c = false -> c ∉ format_int z.
Proof.
  intros Hz Hc Hin. pose proof (octet_digits z Hz) as F. rewrite Forall_forall in F.
  rewrite (F _ Hin) in Hc. done.
Qed.

Lemma parse_octet_format z : 0 <= z <= 255 -> parse_octet (format_int z) = Some z.
Proof.
  intros Hz. assert (format_int z = uint_bytes (N.to_uint (Z.to_N z))) as E.
  { unfold format_int. destruct z; done || lia. }
  pose proof (digits_value_N (Z.to_N z)) as Hd. rewrite <-E in Hd.
  destruct (uint_bytes_canonical (Z.to_N z)) as [E0 | (c & t & E0 & Hc & _)]; rewrite <-E in E0.
  - rewrite E0 in *. change (digits_value 0 (B "0")) with (Some 0) in Hd. injection Hd as Hd.
    change (Some 0 = Some z). f_equal. lia.
  - unfold parse_octet. rewrite E0 in *. rewrite bool_decide_eq_false_2.
    + rewrite Hd. cbn. destruct (Z.leb_spec (Z.of_N (Z.to_N z)) 255); [f_equal|]; lia.
    + intros [-> _]. done.
Qed.

(** The text of an IPv4 address. *)
Definition dotted_quad (a b c d : Z) : bytes :=
  format_int a ++ "."%byte :: format_int b ++ "."%byte :: format_int c ++ "."%byte :: format_int d.

Definition octet (z : Z) : Prop := 0 <= z <= 255.

Lemma dotted_quad_plain a b c d x :
  octet a -> octet b -> octet c -> octet d -> is_digit x = false -> x <> "."%byte -> x ∉ dotted_quad a b c d.
Proof.
  unfold octet. intros. unfold dotted_quad. repeat rewrite ?not_elem_of_app, ?not_elem_of_cons.
  split_and!; try done; apply digits_not_in; done || lia.
Qed.

Lemma ParseIP_dotted_quad a b c d :
  octet a -> octet b -> octet c -> octet d ->
  ParseIP (dotted_quad a b c d) = Some (ipv4_mapped [a; b; c; d]).
Proof.
  unfold octet. intros Ha Hb Hc Hd. unfold ParseIP.
  rewrite contains_byte_false by (by apply dotted_quad_plain).
  assert (exists i, list_find (fun c => c = "."%byte \/ c = ":"%byte) (dotted_quad a b c d) = Some (i, "."%byte)) as [i ->].
  { unfold dotted_quad. rewrite list_find_app_r; [cbn; by eauto|]. apply list_find_None.
    apply Forall_forall. intros x Hx [-> | ->]; revert Hx; apply digits_not_in; done || lia. }
  rewrite decide_True by done. unfold parse_ipv4, dotted_quad.
  do 3 (rewrite split_on_app by (apply digits_not_in; done || lia)).
  rewrite split_on_none by (apply digits_not_in; done || lia).
  rewrite !parse_octet_format by done. done.
Qed.

Lemma IsLoopback_ipv4 a b c d : IsLoopback (ipv4_mapped [a; b; c; d]) = bool_decide (a = 127).
Proof.
  unfold IsLoopback, ipv4_mapped. rewrite decide_True by done. cbn.
  apply bool_decide_ext. split; congruence.
Qed.

