(* ===== verification/Registry.v ===== *)
(** * Registry: remote_registry.go

    The registry of announced plugins and the gate in front of it, its queries,
    and the dialing of an announced address. A Go map is iterated in an order
    the runtime picks: [byCategory] takes the order of the keys as an argument.
    The gRPC connections and credentials are parameters of [dialConn]. *)

From S2P Require Import Prelude Text Json Encoding Env Sample Errors Codec Announce NetAddr.

Section registry.
Context `{Env}.

(* ------------------------------------------------------------------ *)
(** ** The registry *)

(** [None] is the nil allow function. *)
Record RemoteRegistry := Registry {
  entries : gmap bytes RemoteEntry;
  allow : option (bytes -> bool)
}.

Definition RegistryOption : Type := RemoteRegistry -> RemoteRegistry.

Definition WithAddrAllow (f : option (bytes -> bool)) : RegistryOption :=
  fun r => Registry (entries r) f.

Definition NewRemoteRegistry (opts : list RegistryOption) : RemoteRegistry :=
  foldl (fun registry o => o registry) (Registry ∅ None) opts.

(** The new registry, and the error ([Ok] for nil). *)
Definition observe (r : RemoteRegistry) (announcement : Announcement) : RemoteRegistry * result unit :=
  if decide (ann_InstanceID announcement = [] \/ manifest_Category (ann_Manifest announcement) = [])
  then (r, Err (Sentinel ErrUnusableAnnouncement))
  else
    match SplitHostPort (ann_GrpcAddr announcement) with
    | Err _ => (r, Err (Sentinel ErrUnusableAnnouncement))
    | Ok (host, port) =>
        if decide (host = [] \/ port = []) then (r, Err (Sentinel ErrUnusableAnnouncement))
        else
          match allow r with
          | None => (r, Err (Sentinel ErrAddrRefused))
          | Some f =>
              if negb (f (ann_GrpcAddr announcement)) then (r, Err (Sentinel ErrAddrRefused))
              else (Registry (<[ann_InstanceID announcement := entry announcement]> (entries r)) (allow r), Ok tt)
          end
    end.

(** The handler of the subscription, over the registry and the world the
    rejection hook runs in. *)
Definition Watch {W} (subscribe : bytes -> result unit) (key : AnnounceKey)
    (onRejected : option (error -> W -> W)) : result (Z -> bytes -> RemoteRegistry * W -> RemoteRegistry * W) :=
  subscribeAnnouncements subscribe key
    (Some (fun announcement '(r, w) =>
       match observe r announcement with
       | (r, Err err) => (r, match onRejected with Some f => f err w | None => w end)
       | (r, Ok _) => (r, w)
       end))
    (option_map (fun f err '(r, w) => (r, f err w)) onRejected).

(** The entries of a category, in the order the map is iterated in. *)
Definition byCategory (order : list bytes) (r : RemoteRegistry) (category : bytes) : list RemoteEntry :=
  omap (fun id =>
    e ← entries r !! id;
    if decide (manifest_Category (entry_Manifest e) = category) then Some e else None) order.

Definition Memories (order : list bytes) (r : RemoteRegistry) := byCategory order r CategoryMemory.
Definition Orchestrators (order : list bytes) (r : RemoteRegistry) := byCategory order r CategoryOrchestrator.
Definition Backends (order : list bytes) (r : RemoteRegistry) := byCategory order r CategoryBackend.

(** The orders a map may be iterated in. *)
Definition iteration (order : list bytes) (r : RemoteRegistry) : Prop :=
  order ≡ₚ (map_to_list (entries r)).*1.

(* ------------------------------------------------------------------ *)
(** ** Dialing *)

Definition requireLoopback (addr : bytes) : result unit :=
  match SplitHostPort addr with
  | Err text => Err (wrap (B "transport: invalid gRPC address " ++ quote addr ++ B ": ") (Foreign text))
  | Ok (host, _) =>
      if decide (host = B "localhost") then Ok tt
      else
        match ParseIP host with
        | Some ip => if IsLoopback ip then Ok tt else Err (PlaintextDialError addr)
        | None => Err (PlaintextDialError addr)
        end
  end.

Section dial.
Context {Creds Conn : Type}.
(** [insecure.NewCredentials()] and [grpc.NewClient]. *)
Context (insecure : Creds) (NewClient : bytes -> Creds -> result Conn).

(** [None] is nil credentials. *)
Definition dialConn (ctx : Ctx) (e : RemoteEntry) (creds : option Creds) : result Conn :=
  match ctx_Err ctx with
  | Some text => Err (Foreign text)
  | None =>
      match creds with
      | None =>
          let? _ := requireLoopback (entry_GrpcAddr e) in
          NewClient (entry_GrpcAddr e) insecure
      | Some creds => NewClient (entry_GrpcAddr e) creds
      end
  end.
End dial.
End registry.

(** An address on this host: localhost, an address of 127.0.0.0/8 (plain or
    mapped) or ::1. *)
Definition loopback_addr (addr : bytes) : Prop :=
  exists host port, SplitHostPort addr = Ok (host, port)
    /\ (host = B "localhost"
        \/ exists ip, ParseIP host = Some ip
            /\ (take 12 ip = replicate 10 0 ++ [255; 255] /\ ip !! 12%nat = Some 127
                \/ ip = replicate 15 0 ++ [1])).

(** When a dial can be made: the context is not done, and without credentials
    the address is on this host. *)
Definition dialable `{Env} {Creds} (ctx : Ctx) (creds : option Creds) (addr : bytes) : Prop :=
  ctx_Err ctx = None /\ (creds = None -> requireLoopback addr = Ok tt).

(* ------------------------------------------------------------------ *)
(** ** The announcements the gate admits *)

Definition admissible `{Env} (r : RemoteRegistry) (a : Announcement) : Prop :=
  ann_InstanceID a <> [] /\ manifest_Category (ann_Manifest a) <> []
  /\ (exists host port, SplitHostPort (ann_GrpcAddr a) = Ok (host, port) /\ host <> [] /\ port <> [])
  /\ exists f, allow r = Some f /\ f (ann_GrpcAddr a) = true.

Section lemmas.
Context `{E : Env}.
Implicit Types (r : RemoteRegistry) (a : Announcement).

Ltac refused s :=
  right; split;
  [intros (? & ? & (? & ? & ? & ?) & f' & ? & ?); simplify_eq; intuition congruence
  |exists s; split; [repeat constructor|done]].

Lemma observe_spec r a :
  (admissible r a
   /\ observe r a = (Registry (<[ann_InstanceID a := entry a]> (entries r)) (allow r), Ok tt))
  \/ (~ admissible r a /\ exists s, s ∈ [ErrUnusableAnnouncement; ErrAddrRefused]
      /\ observe r a = (r, Err (Sentinel s))).
Proof.
  unfold observe, admissible.
  case_decide as Hid; [refused ErrUnusableAnnouncement|].
  destruct (SplitHostPort (ann_GrpcAddr a)) as [[host port]|err]; [|refused ErrUnusableAnnouncement].
  case_decide as Hhp; [refused ErrUnusableAnnouncement|].
  destruct (allow r) as [f|] eqn:Hallow; [|refused ErrAddrRefused].
  destruct (f (ann_GrpcAddr a)) eqn:Hf; cbn; [|refused ErrAddrRefused].
  left. split; [|done]. split_and!; [tauto|tauto| |by eauto]. exists host, port. tauto.
Qed.

Lemma observe_admissible r a :
  admissible r a ->
  observe r a = (Registry (<[ann_InstanceID a := entry a]> (entries r)) (allow r), Ok tt).
Proof. intros Ha. destruct (observe_spec r a) as [[_ E']|[? _]]; done. Qed.

Lemma observe_allow r a : allow (observe r a).1 = allow r.
Proof. destruct (observe_spec r a) as [[_ ->]|(_ & s & _ & ->)]; done. Qed.

Lemma admissible_allow r r' a : allow r = allow r' -> admissible r a -> admissible r' a.
Proof. unfold admissible. by intros ->. Qed.

(** A query returns what is recorded, in whatever order the map is iterated. *)
Lemma elem_of_byCategory r order category e :
  iteration order r ->
  e ∈ byCategory order r category
  <-> exists id, entries r !! id = Some e /\ manifest_Category (entry_Manifest e) = category.
Proof.
  intros Ho. unfold byCategory. rewrite list_elem_of_omap. split.
  - intros (id & _ & He). exists id. destruct (entries r !! id) as [e'|]; [|done]. cbn in He.
    case_decide; simplify_eq. done.
  - intros (id & He & Hc). exists id. split.
    + rewrite Ho. apply list_elem_of_fmap. exists (id, e). split; [done|]. by apply elem_of_map_to_list.
    + rewrite He. cbn. by rewrite decide_True.
Qed.

Lemma requireLoopback_ok addr : requireLoopback addr = Ok tt -> loopback_addr addr.
Proof.
  unfold requireLoopback. destruct (SplitHostPort addr) as [[host port]|] eqn:Hs; [|done].
  case_decide as Hl; [intros _; exists host, port; auto|].
  destruct (ParseIP host) as [ip|] eqn:Hip; [|done].
  destruct (IsLoopback ip) eqn:Hlo; [|done]. intros _. exists host, port. split; [done|]. right.
  exists ip. split; [done|]. unfold IsLoopback in Hlo.
  case_decide; apply bool_decide_eq_true in Hlo; auto.
Qed.

Lemma dialConn_ok {Creds Conn} (insecure : Creds) (NewClient : bytes -> Creds -> result Conn) ctx e creds conn :
  dialConn insecure NewClient ctx e creds = Ok conn
  <-> dialable ctx creds (entry_GrpcAddr e) /\ NewClient (entry_GrpcAddr e) (default insecure creds) = Ok conn.
Proof.
  unfold dialConn, dialable. destruct (ctx_Err ctx); [split; [done|by intros [[? _] _]]|].
  destruct creds as [creds|]; cbn; [intuition done|].
  destruct (requireLoopback (entry_GrpcAddr e)) as [[]|]; cbn; [intuition done|].
  split; [done|]. intros [[_ Hr] _]. by specialize (Hr eq_refl).
Qed.
End lemmas.

(* ------------------------------------------------------------------ *)
(** ** The subscription as a fold *)

(** What the gate of [r] makes of a message received at a time. *)
Definition gate `{Env} (r : RemoteRegistry) (key : AnnounceKey) (message : Z * bytes) : Announcement + error :=
  match openAnnouncement key message.2 message.1 with
  | Err err => inr err
  | Ok a => match (observe r a).2 with Ok _ => inl a | Err err => inr err end
  end.

Definition accepted `{Env} (r : RemoteRegistry) (key : AnnounceKey) (messages : list (Z * bytes)) : list Announcement :=
  omap (fun m => match gate r key m with inl a => Some a | inr _ => None end) messages.

Definition rejected `{Env} (r : RemoteRegistry) (key : AnnounceKey) (messages : list (Z * bytes)) : list error :=
  omap (fun m => match gate r key m with inl _ => None | inr err => Some err end) messages.

Definition record_all `{Env} (m : gmap bytes RemoteEntry) (l : list Announcement) : gmap bytes RemoteEntry :=
  foldl (fun m a => <[ann_InstanceID a := entry a]> m) m l.

Section watch.
Context `{E : Env}.

Lemma gate_allow r r' key m : allow r = allow r' -> gate r key m = gate r' key m.
Proof.
  intros Ha. unfold gate. destruct (openAnnouncement key m.2 m.1) as [a|]; [|done].
  assert ((observe r a).2 = (observe r' a).2) as ->; [|done].
  unfold observe. rewrite Ha. by repeat case_match.
Qed.

Lemma gate_inl r key m a :
  gate r key m = inl a -> openAnnouncement key m.2 m.1 = Ok a /\ admissible r a.
Proof.
  unfold gate. destruct (openAnnouncement key m.2 m.1) as [a'|]; [|done].
  destruct (observe_spec r a') as [[Ha ->]|(_ & s & _ & ->)]; cbn; [|done].
  intros [= <-]. by split.
Qed.

Lemma Watch_handler {W} (subscribe : bytes -> result unit) key (reject : error -> W -> W) handler :
  Watch subscribe key (Some reject) = Ok handler ->
  forall now data r w,
    handler now data (r, w) =
      match gate r key (now, data) with
      | inl a => (Registry (<[ann_InstanceID a := entry a]> (entries r)) (allow r), w)
      | inr err => (r, reject err w)
      end.
Proof.
  unfold Watch, subscribeAnnouncements. cbn. destruct (negb _); [done|].
  destruct (subscribe SubjectAnnounce); [|done]. intros [= <-] now data r w. unfold gate. cbn.
  destruct (openAnnouncement key data now) as [ann|err]; [|done].
  by destruct (observe_spec r ann) as [[_ ->]|(_ & s & _ & ->)].
Qed.

(** The gate depends on the allowlist only, which no message changes. *)
Lemma gate_lists_allow r r' key messages :
  allow r = allow r' ->
  accepted r key messages = accepted r' key messages /\ rejected r key messages = rejected r' key messages.
Proof.
  intros Ha. unfold accepted, rejected. induction messages as [|m messages [IH1 IH2]]; [done|]. cbn.
  rewrite (gate_allow r r' key m Ha), IH1, IH2. done.
Qed.

Lemma deliver_fold {W} (subscribe : bytes -> result unit) key (reject : error -> W -> W) handler :
  Watch subscribe key (Some reject) = Ok handler ->
  forall messages r w,
    deliver handler messages (r, w) =
      (Registry (record_all (entries r) (accepted r key messages)) (allow r),
       foldl (fun w err => reject err w) w (rejected r key messages)).
Proof.
  intros Hh. unfold deliver. induction messages as [|[now data] messages IH]; intros r w; [by destruct r|].
  cbn. rewrite (Watch_handler _ _ _ _ Hh). destruct (gate r key (now, data)) as [a|err] eqn:Hg.
  - rewrite IH. cbn [allow entries].
    destruct (gate_lists_allow
      (Registry (<[ann_InstanceID a := entry a]> (entries r)) (allow r)) r key messages) as [-> ->]; [done|].
    unfold accepted, rejected. cbn -[gate]. by rewrite ?Hg.
  - rewrite IH. unfold accepted, rejected. cbn -[gate]. by rewrite ?Hg.
Qed.
End watch.

(* ------------------------------------------------------------------ *)
(** ** Theorems *)

Section theorems.
Context `{E : Env}.
Implicit Types (r : RemoteRegistry) (a : Announcement).

(** C10. The subscription partitions the messages: over any sequence of them, the
    registry records, in order, exactly the announcements the gate accepts, and
    the rejection hook runs, in order, exactly once for every other message.
    The allowlist never changes. *)
Theorem watch_partitions_messages {W} (subscribe : bytes -> result unit) (key : AnnounceKey)
    (reject : error -> W -> W) (handler : Z -> bytes -> RemoteRegistry * W -> RemoteRegistry * W)
    (messages : list (Z * bytes)) r (w : W) :
  Watch subscribe key (Some reject) = Ok handler ->
  deliver handler messages (r, w) =
    (Registry (record_all (entries r) (accepted r key messages)) (allow r),
     foldl (fun w err => reject err w) w (rejected r key messages))
  /\ (length (accepted r key messages) + length (rejected r key messages) = length messages)%nat.
Proof.
  intros Hh. split; [by eapply deliver_fold|].
  unfold accepted, rejected. induction messages as [|m messages IH]; [done|]. cbn -[gate].
  destruct (gate r key m); cbn -[gate]; lia.
Qed.

(** Provenance. Whatever is sent on the subject, an entry that is in the
    registry afterwards was there before, or is the announcement of a message
    that was authentic under the key and fresh when it arrived, is recorded
    under its own instance id, and passed the address gate. *)
Theorem registry_provenance {W} (subscribe : bytes -> result unit) (key : AnnounceKey)
    (reject : error -> W -> W) (handler : Z -> bytes -> RemoteRegistry * W -> RemoteRegistry * W)
    (messages : list (Z * bytes)) r (w : W) (id : bytes) (e : RemoteEntry) :
  Watch subscribe key (Some reject) = Ok handler ->
  entries (deliver handler messages (r, w)).1 !! id = Some e ->
  entries r !! id = Some e
  \/ exists now data a, (now, data) ∈ messages /\ openAnnouncement key data now = Ok a
      /\ admissible r a /\ e = entry a /\ id = ann_InstanceID a.
Proof.
  intros Hh. rewrite (deliver_fold _ _ _ _ Hh). cbn [fst entries].
  assert (forall l m, record_all m l !! id = Some e ->
    m !! id = Some e \/ exists a, a ∈ l /\ e = entry a /\ id = ann_InstanceID a) as Hfold.
  { induction l as [|a l IH]; intros m Hm; [by left|].
    destruct (IH _ Hm) as [Hi|(a' & ? & ? & ?)]; [|right; exists a'; set_solver].
    rewrite lookup_insert in Hi. case_decide; simplify_eq; [right; exists a; set_solver|by left]. }
  intros [?|(a & Ha & -> & ->)]%Hfold; [by left|right].
  unfold accepted in Ha. apply list_elem_of_omap in Ha as ([now data] & Hin & Hg).
  destruct (gate r key (now, data)) as [a'|] eqn:Hg'; simplify_eq.
  apply gate_inl in Hg' as [Ho Hadm]. by exists now, data, a.
Qed.

(** C11. The registry fails closed: built from any options of which the last sets a
    nil allowlist, or from none, it records no announcement whatever is
    received, and every message is reported to the rejection hook. *)
Theorem registry_fails_closed {W} (subscribe : bytes -> result unit) (key : AnnounceKey)
    (reject : error -> W -> W) (handler : Z -> bytes -> RemoteRegistry * W -> RemoteRegistry * W)
    (allowlists : list (option (bytes -> bool))) (messages : list (Z * bytes)) (w : W) :
  Watch subscribe key (Some reject) = Ok handler ->
  default None (last allowlists) = None ->
  let r := NewRemoteRegistry (map WithAddrAllow allowlists) in
  (deliver handler messages (r, w)).1 = Registry ∅ None
  /\ length (rejected r key messages) = length messages.
Proof.
  intros Hh Hlast r.
  assert (r = Registry ∅ None) as ->.
  { unfold r, NewRemoteRegistry. destruct allowlists as [|f l _] using rev_ind; [done|].
    rewrite last_snoc in Hlast. cbn in Hlast. subst.
    rewrite map_app, foldl_app. cbn. unfold WithAddrAllow. f_equal.
    induction l as [|f l IH] using rev_ind; [done|]. rewrite map_app, foldl_app. done. }
  assert (accepted (Registry ∅ None) key messages = []) as Hacc.
  { unfold accepted. induction messages as [|m messages IH]; [done|]. cbn -[gate].
    destruct (gate _ key m) as [a|] eqn:Hg; [|done].
    apply gate_inl in Hg as [_ (_ & _ & _ & f & ? & _)]. done. }
  rewrite (deliver_fold _ _ _ _ Hh), Hacc. split; [done|].
  clear Hh. revert Hacc. unfold accepted, rejected.
  induction messages as [|m messages IH]; [done|]. cbn -[gate].
  destruct (gate _ key m); [done|]. intros Hacc. cbn. by rewrite IH.
Qed.

(** From one end to the other: what a plugin with the key announces is found
    by a watching host. If the announcement is admissible and arrives within the
    window, the handler records it without a rejection, and a query for its
    category returns its entry, in whatever order the map is iterated. *)
Theorem announced_is_discovered {W} (subscribe : bytes -> result unit) (secret : bytes)
    (reject : error -> W -> W) (handler : Z -> bytes -> RemoteRegistry * W -> RemoteRegistry * W)
    a (issued now : Z) r (w : W) :
  let key := {| material := Some secret |} in
  Watch subscribe key (Some reject) = Ok handler ->
  lossless (ann_Manifest a) -> Utf8 (ann_GrpcAddr a) -> Utf8 (ann_InstanceID a) -> is_int64 issued = true ->
  Z.abs (now - issued) <= AnnounceWindow -> admissible r a ->
  exists payload, sealAnnouncement key a issued = Ok payload /\
    (len payload <= maxAnnounceBytes ->
     exists r', handler now payload (r, w) = (r', w)
       /\ forall order, iteration order r' ->
            entry a ∈ byCategory order r' (manifest_Category (ann_Manifest a))).
Proof.
  intros key Hh Hm Hg Hi Ht Hwin Hadm.
  destruct (sealAnnouncement_ok secret a issued Hm Hg Hi Ht) as (body & payload & Hs & Hp & Hb).
  exists payload. split; [done|]. intros Hlen.
  assert (openAnnouncement key payload now = Ok a) as Hopen
    by (apply openAnnouncement_ok; split; [done|]; by exists issued, body).
  rewrite (Watch_handler _ _ _ _ Hh). unfold gate. cbn [fst snd]. rewrite Hopen.
  rewrite (observe_admissible r a Hadm). cbn [snd]. eexists. split; [done|].
  intros order Ho. apply elem_of_byCategory; [done|]. exists (ann_InstanceID a).
  split; [apply lookup_insert_eq|done].
Qed.

(** An admissible announcement replaces what was recorded under its instance
    id and leaves every other entry alone; any other announcement changes
    nothing and is answered with one of the two refusals. *)
Theorem observe_records r a :
  match observe r a with
  | (r', Ok _) =>
      admissible r a /\ entries r' !! ann_InstanceID a = Some (entry a)
      /\ (forall id, id <> ann_InstanceID a -> entries r' !! id = entries r !! id)
      /\ allow r' = allow r
  | (r', Err err) =>
      ~ admissible r a /\ r' = r
      /\ (err = Sentinel ErrUnusableAnnouncement \/ err = Sentinel ErrAddrRefused)
  end.
Proof.
  destruct (observe_spec r a) as [[Ha ->]|(Ha & s & Hs & ->)].
  - split_and!; [done|apply lookup_insert_eq|intros; by apply lookup_insert_ne|done].
  - split_and!; [done..|]. set_unfold. naive_solver.
Qed.

(** Whatever order the map is iterated in, a query returns exactly the entries
    of its category, up to order, one per instance. *)
Theorem byCategory_exact r (order order' : list bytes) (category : bytes) :
  iteration order r -> iteration order' r ->
  byCategory order r category ≡ₚ byCategory order' r category
  /\ byCategory order r category
     ≡ₚ filter (fun e => manifest_Category (entry_Manifest e) = category) (map_to_list (entries r)).*2.
Proof.
  assert (forall order, iteration order r -> byCategory order r category
     ≡ₚ filter (fun e => manifest_Category (entry_Manifest e) = category) (map_to_list (entries r)).*2) as Hp.
  { intros o Ho. unfold byCategory. rewrite Ho.
    assert (Forall (fun kv => entries r !! kv.1 = Some kv.2) (map_to_list (entries r))) as F.
    { apply Forall_forall. intros [k v]. by rewrite elem_of_map_to_list. }
    induction F as [|[k v] l Hk _ IH]; [done|]. rewrite !fmap_cons, filter_cons. cbn in Hk |- *.
    rewrite Hk. cbn. case_decide; by rewrite IH. }
  intros Ho Ho'. split; [by rewrite (Hp _ Ho), (Hp _ Ho')|by apply Hp].
Qed.

(** A plaintext dial reaches the network only at a loopback address: the host
    is localhost, or an address of 127.0.0.0/8 (plain or mapped) or ::1, and
    the context is not done. *)
Theorem plaintext_dial_is_loopback {Creds Conn} (insecure : Creds) (NewClient : bytes -> Creds -> result Conn)
    (ctx : Ctx) (e : RemoteEntry) (conn : Conn) :
  dialConn insecure NewClient ctx e None = Ok conn ->
  ctx_Err ctx = None /\ NewClient (entry_GrpcAddr e) insecure = Ok conn
  /\ loopback_addr (entry_GrpcAddr e).
Proof.
  intros [[Hctx Hl] Hn]%dialConn_ok. split_and!; [done..|]. by apply requireLoopback_ok, Hl.
Qed.

(** For the address of an IPv4 host and any plain port, the plaintext dial is
    made exactly when the first octet is 127, and refused with the address
    otherwise; with credentials it is made to every address. *)
Theorem dial_ipv4 {Creds Conn} (insecure : Creds) (NewClient : bytes -> Creds -> result Conn)
    (ctx : Ctx) (e : RemoteEntry) (creds : option Creds) (a b c d : Z) (port : bytes) :
  octet a -> octet b -> octet c -> octet d ->
  ":"%byte ∉ port -> "["%byte ∉ port -> "]"%byte ∉ port ->
  entry_GrpcAddr e = dotted_quad a b c d ++ ":"%byte :: port ->
  ctx_Err ctx = None ->
  dialConn insecure NewClient ctx e creds =
    match creds with
    | Some creds => NewClient (entry_GrpcAddr e) creds
    | None => if decide (a = 127) then NewClient (entry_GrpcAddr e) insecure
              else Err (PlaintextDialError (entry_GrpcAddr e))
    end.
Proof.
  intros Ha Hb Hc Hd Hp Hp1 Hp2 He Hctx. unfold dialConn. rewrite Hctx.
  destruct creds as [creds|]; [done|]. unfold requireLoopback. rewrite He.
  rewrite SplitHostPort_plain;
    [|by apply dotted_quad_plain|done
     |rewrite not_elem_of_app; split; [by apply dotted_quad_plain|done]..].
  rewrite decide_False.
  2: { intros E'. assert ("l"%byte ∉ dotted_quad a b c d) as Hn by (by apply dotted_quad_plain).
       apply Hn. rewrite E'. by apply (bool_decide_unpack _). }
  rewrite ParseIP_dotted_quad by done. rewrite IsLoopback_ipv4.
  case_bool_decide; [by rewrite decide_True|by rewrite decide_False].
Qed.
End theorems.

(* ------------------------------------------------------------------ *)
(** ** Witnesses *)

#[local] Existing Instance sample_env.

Definition sample_registry : RemoteRegistry :=
  NewRemoteRegistry [WithAddrAllow (Some (fun addr => bool_decide (addr = B "127.0.0.1:50111")))].

Definition log_rejected (err : error) (log : list error) : list error := log ++ [err].

Definition sample_handler : Z -> bytes -> RemoteRegistry * list error -> RemoteRegistry * list error :=
  match Watch (fun _ => Ok tt) sample_key (Some log_rejected) with
  | Ok handler => handler
  | Err _ => fun _ _ s => s
  end.

Definition sample_messages : list (Z * bytes) :=
  [(sample_now, B "noise"); (sample_now, sample_payload); (sample_now + 60 * Second, sample_payload)].

Lemma watch_partitions_messages_witness :
  deliver sample_handler sample_messages (sample_registry, []) =
    (Registry (record_all (entries sample_registry) (accepted sample_registry sample_key sample_messages))
       (allow sample_registry),
     foldl (fun w err => log_rejected err w) [] (rejected sample_registry sample_key sample_messages))
  /\ (length (accepted sample_registry sample_key sample_messages)
      + length (rejected sample_registry sample_key sample_messages) = length sample_messages)%nat.
Proof. apply (watch_partitions_messages (fun _ => Ok tt)). reflexivity. Defined.

Definition sample_recorded : RemoteRegistry := (deliver sample_handler sample_messages (sample_registry, [])).1.

Lemma registry_provenance_witness :
  entries sample_registry !! B "abc" = Some (entry sample_announcement)
  \/ exists now data a, (now, data) ∈ sample_messages /\ openAnnouncement sample_key data now = Ok a
      /\ admissible sample_registry a /\ entry sample_announcement = entry a /\ B "abc" = ann_InstanceID a.
Proof.
  apply (registry_provenance (fun _ => Ok tt) sample_key log_rejected sample_handler sample_messages
           sample_registry [] (B "abc") (entry sample_announcement)); [reflexivity|].
  vm_refl.
Defined.

Lemma registry_fails_closed_witness :
  let r := NewRemoteRegistry (map WithAddrAllow [Some (fun _ => true); None]) in
  (deliver sample_handler sample_messages (r, [])).1 = Registry ∅ None
  /\ length (rejected r sample_key sample_messages) = length sample_messages.
Proof.
  apply (registry_fails_closed (fun _ => Ok tt) sample_key log_rejected sample_handler
           [Some (fun _ => true); None]); reflexivity.
Defined.

Lemma announced_is_discovered_witness :
  exists payload, sealAnnouncement sample_key sample_announcement sample_now = Ok payload /\
    (len payload <= maxAnnounceBytes ->
     exists r', sample_handler (sample_now + Second) payload (sample_registry, []) = (r', [])
       /\ forall order, iteration order r' ->
            entry sample_announcement
            ∈ byCategory order r' (manifest_Category (ann_Manifest sample_announcement))).
Proof.
  apply (announced_is_discovered (fun _ => Ok tt) sample_secret log_rejected sample_handler
           sample_announcement sample_now (sample_now + Second) sample_registry []);
    [reflexivity|apply sample_manifest_lossless; utf8|utf8|utf8|reflexivity|by compute|].
  split_and!; [done|done|by exists (B "127.0.0.1"), (B "50111")|].
  eexists. split; [reflexivity|]. by apply bool_decide_eq_true_2.
Defined.

Lemma byCategory_exact_witness :
  byCategory [B "abc"] sample_recorded CategoryMemory ≡ₚ byCategory [B "abc"] sample_recorded CategoryMemory
  /\ byCategory [B "abc"] sample_recorded CategoryMemory
     ≡ₚ filter (fun e => manifest_Category (entry_Manifest e) = CategoryMemory)
          (map_to_list (entries sample_recorded)).*2.
Proof.
  assert (iteration [B "abc"] sample_recorded) as Ho.
  { unfold iteration. replace (map_to_list (entries sample_recorded)).*1 with [B "abc"]; [done|vm_refl]. }
  exact (byCategory_exact sample_recorded _ _ CategoryMemory Ho Ho).
Defined.

Definition sample_client (addr : bytes) (creds : bool) : result bytes := Ok addr.

Lemma plaintext_dial_is_loopback_witness :
  ctx_Err (Env := sample_env) None = None /\ sample_client (B "127.0.0.1:50111") false = Ok (B "127.0.0.1:50111")
  /\ loopback_addr (B "127.0.0.1:50111").
Proof.
  apply (plaintext_dial_is_loopback false sample_client None (entry sample_announcement)). vm_refl.
Defined.

Lemma dial_ipv4_witness :
  dialConn false sample_client None
    (Entry (ann_Manifest sample_announcement) (B "10.0.0.7:50111") (B "abc")) None
  = Err (PlaintextDialError (B "10.0.0.7:50111")).
Proof.
  refine (dial_ipv4 false sample_client None
            (Entry (ann_Manifest sample_announcement) (B "10.0.0.7:50111") (B "abc"))
            None 10 0 0 7 (B "50111") _ _ _ _ _ _ _ _ _);
    first [by unfold octet; lia|by apply (bool_decide_unpack _)|reflexivity].
Defined.
