(* ===== verification/Plugin.v ===== *)
(** * Plugin: the generic Plugin service (plugin_router.go)

    The envelopes of proto/transport.proto, the router that dispatches the
    service to one skeleton per port, the claims that keep one router per gRPC
    server, the method [call] the two proxies share, and the network between a
    proxy and a router. Servers and clients pass an explicit world [W]: the
    state of the real objects behind the skeletons. Each method of the claims
    and the router runs under its mutex, so it is one step, except that a call
    runs its skeleton after it has left the lock: [serve_step] interleaves the
    atomic steps of the skeletons ([Threads]) with each other and with
    registrations. *)

From S2P Require Import Prelude Text Json Encoding Env Sample Errors Codec.
From stdpp Require Import relations.

Section plugin.
Context `{Env}.

(* ------------------------------------------------------------------ *)
(** ** Envelopes, servers and clients *)

Record MethodEnvelope := Request { Port : bytes; Method : bytes; req_JsonPayload : bytes }.
Record ResultEnvelope := Result { res_JsonPayload : bytes; res_Error : bytes }.

(** [pb.PluginServer] and [pb.PluginClient]: the method [Call]. *)
Definition PluginServer (W : Type) : Type := Ctx -> MethodEnvelope -> W -> W * result ResultEnvelope.
Definition PluginClient (W : Type) : Type := Ctx -> MethodEnvelope -> W -> W * result ResultEnvelope.

(** memory_skeleton.go: an error travels in band. *)
Definition fail (err : error) : result ResultEnvelope :=
  Ok (Result (encodeWireError err) (Error err)).

(* ------------------------------------------------------------------ *)
(** ** The router *)

Record PluginRouter (W : Type) := Router { ports : gmap bytes (PluginServer W) }.
Arguments Router {W} _.
Arguments ports {W} _.

Definition add {W} (r : PluginRouter W) (port : bytes) (skeleton : PluginServer W) : PluginRouter W * result unit :=
  match ports r !! port with
  | Some _ => (r, Err (Errorf (sentinel_text ErrPortRegistered ++ B ": " ++ port) [Sentinel ErrPortRegistered]))
  | None => (Router (<[port := skeleton]> (ports r)), Ok tt)
  end.

Definition Call {W} (r : PluginRouter W) : PluginServer W :=
  fun ctx env w =>
    match @lookup bytes (PluginServer W) _ _ (Port env) (ports r) with
    | None => (w, fail (UnknownPortError (Port env)))
    | Some skeleton => skeleton ctx env w
    end.

(* ------------------------------------------------------------------ *)
(** ** One router per server *)

(** A gRPC server is named by the identity its weak pointer keeps, which no
    other server ever has. The runtime knows which servers exist, which of
    them have a cleanup attached and which cleanups are due; [registered] is
    the log of the Plugin services registered on servers. *)
Record process := Process {
  servers : gset positive;
  live : gset positive;
  cleanups : gset positive;
  due : gset positive;
  registered : list positive
}.

Definition claim (server : positive) (p : process) : process * result unit :=
  if decide (server ∈ servers p) then (p, Err (Sentinel ErrPluginServiceRegistered))
  else (Process ({[server]} ∪ servers p) (live p) ({[server]} ∪ cleanups p) (due p) (registered p), Ok tt).

Definition release (key : positive) (p : process) : process :=
  Process (servers p ∖ {[key]}) (live p) (cleanups p) (due p) (registered p).

Definition NewPluginRouter {W} (server : positive) (p : process) : process * result (PluginRouter W) :=
  let (p, claimed) := claim server p in
  match claimed with
  | Err err => (p, Err err)
  | Ok _ =>
      let router := Router ∅ in
      (Process (servers p) (live p) (cleanups p) (due p) (registered p ++ [server]), Ok router)
  end.

(** What a process does with servers: it makes one, asks for a router on one
    it holds, or loses the last pointer to one; the runtime then runs the
    cleanup attached to it, if any, once. *)
Inductive step {W : Type} : process -> process -> Prop :=
| step_new_server s p :
    s ∉ live p -> s ∉ servers p -> s ∉ cleanups p -> s ∉ due p -> s ∉ registered p ->
    step p (Process (servers p) ({[s]} ∪ live p) (cleanups p) (due p) (registered p))
| step_router s p :
    s ∈ live p ->
    step p (NewPluginRouter (W := W) s p).1
| step_unreachable s p :
    s ∈ live p ->
    step p (Process (servers p) (live p ∖ {[s]}) (cleanups p ∖ {[s]})
              (due p ∪ (cleanups p ∩ {[s]})) (registered p))
| step_cleanup s p :
    s ∈ due p ->
    step p (release s (Process (servers p) (live p) (cleanups p) (due p ∖ {[s]}) (registered p))).

Definition process_start : process := Process ∅ ∅ ∅ ∅ [].

(* ------------------------------------------------------------------ *)
(** ** The client side *)

(** [MemoryProxy.call] and [OrchestratorProxy.call] differ in the port only. *)
Definition proxy_call {W T} `{!Args T} (port : bytes) (client : PluginClient W) (ctx : Ctx) (method : bytes)
    (args : T) : W -> W * result ResultEnvelope :=
  match encodeArgs args with
  | Err err => state_ret (Err err)
  | Ok payload =>
      do res <- client ctx (Request port method payload);
      state_ret
        match res with
        | Err err => Err err
        | Ok res =>
            if decide (res_Error res <> []) then Err (decodeWireError (res_JsonPayload res) (res_Error res))
            else Ok res
        end
  end.

(** [_, err := p.call(...); return err] *)
Definition only_error {W A} (m : W -> W * result A) : W -> W * result unit :=
  do res <- m; state_ret (match res with Ok _ => Ok tt | Err err => Err err end).

(** [res, err := p.call(...)], then the one value of the answer is decoded. *)
Definition decoded {W A} `{!GoJson A} (m : W -> W * result ResultEnvelope) : W -> W * result A :=
  do res <- m;
  state_ret
    match res with
    | Err err => Err err
    | Ok res =>
        let? out := decodeArgs (res_JsonPayload res) ((zero, tt) : A * unit) in
        Ok out.1
    end.

(** [Close] of a proxy: it closes the connection it dialed, if any. *)
Definition closeDialed {W} (dialed : option (W -> W * result unit)) : W -> W * result unit :=
  match dialed with
  | Some close => close
  | None => state_ret (Ok tt)
  end.
End plugin.
Arguments Router {_ W} _.
Arguments ports {_ W} _.

(* ------------------------------------------------------------------ *)
(** ** The network between a proxy and a server *)

(** What becomes of a call: the answer arrives; the server ran the method and
    its answer is lost; or the server never saw the call. gRPC does not repeat
    a call the server may have seen. *)
Inductive fate : Type :=
| Delivered
| Lost (status : bytes)
| Unreached (status : bytes).

Definition transmit {W A} `{Env} (f : fate) (run : W -> W * result A) : W -> W * result A :=
  fun w =>
    match f with
    | Delivered => run w
    | Lost status => ((run w).1, Err (Foreign status))
    | Unreached status => (w, Err (Foreign status))
    end.

(** [client] is connected to [server]: contexts arrive as [incoming] makes
    them, and every call has one of the three fates. *)
Definition connected {W} `{Env} (incoming : Ctx -> Ctx) (fates : Ctx -> MethodEnvelope -> W -> fate)
    (server : PluginServer W) (client : PluginClient W) : Prop :=
  forall ctx env w, client ctx env w = transmit (fates ctx env w) (server (incoming ctx) env) w.

(* ------------------------------------------------------------------ *)
(** ** Calls and registrations at the same time *)

(** A skeleton runs without the router's lock, so its call is not one step:
    [begin] is the activity a call of a skeleton starts, [advance] one atomic
    step of it on the world the activities share, [answer] what it returned
    once it has. *)
Class Threads `{Env} (W : Type) := {
  activity : Type;
  begin : PluginServer W -> Ctx -> MethodEnvelope -> activity;
  advance : activity -> W -> W * activity;
  answer : activity -> option (result ResultEnvelope)
}.

(** An activity that nothing else interrupts, for [n] steps at most. *)
Fixpoint alone `{Threads W} (n : nat) (a : activity) (w : W) : option (W * result ResultEnvelope) :=
  match answer a, n with
  | Some res, _ => Some (w, res)
  | None, O => None
  | None, S n => let (w, a) := advance a w in alone n a w
  end.

(** Left alone, the activity of a skeleton does what the skeleton does. *)
Class ThreadsLaw `{Env} (W : Type) `{!Threads W} : Prop :=
  alone_begin : forall (skeleton : PluginServer W) ctx env w,
    exists n, alone n (begin skeleton ctx env) w = Some (skeleton ctx env w).

(** Where a call of the router is: before it reads the table of ports, answered
    because its port is not in it, or in the skeleton it found. *)
Inductive call_status `{Threads W} : Type :=
| Arrived
| Unknown
| Running (a : activity).
Arguments call_status {_} W {_}.

Record call `{Threads W} := Flight { call_ctx : Ctx; call_env : MethodEnvelope; status : call_status W }.
Arguments call {_} W {_}.
Arguments Flight {_ W _} _ _ _.
Arguments call_ctx {_ W _} _.
Arguments call_env {_ W _} _.
Arguments status {_ W _} _.

Definition answered `{Threads W} (c : call W) : option (result ResultEnvelope) :=
  match status c with
  | Arrived => None
  | Unknown => Some (fail (UnknownPortError (Port (call_env c))))
  | Running a => answer a
  end.

Definition moved `{Threads W} (c : call W) (st : call_status W) : call W := Flight (call_ctx c) (call_env c) st.

(** A router that serves while ports are registered on it. [schedule] records
    which call the steps of the skeletons belong to. *)
Record serving `{Threads W} := Serving {
  table : PluginRouter W;
  world : W;
  calls : gmap nat (call W);
  schedule : list nat
}.
Arguments serving {_} W {_}.
Arguments Serving {_ W _} _ _ _ _.
Arguments table {_ W _} _.
Arguments world {_ W _} _.
Arguments calls {_ W _} _.
Arguments schedule {_ W _} _.

Inductive serve_step `{Threads W} : serving W -> serving W -> Prop :=
| serve_arrive g ctx env r w cs l :
    cs !! g = None ->
    serve_step (Serving r w cs l) (Serving r w (<[g := Flight ctx env Arrived]> cs) l)
| serve_add port skeleton r w cs l :
    serve_step (Serving r w cs l) (Serving (add r port skeleton).1 w cs l)
| serve_found g c skeleton r w cs l :
    cs !! g = Some c -> status c = Arrived -> ports r !! Port (call_env c) = Some skeleton ->
    serve_step (Serving r w cs l)
      (Serving r w (<[g := moved c (Running (begin skeleton (call_ctx c) (call_env c)))]> cs) l)
| serve_unknown g c r w cs l :
    cs !! g = Some c -> status c = Arrived -> ports r !! Port (call_env c) = None ->
    serve_step (Serving r w cs l) (Serving r w (<[g := moved c Unknown]> cs) l)
| serve_advance g c a r w cs l :
    cs !! g = Some c -> status c = Running a -> answer a = None ->
    serve_step (Serving r w cs l)
      (Serving r (advance a w).1 (<[g := moved c (Running (advance a w).2)]> cs) (l ++ [g])).

(** The activities of the calls that run, as they are and as they began, each
    with the skeleton a router has on its port. *)
Definition running `{Threads W} (c : call W) : option activity :=
  match status c with Running a => Some a | _ => None end.

Definition began `{Threads W} (r : PluginRouter W) (c : call W) : option activity :=
  match status c with
  | Running _ =>
      (fun skeleton => begin skeleton (call_ctx c) (call_env c))
        <$> (ports r !! Port (call_env c) : option (PluginServer W))
  | _ => None
  end.

(** Activities on their own, without a router: they take steps in the order of
    a schedule. *)
Definition interleave_step `{Threads W} (s : W * gmap nat activity) (g : nat) : W * gmap nat activity :=
  let (w, acts) := s in
  match acts !! g with
  | Some a => let (w, a) := advance a w in (w, <[g := a]> acts)
  | None => (w, acts)
  end.

Definition interleave `{Threads W} (s : W * gmap nat activity) (l : list nat) : W * gmap nat activity :=
  foldl interleave_step s l.

(* ------------------------------------------------------------------ *)
(** ** Lemmas: claims *)

Section claims.
Context `{E : Env}.
Implicit Types p : process.

(** A claim is kept exactly while its cleanup is attached or due, and the
    servers with a cleanup attached are the live ones with a router. *)
Definition claims_inv p : Prop :=
  NoDup (registered p)
  /\ forall s,
       (s ∈ servers p <-> s ∈ cleanups p \/ s ∈ due p)
       /\ (s ∈ due p -> s ∉ live p)
       /\ (s ∈ cleanups p <-> s ∈ live p /\ s ∈ registered p)
       /\ (s ∈ due p -> s ∈ registered p).

Lemma claimed_iff p s :
  claims_inv p -> s ∈ live p -> (s ∈ servers p <-> s ∈ registered p).
Proof. intros [_ Hp] Hs. specialize (Hp s). tauto. Qed.

Lemma claims_inv_router {W} p s : claims_inv p -> s ∈ live p -> claims_inv (NewPluginRouter (W := W) s p).1.
Proof.
  intros Hp Hs. pose proof (claimed_iff p s Hp Hs) as Hc. destruct Hp as [Hn Hp].
  unfold NewPluginRouter, claim. case_decide as Hin; [by split|]. split; cbn.
  - apply NoDup_app. split; [done|]. split; [|apply NoDup_singleton].
    intros x Hx ->%list_elem_of_singleton. tauto.
  - intros x. specialize (Hp x). set_unfold. destruct (decide (x = s)) as [->|]; tauto.
Qed.

Lemma claims_inv_step {W} p p' : step (W := W) p p' -> claims_inv p -> claims_inv p'.
Proof.
  intros Hstep Hp. destruct Hstep as [s p Hl Hs Hc Hd Hr|s p Hs|s p Hs|s p Hs];
    [|by apply claims_inv_router|..];
    destruct Hp as [Hn Hp]; (split; [done|]); intros x; cbn;
    specialize (Hp x); set_unfold; destruct (decide (x = s)) as [->|]; tauto.
Qed.

Lemma claims_inv_start : claims_inv process_start.
Proof. split; cbn; [constructor|]. set_solver. Qed.

Lemma claims_inv_reachable {W} p : rtc (step (W := W)) process_start p -> claims_inv p.
Proof.
  apply (rtc_ind_r claims_inv process_start); [apply claims_inv_start|].
  intros y z _ Hyz. by apply (claims_inv_step y z Hyz).
Qed.
End claims.

(* ------------------------------------------------------------------ *)
(** ** Lemmas: the router and the network *)

Section router.
Context `{E : Env}.

Lemma Call_registered {W} (r : PluginRouter W) port (skeleton : PluginServer W) ctx method payload w :
  ports r !! port = Some skeleton ->
  Call r ctx (Request port method payload) w = skeleton ctx (Request port method payload) w.
Proof. intros Hp. unfold Call. cbn. by rewrite Hp. Qed.

(** The outcomes the wire can carry: a value JSON does not change, an error
    with a text. *)
Definition portable {A} `{!GoJson A} (r : result A) : Prop :=
  match r with
  | Ok a => lossless a
  | Err err => Error err <> [] /\ forall b, as_budget err = Some b -> lossless b
  end.

Definition portable_error {A} (r : result A) : Prop :=
  match r with
  | Ok _ => True
  | Err err => Error err <> [] /\ forall b, as_budget err = Some b -> lossless b
  end.

Lemma encodeArgs_one {A} `{!GoJson A} (a : A) :
  lossless a -> exists out, encodeArgs (a, tt) = Ok out /\ decodeArgs out (args_zero : A * unit) = Ok (a, tt).
Proof. intros Ha. by apply (args_cross (a, tt)). Qed.

(** The operation [real] as a client sees it across the network. *)
Definition remotely {W A} (f : fate) (real : W -> W * result A) : W -> W * result A :=
  transmit f (fun w => let (w, r) := real w in (w, map_err crossing r)).

#[local] Arguments encodeArgs : simpl never.
#[local] Arguments decodeArgs : simpl never.

Section remote.
Context {W : Type} (incoming : Ctx -> Ctx) (fates : Ctx -> MethodEnvelope -> W -> fate)
  (server : PluginServer W) (client : PluginClient W) (Hclient : connected incoming fates server client).

(** A method without a value: the skeleton answers with an empty envelope. *)
Lemma only_error_remote {T} `{!Args T} port ctx method (args : T) payload (real : W -> W * result unit) w :
  encodeArgs args = Ok payload ->
  server (incoming ctx) (Request port method payload) w
  = (let (w, r) := real w in
     (w, match r with Err err => fail err | Ok _ => Ok (Result [] []) end)) ->
  portable_error (real w).2 ->
  only_error (proxy_call port client ctx method args) w
  = remotely (fates ctx (Request port method payload) w) real w.
Proof using Hclient.
  intros Hpay Hserver Hr. unfold only_error, proxy_call, state_bind, state_ret. rewrite Hpay, Hclient.
  unfold remotely, transmit. rewrite Hserver. destruct (real w) as [w' r].
  destruct (fates _ _ _); cbn; [|done..]. destruct r as [[]|err]; [done|].
  destruct Hr as [Hne Hb]. cbn. rewrite decide_True by done. by rewrite (wire_error_crosses err Hb).
Qed.

(** A method with a value: the skeleton answers with its encoding. *)
Lemma decoded_remote {T A} `{!Args T, !GoJson A} port ctx method (args : T) payload (real : W -> W * result A) w :
  encodeArgs args = Ok payload ->
  server (incoming ctx) (Request port method payload) w
  = (let (w, r) := real w in
     (w, match r with
         | Err err => fail err
         | Ok a => match encodeArgs (a, tt) with Err err => fail err | Ok out => Ok (Result out []) end
         end)) ->
  portable (real w).2 ->
  decoded (proxy_call port client ctx method args) w
  = remotely (fates ctx (Request port method payload) w) real w.
Proof using Hclient.
  intros Hpay Hserver Hr. unfold decoded, proxy_call, state_bind, state_ret. rewrite Hpay, Hclient.
  unfold remotely, transmit. rewrite Hserver. destruct (real w) as [w' r].
  destruct (fates _ _ _); cbn; [|done..]. destruct r as [a|err].
  - destruct (encodeArgs_one a Hr) as (out & -> & Hd). cbn in Hd |- *. rewrite decide_False by auto. cbn. by rewrite Hd.
  - destruct Hr as [Hne Hb]. cbn. rewrite decide_True by done. by rewrite (wire_error_crosses err Hb).
Qed.

(** An error without a text is taken for success. *)
Lemma only_error_blank {T} `{!Args T} port ctx method (args : T) payload (real : W -> W * result unit) w w' err :
  encodeArgs args = Ok payload ->
  server (incoming ctx) (Request port method payload) w
  = (let (w, r) := real w in
     (w, match r with Err err => fail err | Ok _ => Ok (Result [] []) end)) ->
  real w = (w', Err err) -> Error err = [] ->
  fates ctx (Request port method payload) w = Delivered ->
  only_error (proxy_call port client ctx method args) w = (w', Ok tt).
Proof using Hclient.
  intros Hpay Hserver Hr Hblank Hf. unfold only_error, proxy_call, state_bind, state_ret.
  rewrite Hpay, Hclient, Hf. unfold transmit. rewrite Hserver, Hr. cbn. rewrite Hblank.
  by rewrite decide_False by auto.
Qed.
End remote.

Lemma decodeArgs_one_inv {A} `{!GoJson A} data (v : A * unit) :
  decodeArgs data ((zero, tt) : A * unit) = Ok v ->
  exists j, parse data = Some (JArr [j]) /\ Unmarshal (print j) zero = Ok v.1.
Proof.
  intros Hd. unfold decodeArgs at 1 in Hd. unfold Unmarshal at 1 in Hd.
  destruct (parse data) as [[| | | |l|]|]; cbn -[decide Unmarshal mapM] in Hd; try done; revert Hd.
  change (mapM _ l) with (mapM (fun j => from_json (A := RawMessage) false j zero) l).
  rewrite raw_list. cbn -[decide Unmarshal]. rewrite length_map. case_decide as Hl; [done|].
  destruct l as [|j [|j' l]]; [by cbn in Hl..| |by cbn in Hl]. cbn -[Unmarshal].
  destruct (Unmarshal (print j) zero) eqn:Hu; [|done]. intros [= <-]. by exists j.
Qed.

(** What a proxy accepts as the value of a call: an answer without an error,
    whose payload is an array of the one value. *)
Lemma decoded_inv {W T A} `{!Args T, !GoJson A} port (client : PluginClient W) ctx method (args : T) w w' (v : A) :
  decoded (proxy_call port client ctx method args) w = (w', Ok v) ->
  exists payload res j,
    encodeArgs args = Ok payload
    /\ client ctx (Request port method payload) w = (w', Ok res)
    /\ res_Error res = [] /\ parse (res_JsonPayload res) = Some (JArr [j])
    /\ Unmarshal (print j) zero = Ok v.
Proof.
  unfold decoded, proxy_call, state_bind, state_ret. destruct (encodeArgs args) as [payload|]; [|done].
  destruct (client ctx _ w) as [w1 [res|]] eqn:Hc; [|done]. case_decide as He; [done|].
  destruct (decodeArgs _ _) as [out|] eqn:Hd; [|done]. cbn. intros [= <- <-].
  apply decodeArgs_one_inv in Hd as (j & Hp & Hu). exists payload, res, j. split_and!; try done.
Qed.
End router.

(* ------------------------------------------------------------------ *)
(** ** Lemmas: a router that serves while ports are registered *)

Section serving.
Context `{E : Env} {W : Type} `{T : !Threads W}.
#[local] Arguments interleave : simpl never.
Implicit Types s : serving W.

(** Registration takes no port away and changes none. *)
Lemma add_kept (r : PluginRouter W) port skeleton port' skeleton' :
  ports r !! port' = Some skeleton' -> ports (add r port skeleton).1 !! port' = Some skeleton'.
Proof.
  intros Hp. unfold add. destruct (ports r !! port) eqn:Hq; [done|]. cbn.
  by rewrite lookup_insert_ne by congruence.
Qed.

Lemma interleave_snoc x l g : interleave x (l ++ [g]) = interleave_step (interleave x l) g.
Proof. unfold interleave. by rewrite foldl_app. Qed.

(** An activity the schedule does not name neither moves nor matters. *)
Lemma interleave_insert w acts l g (a : activity) :
  g ∉ l ->
  interleave (w, <[g := a]> acts) l
  = ((interleave (w, acts) l).1, <[g := a]> (interleave (w, acts) l).2).
Proof.
  intros Hg. induction l as [|h l IH] using rev_ind; [done|].
  apply not_elem_of_app in Hg as [Hg Hh%not_elem_of_cons]. destruct Hh as [Hh _].
  rewrite !interleave_snoc, IH by done. destruct (interleave (w, acts) l) as [w1 acts1]. cbn.
  rewrite lookup_insert_ne by done. destruct (acts1 !! h) as [b|]; [|done].
  destruct (advance b w1) as [w2 b']. cbn. by rewrite insert_insert_ne by congruence.
Qed.

(** What holds of a serving router: the calls that run found a skeleton that is
    still on their port, only they are in the schedule, the calls that were
    refused had no port from the start, and the skeletons alone, started from
    the present table, come to the present state. *)
Record serving_inv (r0 : PluginRouter W) (w0 : W) s : Prop := {
  sv_kept : forall port, is_Some (ports r0 !! port) -> is_Some (ports (table s) !! port);
  sv_found : forall g c, calls s !! g = Some c -> is_Some (running c) ->
    is_Some (ports (table s) !! Port (call_env c));
  sv_unknown : forall g c, calls s !! g = Some c -> status c = Unknown -> ports r0 !! Port (call_env c) = None;
  sv_schedule : forall g, g ∈ schedule s -> is_Some ((calls s !! g) ≫= running);
  sv_world : interleave (w0, omap (began (table s)) (calls s)) (schedule s) = (world s, omap running (calls s))
}.

Lemma omap_insert_None {A B} (f : A -> option B) (m : gmap nat A) g x :
  f x = None -> (m !! g) ≫= f = None -> omap f (<[g := x]> m) = omap f m.
Proof.
  intros Hx Hg. rewrite omap_insert, Hx. apply delete_id. by rewrite lookup_omap.
Qed.

Lemma began_kept (r r' : PluginRouter W) (cs : gmap nat (call W)) :
  (forall port skeleton, ports r !! port = Some skeleton -> ports r' !! port = Some skeleton) ->
  (forall g c, cs !! g = Some c -> is_Some (running c) -> is_Some (ports r !! Port (call_env c))) ->
  omap (began r') cs = omap (began r) cs.
Proof.
  intros Hkept Hcs. apply map_eq. intros g. rewrite !lookup_omap.
  destruct (cs !! g) as [c|] eqn:Hg; [|done]. cbn. specialize (Hcs g c Hg). revert Hcs.
  unfold began, running. destruct (status c); [done..|]. intros [sk Hsk]; [by eexists|].
  by rewrite Hsk, (Hkept _ _ Hsk).
Qed.

(** A call moves on: what is known of every call, where it is known of this
    one's new state. *)
Lemma calls_moved (P : call W -> Prop) (cs : gmap nat (call W)) g c :
  (forall g c, cs !! g = Some c -> P c) -> P c -> forall g' c', <[g := c]> cs !! g' = Some c' -> P c'.
Proof. intros Hcs Hc g' c' [[<- <-]|[_ Hg']]%lookup_insert_Some; [done|by eapply Hcs]. Qed.

(** A call that does not run yet is not in the schedule, and none of the two
    maps of activities has it. *)
Lemma idle_outside r0 w0 s g :
  serving_inv r0 w0 s -> calls s !! g ≫= running = None ->
  (g ∉ schedule s) /\ calls s !! g ≫= began (table s) = None.
Proof.
  intros Hs Hg. split.
  - intros Hin. destruct (sv_schedule _ _ _ Hs g Hin) as [a Ha]. congruence.
  - destruct (calls s !! g) as [c|]; [|done]. cbn in *. unfold running, began in *. by destruct (status c).
Qed.

Lemma serving_inv_idle r0 w0 r w cs l g c :
  serving_inv r0 w0 (Serving r w cs l) -> (cs !! g) ≫= running = None -> running c = None ->
  (status c = Unknown -> ports r0 !! Port (call_env c) = None) ->
  serving_inv r0 w0 (Serving r w (<[g := c]> cs) l).
Proof.
  intros Hs Hg Hc Hu. destruct (idle_outside _ _ _ _ Hs Hg) as [Hl Hb].
  assert (began r c = None) as Hbc by (unfold began, running in *; by destruct (status c)).
  destruct Hs as [Hk Hf Hun Hsch Hw]. cbn in *. split; cbn; [done| | | |].
  - apply (calls_moved (fun c => is_Some (running c) -> _)); [done|]. rewrite Hc. by intros [? ?].
  - by apply (calls_moved (fun c => status c = Unknown -> _)).
  - intros h Hh. rewrite lookup_insert_ne by congruence. by apply Hsch.
  - by rewrite !omap_insert_None.
Qed.

Lemma serving_inv_step r0 w0 s s' : serve_step s s' -> serving_inv r0 w0 s -> serving_inv r0 w0 s'.
Proof.
  intros Hstep Hs. pose proof Hs as [Hk Hf Hu Hsch Hw].
  destruct Hstep as [g ctx env r w cs l Hg|port skeleton r w cs l|g c skeleton r w cs l Hg Hc Hr
    |g c r w cs l Hg Hc Hr|g c a r w cs l Hg Hc Ha]; cbn in *.
  - apply serving_inv_idle; [done|by rewrite Hg|done..].
  - assert (forall q sk, ports r !! q = Some sk -> ports (add r port skeleton).1 !! q = Some sk) as Hadd
      by (intros; by apply add_kept).
    split; cbn; [| |done..|].
    + intros q Hq. destruct (Hk q Hq) as [sk Hsk]. exists sk. by apply Hadd.
    + intros g c Hg Ha. destruct (Hf g c Hg Ha) as [sk Hsk]. exists sk. by apply Hadd.
    + by rewrite (began_kept r).
  - assert ((cs !! g) ≫= running = None) as Hrun by (rewrite Hg; cbn; unfold running; by rewrite Hc).
    destruct (idle_outside _ _ _ _ Hs Hrun) as [Hl _]. cbn in Hl. split; cbn; [done| | | |].
    + by apply (calls_moved (fun c => is_Some (running c) -> is_Some (ports r !! Port (call_env c)))).
    + by apply (calls_moved (fun c => status c = Unknown -> _)).
    + intros h Hh. rewrite lookup_insert_ne by congruence. by apply Hsch.
    + set (a := begin skeleton (call_ctx c) (call_env c)).
      assert (began r (moved c (Running a)) = Some a) as Hb by (unfold began; cbn; by rewrite Hr).
      by rewrite !omap_insert, Hb, interleave_insert, Hw.
  - apply serving_inv_idle; [done| |done|].
    + rewrite Hg. cbn. unfold running. by rewrite Hc.
    + intros _. cbn. destruct (ports r0 !! Port (call_env c)) as [sk|] eqn:Hq; [|done].
      destruct (Hk (Port (call_env c))) as [? Hsk]; [by eexists|congruence].
  - assert (running c = Some a) as Hrun by (unfold running; by rewrite Hc).
    destruct (Hf g c Hg) as [sk Hsk]; [by eexists|]. split; cbn; [done| | | |].
    + apply (calls_moved (fun c => is_Some (running c) -> is_Some (ports r !! Port (call_env c)))); [done|by eexists].
    + by apply (calls_moved (fun c => status c = Unknown -> _)).
    + intros h [Hh| ->%list_elem_of_singleton]%elem_of_app; [|rewrite lookup_insert_eq; by eexists].
      destruct (decide (g = h)) as [->|]; [rewrite lookup_insert_eq; by eexists|].
      rewrite lookup_insert_ne by done. by apply Hsch.
    + rewrite interleave_snoc.
      assert (omap (began r) (<[g := moved c (Running (advance a w).2)]> cs) = omap (began r) cs) as ->.
      { apply map_eq. intros h. rewrite !lookup_omap. destruct (decide (g = h)) as [->|].
        - rewrite lookup_insert_eq, Hg. cbn. unfold began. by rewrite Hc.
        - by rewrite lookup_insert_ne. }
      rewrite Hw. unfold interleave_step. rewrite lookup_omap, Hg. cbn. rewrite Hrun.
      rewrite omap_insert. by destruct (advance a w).
Qed.

Lemma serving_reachable r w0 s : rtc serve_step (Serving r w0 ∅ []) s -> serving_inv r w0 s.
Proof.
  apply (rtc_ind_r (serving_inv r w0) (Serving r w0 ∅ [])).
  - split; cbn; [done|..]; [intros ? ? ?%lookup_empty_Some..| |]; try done.
    intros g Hg. by apply not_elem_of_nil in Hg.
  - intros y z _ Hs. by apply serving_inv_step.
Qed.

(** A running call that nothing interrupts comes to its answer. *)
Lemma running_alone n (a : activity) r w w' cs l g c res :
  alone n a w = Some (w', res) -> cs !! g = Some c -> status c = Running a ->
  exists a' l', answer a' = Some res
    /\ rtc serve_step (Serving r w cs l) (Serving r w' (<[g := moved c (Running a')]> cs) l').
Proof.
  revert a w cs l c. induction n as [|n IH]; intros a w cs l c Hn Hg Hc; cbn in Hn;
    destruct (answer a) as [res'|] eqn:Ha; try done.
  1, 2: injection Hn as <- <-; exists a, l; split; [done|];
    rewrite insert_id; [constructor|]; rewrite Hg; destruct c; cbn in *; by subst.
  destruct (advance a w) as [w1 a1] eqn:Hadv.
  destruct (IH a1 w1 (<[g := moved c (Running a1)]> cs) (l ++ [g]) (moved c (Running a1)) Hn)
    as (a' & l' & Ha' & Hsteps); [by rewrite lookup_insert_eq|done|].
  exists a', l'. split; [done|]. rewrite insert_insert_eq in Hsteps. eapply rtc_l; [|exact Hsteps].
  pose proof (serve_advance g c a r w cs l Hg Hc Ha) as Hstep. by rewrite Hadv in Hstep.
Qed.

(** A call that has arrived and that nothing interrupts does what [Call] says. *)
Lemma arrived_alone `{!ThreadsLaw W} s g c :
  calls s !! g = Some c -> status c = Arrived ->
  let (w', res) := Call (table s) (call_ctx c) (call_env c) (world s) in
  exists c' l,
    rtc serve_step s (Serving (table s) w' (<[g := c']> (calls s)) l) /\ answered c' = Some res.
Proof.
  destruct s as [r w cs l]. cbn. intros Hg Hc. unfold Call.
  destruct (ports r !! Port (call_env c) : option (PluginServer W)) as [skeleton|] eqn:Hp.
  - destruct (alone_begin skeleton (call_ctx c) (call_env c) w) as [n Hn].
    destruct (skeleton _ _ w) as [w' res].
    set (c1 := moved c (Running (begin skeleton (call_ctx c) (call_env c)))).
    destruct (running_alone n _ r w w' _ l g c1 res Hn (lookup_insert_eq cs g c1) eq_refl) as (a & l' & Ha & Hs).
    rewrite insert_insert_eq in Hs. exists (moved c (Running a)), l'. split; [|done].
    eapply rtc_l; [by eapply serve_found|exact Hs].
  - exists (moved c Unknown), l. split; [|done]. by apply rtc_once, serve_unknown.
Qed.
End serving.

(* ------------------------------------------------------------------ *)
(** ** Theorems *)

(** Registers skeletons one after the other, with the error of each. *)
Fixpoint register_all `{Env} {W} (r : PluginRouter W) (l : list (bytes * PluginServer W))
    : PluginRouter W * list (result unit) :=
  match l with
  | [] => (r, [])
  | (port, skeleton) :: l =>
      let (r, err) := add r port skeleton in
      let (r, errs) := register_all r l in (r, err :: errs)
  end.

Section theorems.
Context `{E : Env}.

Lemma register_all_ports {W} (l : list (bytes * PluginServer W)) r port :
  ports (register_all r l).1 !! port
  = match ports r !! port with
    | Some skeleton => Some skeleton
    | None => snd <$> (snd <$> list_find (fun ps => ps.1 = port) l)
    end.
Proof.
  revert r. induction l as [|[q skeleton] l IH]; intros r; cbn; [by destruct (ports r !! port)|].
  destruct (add r q skeleton) as [r' err] eqn:Ha. specialize (IH r').
  destruct (register_all r' l) as [r'' errs]. cbn in *. rewrite IH. unfold add in Ha.
  destruct (ports r !! q) as [sk|] eqn:Hq; injection Ha as <- <-; cbn.
  - destruct (ports r !! port) eqn:Hp; [done|]. rewrite decide_False by congruence.
    by destruct (list_find _ l) as [[? ?]|].
  - destruct (decide (q = port)) as [->|Hne].
    + by rewrite lookup_insert_eq, Hq.
    + rewrite lookup_insert_ne by done. destruct (ports r !! port); [done|].
      by destruct (list_find _ l) as [[? ?]|].
Qed.

Lemma add_ok {W} (r r' : PluginRouter W) port (skeleton : PluginServer W) :
  add r port skeleton = (r', Ok tt) -> ports r' !! port = Some skeleton.
Proof.
  unfold add. destruct (ports r !! port); [done|]. intros [= <-]. apply lookup_insert_eq.
Qed.

(** What is registered later takes no port away. *)
Lemma register_all_kept {W} (l : list (bytes * PluginServer W)) r port (skeleton : PluginServer W) :
  ports r !! port = Some skeleton -> ports (register_all r l).1 !! port = Some skeleton.
Proof. intros Hp. by rewrite register_all_ports, Hp. Qed.

(** The first skeleton registered on a port answers every call on it, and the
    call is forwarded unchanged; a call on any other port is answered in band
    with the unknown port, and the state behind the skeletons is untouched. *)
Theorem router_dispatch {W} (l : list (bytes * PluginServer W)) (ctx : Ctx) (env : MethodEnvelope) (w : W) :
  Call (register_all (Router ∅) l).1 ctx env w
  = match list_find (fun ps => ps.1 = Port env) l with
    | Some (_, (_, skeleton)) => skeleton ctx env w
    | None => (w, Ok (Result [] (B "transport: unknown port " ++ quote (Port env))))
    end.
Proof.
  unfold Call. rewrite register_all_ports. cbn [ports]. rewrite lookup_empty.
  by destruct (list_find _ l) as [[? [? ?]]|].
Qed.

(** Registering skeletons reports the registered-port error exactly for those
    whose port an earlier one took, and the error names the port. *)
Theorem registration_errors {W} (l : list (bytes * PluginServer W)) (i : nat) (port : bytes)
    (skeleton : PluginServer W) :
  l !! i = Some (port, skeleton) ->
  (register_all (Router ∅) l).2 !! i
  = Some (if decide (port ∈ (take i l).*1)
          then Err (Errorf (B "transport: port already registered: " ++ port) [Sentinel ErrPortRegistered])
          else Ok tt).
Proof.
  assert (forall (l : list (bytes * PluginServer W)) r i port skeleton, l !! i = Some (port, skeleton) ->
    (register_all r l).2 !! i
    = Some (if decide (port ∈ (take i l).*1 \/ is_Some (ports r !! port))
          then Err (Errorf (sentinel_text ErrPortRegistered ++ B ": " ++ port) [Sentinel ErrPortRegistered])
          else Ok tt)) as Hgen.
  { clear. induction l as [|[q sk] l IH]; intros r i port skeleton Hi; [done|]. cbn.
    destruct (add r q sk) as [r' err] eqn:Ha. destruct (register_all r' l) as [r'' errs] eqn:Hr. cbn.
    unfold add in Ha. destruct i as [|i]; cbn in Hi |- *; [injection Hi as -> ->|].
    - destruct (ports r !! port) eqn:Hp; injection Ha as <- <-; case_decide as Hd; try done.
      + exfalso. apply Hd. right. eauto.
      + destruct Hd as [Hd|[? Hd]]; [by apply not_elem_of_nil in Hd|congruence].
    - specialize (IH r' i port skeleton Hi). rewrite Hr in IH. etrans; [exact IH|]. f_equal.
      apply decide_ext. rewrite elem_of_cons. destruct (ports r !! q) as [sk'|] eqn:Hq; injection Ha as <- <-; cbn.
      + split; [tauto|]. intros [[->|?]|?]; eauto.
      + rewrite lookup_insert_is_Some. destruct (decide (q = port)) as [->|]; [rewrite Hq|];
          naive_solver. }
  intros Hi. rewrite (Hgen _ (Router ∅) _ _ _ Hi). f_equal. apply decide_ext. cbn [ports].
  rewrite lookup_empty. split; [intros [?|[]]; done|tauto].
Qed.

(** C30. In every reachable process no two routers were made on one server; on a
    live server a router is refused exactly when it has one already; and once
    every due cleanup has run, the claims hold no server that is gone. *)
Theorem one_router_per_server {W} (p : process) :
  rtc (step (W := W)) process_start p ->
  NoDup (registered p)
  /\ (forall s, s ∈ live p ->
        (s ∈ registered p <-> (NewPluginRouter (W := W) s p).2 = Err (Sentinel ErrPluginServiceRegistered)))
  /\ (due p = ∅ -> servers p ⊆ live p).
Proof.
  intros Hp%claims_inv_reachable. pose proof Hp as [Hn Hi]. split_and!; [done| |].
  - intros s Hs. rewrite <-(claimed_iff p s Hp Hs). unfold NewPluginRouter, claim. by case_decide.
  - intros Hdue s Hs. specialize (Hi s). set_solver.
Qed.

(** C31. Calls run while ports are registered, their skeletons without the lock and
    interleaved step by step in any way. Still the router adds nothing to the
    skeletons: the skeletons of the calls that found one, started from the
    router's final table and advanced alone in the order the run gave their
    steps, without a router and without registrations, come to the same world
    and each to the same point of its own call. A call is answered with the
    unknown port only for its own port, which the router did not have at the
    start, and runs nothing. And a call that has arrived can always be carried
    to its answer: if nothing else runs meanwhile, it changes the world and
    answers as [Call] says, and disturbs no other call. *)
Theorem calls_interleave {W} `{!Threads W, !ThreadsLaw W} (r : PluginRouter W) (w : W) (s : serving W) :
  rtc serve_step (Serving r w ∅ []) s ->
  interleave (w, omap (began (table s)) (calls s)) (schedule s) = (world s, omap running (calls s))
  /\ (forall g c, calls s !! g = Some c -> status c = Unknown ->
        ports r !! Port (call_env c) = None
        /\ answered c = Some (fail (UnknownPortError (Port (call_env c))))
        /\ g ∉ schedule s)
  /\ forall g c, calls s !! g = Some c -> status c = Arrived ->
       let (w', res) := Call (table s) (call_ctx c) (call_env c) (world s) in
       exists c' l,
         rtc serve_step s (Serving (table s) w' (<[g := c']> (calls s)) l) /\ answered c' = Some res.
Proof.
  intros Hr. pose proof (serving_reachable r w s Hr) as Hs. split_and!; [apply (sv_world _ _ _ Hs)| |].
  - intros g c Hg Hc. split_and!; [by eapply sv_unknown|unfold answered; by rewrite Hc|].
    apply (idle_outside _ _ _ _ Hs). rewrite Hg. cbn. unfold running. by rewrite Hc.
  - intros g c Hg Hc. apply arrived_alone; done.
Qed.
End theorems.

(* ------------------------------------------------------------------ *)
(** ** Witnesses *)

#[local] Existing Instance sample_env.

Lemma registration_errors_witness :
  let skeleton : PluginServer unit := fun ctx env w => (w, Ok (Result [] [])) in
  (register_all (Router ∅) [(B "memory", skeleton); (B "memory", skeleton)]).2 !! 1%nat
  = Some (Err (Errorf (B "transport: port already registered: memory") [Sentinel ErrPortRegistered])).
Proof.
  intros skeleton.
  apply (registration_errors [(B "memory", skeleton); (B "memory", skeleton)] 1 (B "memory") skeleton).
  reflexivity.
Defined.

Lemma one_router_per_server_witness :
  let p := Process {[1%positive]} {[1%positive]} {[1%positive]} ∅ [1%positive] in
  NoDup (registered p)
  /\ (forall s, s ∈ live p ->
        (s ∈ registered p
         <-> (NewPluginRouter (W := unit) s p).2 = Err (Sentinel ErrPluginServiceRegistered)))
  /\ (due p = ∅ -> servers p ⊆ live p).
Proof.
  intros p. apply (one_router_per_server (W := unit) p).
  eapply rtc_l; [apply (step_new_server 1%positive); cbn; set_solver|].
  eapply rtc_l; [apply (step_router 1%positive); cbn; set_solver|].
  exact (rtc_refl _ p).
Defined.

(** A skeleton that counts its calls in two steps, reading the count and then
    writing it, and a run where a call comes before its port is registered and
    two more overlap: both read the same count. *)
Definition sample_ctx : Ctx (Env := sample_env) := None.
Definition counting : PluginServer nat := fun ctx env w => (S w, Ok (Result (B "[]") [])).
Definition sample_call : MethodEnvelope := Request (B "memory") (B "Recall") (B "[]").

Inductive two_steps : Type :=
| Before (skeleton : PluginServer nat) (ctx : Ctx (Env := sample_env)) (env : MethodEnvelope)
| Between (w : nat) (res : result ResultEnvelope)
| After (res : result ResultEnvelope).

#[local] Instance two_steps_threads : Threads nat := {
  activity := two_steps;
  begin := Before;
  advance := fun a w =>
    match a with
    | Before skeleton ctx env => (w, let (w, res) := skeleton ctx env w in Between w res)
    | Between w res => (w, After res)
    | After res => (w, After res)
    end;
  answer := fun a => match a with After res => Some res | _ => None end
}.

#[local] Instance two_steps_law : ThreadsLaw nat.
Proof. intros skeleton ctx env w. exists 2%nat. cbn. by destruct (skeleton ctx env w). Qed.

Definition sample_served : serving nat :=
  let arrived := Flight sample_ctx sample_call Arrived in
  let done := moved arrived (Running (After (Ok (Result (B "[]") [])))) in
  Serving (add (Router ∅) (B "memory") counting).1 1%nat
    (<[0%nat := arrived]> (<[2%nat := done]> (<[1%nat := done]> (<[3%nat := moved arrived Unknown]> ∅))))
    [1; 2; 1; 2]%nat.

Lemma sample_served_reachable : rtc serve_step (Serving (Router ∅) 0%nat ∅ []) sample_served.
Proof.
  eapply rtc_l; [apply (serve_arrive 3 sample_ctx sample_call); done|].
  eapply rtc_l; [eapply (serve_unknown 3); [apply lookup_insert_eq|done..]|]. rewrite insert_insert_eq.
  eapply rtc_l; [apply (serve_add (B "memory") counting)|].
  eapply rtc_l; [apply (serve_arrive 1 sample_ctx sample_call); done|].
  eapply rtc_l; [eapply (serve_found 1); [apply lookup_insert_eq|done..]|]. rewrite insert_insert_eq.
  eapply rtc_l; [apply (serve_arrive 2 sample_ctx sample_call); done|].
  eapply rtc_l; [eapply (serve_found 2); [apply lookup_insert_eq|done..]|]. rewrite insert_insert_eq.
  eapply rtc_l; [eapply (serve_advance 1); done|]. cbn.
  eapply rtc_l; [eapply (serve_advance 2); done|]. cbn.
  eapply rtc_l; [eapply (serve_advance 1); done|]. cbn.
  eapply rtc_l; [eapply (serve_advance 2); done|]. cbn.
  eapply rtc_l; [apply (serve_arrive 0 sample_ctx sample_call); done|].
  exact (rtc_refl _ sample_served).
Qed.

Lemma calls_interleave_witness :
  interleave (0%nat, omap (began (table sample_served)) (calls sample_served)) [1; 2; 1; 2]%nat
  = (1%nat, omap running (calls sample_served))
  /\ (forall g c, calls sample_served !! g = Some c -> status c = Unknown ->
        ports (Router (W := nat) ∅) !! Port (call_env c) = None
        /\ answered c = Some (fail (UnknownPortError (Port (call_env c))))
        /\ g ∉ [1; 2; 1; 2]%nat)
  /\ forall g c, calls sample_served !! g = Some c -> status c = Arrived ->
       let (w', res) := Call (table sample_served) (call_ctx c) (call_env c) 1%nat in
       exists c' l,
         rtc serve_step sample_served (Serving (table sample_served) w' (<[g := c']> (calls sample_served)) l)
         /\ answered c' = Some res.
Proof. exact (calls_interleave (Router ∅) 0%nat sample_served sample_served_reachable). Defined.
