(* ===== verification/Memory.v ===== *)
(** * Memory: memory_proxy.go, memory_skeleton.go and DialMemory

    The memory port: the interface, the skeleton that serves a real memory
    behind the router, the proxy that offers the same interface over a client,
    and the dialing of a proxy. The main theorem is the refinement: a proxy
    connected to a router that serves a memory is that memory, up to the fate
    of each call on the network. *)

From S2P Require Import Prelude Text Json Encoding Env Sample Errors Codec Announce NetAddr Registry Plugin.

#[local] Arguments encodeArgs : simpl never.
#[local] Arguments decodeArgs : simpl never.

Section memory.
Context `{Env} {W : Type}.

Definition PortMemory : bytes := B "memory".
Definition methodRecall : bytes := B "Recall".
Definition methodRecord : bytes := B "Record".
Definition methodSearch : bytes := B "Search".
Definition methodLinks : bytes := B "Links".
Definition methodUnlink : bytes := B "Unlink".

(** The methods of [contracts.Memory] the code calls. *)
Record Memory := {
  mem_Recall : Ctx -> bytes -> Z -> W -> W * result Subgraph;
  mem_Record : Ctx -> Node -> W -> W * result unit;
  mem_Search : Ctx -> Query -> W -> W * result (list Node);
  mem_Links : Ctx -> bytes -> bytes -> bytes -> W -> W * result unit;
  mem_Unlink : Ctx -> bytes -> bytes -> W -> W * result unit;
  mem_Close : W -> W * result unit
}.

(* ------------------------------------------------------------------ *)
(** ** The skeleton *)

Definition recall (real : Memory) : PluginServer W := fun ctx env w =>
  match decodeArgs (req_JsonPayload env) (args_zero : bytes * (Z * unit)) with
  | Err err => (w, fail err)
  | Ok (key, (depth, _)) =>
      let (w, res) := mem_Recall real ctx key depth w in
      match res with
      | Err err => (w, fail err)
      | Ok sub =>
          match encodeArgs (sub, tt) with
          | Err err => (w, fail err)
          | Ok out => (w, Ok (Result out []))
          end
      end
  end.

Definition record (real : Memory) : PluginServer W := fun ctx env w =>
  match decodeArgs (req_JsonPayload env) (args_zero : Node * unit) with
  | Err err => (w, fail err)
  | Ok (node, _) =>
      let (w, res) := mem_Record real ctx node w in
      match res with
      | Err err => (w, fail err)
      | Ok _ => (w, Ok (Result [] []))
      end
  end.

Definition search (real : Memory) : PluginServer W := fun ctx env w =>
  match decodeArgs (req_JsonPayload env) (args_zero : Query * unit) with
  | Err err => (w, fail err)
  | Ok (query, _) =>
      let (w, res) := mem_Search real ctx query w in
      match res with
      | Err err => (w, fail err)
      | Ok nodes =>
          match encodeArgs (nodes, tt) with
          | Err err => (w, fail err)
          | Ok out => (w, Ok (Result out []))
          end
      end
  end.

Definition links (real : Memory) : PluginServer W := fun ctx env w =>
  match decodeArgs (req_JsonPayload env) (args_zero : bytes * (bytes * (bytes * unit))) with
  | Err err => (w, fail err)
  | Ok (from, (to, (rel, _))) =>
      let (w, res) := mem_Links real ctx from to rel w in
      match res with
      | Err err => (w, fail err)
      | Ok _ => (w, Ok (Result [] []))
      end
  end.

Definition unlink (real : Memory) : PluginServer W := fun ctx env w =>
  match decodeArgs (req_JsonPayload env) (args_zero : bytes * (bytes * unit)) with
  | Err err => (w, fail err)
  | Ok (from, (to, _)) =>
      let (w, res) := mem_Unlink real ctx from to w in
      match res with
      | Err err => (w, fail err)
      | Ok _ => (w, Ok (Result [] []))
      end
  end.

(** [memoryServer.Call] *)
Definition memoryServer (real : Memory) : PluginServer W := fun ctx env w =>
  if decide (Port env <> PortMemory) then (w, fail (UnknownPortError (Port env)))
  else if decide (Method env = methodRecall) then recall real ctx env w
  else if decide (Method env = methodRecord) then record real ctx env w
  else if decide (Method env = methodSearch) then search real ctx env w
  else if decide (Method env = methodLinks) then links real ctx env w
  else if decide (Method env = methodUnlink) then unlink real ctx env w
  else (w, fail (UnknownMethodError PortMemory (Method env))).

Definition RegisterMemorySkeleton (r : PluginRouter W) (impl : Memory) : PluginRouter W * result unit :=
  add r PortMemory (memoryServer impl).

(* ------------------------------------------------------------------ *)
(** ** The proxy *)

(** [None] is a nil [dialed]. *)
Record MemoryProxy := Proxy {
  client : PluginClient W;
  dialed : option (W -> W * result unit)
}.

Definition NewMemoryProxy (c : PluginClient W) : MemoryProxy := Proxy c None.

Definition call {T} `{!Args T} (p : MemoryProxy) (ctx : Ctx) (method : bytes) (args : T)
    : W -> W * result ResultEnvelope :=
  proxy_call PortMemory (client p) ctx method args.

Definition Recall (p : MemoryProxy) (ctx : Ctx) (key : bytes) (depth : Z) : W -> W * result Subgraph :=
  decoded (call p ctx methodRecall (key, (depth, tt))).

Definition Record_ (p : MemoryProxy) (ctx : Ctx) (n : Node) : W -> W * result unit :=
  only_error (call p ctx methodRecord (n, tt)).

Definition Search_ (p : MemoryProxy) (ctx : Ctx) (q : Query) : W -> W * result (list Node) :=
  decoded (call p ctx methodSearch (q, tt)).

Definition Links (p : MemoryProxy) (ctx : Ctx) (from to rel : bytes) : W -> W * result unit :=
  only_error (call p ctx methodLinks (from, (to, (rel, tt)))).

Definition Unlink (p : MemoryProxy) (ctx : Ctx) (from to : bytes) : W -> W * result unit :=
  only_error (call p ctx methodUnlink (from, (to, tt))).

Definition Close (p : MemoryProxy) : W -> W * result unit := closeDialed (dialed p).

(** [var _ contracts.Memory = ( *MemoryProxy)(nil)] *)
Definition MemoryProxy_Memory (p : MemoryProxy) : Memory := {|
  mem_Recall := Recall p;
  mem_Record := Record_ p;
  mem_Search := Search_ p;
  mem_Links := Links p;
  mem_Unlink := Unlink p;
  mem_Close := Close p
|}.

(** remote_registry.go. [NewPluginClient] and [close] are what the code takes
    from a gRPC connection. *)
Definition DialMemory {Creds Conn} (insecure : Creds) (NewClient : bytes -> Creds -> result Conn)
    (NewPluginClient : Conn -> PluginClient W) (close : Conn -> W -> W * result unit)
    (ctx : Ctx) (e : RemoteEntry) (creds : option Creds) : result MemoryProxy :=
  let? conn := dialConn insecure NewClient ctx e creds in
  let proxy := NewMemoryProxy (NewPluginClient conn) in
  Ok (Proxy (client proxy) (Some (close conn))).
End memory.
Arguments Memory {_} W.
Arguments MemoryProxy {_} W.

(* ------------------------------------------------------------------ *)
(** ** The contract of the skeleton *)

(** What a request asks of a memory. *)
Inductive memory_op `{Env} : Type :=
| AskRecall (key : bytes) (depth : Z)
| AskRecord (n : Node)
| AskSearch (q : Query)
| AskLinks (from to rel : bytes)
| AskUnlink (from to : bytes).

(** The operation an envelope asks for, or the error that answers it. *)
Definition memory_request `{Env} (env : MethodEnvelope) : result memory_op :=
  let payload := req_JsonPayload env in
  if decide (Port env = B "memory") then
    if decide (Method env = B "Recall") then
      let? args := decodeArgs payload (args_zero : bytes * (Z * unit)) in
      Ok (AskRecall args.1 args.2.1)
    else if decide (Method env = B "Record") then
      let? args := decodeArgs payload (args_zero : Node * unit) in Ok (AskRecord args.1)
    else if decide (Method env = B "Search") then
      let? args := decodeArgs payload (args_zero : Query * unit) in Ok (AskSearch args.1)
    else if decide (Method env = B "Links") then
      let? args := decodeArgs payload (args_zero : bytes * (bytes * (bytes * unit))) in
      Ok (AskLinks args.1 args.2.1 args.2.2.1)
    else if decide (Method env = B "Unlink") then
      let? args := decodeArgs payload (args_zero : bytes * (bytes * unit)) in
      Ok (AskUnlink args.1 args.2.1)
    else Err (UnknownMethodError (B "memory") (Method env))
  else Err (UnknownPortError (Port env)).

(** The answer to an operation: the JSON array of the value, or the error. *)
Definition memory_perform `{Env} {W} (real : Memory W) (ctx : Ctx) (op : memory_op) (w : W)
    : W * result bytes :=
  let value {A} `{!GoJson A} (r : W * result A) := (r.1, let? a := r.2 in encodeArgs (a, tt)) in
  let none (r : W * result unit) := (r.1, let? _ := r.2 in Ok []) in
  match op with
  | AskRecall key depth => value (mem_Recall real ctx key depth w)
  | AskRecord n => none (mem_Record real ctx n w)
  | AskSearch q => value (mem_Search real ctx q w)
  | AskLinks from to rel => none (mem_Links real ctx from to rel w)
  | AskUnlink from to => none (mem_Unlink real ctx from to w)
  end.

Definition memory_answer `{Env} (r : result bytes) : result ResultEnvelope :=
  match r with
  | Ok out => Ok (Result out [])
  | Err err => Ok (Result (encodeWireError err) (Error err))
  end.

(** A memory whose every outcome the wire can carry. *)
Record portable_memory `{Env} {W} (real : Memory W) : Prop := {
  portable_Recall ctx key depth w : portable (mem_Recall real ctx key depth w).2;
  portable_Record ctx n w : portable_error (mem_Record real ctx n w).2;
  portable_Search ctx q w : portable (mem_Search real ctx q w).2;
  portable_Links ctx from to rel w : portable_error (mem_Links real ctx from to rel w).2;
  portable_Unlink ctx from to w : portable_error (mem_Unlink real ctx from to w).2
}.

(** A memory [offered] to a client that is [real] behind a network: every call
    runs the real operation on the same arguments, up to the fate of the one
    envelope that carries it. *)
Record remote_memory `{Env} {W} (incoming : Ctx -> Ctx) (fates : Ctx -> MethodEnvelope -> W -> fate)
    (real offered : Memory W) : Prop := {
  remote_Recall ctx key depth w : Utf8 key -> is_int64 depth = true -> exists payload,
    mem_Recall offered ctx key depth w
    = remotely (fates ctx (Request PortMemory methodRecall payload) w) (mem_Recall real (incoming ctx) key depth) w;
  remote_Record ctx n w : lossless n -> exists payload,
    mem_Record offered ctx n w
    = remotely (fates ctx (Request PortMemory methodRecord payload) w) (mem_Record real (incoming ctx) n) w;
  remote_Search ctx q w : lossless q -> exists payload,
    mem_Search offered ctx q w
    = remotely (fates ctx (Request PortMemory methodSearch payload) w) (mem_Search real (incoming ctx) q) w;
  remote_Links ctx from to rel w : Utf8 from -> Utf8 to -> Utf8 rel -> exists payload,
    mem_Links offered ctx from to rel w
    = remotely (fates ctx (Request PortMemory methodLinks payload) w) (mem_Links real (incoming ctx) from to rel) w;
  remote_Unlink ctx from to w : Utf8 from -> Utf8 to -> exists payload,
    mem_Unlink offered ctx from to w
    = remotely (fates ctx (Request PortMemory methodUnlink payload) w) (mem_Unlink real (incoming ctx) from to) w
}.

(* ------------------------------------------------------------------ *)
(** ** Lemmas *)

Section lemmas.
Context `{E : Env} {W : Type}.
Implicit Types (real : Memory W) (w : W).

(** The methods are five different names. *)
Lemma memoryServer_method real ctx method payload w :
  memoryServer real ctx (Request PortMemory method payload) w
  = (if decide (method = methodRecall) then recall real
     else if decide (method = methodRecord) then record real
     else if decide (method = methodSearch) then search real
     else if decide (method = methodLinks) then links real
     else if decide (method = methodUnlink) then unlink real
     else fun _ _ w => (w, fail (UnknownMethodError PortMemory method)))
    ctx (Request PortMemory method payload) w.
Proof. unfold memoryServer. cbn -[decide]. rewrite decide_False by auto. by repeat case_decide. Qed.

Ltac serve Hargs :=
  rewrite memoryServer_method;
  repeat first [rewrite decide_True by done | rewrite decide_False by discriminate];
  unfold recall, record, search, links, unlink; cbn [req_JsonPayload]; rewrite Hargs;
  by repeat case_match.

Lemma serves_recall real ctx key depth payload w :
  decodeArgs payload (args_zero : bytes * (Z * unit)) = Ok (key, (depth, tt)) ->
  memoryServer real ctx (Request PortMemory methodRecall payload) w
  = (let (w, r) := mem_Recall real ctx key depth w in
     (w, match r with
         | Err err => fail err
         | Ok a => match encodeArgs (a, tt) with Err err => fail err | Ok out => Ok (Result out []) end
         end)).
Proof. intros Hargs. serve Hargs. Qed.

Lemma serves_record real ctx n payload w :
  decodeArgs payload (args_zero : Node * unit) = Ok (n, tt) ->
  memoryServer real ctx (Request PortMemory methodRecord payload) w
  = (let (w, r) := mem_Record real ctx n w in
     (w, match r with Err err => fail err | Ok _ => Ok (Result [] []) end)).
Proof. intros Hargs. serve Hargs. Qed.

Lemma serves_search real ctx q payload w :
  decodeArgs payload (args_zero : Query * unit) = Ok (q, tt) ->
  memoryServer real ctx (Request PortMemory methodSearch payload) w
  = (let (w, r) := mem_Search real ctx q w in
     (w, match r with
         | Err err => fail err
         | Ok a => match encodeArgs (a, tt) with Err err => fail err | Ok out => Ok (Result out []) end
         end)).
Proof. intros Hargs. serve Hargs. Qed.

Lemma serves_links real ctx from to rel payload w :
  decodeArgs payload (args_zero : bytes * (bytes * (bytes * unit))) = Ok (from, (to, (rel, tt))) ->
  memoryServer real ctx (Request PortMemory methodLinks payload) w
  = (let (w, r) := mem_Links real ctx from to rel w in
     (w, match r with Err err => fail err | Ok _ => Ok (Result [] []) end)).
Proof. intros Hargs. serve Hargs. Qed.

Lemma serves_unlink real ctx from to payload w :
  decodeArgs payload (args_zero : bytes * (bytes * unit)) = Ok (from, (to, tt)) ->
  memoryServer real ctx (Request PortMemory methodUnlink payload) w
  = (let (w, r) := mem_Unlink real ctx from to w in
     (w, match r with Err err => fail err | Ok _ => Ok (Result [] []) end)).
Proof. intros Hargs. serve Hargs. Qed.

(** One call of the proxy: its arguments cross, the skeleton runs the operation
    and its outcome crosses back. *)
Ltac cross T args served :=
  let payload := fresh "payload" in let He := fresh "He" in let Hd := fresh "Hd" in
  destruct (args_cross (T := T) args) as (payload & He & Hd); [lossless_args|];
  exists payload;
  match goal with
  | Hc : connected _ _ _ _, Hport : ports _ !! PortMemory = _, Hreal : portable_memory _ |- _ =>
      first [apply (decoded_remote _ _ _ _ Hc _ _ _ _ _ _ _ He)|apply (only_error_remote _ _ _ _ Hc _ _ _ _ _ _ _ He)];
      [rewrite (Call_registered _ _ _ _ _ _ _ Hport); by apply served|by apply Hreal]
  end.

Lemma memory_proxy_remote (incoming : Ctx -> Ctx) (fates : Ctx -> MethodEnvelope -> W -> fate)
    (router : PluginRouter W) (c : PluginClient W) (d : option (W -> W * result unit)) real :
  connected incoming fates (Plugin.Call router) c ->
  ports router !! PortMemory = Some (memoryServer real) ->
  portable_memory real ->
  remote_memory incoming fates real (MemoryProxy_Memory (Proxy c d)).
Proof.
  intros Hc Hport Hreal. split; intros.
  - cross (bytes * (Z * unit))%type (key, (depth, tt)) serves_recall.
  - cross (Node * unit)%type (n, tt) serves_record.
  - cross (Query * unit)%type (q, tt) serves_search.
  - cross (bytes * (bytes * (bytes * unit)))%type (from, (to, (rel, tt))) serves_links.
  - cross (bytes * (bytes * unit))%type (from, (to, tt)) serves_unlink.
Qed.
End lemmas.

(* ------------------------------------------------------------------ *)
(** ** Theorems *)

Section theorems.
Context `{E : Env} {W : Type}.

(** C1. The proxy refines the memory. A proxy whose client is connected to a router
    that serves a real memory is that memory, operation by operation: a
    delivered call runs the real operation once on the same arguments and
    returns its value, or its error as it crosses the wire; a call whose answer
    is lost has run it once and returns the transport error; an unreached call
    has not run it. *)
Theorem memory_refinement (incoming : Ctx -> Ctx) (fates : Ctx -> MethodEnvelope -> W -> fate)
    (router : PluginRouter W) (c : PluginClient W) (d : option (W -> W * result unit)) (real : Memory W) :
  connected incoming fates (Plugin.Call router) c ->
  ports router !! PortMemory = Some (memoryServer real) ->
  portable_memory real ->
  let proxy := Proxy c d in
  let sent method payload := Request PortMemory method payload in
  (forall ctx key depth w, Utf8 key -> is_int64 depth = true -> exists payload,
     Recall proxy ctx key depth w
     = remotely (fates ctx (sent methodRecall payload) w) (mem_Recall real (incoming ctx) key depth) w)
  /\ (forall ctx n w, lossless n -> exists payload,
     Record_ proxy ctx n w
     = remotely (fates ctx (sent methodRecord payload) w) (mem_Record real (incoming ctx) n) w)
  /\ (forall ctx q w, lossless q -> exists payload,
     Search_ proxy ctx q w
     = remotely (fates ctx (sent methodSearch payload) w) (mem_Search real (incoming ctx) q) w)
  /\ (forall ctx from to rel w, Utf8 from -> Utf8 to -> Utf8 rel -> exists payload,
     Links proxy ctx from to rel w
     = remotely (fates ctx (sent methodLinks payload) w) (mem_Links real (incoming ctx) from to rel) w)
  /\ (forall ctx from to w, Utf8 from -> Utf8 to -> exists payload,
     Unlink proxy ctx from to w
     = remotely (fates ctx (sent methodUnlink payload) w) (mem_Unlink real (incoming ctx) from to) w).
Proof.
  intros Hc Hport Hreal proxy sent. destruct (memory_proxy_remote incoming fates router c d real Hc Hport Hreal). done.
Qed.

(** C33. The skeleton is its contract: it parses the envelope into an operation,
    performs it on the real memory, and answers in band. A request with an
    unknown port, an unknown method or undecodable arguments is answered with
    its error and never reaches the memory; no call fails at the gRPC level. *)
Theorem memory_skeleton_contract (real : Memory W) (ctx : Ctx) (env : MethodEnvelope) (w : W) :
  memoryServer real ctx env w
  = match memory_request env with
    | Err err => (w, memory_answer (Err err))
    | Ok op => let (w', r) := memory_perform real ctx op w in (w', memory_answer r)
    end.
Proof.
  unfold memoryServer, memory_request, PortMemory.
  destruct (decide (Port env = B "memory")) as [Hp|Hp];
    [rewrite decide_False by auto|by rewrite decide_True].
  unfold methodRecall, methodRecord, methodSearch, methodLinks, methodUnlink.
  repeat case_decide; [..|done];
    unfold recall, record, search, links, unlink; cbn -[args_zero];
    (destruct (decodeArgs _ _) as [args|err]; [|done]);
    repeat match goal with x : _ * _ |- _ => destruct x end; cbn;
    match goal with |- context [let (_, _) := ?m in _] => destruct m as [w' [a|err]] end; cbn;
    try destruct (encodeArgs _); done.
Qed.

(** Whatever the peer does, a proxy returns a subgraph only when the call was
    answered without an error and with an array of one value that decodes to
    that subgraph: a bad payload is never taken for an empty result. *)
Theorem memory_proxy_fails_closed (p : MemoryProxy W) (ctx : Ctx) (key : bytes) (depth : Z) (w w' : W)
    (sub : Subgraph) :
  Recall p ctx key depth w = (w', Ok sub) ->
  exists payload res j,
    client p ctx (Request PortMemory methodRecall payload) w = (w', Ok res)
    /\ res_Error res = [] /\ parse (res_JsonPayload res) = Some (JArr [j])
    /\ Unmarshal (print j) zero = Ok sub.
Proof. intros (payload & res & j & _ & ?)%decoded_inv. by exists payload, res, j. Qed.

(** An error of the memory whose text is empty is reported to the caller of
    Record, Links and Unlink as success. *)
Theorem blank_error_is_success (incoming : Ctx -> Ctx) (fates : Ctx -> MethodEnvelope -> W -> fate)
    (router : PluginRouter W) (c : PluginClient W) (real : Memory W)
    (ctx : Ctx) (n : Node) (w w' : W) (err : error) :
  connected incoming fates (Plugin.Call router) c ->
  ports router !! PortMemory = Some (memoryServer real) ->
  (forall env, fates ctx env w = Delivered) ->
  lossless n -> mem_Record real (incoming ctx) n w = (w', Err err) -> Error err = [] ->
  Record_ (NewMemoryProxy c) ctx n w = (w', Ok tt).
Proof.
  intros Hc Hport Hf Hn Hreal Hblank.
  destruct (args_cross (T := Node * unit) (n, tt)) as (payload & He & Hd); [lossless_args|].
  apply (only_error_blank _ _ _ _ Hc _ _ _ _ _ (mem_Record real (incoming ctx) n) w w' err He); try done.
  rewrite (Call_registered _ _ _ _ _ _ _ Hport). by apply serves_record.
Qed.

(** Closing a proxy never closes the memory: a dialed proxy closes exactly the
    connection the dial opened, a proxy over a given client closes nothing, and
    no request reaches the memory's own Close. *)
Theorem memory_close_is_local {Creds Conn} (insecure : Creds) (NewClient : bytes -> Creds -> result Conn)
    (NewPluginClient : Conn -> PluginClient W) (close : Conn -> W -> W * result unit)
    (ctx : Ctx) (e : RemoteEntry) (creds : option Creds) :
  match dialConn insecure NewClient ctx e creds with
  | Err err => DialMemory insecure NewClient NewPluginClient close ctx e creds = Err err
  | Ok conn => exists p, DialMemory insecure NewClient NewPluginClient close ctx e creds = Ok p
                /\ client p = NewPluginClient conn /\ Close p = close conn
  end
  /\ (forall c w, Close (NewMemoryProxy (W := W) c) w = (w, Ok tt))
  /\ (forall (real : Memory W) other ctx env w,
        memoryServer {| mem_Recall := mem_Recall real; mem_Record := mem_Record real;
                        mem_Search := mem_Search real; mem_Links := mem_Links real;
                        mem_Unlink := mem_Unlink real; mem_Close := other |} ctx env w
        = memoryServer real ctx env w).
Proof.
  split; [|done]. unfold DialMemory. destruct (dialConn _ _ _ _ _) as [conn|err]; cbn; [|done]. eauto.
Qed.
End theorems.

(* ------------------------------------------------------------------ *)
(** ** Witnesses *)

#[local] Existing Instance sample_env.

(** A memory that keeps its nodes in a list, refuses to unlink with a budget
    error and does not know links. *)
Definition sample_memory : Memory (list bytes) := {|
  mem_Recall ctx key depth w := (w, Ok (A := list bytes) [B "facts/x"]);
  mem_Record ctx n w := (w ++ [n], Ok tt);
  mem_Search ctx q w := (w, Ok (A := list bytes) [B "facts/y"]);
  mem_Links ctx from to rel w := (w, Err (Foreign (B "no links")));
  mem_Unlink ctx from to w := (w, Err sample_budget_error);
  mem_Close w := (w, Ok tt)
|}.

Definition sample_router : PluginRouter (list bytes) :=
  (RegisterMemorySkeleton (Router ∅) sample_memory).1.

Lemma sample_nodes_lossless (a : bytes) : Utf8 a -> lossless (A := list bytes) [a].
Proof.
  intros Ha. exists (JArr [JStr a]). split_and!; [done|wf_json|done|]. intros strict. reflexivity.
Qed.

Lemma sample_memory_portable : portable_memory sample_memory.
Proof.
  split; intros; cbn [sample_memory mem_Recall mem_Record mem_Search mem_Links mem_Unlink snd portable portable_error].
  - apply sample_nodes_lossless. utf8.
  - done.
  - apply sample_nodes_lossless. utf8.
  - by split.
  - split; [done|]. intros b [= <-]. apply sample_budget_lossless; [utf8|reflexivity..].
Qed.

Definition sample_fate (ctx : Ctx) (env : MethodEnvelope) (w : list bytes) : fate :=
  if decide (Method env = B "Search") then Lost (B "deadline exceeded") else Delivered.

Definition sample_link : PluginClient (list bytes) :=
  fun ctx env w => transmit (sample_fate ctx env w) (Plugin.Call sample_router ctx env) w.

Lemma memory_refinement_witness :
  exists payload,
    Unlink (Proxy sample_link None) None (B "a") (B "b") [B "facts/z"]
    = remotely (sample_fate None (Request PortMemory methodUnlink payload) [B "facts/z"])
        (mem_Unlink sample_memory None (B "a") (B "b")) [B "facts/z"].
Proof.
  apply (memory_refinement id sample_fate sample_router sample_link None sample_memory);
    [done|reflexivity|apply sample_memory_portable|utf8|utf8].
Defined.

Lemma memory_proxy_fails_closed_witness :
  exists payload res j,
    sample_link None (Request PortMemory methodRecall payload) [] = ([], Ok res)
    /\ res_Error res = [] /\ parse (res_JsonPayload res) = Some (JArr [j])
    /\ Unmarshal (print j) zero = Ok [B "facts/x"].
Proof.
  apply (memory_proxy_fails_closed (NewMemoryProxy sample_link) None (B "facts/x") 2). vm_refl.
Defined.

Lemma blank_error_is_success_witness :
  let real : Memory unit := {|
    mem_Recall ctx key depth w := (w, Err (Foreign []));
    mem_Record ctx n w := (w, Err (Foreign []));
    mem_Search ctx q w := (w, Err (Foreign []));
    mem_Links ctx from to rel w := (w, Err (Foreign []));
    mem_Unlink ctx from to w := (w, Err (Foreign []));
    mem_Close w := (w, Ok tt) |} in
  let router := (RegisterMemorySkeleton (Router ∅) real).1 in
  Record_ (NewMemoryProxy (Plugin.Call router)) None (B "n") tt = (tt, Ok tt).
Proof.
  intros real router.
  apply (blank_error_is_success id (fun _ _ _ => Delivered) router (Plugin.Call router) real
           None (B "n") tt tt (Foreign [])); try done.
  apply lossless_string. utf8.
Defined.
