(* ===== verification/Orchestrator.v ===== *)
(** * Orchestrator: orchestrator_proxy.go, orchestrator_skeleton.go and DialOrchestrator

    The orchestrator port, served by the same router as the memory port. The
    proxy refines the orchestrator except for [Context], which degrades to the
    empty text when the call fails. *)

From S2P Require Import Prelude Text Json Encoding Env Sample Errors Codec Announce NetAddr Registry Plugin.

#[local] Arguments encodeArgs : simpl never.
#[local] Arguments decodeArgs : simpl never.

Section orchestrator.
Context `{Env} {W : Type}.

Definition PortOrchestrator : bytes := B "orchestrator".
Definition methodContext : bytes := B "Context".
Definition methodObserve : bytes := B "Observe".
Definition methodConsolidate : bytes := B "Consolidate".

(** The methods of [contracts.Orchestrator] the code calls. *)
Record Orchestrator := {
  orc_Context : Ctx -> W -> W * bytes;
  orc_Observe : Ctx -> Prompt -> bytes -> W -> W * result unit;
  orc_Consolidate : Ctx -> W -> W * result unit;
  orc_Close : W -> W * result unit
}.

(** [orchestratorServer.Call] *)
Definition orchestratorServer (real : Orchestrator) : PluginServer W := fun ctx env w =>
  if decide (Port env <> PortOrchestrator) then (w, fail (UnknownPortError (Port env)))
  else if decide (Method env = methodContext) then
    let (w, context) := orc_Context real ctx w in
    match encodeArgs (context, tt) with
    | Err err => (w, fail err)
    | Ok out => (w, Ok (Result out []))
    end
  else if decide (Method env = methodObserve) then
    match decodeArgs (req_JsonPayload env) (args_zero : Prompt * (bytes * unit)) with
    | Err err => (w, fail err)
    | Ok (prompt, (reply, _)) =>
        let (w, res) := orc_Observe real ctx prompt reply w in
        match res with
        | Err err => (w, fail err)
        | Ok _ => (w, Ok (Result [] []))
        end
    end
  else if decide (Method env = methodConsolidate) then
    let (w, res) := orc_Consolidate real ctx w in
    match res with
    | Err err => (w, fail err)
    | Ok _ => (w, Ok (Result [] []))
    end
  else (w, fail (UnknownMethodError PortOrchestrator (Method env))).

Definition RegisterOrchestratorSkeleton (r : PluginRouter W) (impl : Orchestrator) : PluginRouter W * result unit :=
  add r PortOrchestrator (orchestratorServer impl).

(** [None] is a nil [dialed]. *)
Record OrchestratorProxy := Proxy {
  client : PluginClient W;
  dialed : option (W -> W * result unit)
}.

Definition NewOrchestratorProxy (c : PluginClient W) : OrchestratorProxy := Proxy c None.

Definition call {T} `{!Args T} (p : OrchestratorProxy) (ctx : Ctx) (method : bytes) (args : T)
    : W -> W * result ResultEnvelope :=
  proxy_call PortOrchestrator (client p) ctx method args.

Definition Context_ (p : OrchestratorProxy) (ctx : Ctx) : W -> W * bytes :=
  do res <- call p ctx methodContext tt;
  state_ret
    match res with
    | Err _ => []
    | Ok res =>
        match decodeArgs (res_JsonPayload res) (args_zero : bytes * unit) with
        | Err _ => []
        | Ok (out, _) => out
        end
    end.

Definition Observe (p : OrchestratorProxy) (ctx : Ctx) (pr : Prompt) (reply : bytes) : W -> W * result unit :=
  only_error (call p ctx methodObserve (pr, (reply, tt))).

Definition Consolidate (p : OrchestratorProxy) (ctx : Ctx) : W -> W * result unit :=
  only_error (call p ctx methodConsolidate tt).

Definition Close (p : OrchestratorProxy) : W -> W * result unit := closeDialed (dialed p).

(** [var _ contracts.Orchestrator = ( *OrchestratorProxy)(nil)] *)
Definition OrchestratorProxy_Orchestrator (p : OrchestratorProxy) : Orchestrator := {|
  orc_Context := Context_ p;
  orc_Observe := Observe p;
  orc_Consolidate := Consolidate p;
  orc_Close := Close p
|}.

(** remote_registry.go *)
Definition DialOrchestrator {Creds Conn} (insecure : Creds) (NewClient : bytes -> Creds -> result Conn)
    (NewPluginClient : Conn -> PluginClient W) (close : Conn -> W -> W * result unit)
    (ctx : Ctx) (e : RemoteEntry) (creds : option Creds) : result OrchestratorProxy :=
  let? conn := dialConn insecure NewClient ctx e creds in
  let proxy := NewOrchestratorProxy (NewPluginClient conn) in
  Ok (Proxy (client proxy) (Some (close conn))).
End orchestrator.
Arguments Orchestrator {_} W.
Arguments OrchestratorProxy {_} W.

(** An orchestrator whose every outcome the wire can carry. *)
Record portable_orchestrator `{Env} {W} (real : Orchestrator W) : Prop := {
  portable_Context ctx w : Utf8 (orc_Context real ctx w).2;
  portable_Observe ctx pr reply w : portable_error (orc_Observe real ctx pr reply w).2;
  portable_Consolidate ctx w : portable_error (orc_Consolidate real ctx w).2
}.

(** An orchestrator [offered] to a client that is [real] behind a network. *)
Record remote_orchestrator `{Env} {W} (incoming : Ctx -> Ctx) (fates : Ctx -> MethodEnvelope -> W -> fate)
    (real offered : Orchestrator W) : Prop := {
  remote_Context ctx w : exists payload,
    orc_Context offered ctx w
    = match fates ctx (Request PortOrchestrator methodContext payload) w with
      | Delivered => orc_Context real (incoming ctx) w
      | Lost _ => ((orc_Context real (incoming ctx) w).1, [])
      | Unreached _ => (w, [])
      end;
  remote_Observe ctx pr reply w : lossless pr -> Utf8 reply -> exists payload,
    orc_Observe offered ctx pr reply w
    = remotely (fates ctx (Request PortOrchestrator methodObserve payload) w)
        (orc_Observe real (incoming ctx) pr reply) w;
  remote_Consolidate ctx w : exists payload,
    orc_Consolidate offered ctx w
    = remotely (fates ctx (Request PortOrchestrator methodConsolidate payload) w)
        (orc_Consolidate real (incoming ctx)) w
}.

(* ------------------------------------------------------------------ *)
(** ** Lemmas *)

Section lemmas.
Context `{E : Env} {W : Type}.
Implicit Types (real : Orchestrator W) (w : W).

Ltac serve :=
  unfold orchestratorServer; cbn [Port Method req_JsonPayload];
  rewrite decide_False by auto;
  repeat first [rewrite decide_True by done | rewrite decide_False by discriminate].

Lemma serves_context real ctx payload w :
  orchestratorServer real ctx (Request PortOrchestrator methodContext payload) w
  = (let (w, context) := orc_Context real ctx w in
     (w, match encodeArgs (context, tt) with Err err => fail err | Ok out => Ok (Result out []) end)).
Proof. serve. by repeat case_match. Qed.

Lemma serves_observe real ctx pr reply payload w :
  decodeArgs payload (args_zero : Prompt * (bytes * unit)) = Ok (pr, (reply, tt)) ->
  orchestratorServer real ctx (Request PortOrchestrator methodObserve payload) w
  = (let (w, r) := orc_Observe real ctx pr reply w in
     (w, match r with Err err => fail err | Ok _ => Ok (Result [] []) end)).
Proof. intros Hargs. serve. rewrite Hargs. by repeat case_match. Qed.

Lemma serves_consolidate real ctx payload w :
  orchestratorServer real ctx (Request PortOrchestrator methodConsolidate payload) w
  = (let (w, r) := orc_Consolidate real ctx w in
     (w, match r with Err err => fail err | Ok _ => Ok (Result [] []) end)).
Proof. serve. by repeat case_match. Qed.

Lemma orchestrator_proxy_remote (incoming : Ctx -> Ctx) (fates : Ctx -> MethodEnvelope -> W -> fate)
    (router : PluginRouter W) (c : PluginClient W) (d : option (W -> W * result unit)) real :
  connected incoming fates (Plugin.Call router) c ->
  ports router !! PortOrchestrator = Some (orchestratorServer real) ->
  portable_orchestrator real ->
  remote_orchestrator incoming fates real (OrchestratorProxy_Orchestrator (Proxy c d)).
Proof.
  intros Hc Hport Hreal.
  set (sent method payload := Request PortOrchestrator method payload).
  split; intros; cbn [OrchestratorProxy_Orchestrator orc_Context orc_Observe orc_Consolidate].
  - exists (print JNull). unfold Context_, call, proxy_call, state_bind, state_ret. cbn [client].
    change (encodeArgs tt) with (Ok (E := error) (print JNull)). cbv beta iota.
    rewrite Hc. unfold transmit. fold (sent methodContext (print JNull)).
    destruct (fates _ _ _); [|cbn..]; try done; [|].
    + unfold sent at 1. rewrite (Call_registered _ _ _ _ _ _ _ Hport), serves_context.
      pose proof (portable_Context _ Hreal (incoming ctx) w) as Hutf.
      destruct (orc_Context real (incoming ctx) w) as [w' context]. cbn in Hutf.
      destruct (encodeArgs_one context (lossless_string _ Hutf)) as (out & -> & Hd).
      cbn -[args_zero]. rewrite decide_False by tauto. cbn -[args_zero]. by rewrite Hd.
    + unfold sent. rewrite (Call_registered _ _ _ _ _ _ _ Hport), serves_context.
      by destruct (orc_Context _ _ _).
  - destruct (args_cross (T := Prompt * (bytes * unit)) (pr, (reply, tt)))
      as (payload & He & Hd); [lossless_args|].
    exists payload. apply (only_error_remote _ _ _ _ Hc _ _ _ _ _ _ _ He); [|by apply Hreal].
    rewrite (Call_registered _ _ _ _ _ _ _ Hport). by apply serves_observe.
  - exists (print JNull). assert (encodeArgs tt = Ok (E := error) (print JNull)) as He by done.
    apply (only_error_remote _ _ _ _ Hc _ _ _ _ _ _ _ He); [|by apply Hreal].
    rewrite (Call_registered _ _ _ _ _ _ _ Hport). by apply serves_consolidate.
Qed.
End lemmas.

(* ------------------------------------------------------------------ *)
(** ** Theorems *)

Section theorems.
Context `{E : Env} {W : Type}.

(** The proxy refines the orchestrator. Observe and Consolidate are the real
    operations up to the fate of the call; Context is the real context when the
    call is delivered and the empty text when it is not, and it never fails. *)
Theorem orchestrator_refinement (incoming : Ctx -> Ctx) (fates : Ctx -> MethodEnvelope -> W -> fate)
    (router : PluginRouter W) (c : PluginClient W) (d : option (W -> W * result unit)) (real : Orchestrator W) :
  connected incoming fates (Plugin.Call router) c ->
  ports router !! PortOrchestrator = Some (orchestratorServer real) ->
  portable_orchestrator real ->
  let proxy := Proxy c d in
  let sent method payload := Request PortOrchestrator method payload in
  (forall ctx w, exists payload,
     Context_ proxy ctx w
     = match fates ctx (sent methodContext payload) w with
       | Delivered => orc_Context real (incoming ctx) w
       | Lost _ => ((orc_Context real (incoming ctx) w).1, [])
       | Unreached _ => (w, [])
       end)
  /\ (forall ctx pr reply w, lossless pr -> Utf8 reply -> exists payload,
     Observe proxy ctx pr reply w
     = remotely (fates ctx (sent methodObserve payload) w) (orc_Observe real (incoming ctx) pr reply) w)
  /\ (forall ctx w, exists payload,
     Consolidate proxy ctx w
     = remotely (fates ctx (sent methodConsolidate payload) w) (orc_Consolidate real (incoming ctx)) w).
Proof.
  intros Hc Hport Hreal proxy sent. destruct (orchestrator_proxy_remote incoming fates router c d real Hc Hport Hreal). done.
Qed.

(** Context never breaks a turn: whatever the peer does, it returns the empty
    text unless the answer carries no error and holds exactly one value, the
    text returned. *)
Theorem context_degrades (p : OrchestratorProxy W) (ctx : Ctx) (w : W) :
  (Context_ p ctx w).2 = []
  \/ exists payload w' res j,
       client p ctx (Request PortOrchestrator methodContext payload) w = (w', Ok res)
       /\ res_Error res = [] /\ parse (res_JsonPayload res) = Some (JArr [j])
       /\ Unmarshal (print j) (zero : bytes) = Ok (Context_ p ctx w).2.
Proof.
  unfold Context_, call, proxy_call, state_bind, state_ret.
  change (encodeArgs tt) with (Ok (E := error) (print JNull)). cbv beta iota.
  destruct (client p ctx _ w) as [w' [res|]] eqn:Hc; [|by left]. case_decide as He; [by left|].
  cbn [snd]. change (args_zero : bytes * unit) with ((zero : bytes, tt)).
  destruct (decodeArgs _ _) as [[out []]|] eqn:Hd; [|by left]. right.
  apply decodeArgs_one_inv in Hd as (j & Hp & Hu). exists (print JNull), w', res, j. split_and!; try done.
Qed.
End theorems.

(* ------------------------------------------------------------------ *)
(** ** Witnesses *)

#[local] Existing Instance sample_env.

(** An orchestrator that logs the replies it observes. *)
Definition sample_orchestrator : Orchestrator (list bytes) := {|
  orc_Context ctx w := (w, B "recall facts/x");
  orc_Observe ctx pr reply w := (w ++ [reply], Ok tt);
  orc_Consolidate ctx w := (w, Err sample_budget_error);
  orc_Close w := (w, Ok tt)
|}.

Lemma sample_orchestrator_portable : portable_orchestrator sample_orchestrator.
Proof.
  split; intros; cbn [sample_orchestrator orc_Context orc_Observe orc_Consolidate snd portable_error].
  - utf8.
  - done.
  - split; [done|]. intros b [= <-]. apply sample_budget_lossless; [utf8|reflexivity..].
Qed.

Definition sample_router : PluginRouter (list bytes) :=
  (RegisterOrchestratorSkeleton (Router ∅) sample_orchestrator).1.

Lemma orchestrator_refinement_witness :
  exists payload : bytes,
    Consolidate (NewOrchestratorProxy (Plugin.Call sample_router)) None [B "turn"]
    = remotely Delivered (orc_Consolidate sample_orchestrator None) [B "turn"].
Proof.
  apply (orchestrator_refinement id (fun _ _ _ => Delivered) sample_router (Plugin.Call sample_router)
           (None : option (list bytes -> list bytes * result unit)) sample_orchestrator); [done|reflexivity|apply sample_orchestrator_portable].
Defined.
