(* ===== verification/Backend.v ===== *)
(** * Backend: backend_stream.go

    The backend port, which streams. The skeleton forwards every event of a turn
    as a frame and closes the stream with the reply frame; the proxy replays
    the events and returns the reply. The real backend may report events from
    several goroutines and after it has returned: [respond] is the run where
    events come one after the other, and [step] the interleaving of the
    goroutines with the mutex, in steps as small as its lock, its checks, the
    call of SendMsg and its return. *)

From S2P Require Import Prelude Text Json Encoding Env Sample Errors Codec Announce NetAddr Registry Plugin.
From stdpp Require Import relations.

#[local] Arguments encodeArgs : simpl never.
#[local] Arguments decodeArgs : simpl never.

Section backend.
Context `{Env}.

Definition PortBackend : bytes := B "backend".
Definition respondMethod : bytes := B "Respond".

(* ------------------------------------------------------------------ *)
(** ** Frames *)

Record backendFrame := Frame {
  Event : option BackendEvent;
  Done : bool;
  Reply : bytes;
  frame_Error : bytes
}.

(** Every field is [omitempty]. *)
#[global] Instance backendFrame_json : GoJson backendFrame := {|
  zero := Frame None false [] [];
  to_json f :=
    let? event :=
      match Event f with
      | None => Ok []
      | Some event => let? j := to_json event in Ok [(B "event", j)]
      end in
    let done := if Done f then [(B "done", JBool true)] else [] in
    let reply := match Reply f with [] => [] | reply => [(B "reply", JStr reply)] end in
    let error := match frame_Error f with [] => [] | error => [(B "error", JStr error)] end in
    Ok (JObj (event ++ done ++ reply ++ error));
  from_json strict :=
    decode_struct strict [
      typed_field (B "event") Event (fun v f => Frame v (Done f) (Reply f) (frame_Error f));
      typed_field (B "done") Done (fun v f => Frame (Event f) v (Reply f) (frame_Error f));
      typed_field (B "reply") Reply (fun v f => Frame (Event f) (Done f) v (frame_Error f));
      typed_field (B "error") frame_Error (fun v f => Frame (Event f) (Done f) (Reply f) v)]
|}.

Definition errString (err : option error) : bytes :=
  match err with
  | Some err => Error err
  | None => []
  end.

(* ------------------------------------------------------------------ *)
(** ** The skeleton *)

(** What [contracts.Backend.Respond] does to its world: the events it reports,
    in order, its reply and its error ([None] for nil). A callback returns
    nothing, so the events do not depend on it. *)
Definition Backend (W : Type) : Type :=
  Ctx -> Prompt -> W -> W * (list BackendEvent * (bytes * option error)).

Section server.
Context {T : Type} (SendMsg : ResultEnvelope -> T -> T * result unit).

(** The variables the callback shares with the handler, and the stream. *)
Record sending := Send { sendErr : option error; closed : bool; stream : T }.

Definition onEvent (st : sending) (event : BackendEvent) : sending :=
  if closed st || bool_decide (is_Some (sendErr st)) then st
  else
    match Marshal (Frame (Some event) false [] []) with
    | Err err => Send (Some err) (closed st) (stream st)
    | Ok payload =>
        let (t, sent) := SendMsg (Result payload []) (stream st) in
        match sent with
        | Err err => Send (Some err) (closed st) t
        | Ok _ => Send (sendErr st) (closed st) t
        end
    end.

(** The handler after [real.Respond] returned and [closed] is set. *)
Definition sendReply (streamErr : option error) (reply : bytes) (respErr : option error) (t : T)
    : T * result unit :=
  match streamErr with
  | Some err => (t, Err (wrap (B "transport: backend event stream: ") err))
  | None =>
      match Marshal (Frame None true reply (errString respErr)) with
      | Err err => (t, Err (wrap (B "transport: encode backend reply: ") err))
      | Ok payload =>
          let (t, sent) := SendMsg (Result payload []) t in
          match sent with
          | Err err => (t, Err (wrap (B "transport: send backend reply: ") err))
          | Ok _ => (t, Ok tt)
          end
      end
  end.

(** The turn after the prompt is decoded. *)
Definition run_turn (events : list BackendEvent) (reply : bytes) (respErr : option error) (t : T) : T * result unit :=
  let st := foldl onEvent (Send None false t) events in
  sendReply (sendErr st) reply respErr (stream st).

(** [backendServer.respond] *)
Definition respond {W} (real : Backend W) (ctx : Ctx) (req : MethodEnvelope) (w : W) (t : T) : W * T * result unit :=
  if decide (Port req <> PortBackend) then (w, t, Err (UnknownPortError (Port req)))
  else
    match decodeArgs (req_JsonPayload req) (args_zero : Prompt * unit) with
    | Err err => (w, t, Err (wrap (B "transport: decode backend prompt: ") err))
    | Ok (prompt, _) =>
        let '(w, (events, (reply, respErr))) := real ctx prompt w in
        let (t, res) := run_turn events reply respErr t in
        (w, t, res)
    end.

(** [srv] is [None] for a value that is no backendStreamSrv. *)
Definition backendRespondHandler {W} (RecvMsg : result MethodEnvelope) (srv : option (Backend W))
    (ctx : Ctx) (w : W) (t : T) : W * T * result unit :=
  match RecvMsg with
  | Err err => (w, t, Err err)
  | Ok req =>
      match srv with
      | None => (w, t, Err (Sentinel errBackendStreamNotResponder))
      | Some real => respond real ctx req w t
      end
  end.

(** [grpc.StreamDesc] and [grpc.ServiceDesc] as far as the backend fills them in. *)
Record StreamDesc (W : Type) := {
  StreamName : bytes;
  Handler : result MethodEnvelope -> option (Backend W) -> Ctx -> W -> T -> W * T * result unit;
  ServerStreams : bool
}.
Arguments StreamName {W} _.
Arguments Handler {W} _.
Arguments ServerStreams {W} _.

Record ServiceDesc (W : Type) := {
  ServiceName : bytes;
  Streams : list (StreamDesc W);
  Metadata : bytes
}.
Arguments ServiceName {W} _.
Arguments Streams {W} _.
Arguments Metadata {W} _.

Definition backendStreamServiceDesc {W} : ServiceDesc W := {|
  ServiceName := B "herrscher.transport.v1.BackendStream";
  Streams := [{| StreamName := respondMethod; Handler := backendRespondHandler; ServerStreams := true |}];
  Metadata := B "backend_stream.go"
|}.

Definition RegisterBackendSkeleton {W Server} (RegisterService : ServiceDesc W -> Backend W -> Server -> Server)
    (server : Server) (impl : Backend W) : Server :=
  RegisterService backendStreamServiceDesc impl server.

(* ------------------------------------------------------------------ *)
(** ** The goroutines of a turn *)

(** Where a call of the callback is: before the lock, holding it, inside
    SendMsg, before the unlock, returned. *)
Inductive caller : Type :=
| Called (event : BackendEvent)
| Holding (event : BackendEvent)
| Sending (event : BackendEvent) (payload : bytes)
| Leaving
| Gone.

(** Where the handler is: inside [real.Respond], before the lock, holding it,
    after the unlock, inside SendMsg, returned. *)
Inductive handler : Type :=
| Responding
| Returned (reply : bytes) (respErr : option error)
| Closing (reply : bytes) (respErr : option error)
| Reporting (reply : bytes) (respErr : option error) (streamErr : option error)
| Replying (reply : bytes) (respErr : option error) (payload : bytes)
| Exited (reply : bytes) (respErr : option error) (res : result unit).

Inductive owner : Type :=
| ByHandler
| ByCaller (g : nat).

(** [entered] records the events of the calls that took the lock before the
    handler did, in the order they took it. *)
Record turn := Turn {
  lock : option owner;
  shared : sending;
  callers : gmap nat caller;
  main : handler;
  entered : list BackendEvent
}.

Definition turn_start (t : T) : turn := Turn None (Send None false t) ∅ Responding [].

Inductive step : turn -> turn -> Prop :=
| step_call g event l st cs h es :
    cs !! g = None ->
    step (Turn l st cs h es) (Turn l st (<[g := Called event]> cs) h es)
| step_lock g event st cs h es :
    cs !! g = Some (Called event) ->
    step (Turn None st cs h es)
         (Turn (Some (ByCaller g)) st (<[g := Holding event]> cs) h
           (if closed st then es else es ++ [event]))
| step_drop g event l st cs h es :
    cs !! g = Some (Holding event) -> closed st = true \/ is_Some (sendErr st) ->
    step (Turn l st cs h es) (Turn l st (<[g := Leaving]> cs) h es)
| step_marshal_error g event err l st cs h es :
    cs !! g = Some (Holding event) -> closed st = false -> sendErr st = None ->
    Marshal (Frame (Some event) false [] []) = Err err ->
    step (Turn l st cs h es)
         (Turn l (Send (Some err) (closed st) (stream st)) (<[g := Leaving]> cs) h es)
| step_send g event payload l st cs h es :
    cs !! g = Some (Holding event) -> closed st = false -> sendErr st = None ->
    Marshal (Frame (Some event) false [] []) = Ok payload ->
    step (Turn l st cs h es) (Turn l st (<[g := Sending event payload]> cs) h es)
| step_sent g event payload t sent l st cs h es :
    cs !! g = Some (Sending event payload) ->
    SendMsg (Result payload []) (stream st) = (t, sent) ->
    step (Turn l st cs h es)
         (Turn l (Send (match sent with Err err => Some err | Ok _ => sendErr st end) (closed st) t)
           (<[g := Leaving]> cs) h es)
| step_unlock g l st cs h es :
    cs !! g = Some Leaving ->
    step (Turn l st cs h es) (Turn None st (<[g := Gone]> cs) h es)
| step_return reply respErr l st cs es :
    step (Turn l st cs Responding es) (Turn l st cs (Returned reply respErr) es)
| step_close_lock reply respErr st cs es :
    step (Turn None st cs (Returned reply respErr) es)
         (Turn (Some ByHandler) st cs (Closing reply respErr) es)
| step_close reply respErr l st cs es :
    step (Turn l st cs (Closing reply respErr) es)
         (Turn None (Send (sendErr st) true (stream st)) cs (Reporting reply respErr (sendErr st)) es)
| step_stream_error reply respErr err l st cs es :
    step (Turn l st cs (Reporting reply respErr (Some err)) es)
         (Turn l st cs (Exited reply respErr (Err (wrap (B "transport: backend event stream: ") err))) es)
| step_encode_error reply respErr err l st cs es :
    Marshal (Frame None true reply (errString respErr)) = Err err ->
    step (Turn l st cs (Reporting reply respErr None) es)
         (Turn l st cs (Exited reply respErr (Err (wrap (B "transport: encode backend reply: ") err))) es)
| step_reply reply respErr payload l st cs es :
    Marshal (Frame None true reply (errString respErr)) = Ok payload ->
    step (Turn l st cs (Reporting reply respErr None) es) (Turn l st cs (Replying reply respErr payload) es)
| step_replied reply respErr payload t sent l st cs es :
    SendMsg (Result payload []) (stream st) = (t, sent) ->
    step (Turn l st cs (Replying reply respErr payload) es)
         (Turn l (Send (sendErr st) (closed st) t) cs
           (Exited reply respErr (match sent with
                    | Err err => Err (wrap (B "transport: send backend reply: ") err)
                    | Ok _ => Ok tt
                    end)) es).

(** Who is inside SendMsg, which a gRPC stream does not allow twice at once. *)
Definition inside_SendMsg (s : turn) (o : owner) : Prop :=
  match o with
  | ByHandler => exists reply respErr payload, main s = Replying reply respErr payload
  | ByCaller g => exists event payload, callers s !! g = Some (Sending event payload)
  end.
End server.

(* ------------------------------------------------------------------ *)
(** ** The proxy *)

Definition backendRespondFullMethod : bytes := B "/herrscher.transport.v1.BackendStream/Respond".

Arguments StreamName {T W} _.
Arguments Handler {T W} _.
Arguments Streams {T W} _.
Arguments ServiceName {T W} _.

(** gRPC names a stream by its service and its stream name: the proxy opens the
    one stream that [RegisterBackendSkeleton] registers. *)
Lemma respond_stream_registered {W T} (SendMsg : ResultEnvelope -> T -> T * result unit) :
  exists d, Streams (W := W) (backendStreamServiceDesc SendMsg) = [d] /\ Handler d = backendRespondHandler SendMsg
    /\ backendRespondFullMethod
       = B "/" ++ ServiceName (W := W) (backendStreamServiceDesc SendMsg) ++ B "/" ++ StreamName d.
Proof. eexists. split_and!; reflexivity. Qed.

(** A [grpc.ClientStream]: the results of SendMsg and CloseSend, and what
    RecvMsg returns once the request is sent: messages, then an error. *)
Record ClientStream := {
  client_SendMsg : MethodEnvelope -> result unit;
  client_CloseSend : result unit;
  client_RecvMsg : MethodEnvelope -> list ResultEnvelope * error
}.

Definition openRespondStream (NewStream : Ctx -> bytes -> result ClientStream) (ctx : Ctx) (payload : bytes)
    : result (list ResultEnvelope * error) :=
  let req := Request PortBackend respondMethod payload in
  let? stream := map_err (wrap (B "backend: open stream: ")) (NewStream ctx backendRespondFullMethod) in
  let? _ := map_err (wrap (B "backend: send prompt: ")) (client_SendMsg stream req) in
  let? _ := map_err (wrap (B "backend: close send: ")) (client_CloseSend stream) in
  Ok (client_RecvMsg stream req).

Definition receiveFailure (err : error) : error :=
  if is_sentinel EOF err
  then wrap (B "backend: stream ended before reply{done}: ") (Sentinel ErrUnexpectedEOF)
  else wrap (B "backend: remote stream: ") err.

Record frameOutcome := Outcome { out_reply : bytes; terminal : bool; out_err : option error }.

(** [onEvent] is [None] for a nil callback; it runs in a world [U]. *)
Definition applyBackendFrame {U} (frame : ResultEnvelope) (onEvent : option (BackendEvent -> U -> U)) (u : U)
    : U * frameOutcome :=
  match Unmarshal (res_JsonPayload frame) (zero : backendFrame) with
  | Err err => (u, Outcome [] true (Some (wrap (B "backend: decode frame: ") err)))
  | Ok decoded =>
      match Event decoded with
      | Some event =>
          (match onEvent with Some f => f event u | None => u end, Outcome [] false None)
      | None =>
          if negb (Done decoded) then (u, Outcome [] true (Some (Sentinel ErrInvalidFrame)))
          else if decide (frame_Error decoded <> [])
          then (u, Outcome (Reply decoded) true (Some (remoteError (frame_Error decoded))))
          else (u, Outcome (Reply decoded) true None)
      end
  end.

(** The loop of [Respond] over the messages of the stream and its error. *)
Fixpoint receive {U} (onEvent : option (BackendEvent -> U -> U)) (frames : list ResultEnvelope) (err : error) (u : U)
    : U * (bytes * option error) :=
  match frames with
  | [] => (u, ([], Some (receiveFailure err)))
  | frame :: frames =>
      let (u, outcome) := applyBackendFrame frame onEvent u in
      if terminal outcome then (u, (out_reply outcome, out_err outcome))
      else receive onEvent frames err u
  end.

(** [WithCancel] is [context.WithCancel], and [cancel] the effect of the
    function it returns, which is deferred. *)
Definition Respond {U} (WithCancel : Ctx -> Ctx) (cancel : Ctx -> U -> U)
    (NewStream : Ctx -> bytes -> result ClientStream) (ctx : Ctx) (prompt : Prompt)
    (onEvent : option (BackendEvent -> U -> U)) (u : U) : U * (bytes * option error) :=
  match encodeArgs (prompt, tt) with
  | Err err => (u, ([], Some err))
  | Ok payload =>
      let ctx := WithCancel ctx in
      let (u, outcome) :=
        match openRespondStream NewStream ctx payload with
        | Err err => (u, ([], Some err))
        | Ok (frames, err) => receive onEvent frames err u
        end in
      (cancel ctx u, outcome)
  end.

(** The proxy holds the connection it opens streams on; [None] is a nil
    [dialed]. *)
Record BackendProxy (W : Type) := Proxy {
  cc : Ctx -> bytes -> result ClientStream;
  dialed : option (W -> W * result unit)
}.
Arguments Proxy {W} _ _.
Arguments cc {W} _.
Arguments dialed {W} _.

Definition NewBackendProxy {W} (cc : Ctx -> bytes -> result ClientStream) : BackendProxy W := Proxy cc None.

Definition Close {W} (p : BackendProxy W) : W -> W * result unit := closeDialed (dialed p).

(** remote_registry.go *)
Definition DialBackend {W Creds Conn} (insecure : Creds) (NewClient : bytes -> Creds -> result Conn)
    (NewStream : Conn -> Ctx -> bytes -> result ClientStream) (close : Conn -> W -> W * result unit)
    (ctx : Ctx) (e : RemoteEntry) (creds : option Creds) : result (BackendProxy W) :=
  let? conn := dialConn insecure NewClient ctx e creds in
  let proxy := NewBackendProxy (W := W) (NewStream conn) in
  Ok (Proxy (cc proxy) (Some (close conn))).
End backend.

(* ------------------------------------------------------------------ *)
(** ** Lemmas: frames *)

Section frames.
Context `{E : Env}.

(** An event JSON carries, and not as null. *)
Definition lossless_event (event : BackendEvent) : Prop :=
  exists j, to_json event = Ok j /\ wf_json j /\ (depth j + 1 < max_depth)%N /\ j <> JNull
    /\ forall strict, from_json strict j zero = Some event.

Definition event_frame (event : BackendEvent) : backendFrame := Frame (Some event) false [] [].
Definition reply_frame (reply error : bytes) : backendFrame := Frame None true reply error.

Lemma event_frame_lossless event : lossless_event event -> lossless (event_frame event).
Proof.
  intros (j & Hj & Hwf & Hd & Hnull & Hv). eexists. split; [cbn; rewrite Hj; reflexivity|]. split_and!.
  - cbn. wf_json.
  - cbn. lia.
  - intros strict. cbn [from_json backendFrame_json app]. decode_fields.
    destruct j; try done; by rewrite Hv.
Qed.

Lemma reply_frame_lossless reply error : Utf8 reply -> Utf8 error -> lossless (reply_frame reply error).
Proof.
  intros Hr He. eexists. split; [reflexivity|]. split_and!.
  - cbn. destruct reply, error; cbn; wf_json.
  - by destruct reply, error.
  - intros strict. destruct reply, error; cbn [from_json backendFrame_json app]; by decode_fields.
Qed.

Lemma frame_message (f : backendFrame) :
  lossless f -> exists payload, Marshal f = Ok payload /\ Unmarshal payload zero = Ok f.
Proof. apply Unmarshal_Marshal. Qed.
End frames.

(* ------------------------------------------------------------------ *)
(** ** Lemmas: the goroutines of a turn *)

Section turns.
Context `{E : Env} {T : Type} (SendMsg : ResultEnvelope -> T -> T * result unit) (t0 : T).
Implicit Types s : turn (T := T).

Definition critical (c : caller) : Prop :=
  match c with Holding _ | Sending _ _ | Leaving => True | Called _ | Gone => False end.

Definition finishing (h : handler) : bool :=
  match h with Responding | Returned _ _ | Closing _ _ => false | _ => true end.

(** The discipline of the lock. *)
Record lock_inv s : Prop := {
  li_caller g c : callers s !! g = Some c -> critical c -> lock s = Some (ByCaller g);
  li_handler reply err : main s = Closing reply err -> lock s = Some ByHandler;
  li_closed : closed (shared s) = finishing (main s);
  li_sending g event payload :
    callers s !! g = Some (Sending event payload) ->
    closed (shared s) = false /\ sendErr (shared s) = None
    /\ Marshal (event_frame event) = Ok payload
}.

Lemma lock_inv_start : lock_inv (turn_start t0).
Proof. by split. Qed.

Lemma lookup_insert_cases {A} (m : gmap nat A) i j x y :
  <[i := x]> m !! j = Some y -> (i = j /\ x = y) \/ (i <> j /\ m !! j = Some y).
Proof. rewrite lookup_insert. case_decide; [intros [= ->]|]; auto. Qed.

Ltac callers_cases :=
  repeat match goal with
  | H : <[_ := _]> _ !! _ = Some _ |- _ => apply lookup_insert_cases in H as [[? ?]|[? H]]; simplify_eq
  end.

(** Adds what the invariant says of the callers in sight. *)
Ltac learn H :=
  let P := type of H in
  lazymatch goal with
  | _ : P |- _ => fail
  | _ => pose proof H
  end.
Ltac callers_facts Hc Hse :=
  repeat match goal with
  | H : _ !! _ = Some (Sending _ _) |- _ => learn (Hse _ _ _ H)
  | H : _ !! _ = Some _ |- _ => learn (Hc _ _ H I)
  end.

Lemma lock_inv_step s s' : step SendMsg s s' -> lock_inv s -> lock_inv s'.
Proof.
  intros Hs [Hc Hh Hcl Hse].
  destruct Hs; cbn in *; split; cbn; intros; callers_cases; cbn in *; try done; eauto;
    callers_facts Hc Hse; simplify_eq; eauto; try naive_solver congruence.
Qed.

Lemma lock_inv_reachable s : rtc (step SendMsg) (turn_start t0) s -> lock_inv s.
Proof.
  apply (rtc_ind_r lock_inv (turn_start t0)); [apply lock_inv_start|].
  intros ? ? _ Hs. by apply lock_inv_step.
Qed.

(** The shared variables after the events one after the other. *)
Definition after (es : list BackendEvent) : sending := foldl (onEvent SendMsg) (Send None false t0) es.

#[local] Arguments after _ : simpl never.

Lemma onEvent_closed st event : closed (onEvent SendMsg st event) = closed st.
Proof. unfold onEvent. repeat case_match; done. Qed.

Lemma after_closed es : closed (after es) = false.
Proof.
  unfold after. induction es as [|e es IH] using rev_ind; [done|].
  by rewrite foldl_app; cbn; rewrite onEvent_closed.
Qed.

Lemma after_snoc es event : after (es ++ [event]) = onEvent SendMsg (after es) event.
Proof. unfold after. by rewrite foldl_app. Qed.

(** The event of a caller that holds the lock and has not changed the variables. *)
Definition event_of (c : option caller) : option BackendEvent :=
  match c with
  | Some (Holding event) | Some (Sending event _) => Some event
  | _ => None
  end.

Definition pending (cs : gmap nat caller) (o : option owner) : option BackendEvent :=
  match o with
  | Some (ByCaller g) => event_of (cs !! g)
  | _ => None
  end.

(** What the variables hold, at each point of the handler. *)
Definition data (p : option BackendEvent) (st : sending) (entered : list BackendEvent) (h : handler) : Prop :=
  match h with
  | Responding | Returned _ _ | Closing _ _ =>
      match p with
      | None => st = after entered
      | Some event => exists es, entered = es ++ [event] /\ st = after es
      end
  | Reporting _ _ streamErr =>
      streamErr = sendErr st /\ st = Send (sendErr (after entered)) true (stream (after entered))
  | Replying reply err payload =>
      Marshal (reply_frame reply (errString err)) = Ok payload
      /\ sendErr (after entered) = None /\ stream st = stream (after entered)
  | Exited reply err res => run_turn SendMsg entered reply err t0 = (stream st, res)
  end.

Definition data_inv s : Prop := data (pending (callers s) (lock s)) (shared s) (entered s) (main s).

Lemma data_finishing p p' st es h : finishing h = true -> data p st es h -> data p' st es h.
Proof. by destruct h. Qed.

(** Before the handler closes, a caller that changes the variables does what
    the callback does to them. *)
Lemma data_applied event st st' es h :
  finishing h = false -> onEvent SendMsg st event = st' ->
  data (Some event) st es h -> data None st' es h.
Proof.
  intros Hf <-. destruct h; try done; intros (es' & -> & ->); by rewrite <-after_snoc.
Qed.

Lemma data_step_caller s s' :
  step SendMsg s s' -> lock_inv s -> data_inv s ->
  main s' = main s -> data_inv s'.
Proof.
  intros Hs [Hc Hh Hcl Hse] Hd Hmain. unfold data_inv in *. destruct Hs; cbn in *; try done.
  - replace (pending (<[g := Called event]> cs) l) with (pending cs l); [done|].
    destruct l as [[|g']|]; [done| |done]. cbn. rewrite lookup_insert. case_decide as Heq; [|done].
    subst. by rewrite H.
  - rewrite lookup_insert_eq. destruct h; cbn in Hcl; rewrite Hcl; try done; cbn in Hd; subst; cbn; eauto.
  - rewrite (Hc _ _ H I) in *. cbn in *. rewrite lookup_insert_eq, H in *. cbn in *.
    destruct (finishing h) eqn:Hf; [by eapply data_finishing|].
    eapply data_applied; [done| |done]. unfold onEvent.
    destruct H0 as [|Hsome]; [congruence|]. by rewrite (bool_decide_eq_true_2 _ Hsome), orb_true_r.
  - rewrite (Hc _ _ H I) in *. cbn in *. rewrite lookup_insert_eq, H in *. cbn in *.
    eapply data_applied; [congruence| |done]. unfold onEvent. by rewrite H0, H1, H2.
  - rewrite (Hc _ _ H I) in *. cbn in *. by rewrite lookup_insert_eq, H in *.
  - destruct (Hse _ _ _ H) as (Hclosed & Herr & Hm).
    rewrite (Hc _ _ H I) in *. cbn in *. rewrite lookup_insert_eq, H in *. cbn in *.
    eapply data_applied; [congruence| |done]. unfold onEvent. unfold event_frame in Hm.
    rewrite Hclosed, Herr, Hm. cbn. rewrite H0. by destruct sent.
  - rewrite (Hc _ _ H I) in *. cbn in *. by rewrite H in *.
Qed.

Lemma data_step s s' : step SendMsg s s' -> lock_inv s -> data_inv s -> data_inv s'.
Proof.
  intros Hs Hl Hd. pose proof Hs as Hs'. destruct Hs; try by eapply data_step_caller.
  all: destruct Hl as [Hc Hh Hcl Hse]; unfold data_inv in *; cbn -[Marshal] in *.
  - done.
  - done.
  - rewrite (Hh _ _ eq_refl) in Hd. cbn in Hd. by subst.
  - destruct Hd as [He ->]. unfold run_turn, sendReply. fold (after es). cbn in *.
    by rewrite <-He.
  - destruct Hd as [He ->]. done.
  - destruct Hd as (Hm & He & Hst).
    unfold run_turn, sendReply. fold (after es). unfold reply_frame in Hm. rewrite He, Hm, <-Hst, H.
    by destruct sent.
Qed.

Lemma data_reachable s : rtc (step SendMsg) (turn_start t0) s -> data_inv s.
Proof.
  intros Hr. enough (lock_inv s /\ data_inv s) by tauto. revert s Hr.
  apply (rtc_ind_r (fun s => lock_inv s /\ data_inv s) (turn_start t0)).
  - split; [apply lock_inv_start|done].
  - intros ? ? _ Hs [? ?]. split; [by eapply lock_inv_step|by eapply data_step].
Qed.

(** The lock can become free with the handler where it is. *)
Definition released s : Prop :=
  exists s', rtc (step SendMsg) s s' /\ lock s' = None /\ main s' = main s
    /\ closed (shared s') = closed (shared s) /\ entered s' = entered s.

Lemma released_step s s1 :
  step SendMsg s s1 -> main s1 = main s -> closed (shared s1) = closed (shared s) -> entered s1 = entered s ->
  released s1 -> released s.
Proof.
  intros Hs Hm Hc He (s' & Hr & ? & ? & ? & ?). exists s'. split; [by eapply rtc_l|].
  split_and!; congruence.
Qed.

Lemma released_leaving g st cs h es :
  cs !! g = Some Leaving -> released (Turn (Some (ByCaller g)) st cs h es).
Proof. intros Hg. eexists. split; [by apply rtc_once, (step_unlock _ g)|done]. Qed.

Lemma released_sending g event payload st cs h es :
  cs !! g = Some (Sending event payload) -> released (Turn (Some (ByCaller g)) st cs h es).
Proof.
  intros Hg. destruct (SendMsg (Result payload []) (stream st)) as [t sent] eqn:Hs.
  eapply released_step; [by eapply step_sent|done..|]. apply released_leaving, lookup_insert_eq.
Qed.

Lemma released_holding g event st cs h es :
  cs !! g = Some (Holding event) -> released (Turn (Some (ByCaller g)) st cs h es).
Proof.
  intros Hg. destruct (decide (closed st = true \/ is_Some (sendErr st))) as [Hd|Hd].
  { eapply released_step; [by eapply step_drop|done..|]. apply released_leaving, lookup_insert_eq. }
  assert (closed st = false /\ sendErr st = None) as [Hcl He].
  { destruct (closed st), (sendErr st); naive_solver. }
  destruct (Marshal (Frame (Some event) false [] [])) as [payload|err] eqn:Hm.
  - eapply released_step; [by eapply step_send|done..|]. eapply released_sending, lookup_insert_eq.
  - eapply released_step; [by eapply step_marshal_error|done..|]. apply released_leaving, lookup_insert_eq.
Qed.

(** The lock is held by someone who is in the critical section. *)
Definition held_inv s : Prop :=
  match lock s with
  | None => True
  | Some ByHandler => exists reply err, main s = Closing reply err
  | Some (ByCaller g) => exists c, callers s !! g = Some c /\ critical c
  end.

Lemma held_inv_step s s' : step SendMsg s s' -> lock_inv s -> held_inv s -> held_inv s'.
Proof.
  intros Hs [Hc Hh _ _] Hl. destruct Hs; unfold held_inv in *; cbn in *; try done; eauto.
  2: { exists (Holding event). by rewrite lookup_insert_eq. }
  all: try (rewrite (Hc _ _ ltac:(eassumption) I); eexists; by rewrite lookup_insert_eq).
  - destruct l as [[|g']|]; [done| |done]. destruct Hl as (c & Hg' & Hcrit). exists c.
    rewrite lookup_insert_ne by congruence. done.
  - destruct l as [[|g']|]; [naive_solver..|done].
  - destruct l as [[|g']|]; [naive_solver..|done].
  - destruct l as [[|g']|]; [naive_solver..|done].
  - destruct l as [[|g']|]; [naive_solver..|done].
Qed.

(** The handler can go on to its end. *)
Definition finishes s : Prop :=
  exists s' reply respErr res, rtc (step SendMsg) s s' /\ main s' = Exited reply respErr res.

Lemma finishes_step s s1 : step SendMsg s s1 -> finishes s1 -> finishes s.
Proof. intros Hs (s' & r & e & res & Hr & Hm). exists s', r, e, res. split; [by eapply rtc_l|done]. Qed.

Lemma finishes_exited l st cs reply err res es : finishes (Turn l st cs (Exited reply err res) es).
Proof. by repeat eexists. Qed.

Lemma finishes_replying l st cs reply err payload es : finishes (Turn l st cs (Replying reply err payload) es).
Proof.
  destruct (SendMsg (Result payload []) (stream st)) as [t sent] eqn:Hs.
  eapply finishes_step; [by eapply step_replied|apply finishes_exited].
Qed.

Lemma finishes_reporting l st cs reply err streamErr es :
  finishes (Turn l st cs (Reporting reply err streamErr) es).
Proof.
  destruct streamErr as [e|]; [eapply finishes_step; [apply step_stream_error|apply finishes_exited]|].
  destruct (Marshal (Frame None true reply (errString err))) as [payload|e] eqn:Hm.
  - eapply finishes_step; [by apply step_reply|apply finishes_replying].
  - eapply finishes_step; [by eapply step_encode_error|apply finishes_exited].
Qed.

Lemma finishes_closing l st cs reply err es : finishes (Turn l st cs (Closing reply err) es).
Proof. eapply finishes_step; [apply step_close|apply finishes_reporting]. Qed.

Lemma finishes_returned s reply err : main s = Returned reply err -> held_inv s -> finishes s.
Proof.
  intros Hm Hl. enough (released s) as (s' & Hr & Hlock & Hm' & _).
  { destruct s' as [l st cs h es]. cbn in Hlock, Hm'. subst.
    destruct (finishes_closing (Some ByHandler) st cs reply err es) as (s2 & r & e & res & Hr2 & Hm2).
    exists s2, r, e, res. split; [|done]. etrans; [exact Hr|]. rewrite Hm.
    eapply rtc_l; [apply step_close_lock|exact Hr2]. }
  destruct s as [l st cs h es]. cbn in Hm. subst. unfold held_inv in Hl. cbn in Hl.
  destruct l as [[|g]|]; [by destruct Hl as (? & ? & ?)| |eexists; split; [constructor|done]].
  destruct Hl as ([event|event|event payload| |] & Hg & Hcrit); try done.
  - by eapply released_holding.
  - by eapply released_sending.
  - by apply released_leaving.
Qed.

Lemma held_inv_reachable s : rtc (step SendMsg) (turn_start t0) s -> held_inv s.
Proof.
  intros Hr. enough (lock_inv s /\ held_inv s) by tauto. revert s Hr.
  apply (rtc_ind_r (fun s => lock_inv s /\ held_inv s) (turn_start t0)).
  - split; [apply lock_inv_start|done].
  - intros ? ? _ Hs [? ?]. split; [by eapply lock_inv_step|by eapply held_inv_step].
Qed.
End turns.

(* ------------------------------------------------------------------ *)
(** ** Lemmas: what a turn sends, and what the proxy makes of it *)

Section messages.
Context `{E : Env}.

Definition event_message (event : BackendEvent) (m : ResultEnvelope) : Prop :=
  exists payload, Marshal (event_frame event) = Ok payload /\ m = Result payload [].

Definition reply_message (reply error : bytes) (m : ResultEnvelope) : Prop :=
  exists payload, Marshal (reply_frame reply error) = Ok payload /\ m = Result payload [].

(** A stream that carries every message it accepts, and may fail at any. *)
Definition carries (SendMsg : ResultEnvelope -> list ResultEnvelope -> list ResultEnvelope * result unit) : Prop :=
  forall m t, SendMsg m t = (t ++ [m], Ok tt) \/ exists err, SendMsg m t = (t, Err err).

Section sent.
Context (SendMsg : ResultEnvelope -> list ResultEnvelope -> list ResultEnvelope * result unit)
  (Hsend : carries SendMsg).

Lemma onEvent_failed events st : is_Some (sendErr st) -> foldl (onEvent SendMsg) st events = st.
Proof.
  intros Hs. induction events as [|e events IH]; [done|]. cbn. unfold onEvent at 2.
  by rewrite (bool_decide_eq_true_2 _ Hs), orb_true_r.
Qed.

Lemma onEvent_sends events st :
  sendErr st = None -> closed st = false ->
  exists seen ms, seen `prefix_of` events /\ Forall2 event_message seen ms
    /\ stream (foldl (onEvent SendMsg) st events) = stream st ++ ms
    /\ (sendErr (foldl (onEvent SendMsg) st events) = None -> seen = events).
Proof using Hsend.
  revert st. induction events as [|e events IH]; intros st He Hc; cbn.
  { exists [], []. by rewrite app_nil_r. }
  assert (forall st', onEvent SendMsg st e = st' -> is_Some (sendErr st') -> stream st' = stream st ->
    exists seen ms, seen `prefix_of` e :: events /\ Forall2 event_message seen ms
    /\ stream (foldl (onEvent SendMsg) (onEvent SendMsg st e) events) = stream st ++ ms
    /\ (sendErr (foldl (onEvent SendMsg) (onEvent SendMsg st e) events) = None -> seen = e :: events)) as Hfail.
  { intros st' -> Hs Hst. exists [], []. rewrite onEvent_failed by done. rewrite app_nil_r.
    split_and!; [apply prefix_nil|done|done|]. intros Hn. rewrite Hn in Hs. by destruct Hs. }
  unfold onEvent in Hfail. rewrite He, Hc in Hfail. cbn [orb] in Hfail.
  rewrite (bool_decide_eq_false_2 (is_Some None)) in Hfail by apply is_Some_None.
  unfold onEvent at 2 4. rewrite He, Hc. cbn [orb].
  rewrite (bool_decide_eq_false_2 (is_Some None)) by apply is_Some_None.
  destruct (Marshal (Frame (Some e) false [] [])) as [payload|err] eqn:Hm; [|by eapply Hfail; eauto].
  destruct (Hsend (Result payload []) (stream st)) as [Ht|[err Ht]]; rewrite Ht in *;
    [|by eapply Hfail; eauto].
  destruct (IH (Send None false (stream st ++ [Result payload []]))) as (seen & ms & Hp & Hms & Hst & Hall);
    [done..|].
  exists (e :: seen), (Result payload [] :: ms). split_and!.
  - by apply prefix_cons.
  - constructor; [by exists payload|done].
  - rewrite Hst. cbn. by rewrite <-app_assoc.
  - intros Hn. by rewrite (Hall Hn).
Qed.

Lemma run_turn_sends events reply respErr t t' res :
  run_turn SendMsg events reply respErr t = (t', res) ->
  exists seen ms, seen `prefix_of` events /\ Forall2 event_message seen ms
    /\ ((exists err, res = Err err /\ t' = t ++ ms)
        \/ (res = Ok tt /\ seen = events
            /\ exists m, t' = t ++ ms ++ [m] /\ reply_message reply (errString respErr) m)).
Proof using Hsend.
  unfold run_turn, sendReply. intros Hr.
  destruct (onEvent_sends events (Send None false t)) as (seen & ms & Hp & Hms & Hst & Hall); [done..|].
  exists seen, ms. split_and!; [done..|]. rewrite Hst in Hr. cbn [stream] in Hr.
  destruct (sendErr (foldl _ _ _)) as [err|]; [left; simplify_eq; by eauto|].
  destruct (Marshal (Frame None true reply (errString respErr))) as [payload|err] eqn:Hm;
    [|left; simplify_eq; by eauto].
  destruct (Hsend (Result payload []) (t ++ ms)) as [Ht|[err Ht]]; rewrite Ht in Hr; simplify_eq;
    [|left; by eauto].
  right. split_and!; [done|by apply Hall|]. exists (Result payload []).
  rewrite <-app_assoc. split; [done|]. by exists payload.
Qed.
End sent.

(** The error of a turn as the caller of the proxy sees it. *)
Definition stream_error (respErr : option error) : option error :=
  match errString respErr with
  | [] => None
  | text => Some (remoteError text)
  end.

Section receive.
Context {U : Type} (f : BackendEvent -> U -> U).

Definition replay (u : U) (events : list BackendEvent) : U := foldl (fun u event => f event u) u events.

Lemma apply_event event m u :
  lossless_event event -> event_message event m ->
  applyBackendFrame m (Some f) u = (f event u, Outcome [] false None).
Proof.
  intros Hl (payload & Hm & ->). unfold applyBackendFrame. cbn [res_JsonPayload].
  destruct (frame_message _ (event_frame_lossless _ Hl)) as (payload' & Hm' & Hu).
  rewrite Hm in Hm'. simplify_eq. by rewrite Hu.
Qed.

Lemma receive_events events ms rest err u :
  Forall lossless_event events -> Forall2 event_message events ms ->
  receive (Some f) (ms ++ rest) err u = receive (Some f) rest err (replay u events).
Proof.
  intros Hl Hms. revert u. induction Hms as [|event m events ms Hm _ IH]; intros u; [done|].
  apply Forall_cons in Hl as [Hev Hl]. cbn [app receive]. rewrite (apply_event _ _ _ Hev Hm).
  cbn [terminal]. by rewrite IH.
Qed.

Lemma receive_reply reply respErr m rest err u :
  Utf8 reply -> Utf8 (errString respErr) -> reply_message reply (errString respErr) m ->
  receive (Some f) (m :: rest) err u = (u, (reply, stream_error respErr)).
Proof.
  intros Hr He (payload & Hm & ->). cbn [receive]. unfold applyBackendFrame. cbn [res_JsonPayload].
  destruct (frame_message _ (reply_frame_lossless _ _ Hr He)) as (payload' & Hm' & Hu).
  rewrite Hm in Hm'. simplify_eq. rewrite Hu. cbn -[decide]. unfold stream_error.
  by destruct (errString respErr).
Qed.
End receive.

(** What a client receives of the messages a handler sent: all of them and EOF
    when the handler succeeded, or the first of them and another error. *)
Inductive received (sent : list ResultEnvelope) : result unit -> list ResultEnvelope * error -> Prop :=
| received_all : received sent (Ok tt) (sent, Sentinel EOF)
| received_failed seen err res :
    seen `prefix_of` sent -> is_sentinel EOF err = false -> received sent res (seen, err).
End messages.

Lemma prefix_snoc_cases {A} (l k : list A) x : l `prefix_of` k ++ [x] -> l `prefix_of` k \/ l = k ++ [x].
Proof.
  intros [r Hr]. destruct r as [|y r _] using rev_ind; [right; by rewrite app_nil_r in Hr|left].
  rewrite app_assoc in Hr. apply app_inj_tail in Hr as [-> _]. by exists r.
Qed.

Lemma Forall2_prefix_r {A C} (R : A -> C -> Prop) l k k' :
  Forall2 R l k -> k' `prefix_of` k -> exists l', l' `prefix_of` l /\ Forall2 R l' k'.
Proof.
  intros HR [r ->]. apply Forall2_app_inv_r in HR as (l1 & l2 & H1 & _ & ->).
  exists l1. split; [by apply prefix_app_r|done].
Qed.

(* ------------------------------------------------------------------ *)
(** ** Theorems *)

Section theorems.
Context `{E : Env}.

Lemma respond_request {T W} (SendMsg : ResultEnvelope -> T -> T * result unit) (real : Backend W) ctx prompt payload w t :
  decodeArgs payload (args_zero : Prompt * unit) = Ok (prompt, tt) ->
  respond SendMsg real ctx (Request PortBackend respondMethod payload) w t
  = (let '(w, (events, (reply, respErr))) := real ctx prompt w in
     let (t, res) := run_turn SendMsg events reply respErr t in (w, t, res)).
Proof.
  intros Hd. unfold respond. cbn [Port req_JsonPayload]. rewrite decide_False by auto. by rewrite Hd.
Qed.

(** A turn the network carried over the connection [cc]: the stream opened,
    took the request and closed its side; the registered handler ran on the
    request, and the client received what [received] allows of the messages the
    handler sent. *)
Inductive carried {W} (SendMsg : ResultEnvelope -> list ResultEnvelope -> list ResultEnvelope * result unit)
    (real : Backend W) (incoming : Ctx -> Ctx) (cc : Ctx -> bytes -> result ClientStream)
    (ctx : Ctx) (payload : bytes) (w w' : W) : Prop :=
| turn_carried stream sent res :
    cc ctx backendRespondFullMethod = Ok stream ->
    client_SendMsg stream (Request PortBackend respondMethod payload) = Ok tt ->
    client_CloseSend stream = Ok tt ->
    backendRespondHandler SendMsg (Ok (Request PortBackend respondMethod payload)) (Some real) (incoming ctx) w []
    = (w', sent, res) ->
    received sent res (client_RecvMsg stream (Request PortBackend respondMethod payload)) ->
    carried SendMsg real incoming cc ctx payload w w'.

(** What the caller of the proxy sees of a turn, which [leave]s when it ends:
    all of it, or its first events and an error. *)
Definition turn_seen {U} (f : BackendEvent -> U -> U) (leave : U -> U) (u : U) (events : list BackendEvent)
    (reply : bytes) (respErr : option error) (seen : U * (bytes * option error)) : Prop :=
  seen = (leave (replay f u events), (reply, stream_error respErr))
  \/ exists first err, first `prefix_of` events
       /\ seen = (leave (replay f u first), ([], Some (receiveFailure err)))
       /\ is_sentinel EOF err = false.

(** What the receive loop makes of the messages of a turn. *)
Lemma sent_turn_seen {U} SendMsg (f : BackendEvent -> U -> U) events reply respErr sent res frames err u :
  carries SendMsg ->
  Forall lossless_event events -> Utf8 reply -> Utf8 (errString respErr) ->
  run_turn SendMsg events reply respErr [] = (sent, res) -> received sent res (frames, err) ->
  turn_seen f id u events reply respErr (receive (Some f) frames err u).
Proof.
  intros Hsend Hev Hu1 Hu2 Hrun Hrec. unfold turn_seen, id.
  apply (run_turn_sends _ Hsend) in Hrun as (seen & ms & Hp & Hms & Hrun).
  assert (forall seen ms, seen `prefix_of` events -> Forall2 event_message seen ms -> forall rest err,
    receive (Some f) (ms ++ rest) err u = receive (Some f) rest err (replay f u seen)) as Hrep.
  { intros s l Hs Hl rest e. apply receive_events; [|done]. destruct Hs as [? ->].
    by apply Forall_app in Hev as [? _]. }
  assert (forall l err, l `prefix_of` ms -> exists seen', seen' `prefix_of` events
    /\ receive (Some f) l err u = (replay f u seen', ([], Some (receiveFailure err)))) as Hbroken.
  { intros l e Hl. destruct (Forall2_prefix_r _ _ _ _ Hms Hl) as (s & Hs & Hsl). exists s.
    assert (s `prefix_of` events) by (by etrans). split; [done|].
    rewrite <-(app_nil_r l). by rewrite (Hrep s). }
  inversion Hrec as [Hres Hst|l e r Hl Herr Hres Hst]; subst.
  - destruct Hrun as [(? & ? & _)|(_ & -> & m & -> & Hm)]; [done|]. left. cbn [app].
    by rewrite (Hrep _ _ Hp Hms), (receive_reply _ _ _ _ _ _ _ Hu1 Hu2 Hm).
  - destruct Hrun as [(? & _ & ->)|(_ & -> & m & -> & Hm)]; cbn [app] in Hl.
    + right. destruct (Hbroken _ err Hl) as (s & Hs & ->). by exists s, err.
    + apply prefix_snoc_cases in Hl as [Hl| ->].
      * right. destruct (Hbroken _ err Hl) as (s & Hs & ->). by exists s, err.
      * left. by rewrite (Hrep _ _ Hp Hms), (receive_reply _ _ _ _ _ _ _ Hu1 Hu2 Hm).
Qed.

Lemma turn_seen_leave {U} f (leave : U -> U) u events reply respErr (seen : U * (bytes * option error)) :
  turn_seen f id u events reply respErr seen ->
  turn_seen f leave u events reply respErr (leave seen.1, seen.2).
Proof. intros [->|(first & err & ? & -> & ?)]; [by left|right]. by exists first, err. Qed.

Lemma carried_turn {W U} SendMsg (real : Backend W) incoming WithCancel cancel cc (f : BackendEvent -> U -> U) ctx
    prompt payload w w1 w2 events reply respErr (u : U) :
  carries SendMsg ->
  lossless prompt -> encodeArgs (prompt, tt) = Ok payload ->
  real (incoming (WithCancel ctx)) prompt w = (w1, (events, (reply, respErr))) ->
  Forall lossless_event events -> Utf8 reply -> Utf8 (errString respErr) ->
  carried SendMsg real incoming cc (WithCancel ctx) payload w w2 ->
  w2 = w1
  /\ turn_seen f (cancel (WithCancel ctx)) u events reply respErr
       (Respond WithCancel cancel cc ctx prompt (Some f) u).
Proof.
  intros Hsend Hprompt Hpay Hreal Hev Hu1 Hu2 [stream sent res Hns Hcs Hcl Hresp Hrec].
  destruct (args_cross (T := Prompt * unit) (prompt, tt)) as (payload' & He & Hd); [lossless_args|].
  assert (payload' = payload) as -> by congruence.
  unfold backendRespondHandler in Hresp. rewrite (respond_request _ _ _ _ _ _ _ Hd), Hreal in Hresp.
  destruct (run_turn SendMsg events reply respErr []) as [t' res'] eqn:Hrun. simplify_eq. split; [done|].
  unfold Respond, openRespondStream. rewrite Hpay. cbv zeta. rewrite Hns. cbn [map_err res_bind].
  rewrite Hcs, Hcl. cbn [map_err res_bind]. destruct (client_RecvMsg stream _) as [frames err].
  pose proof (sent_turn_seen _ f _ _ _ _ _ _ _ u Hsend Hev Hu1 Hu2 Hrun Hrec) as Hseen.
  apply (turn_seen_leave _ (cancel (WithCancel ctx))) in Hseen. by destruct (receive _ _ _ _).
Qed.

(** C4. A turn on a remote backend. The real backend runs once, on the prompt the
    caller gave; its events are replayed to the caller in order. Then either
    the caller gets the reply and the error of the backend, or the stream broke
    before the reply: the caller has seen the first events and gets an error.
    A stream that ends in EOF always carries the whole turn. On either way the
    context of the stream is cancelled last. *)
Theorem backend_refinement {W U} (SendMsg : ResultEnvelope -> list ResultEnvelope -> list ResultEnvelope * result unit)
    (real : Backend W) (incoming : Ctx -> Ctx) (WithCancel : Ctx -> Ctx) (cancel : Ctx -> U -> U)
    (NewStream : Ctx -> bytes -> result ClientStream)
    (f : BackendEvent -> U -> U) (ctx : Ctx) (prompt : Prompt) (payload : bytes) (stream : ClientStream)
    (w w1 w2 : W) (events : list BackendEvent) (reply : bytes) (respErr : option error)
    (sent : list ResultEnvelope) (res : result unit) (u : U) :
  carries SendMsg ->
  lossless prompt -> encodeArgs (prompt, tt) = Ok payload ->
  let inner := WithCancel ctx in
  real (incoming inner) prompt w = (w1, (events, (reply, respErr))) ->
  Forall lossless_event events -> Utf8 reply -> Utf8 (errString respErr) ->
  let req := Request PortBackend respondMethod payload in
  NewStream inner backendRespondFullMethod = Ok stream ->
  client_SendMsg stream req = Ok tt -> client_CloseSend stream = Ok tt ->
  respond SendMsg real (incoming inner) req w [] = (w2, sent, res) ->
  received sent res (client_RecvMsg stream req) ->
  w2 = w1
  /\ (Respond WithCancel cancel NewStream ctx prompt (Some f) u
      = (cancel inner (replay f u events), (reply, stream_error respErr))
      \/ exists seen err, seen `prefix_of` events
           /\ Respond WithCancel cancel NewStream ctx prompt (Some f) u
              = (cancel inner (replay f u seen), ([], Some (receiveFailure err)))
           /\ is_sentinel EOF err = false).
Proof.
  intros Hsend Hprompt Hpay inner Hreal Hev Hu1 Hu2 req Hns Hcs Hcl Hresp Hrec.
  exact (carried_turn SendMsg real incoming WithCancel cancel NewStream f ctx prompt payload w w1 w2 events reply
    respErr u Hsend Hprompt Hpay Hreal Hev Hu1 Hu2 (turn_carried _ _ _ _ _ _ _ _ _ _ _ Hns Hcs Hcl Hresp Hrec)).
Qed.

(** C12. No two goroutines are ever inside SendMsg of the same stream, whatever the
    order in which events are reported and the backend returns. *)
Theorem sends_never_overlap {T} (SendMsg : ResultEnvelope -> T -> T * result unit) (t0 : T) (s : turn (T := T))
    (o o' : owner) :
  rtc (step SendMsg) (turn_start t0) s -> inside_SendMsg s o -> inside_SendMsg s o' -> o = o'.
Proof.
  intros [Hc _ Hcl Hse]%lock_inv_reachable Ho Ho'.
  destruct o as [|g], o' as [|g']; [done|..].
  - destruct Ho as (? & ? & ? & Hm), Ho' as (? & ? & Hg). apply Hse in Hg as [Hg _].
    rewrite Hcl, Hm in Hg. done.
  - destruct Ho' as (? & ? & ? & Hm), Ho as (? & ? & Hg). apply Hse in Hg as [Hg _].
    rewrite Hcl, Hm in Hg. done.
  - destruct Ho as (? & ? & Hg), Ho' as (? & ? & Hg').
    pose proof (Hc _ _ Hg I). pose proof (Hc _ _ Hg' I). congruence.
Qed.

(** C6. Every interleaving is a sequential run: when the handler has returned, the
    stream and its result are those of the events that took the lock before it,
    one after the other in that order, followed by the reply; and whatever the
    callbacks still running do, the stream stays as it is. *)
Theorem turn_is_sequential {T} (SendMsg : ResultEnvelope -> T -> T * result unit) (t0 : T) (s : turn (T := T))
    (reply : bytes) (respErr : option error) (res : result unit) :
  rtc (step SendMsg) (turn_start t0) s -> main s = Exited reply respErr res ->
  run_turn SendMsg (entered s) reply respErr t0 = (stream (shared s), res)
  /\ forall s', rtc (step SendMsg) s s' ->
       shared s' = shared s /\ main s' = main s /\ entered s' = entered s.
Proof.
  intros Hr Hm. split.
  { pose proof (data_reachable _ _ _ Hr) as Hd. unfold data_inv in Hd. by rewrite Hm in Hd. }
  apply (rtc_ind_r (fun s' => shared s' = shared s /\ main s' = main s /\ entered s' = entered s) s); [done|].
  intros y z Hy Hyz (Hsh & Hmy & Hen).
  destruct (lock_inv_reachable SendMsg t0 y) as [_ _ Hcl Hse]; [by etrans|].
  rewrite Hmy, Hm in Hcl. rewrite <-Hsh, <-Hmy, <-Hen in *.
  destruct Hyz; cbn in *; simplify_eq; rewrite ?Hcl in *; try done.
  by destruct (Hse _ _ _ H) as [? _].
Qed.

(** C15. The caller of the proxy sees a concurrent turn as a sequential one. However
    the callbacks and the return of the backend interleave, once the handler has
    returned, the receive loop over what the stream delivers replays the events
    that took the lock before the handler did, in the order they took it, and ends
    with the reply; or the stream broke, and it replays the first of them and
    ends with an error. *)
Theorem interleaved_turn_is_seen {U} (SendMsg : ResultEnvelope -> list ResultEnvelope -> list ResultEnvelope * result unit)
    (s : turn (T := list ResultEnvelope)) (reply : bytes) (respErr : option error) (res : result unit)
    (f : BackendEvent -> U -> U) (frames : list ResultEnvelope) (err : error) (u : U) :
  carries SendMsg -> rtc (step SendMsg) (turn_start []) s -> main s = Exited reply respErr res ->
  Forall lossless_event (entered s) -> Utf8 reply -> Utf8 (errString respErr) ->
  received (stream (shared s)) res (frames, err) ->
  turn_seen f id u (entered s) reply respErr (receive (Some f) frames err u).
Proof.
  intros Hsend Hr Hm Hev Hu1 Hu2 Hrec. pose proof (data_reachable _ _ _ Hr) as Hd. unfold data_inv in Hd.
  rewrite Hm in Hd. by eapply sent_turn_seen.
Qed.

(** C38. The turn never blocks: from every reachable state in which the backend has
    returned, the handler can go on to its end. *)
Theorem turn_can_finish {T} (SendMsg : ResultEnvelope -> T -> T * result unit) (t0 : T) (s : turn (T := T)) :
  rtc (step SendMsg) (turn_start t0) s -> main s <> Responding ->
  exists s' reply respErr res, rtc (step SendMsg) s s' /\ main s' = Exited reply respErr res.
Proof.
  intros Hr Hm. pose proof (held_inv_reachable _ _ _ Hr) as Hl.
  destruct (main s) eqn:Hms; [done|by eapply finishes_returned|..];
    destruct s as [l st cs h es]; cbn in Hms; subst.
  - apply finishes_closing.
  - apply finishes_reporting.
  - apply finishes_replying.
  - apply finishes_exited.
Qed.

(** C34. What the proxy makes of any stream, honest or not: it replays the leading
    event frames and stops at the first other frame, with the reply of a done
    frame, or with an error when the frame does not decode or is neither, or
    when the stream ends first. *)
Theorem receive_any_stream {U} (f : BackendEvent -> U -> U) (frames : list ResultEnvelope) (err : error) (u : U) :
  exists events ms rest,
    frames = ms ++ rest
    /\ Forall2 (fun event m => exists d, Unmarshal (res_JsonPayload m) (zero : backendFrame) = Ok d
                                /\ Event d = Some event) events ms
    /\ (receive (Some f) frames err u).1 = replay f u events
    /\ match rest with
       | [] => (receive (Some f) frames err u).2 = ([], Some (receiveFailure err))
       | m :: _ =>
           match Unmarshal (res_JsonPayload m) (zero : backendFrame) with
           | Err e => (receive (Some f) frames err u).2 = ([], Some (wrap (B "backend: decode frame: ") e))
           | Ok d =>
               Event d = None
               /\ (receive (Some f) frames err u).2
                  = (if Done d
                     then (Reply d, if decide (frame_Error d = []) then None else Some (remoteError (frame_Error d)))
                     else ([], Some (Sentinel ErrInvalidFrame)))
           end
       end.
Proof.
  revert u. induction frames as [|m frames IH]; intros u; [by exists [], [], []|].
  cbn [receive]. unfold applyBackendFrame.
  destruct (Unmarshal (res_JsonPayload m) (zero : backendFrame)) as [d|e] eqn:Hu.
  2: { exists [], [], (m :: frames). rewrite Hu. done. }
  destruct (Event d) as [event|] eqn:Hev.
  - cbn [terminal]. destruct (IH (f event u)) as (events & ms & rest & -> & Hms & H1 & H2).
    exists (event :: events), (m :: ms), rest. split_and!; [done|constructor; [by exists d|done]|done|done].
  - exists [], [], (m :: frames). rewrite Hu. do 2 (split; [done|]).
    destruct (Done d); cbn; [|done].
    destruct (decide (frame_Error d = [])); [by rewrite decide_False by auto|by rewrite decide_True].
Qed.
End theorems.

(* ------------------------------------------------------------------ *)
(** ** Witnesses *)

#[local] Existing Instance sample_env.

Definition sample_send (m : ResultEnvelope) (t : list ResultEnvelope) : list ResultEnvelope * result unit :=
  (t ++ [m], Ok tt).

(** A backend that counts its turns, reports two events and replies. *)
Definition sample_backend : Backend nat :=
  fun ctx prompt w => (S w, ([B "thinking"; B "writing"], (B "done", Some (Foreign (B "late"))))).

Definition sample_request : MethodEnvelope := Request PortBackend respondMethod (print (JArr [JStr (B "hi")])).

Definition sample_sent : list ResultEnvelope := (respond sample_send sample_backend None sample_request 0%nat []).1.2.

Definition sample_stream : ClientStream :=
  {| client_SendMsg _ := Ok tt; client_CloseSend := Ok tt; client_RecvMsg _ := (sample_sent, Sentinel EOF) |}.

Lemma sample_send_carries : carries sample_send.
Proof. intros m t. by left. Qed.

Lemma sample_event_lossless (event : bytes) : Utf8 event -> lossless_event event.
Proof. intros Hu. exists (JStr event). split_and!; [done|by constructor|done|done|done]. Qed.

(** A caller that logs the events and the cancellation. *)
Definition log_event (event : bytes) (log : list bytes) : list bytes := log ++ [event].
Definition log_cancel (ctx : Ctx) (log : list bytes) : list bytes := log ++ [B "cancelled"].

Lemma backend_refinement_witness :
  1%nat = 1%nat
  /\ (Respond id log_cancel (fun _ _ => Ok sample_stream) None (B "hi") (Some log_event) []
      = (log_cancel None (replay log_event [] [B "thinking"; B "writing"]),
         (B "done", stream_error (Some (Foreign (B "late")))))
      \/ exists seen err, seen `prefix_of` [B "thinking"; B "writing"]
           /\ Respond id log_cancel (fun _ _ => Ok sample_stream) None (B "hi") (Some log_event) []
              = (log_cancel None (replay log_event [] seen), ([], Some (receiveFailure err)))
           /\ is_sentinel EOF err = false).
Proof.
  apply (backend_refinement sample_send sample_backend id id log_cancel (fun _ _ => Ok sample_stream)
           log_event None (B "hi") (print (JArr [JStr (B "hi")])) sample_stream
           0%nat 1%nat 1%nat [B "thinking"; B "writing"] (B "done") (Some (Foreign (B "late")))
           sample_sent (Ok tt) []);
    [apply sample_send_carries|apply lossless_string; utf8|reflexivity|reflexivity
    |repeat constructor; apply sample_event_lossless; utf8|utf8|cbn; utf8|reflexivity..|vm_refl|].
  apply received_all.
Defined.

Definition sample_payload (f : backendFrame) : bytes :=
  match Marshal f with Ok payload => payload | Err _ => [] end.

Definition sample_event : bytes := sample_payload (event_frame (B "hi")).
Definition sample_reply : bytes := sample_payload (reply_frame (B "bye") []).

(** A turn with one event that is inside SendMsg. *)
Definition sample_busy : turn (T := list ResultEnvelope) :=
  Turn (Some (ByCaller 0)) (Send None false [])
    (<[0%nat := Sending (B "hi") sample_event]> (<[0%nat := Holding (B "hi")]> (<[0%nat := Called (B "hi")]> ∅)))
    Responding [B "hi"].

Lemma sample_busy_reachable : rtc (step sample_send) (turn_start []) sample_busy.
Proof.
  eapply rtc_l; [apply (step_call _ 0); reflexivity|].
  eapply rtc_l; [eapply (step_lock _ 0); reflexivity|].
  eapply rtc_once, (step_send _ 0 _ sample_event); vm_refl.
Qed.

(** The same turn at its end. *)
Definition sample_exited : turn (T := list ResultEnvelope) :=
  Turn None (Send None true [Result sample_event []; Result sample_reply []])
    (<[0%nat := Gone]> (<[0%nat := Leaving]> (callers sample_busy)))
    (Exited (B "bye") None (Ok tt)) [B "hi"].

Lemma sample_exited_reachable : rtc (step sample_send) (turn_start []) sample_exited.
Proof.
  etrans; [exact sample_busy_reachable|].
  eapply rtc_l; [eapply (step_sent _ 0 _ sample_event); reflexivity|].
  eapply rtc_l; [apply (step_unlock _ 0); reflexivity|].
  eapply rtc_l; [apply (step_return _ (B "bye") None)|].
  eapply rtc_l; [apply step_close_lock|].
  eapply rtc_l; [apply step_close|].
  eapply rtc_l; [apply (step_reply _ _ _ sample_reply); vm_refl|].
  apply rtc_once. refine (step_replied sample_send (B "bye") None sample_reply _ (Ok tt) _ _ _ _ _); reflexivity.
Qed.

Lemma sends_never_overlap_witness : ByCaller 0 = ByCaller 0.
Proof.
  apply (sends_never_overlap sample_send [] sample_busy);
    [apply sample_busy_reachable|exists (B "hi"), sample_event; vm_refl|exists (B "hi"), sample_event; vm_refl].
Defined.

Lemma turn_is_sequential_witness :
  run_turn sample_send [B "hi"] (B "bye") None [] = ([Result sample_event []; Result sample_reply []], Ok tt)
  /\ forall s', rtc (step sample_send) sample_exited s' ->
       shared s' = shared sample_exited /\ main s' = main sample_exited /\ entered s' = entered sample_exited.
Proof.
  apply (turn_is_sequential sample_send [] sample_exited (B "bye") None (Ok tt) sample_exited_reachable).
  reflexivity.
Defined.

Lemma turn_can_finish_witness :
  exists s' reply respErr res, rtc (step sample_send) sample_exited s' /\ main s' = Exited reply respErr res.
Proof. apply (turn_can_finish sample_send [] sample_exited sample_exited_reachable). done. Defined.

Lemma interleaved_turn_is_seen_witness :
  turn_seen log_event id [] [B "hi"] (B "bye") None
    (receive (Some log_event) [Result sample_event []; Result sample_reply []] (Sentinel EOF) []).
Proof.
  apply (interleaved_turn_is_seen sample_send sample_exited (B "bye") None (Ok tt) log_event
           [Result sample_event []; Result sample_reply []] (Sentinel EOF) []
           sample_send_carries sample_exited_reachable);
    [reflexivity|repeat constructor; apply sample_event_lossless; utf8|utf8|cbn; utf8|].
  apply received_all.
Defined.
