(* ===== verification/System.v ===== *)
(** * System: the host, the plugins and the network between them

    The composition of the parts. Plugins that hold the announce key announce
    themselves on a subject anyone can write to; a host watches it with its
    registry, queries the registry, dials what it found and calls it. [step] is
    what can happen on the subject, an attacker without the key included;
    [spec_step] is the same without an attacker, the abstract directory the
    registry implements. The last theorems run from an announcement to the
    calls through the proxies, one for each port. *)

From stdpp Require Import relations.
From S2P Require Import Prelude Text Json Encoding Env Sample Errors Codec Announce NetAddr Registry Plugin.
From S2P Require Import Memory Orchestrator Backend.

Section system.
Context `{Env} (secret : bytes).

Definition shared_key : AnnounceKey := {| material := Some secret |}.

(* ------------------------------------------------------------------ *)
(** ** The subject, the plugins and the host *)

(** [clock] is the wall clock of the host and [past] what it showed before;
    [issued] records what the key holders announced, each with the time its
    clock showed; [wire] every message ever sent on the subject; [hooked] what
    the rejection hook of the host was called with. *)
Record system := Sys {
  clock : Z;
  past : list Z;
  issued : list (Announcement * Z);
  wire : list bytes;
  host : RemoteRegistry;
  hooked : list error
}.

(** [conn.Publish]: the message is out, whatever the call returns. *)
Definition publish (status : result unit) (subject data : bytes) (wire : list bytes) : list bytes * result unit :=
  (if decide (subject = SubjectAnnounce) then wire ++ [data] else wire, status).

(** The handler of the host's subscription, [RemoteRegistry.Watch]. *)
Definition host_handler : Z -> bytes -> RemoteRegistry * list error -> RemoteRegistry * list error :=
  match Watch (fun _ => Ok tt) shared_key (Some (fun err log => log ++ [err])) with
  | Ok handler => handler
  | Err _ => fun _ _ s => s
  end.

(** A key holder issued the MAC of this time and this body. *)
Definition vouched (issued : list (Announcement * Z)) (t : Z) (body : bytes) : Prop :=
  exists ann now, (ann, now) ∈ issued /\ Marshal ann = Ok body /\ time_UnixNano now = t.

(** Who does not hold the key cannot make a MAC: a message that verifies holds
    a MAC a key holder issued. *)
Definition unforged (issued : list (Announcement * Z)) (data : bytes) : Prop :=
  forall t body,
    decodeStrict data (zero : announceEnvelope) = Ok (Envelope t body (mac secret t body)) -> vouched issued t body.

Inductive event : Type :=
| Announced (ann : Announcement) (now : Z)
| Injected (data : bytes)
| Received (data : bytes)
| Ticked (now : Z).

(** A key holder announces, at the time of its own clock; anyone sends what it
    can; the host receives any message sent so far, in any order and any number
    of times, or never; the wall clock of the host goes on, or is set to any
    other time, an earlier one included. *)
Inductive step : system -> event -> system -> Prop :=
| step_announce ann now status clock past issued wire host hooked wire' r :
    Announce (publish status) ann shared_key now wire = (wire', r) ->
    step (Sys clock past issued wire host hooked) (Announced ann now)
         (Sys clock past (issued ++ [(ann, now)]) wire' host hooked)
| step_inject data clock past issued wire host hooked :
    unforged issued data ->
    step (Sys clock past issued wire host hooked) (Injected data) (Sys clock past issued (wire ++ [data]) host hooked)
| step_receive data clock past issued wire host hooked host' hooked' :
    data ∈ wire ->
    host_handler clock data (host, hooked) = (host', hooked') ->
    step (Sys clock past issued wire host hooked) (Received data) (Sys clock past issued wire host' hooked')
| step_tick now clock past issued wire host hooked :
    step (Sys clock past issued wire host hooked) (Ticked now) (Sys now (clock :: past) issued wire host hooked).

Definition happens (s s' : system) : Prop := exists e, step s e s'.

(** The time is past the window of everything issued. *)
Definition past_windows (issued : list (Announcement * Z)) (now : Z) : Prop :=
  forall ann t, (ann, t) ∈ issued -> time_UnixNano t + AnnounceWindow < now.

(** Something other than an announcement by a key holder, and than the clock
    being set back into the window of something issued. *)
Definition quiet (s s' : system) : Prop :=
  exists e, step s e s'
    /\ match e with Announced _ _ => False | Ticked now => past_windows (issued s) now | _ => True end.

Definition system_start (allowed : option (bytes -> bool)) (now : Z) : system :=
  Sys now [] [] [] (NewRemoteRegistry [WithAddrAllow allowed]) [].

(* ------------------------------------------------------------------ *)
(** ** The abstract directory *)

(** What is read of an announcement: its JSON may lose something of it. *)
Definition reads (ann a : Announcement) : Prop :=
  exists body, Marshal ann = Ok body /\ decodeStrict body zero = Ok a.

Record directory := Dir {
  d_clock : Z;
  d_past : list Z;
  d_issued : list (Announcement * Z);
  d_entries : gmap bytes RemoteEntry
}.

(** Some message within the size bound carries the announcement with its MAC. *)
Definition sendable (ann : Announcement) (now : Z) : Prop :=
  exists data body, len data <= maxAnnounceBytes /\ Marshal ann = Ok body
    /\ decodeStrict data (zero : announceEnvelope)
       = Ok (Envelope (time_UnixNano now) body (mac secret (time_UnixNano now) body)).

(** The directory a host keeps when nobody attacks it: it learns, in any order
    and any number of times, announcements that are not older than the window, or
    ahead of it. *)
Inductive spec_step (allowed : option (bytes -> bool)) : directory -> directory -> Prop :=
| spec_issue ann now clock past issued m :
    spec_step allowed (Dir clock past issued m) (Dir clock past (issued ++ [(ann, now)]) m)
| spec_learn ann now a clock past issued m :
    (ann, now) ∈ issued -> reads ann a -> sendable ann now ->
    Z.abs (clock - time_UnixNano now) <= AnnounceWindow ->
    admissible (Registry m allowed) a ->
    spec_step allowed (Dir clock past issued m) (Dir clock past issued (<[ann_InstanceID a := entry a]> m))
| spec_tick now clock past issued m :
    spec_step allowed (Dir clock past issued m) (Dir now (clock :: past) issued m).

Definition directory_of (s : system) : directory := Dir (clock s) (past s) (issued s) (entries (host s)).

(** An entry a key holder stands behind: it is what was read of an announcement
    by a host with the allowlist, when its clock showed a time within the window of
    its issue. *)
Definition vouched_entry (allowed : option (bytes -> bool)) (d : directory) (id : bytes) (e : RemoteEntry) : Prop :=
  exists ann now a arrived f,
    (ann, now) ∈ d_issued d /\ reads ann a /\ e = entry a /\ id = ann_InstanceID a
    /\ Z.abs (arrived - time_UnixNano now) <= AnnounceWindow /\ arrived ∈ d_clock d :: d_past d
    /\ allowed = Some f /\ f (entry_GrpcAddr e) = true.

(** The errors the documentation of [Watch] names. *)
Definition watch_errors : list sentinel :=
  [ErrUnauthenticatedAnnouncement; ErrStaleAnnouncement; ErrOversizedAnnouncement;
   ErrMalformedAnnouncement; ErrUnusableAnnouncement; ErrAddrRefused].

Definition documented (err : error) : Prop := classified watch_errors err.
End system.

(* ------------------------------------------------------------------ *)
(** ** Lemmas: the handler and the refinement *)

#[local] Arguments host_handler : simpl never.

Section lemmas.
Context `{E : Env} (secret : bytes).
Implicit Types s : system.

Lemma host_handler_spec now data r log :
  host_handler secret now data (r, log)
  = match gate r (shared_key secret) (now, data) with
    | inl a => (Registry (<[ann_InstanceID a := entry a]> (entries r)) (allow r), log)
    | inr err => (r, log ++ [err])
    end.
Proof.
  exact (Watch_handler (fun _ => Ok tt) (shared_key secret) (fun err log => log ++ [err]) _ eq_refl now data r log).
Qed.

Lemma reads_lossless ann a :
  lossless (ann_Manifest ann) -> Utf8 (ann_GrpcAddr ann) -> Utf8 (ann_InstanceID ann) ->
  reads ann a -> a = ann.
Proof.
  intros Hm Hg Hi (body & Hb & Hr). destruct (Announcement_read ann Hm Hg Hi) as (body' & Hb' & Hr').
  congruence.
Qed.

Lemma vouched_mono issued issued' t body :
  issued ⊆ issued' -> vouched issued t body -> vouched issued' t body.
Proof. intros Hi (ann & now & Hin & ?). exists ann, now. split; [by apply Hi|done]. Qed.

Lemma unforged_mono issued issued' data :
  issued ⊆ issued' -> unforged secret issued data -> unforged secret issued' data.
Proof. intros Hi Hu t body Hd. eapply vouched_mono; [done|by apply Hu]. Qed.

(** A key holder's own message is no forgery. *)
Lemma sealed_unforged ann now payload issued :
  sealAnnouncement (shared_key secret) ann now = Ok payload -> (ann, now) ∈ issued ->
  unforged secret issued payload.
Proof.
  intros (body & Hb & Hd)%sealed_envelope Hin t body' Hd'. rewrite Hd in Hd'. injection Hd' as <- <- _.
  by exists ann, now.
Qed.

(** What the gate lets through under the key. *)
Lemma gate_vouched issued r now data a :
  unforged secret issued data -> gate r (shared_key secret) (now, data) = inl a ->
  admissible r a /\ exists ann t, (ann, t) ∈ issued /\ reads ann a /\ sendable secret ann t
    /\ Z.abs (now - time_UnixNano t) <= AnnounceWindow.
Proof.
  intros Hu [Ho Ha]%gate_inl. split; [done|].
  apply openAnnouncement_ok in Ho as (Hlen & t & body & Hd & Hw & Hr).
  destruct (Hu _ _ Hd) as (ann & t0 & Hin & Hb & <-). exists ann, t0.
  split_and!; [done|by exists body|by exists data, body|done].
Qed.

(** A message that carries the MAC of an announcement passes the gate. *)
Lemma gate_carried r now ann t a data body :
  len data <= maxAnnounceBytes -> Marshal ann = Ok body ->
  decodeStrict data zero = Ok (Envelope (time_UnixNano t) body (mac secret (time_UnixNano t) body)) ->
  reads ann a -> Z.abs (now - time_UnixNano t) <= AnnounceWindow -> admissible r a ->
  gate r (shared_key secret) (now, data) = inl a.
Proof.
  intros Hlen Hb Hd (body' & Hb' & Hr) Hwin Ha. assert (body' = body) as -> by congruence.
  unfold gate. cbn [fst snd].
  assert (openAnnouncement (shared_key secret) data now = Ok a) as ->
    by (apply openAnnouncement_ok; split; [done|]; by exists (time_UnixNano t), body).
  by rewrite (observe_admissible r a Ha).
Qed.

Lemma gate_documented r now data err :
  gate r (shared_key secret) (now, data) = inr err -> documented err.
Proof.
  unfold gate. cbn [fst snd]. destruct (openAnnouncement _ data now) as [a|e] eqn:Ho.
  - destruct (observe_spec r a) as [[_ ->]|(_ & s & Hs & ->)]; [done|]. intros [= <-]. apply classified_sentinel.
    unfold watch_errors. set_unfold. naive_solver.
  - intros [= <-]. pose proof (open_keyed _ _ _ _ Ho) as Hk.
    destruct (open_errors_classified _ _ _ _ Ho) as (s & Hin & Hs). exists s. split; [|done].
    assert (s <> ErrNoAnnounceKey) by (intros ->; by rewrite (proj2 (Hs ErrNoAnnounceKey ltac:(by split)) eq_refl) in Hk).
    unfold rejections, watch_errors in *. set_unfold. naive_solver.
Qed.
End lemmas.

(* ------------------------------------------------------------------ *)
(** ** Lemmas: invariants *)

Section invariants.
Context `{E : Env} (secret : bytes) (allowed : option (bytes -> bool)).
Implicit Types s : system.

(** What holds of every reachable state, whatever was sent. *)
Record trusted s : Prop := {
  t_allow : allow (host s) = allowed;
  t_wire : forall data, data ∈ wire s -> unforged secret (issued s) data;
  t_hooked : Forall documented (hooked s)
}.

Lemma trusted_start now : trusted (system_start allowed now).
Proof. split; [done| |constructor]. by intros data ?%not_elem_of_nil. Qed.

Lemma trusted_step s e s' : step secret s e s' -> trusted s -> trusted s'.
Proof.
  intros Hs [Ha Hw Hh]. destruct Hs as [ann now status c p i w h l w' r Hann|data c p i w h l Hu
    |data c p i w h l h' l' Hin Hr|now c p i w h l]; cbn in *; split; cbn; try done.
  - assert (forall data, data ∈ w -> unforged secret (i ++ [(ann, now)]) data) as Hold.
    { intros data Hin. eapply unforged_mono; [|by apply Hw]. set_solver. }
    unfold Announce in Hann. destruct (sealAnnouncement _ ann now) as [payload|] eqn:Hs; [|by simplify_eq].
    cbn in Hann. simplify_eq. intros data [Hin|Hin%list_elem_of_singleton]%elem_of_app; [by apply Hold|subst].
    eapply sealed_unforged; [exact Hs|set_solver].
  - intros d [Hin| ->%list_elem_of_singleton]%elem_of_app; auto.
  - rewrite host_handler_spec in Hr. case_match; by simplify_eq.
  - rewrite host_handler_spec in Hr. destruct (gate _ _ _) as [a|err] eqn:Hg; simplify_eq; [done|].
    apply Forall_app_2; [done|]. apply Forall_singleton. by eapply gate_documented.
Qed.

Lemma trusted_reachable s now : rtc (happens secret) (system_start allowed now) s -> trusted s.
Proof.
  apply (rtc_ind_r trusted (system_start allowed now)); [apply trusted_start|].
  intros y z _ [e Hs] Hy. by eapply trusted_step.
Qed.

(** One step of the system is one step of the directory, or none. *)
Lemma step_simulated s e s' :
  step secret s e s' -> trusted s ->
  directory_of s' = directory_of s \/ spec_step secret allowed (directory_of s) (directory_of s').
Proof.
  intros Hs [Ha Hw Hh]. destruct Hs as [ann now status c p i w h l w' r Hann|data c p i w h l Hu
    |data c p i w h l h' l' Hin Hr|now c p i w h l]; unfold directory_of; cbn in *.
  - right. constructor.
  - by left.
  - rewrite host_handler_spec in Hr. destruct (gate _ _ _) as [a|err] eqn:Hg; simplify_eq; [right|by left].
    apply (gate_vouched _ i) in Hg as (Hadm & ann & t & Hi & Hread & Hsend & Hwin); [|by apply Hw].
    eapply spec_learn; [done..|]. eapply admissible_allow; [|done]. done.
  - right. by constructor.
Qed.

Lemma vouched_entry_start now id e : d_entries (Dir now [] [] ∅) !! id = Some e -> vouched_entry allowed (Dir now [] [] ∅) id e.
Proof. cbn. by rewrite lookup_empty. Qed.

Lemma vouched_entry_step d d' :
  spec_step secret allowed d d' ->
  (forall id e, d_entries d !! id = Some e -> vouched_entry allowed d id e) ->
  forall id e, d_entries d' !! id = Some e -> vouched_entry allowed d' id e.
Proof.
  intros Hs Hd id e He. destruct Hs as [ann now c p i m|ann now a c p i m Hin Hread Hsend Hwin Hadm|now c p i m]; cbn in *.
  - destruct (Hd id e He) as (ann' & t & a & arrived & f & ? & Hrest). exists ann', t, a, arrived, f.
    split; [cbn; set_solver|done].
  - apply lookup_insert_Some in He as [[<- <-]|[_ He]]; [|by apply Hd].
    destruct Hadm as (_ & _ & _ & f & Hf & Hfa). exists ann, now, a, c, f. split_and!; try done. left.
  - destruct (Hd id e He) as (ann' & t & a & arrived & f & H1 & H2 & H3 & H4 & H5 & H6 & H7).
    exists ann', t, a, arrived, f. cbn in *. split_and!; try done; [set_solver|apply H7..].
Qed.

Lemma vouched_entry_reachable now d :
  rtc (spec_step secret allowed) (Dir now [] [] ∅) d ->
  forall id e, d_entries d !! id = Some e -> vouched_entry allowed d id e.
Proof.
  apply (rtc_ind_r (fun d => forall id e, d_entries d !! id = Some e -> vouched_entry allowed d id e) (Dir now [] [] ∅)).
  - intros id e. apply vouched_entry_start.
  - intros y z _ Hs IH. by eapply vouched_entry_step.
Qed.

Lemma simulated now s :
  rtc (happens secret) (system_start allowed now) s ->
  rtc (spec_step secret allowed) (Dir now [] [] ∅) (directory_of s).
Proof.
  intros Hr. enough (trusted s /\ rtc (spec_step secret allowed) (Dir now [] [] ∅) (directory_of s)) by tauto. revert s Hr.
  apply (rtc_ind_r (fun s => trusted s /\ rtc (spec_step secret allowed) (Dir now [] [] ∅) (directory_of s))
           (system_start allowed now)); [split; [apply trusted_start|done]|].
  intros y z _ [e Hs] [Hy IH]. split; [by eapply trusted_step|].
  destruct (step_simulated _ _ _ Hs Hy) as [->|Hspec]; [done|]. by eapply rtc_r.
Qed.

(** What the directory does, the system can do: a key holder announces, or
    someone passes a message on and the host receives it. *)
Lemma spec_step_realised s d' :
  trusted s -> spec_step secret allowed (directory_of s) d' ->
  exists s', rtc (happens secret) s s' /\ directory_of s' = d'.
Proof.
  intros [Ha Hw Hh] Hs. destruct s as [c p i w h l]. unfold directory_of in Hs. cbn in *.
  inversion Hs as [ann now c' p' i' m|ann now a c' p' i' m Hin Hread (data & body & Hlen & Hb & Hd) Hwin Hadm
    |now c' p' i' m]; subst.
  - destruct (Announce (publish (Ok tt)) ann (shared_key secret) now w) as [w' r] eqn:Hann.
    exists (Sys c p (i ++ [(ann, now)]) w' h l). split; [|done].
    apply rtc_once. exists (Announced ann now). by eapply step_announce.
  - exists (Sys c p i (w ++ [data]) (Registry (<[ann_InstanceID a := entry a]> (entries h)) (allow h)) l).
    split; [|done]. apply rtc_l with (Sys c p i (w ++ [data]) h l).
    + exists (Injected data). apply step_inject. intros t b Hd'. rewrite Hd in Hd'. injection Hd' as <- <- _.
      by exists ann, now.
    + apply rtc_once. exists (Received data). apply step_receive; [set_solver|].
      rewrite host_handler_spec, (gate_carried secret h c ann now a data body); try done.
  - exists (Sys now (c :: p) i w h l). split; [|done]. apply rtc_once. exists (Ticked now). by apply step_tick.
Qed.

Lemma realised now d :
  rtc (spec_step secret allowed) (Dir now [] [] ∅) d ->
  exists s, rtc (happens secret) (system_start allowed now) s /\ directory_of s = d.
Proof.
  apply (rtc_ind_r (fun d => exists s, rtc (happens secret) (system_start allowed now) s /\ directory_of s = d)
           (Dir now [] [] ∅)).
  - by exists (system_start allowed now).
  - intros y z _ Hs (s & Hr & <-). destruct (spec_step_realised _ _ (trusted_reachable _ _ Hr) Hs) as (s' & Hs' & Hd).
    exists s'. split; [by etrans|done].
Qed.

(** While the key holders are silent and what they issued is too old, nothing
    the host receives passes the gate. *)
Lemma quiet_step s s' :
  trusted s -> past_windows (issued s) (clock s) -> quiet secret s s' ->
  issued s' = issued s /\ host s' = host s /\ past_windows (issued s') (clock s').
Proof.
  intros [Ha Hw Hh] Hold (e & Hs & Hq). destruct Hs as [ann now status c p i w h l w' r Hann|data c p i w h l Hu
    |data c p i w h l h' l' Hin Hr|now c p i w h l]; cbn in *; try done.
  rewrite host_handler_spec in Hr. destruct (gate _ _ _) as [a|err] eqn:Hg; simplify_eq; [|done].
  apply (gate_vouched _ i) in Hg as (_ & ann & t & Hi & _ & _ & Hwin); [|by apply Hw].
  specialize (Hold _ _ Hi). lia.
Qed.

(** A clock that goes on stays past the windows. *)
Lemma past_windows_later issued now later : past_windows issued now -> now <= later -> past_windows issued later.
Proof. intros Hp Hl ann t Hin. specialize (Hp ann t Hin). lia. Qed.
End invariants.

(* ------------------------------------------------------------------ *)
(** ** Lemmas: from an announcement to a dial *)

(** An announcement that JSON carries, and a time a MAC can hold. *)
Record publishable `{Env} (ann : Announcement) (now : Z) : Prop := {
  pub_manifest : lossless (ann_Manifest ann);
  pub_addr : Utf8 (ann_GrpcAddr ann);
  pub_id : Utf8 (ann_InstanceID ann);
  pub_time : is_int64 now = true
}.

(** The host finds the announcement: it is announced and received, no error is
    reported, and a query for its category returns its entry. *)
Definition discovered `{Env} (secret : bytes) (s : system) (ann : Announcement) (now : Z)
    (query : list bytes -> RemoteRegistry -> list RemoteEntry) : Prop :=
  exists payload, sealAnnouncement (shared_key secret) ann now = Ok payload
    /\ (len payload <= maxAnnounceBytes ->
        exists s1 s2, step secret s (Announced ann now) s1 /\ step secret s1 (Received payload) s2
          /\ hooked s2 = hooked s
          /\ forall order, iteration order (host s2) -> entry ann ∈ query order (host s2)).

Section discovery.
Context `{E : Env} (secret : bytes).
Implicit Types s : system.

Lemma announcement_discovered s ann now category :
  publishable ann now -> manifest_Category (ann_Manifest ann) = category ->
  admissible (host s) ann -> Z.abs (clock s - now) <= AnnounceWindow ->
  discovered secret s ann now (fun order r => byCategory order r category).
Proof.
  intros [Hm Hg Hi Ht] Hcat Hadm Hwin. destruct s as [c p i w h l]. cbn in *.
  destruct (sealAnnouncement_ok secret ann now Hm Hg Hi Ht) as (body & payload & Hs & Hp & Hb).
  exists payload. split; [done|]. intros Hlen.
  exists (Sys c p (i ++ [(ann, now)]) (w ++ [payload]) h l).
  exists (Sys c p (i ++ [(ann, now)]) (w ++ [payload])
            (Registry (<[ann_InstanceID ann := entry ann]> (entries h)) (allow h)) l).
  split_and!; cbn [hooked host]; [|..|done|].
  - apply (step_announce _ _ _ (Ok tt) _ _ _ _ _ _ _ (Ok tt)). unfold Announce, shared_key. by rewrite Hs.
  - apply step_receive; [set_solver|]. rewrite host_handler_spec.
    destruct (sealed_envelope _ _ _ _ Hs) as (body' & Hb' & Hd).
    rewrite (gate_carried secret h c ann now ann payload body'); [done..| | |done].
    + destruct (Announcement_read ann Hm Hg Hi) as (b & ? & ?). by exists b.
    + by rewrite time_UnixNano_int64.
  - intros order Ho. apply elem_of_byCategory; [done|]. exists (ann_InstanceID ann).
    split; [apply lookup_insert_eq|done].
Qed.
End discovery.

(* ------------------------------------------------------------------ *)
(** ** Theorems *)

Section theorems.
Context `{E : Env} (secret : bytes).
Implicit Types s : system.

(** C2. The host implements the directory, and an attacker without the key is no more
    than the network: whatever it sends, replays, reorders or holds back, the
    states of the registry a run of the system can reach are exactly those of the
    abstract directory, which only learns, within the window of their issue and
    behind its allowlist, announcements of key holders that fit a message. *)
Theorem system_refines_directory (allowed : option (bytes -> bool)) (now : Z) (d : directory) :
  (exists s, rtc (happens secret) (system_start allowed now) s /\ directory_of s = d)
  <-> rtc (spec_step secret allowed) (Dir now [] [] ∅) d.
Proof. split; [intros (s & Hr & <-); by apply simulated|apply realised]. Qed.

(** C7. In every reachable state, every entry of the registry is what was read, under
    its own instance id, of an announcement a key holder made, when the clock of
    the host showed a time within the window of its issue, and its address passed the allowlist; when JSON
    carries the announcement, the entry is the announcement itself. And every
    error the rejection hook was called with is exactly one of the six the
    documentation names. *)
Theorem host_trusts_key_holders (allowed : option (bytes -> bool)) (now : Z) s :
  rtc (happens secret) (system_start allowed now) s ->
  (forall id e, entries (host s) !! id = Some e ->
     exists ann t a arrived f,
       (ann, t) ∈ issued s /\ reads ann a /\ (publishable ann t -> a = ann)
       /\ e = entry a /\ id = ann_InstanceID a
       /\ Z.abs (arrived - time_UnixNano t) <= AnnounceWindow /\ arrived ∈ clock s :: past s
       /\ allowed = Some f /\ f (entry_GrpcAddr e) = true)
  /\ Forall documented (hooked s).
Proof.
  intros Hr. split; [|by apply (trusted_reachable _ _ _ _ Hr)]. intros id e He.
  destruct (vouched_entry_reachable _ _ _ _ (simulated _ _ _ _ Hr) id e He)
    as (ann & t & a & arrived & f & Hin & Hread & Hrest).
  exists ann, t, a, arrived, f. do 2 (split; [done|]). split; [|done].
  intros [? ? ? _]. by eapply reads_lossless.
Qed.

(** C14. Every connection a host opens from a query goes to the address of an entry a
    key holder stands behind, one its allowlist admits; and without credentials
    that address is on the host itself. *)
Theorem dials_are_vouched {Creds Conn} (insecure : Creds) (NewClient : bytes -> Creds -> result Conn)
    (allowed : option (bytes -> bool)) (now : Z) s (order : list bytes) (category : bytes) (e : RemoteEntry)
    (ctx : Ctx) (creds : option Creds) (conn : Conn) :
  rtc (happens secret) (system_start allowed now) s ->
  iteration order (host s) -> e ∈ byCategory order (host s) category ->
  dialConn insecure NewClient ctx e creds = Ok conn ->
  NewClient (entry_GrpcAddr e) (default insecure creds) = Ok conn
  /\ (exists id, vouched_entry allowed (directory_of s) id e)
  /\ manifest_Category (entry_Manifest e) = category
  /\ (creds = None -> loopback_addr (entry_GrpcAddr e)).
Proof.
  intros Hr Ho (id & He & Hc)%elem_of_byCategory [[_ Hl] Hn]%dialConn_ok; [|done]. split_and!; [done| |done|].
  - exists id. by apply (vouched_entry_reachable _ _ _ _ (simulated _ _ _ _ Hr)).
  - intros Hcr. by apply requireLoopback_ok, Hl.
Qed.

(** C13. A captured announcement is worth nothing once its window has passed: from a
    state whose clock is past the window of everything issued, as long as no key
    holder announces and the host's clock is not set back into one of these
    windows, no message changes the registry, whatever the host receives. (A
    clock that only goes on never falls back into a window,
    [past_windows_later].) *)
Theorem silence_freezes_registry (allowed : option (bytes -> bool)) (now : Z) s s' :
  rtc (happens secret) (system_start allowed now) s ->
  past_windows (issued s) (clock s) ->
  rtc (quiet secret) s s' ->
  host s' = host s.
Proof.
  intros Hr Hold Hq. pose proof (trusted_reachable _ _ _ _ Hr) as Ht. clear Hr.
  induction Hq as [s|s s1 s' Hs _ IH]; [done|].
  destruct (quiet_step _ _ _ _ Ht Hold Hs) as (_ & <- & Hold'). apply IH; [done|].
  destruct Hs as (e & Hs & _). by eapply trusted_step.
Qed.

(** Fresh is not latest: within the window an earlier announcement of an instance
    can be received after a later one, and the registry then holds the earlier
    entry. *)
Theorem earlier_entry_may_return (allowed : option (bytes -> bool)) (now : Z) (before after : Announcement)
    (t t' : Z) :
  reads before before -> reads after after -> sendable secret before t -> sendable secret after t' ->
  ann_InstanceID before = ann_InstanceID after ->
  admissible (Registry ∅ allowed) before -> admissible (Registry ∅ allowed) after ->
  Z.abs (now - time_UnixNano t) <= AnnounceWindow -> Z.abs (now - time_UnixNano t') <= AnnounceWindow ->
  exists s, rtc (happens secret) (system_start allowed now) s
    /\ issued s = [(before, t); (after, t')]
    /\ entries (host s) !! ann_InstanceID after = Some (entry before).
Proof.
  intros Hr Hr' Hs Hs' Hid Ha Ha' Hw Hw'.
  assert (forall m a, admissible (Registry ∅ allowed) a -> admissible (Registry m allowed) a) as Hadm
    by (intros m a; by apply admissible_allow).
  destruct (realised secret allowed now
    (Dir now [] [(before, t); (after, t')]
       (<[ann_InstanceID before := entry before]> (<[ann_InstanceID after := entry after]> ∅)))) as (s & Hreach & Hd).
  { eapply rtc_l; [apply (spec_issue _ _ before t)|]. eapply rtc_l; [apply (spec_issue _ _ after t')|].
    eapply rtc_l; [apply (spec_learn _ _ after t' after); [set_solver|done|done|done|auto]|].
    apply rtc_once. apply (spec_learn _ _ before t before); [set_solver|done|done|done|auto]. }
  exists s. injection Hd as _ _ Hi Hm. split_and!; [done|done|]. by rewrite Hm, Hid, lookup_insert_eq.
Qed.

(** C5. End to end, the memory port. From any state of the system, attacked or not: a
    plugin that serves a memory on a router, whatever else it registers on it
    later, announces itself as a memory; the host receives the message within the
    window, finds the entry among its memories, and dials it; the proxy it gets
    is the plugin's memory, operation by operation, up to the fate of each call,
    and closing it closes the connection. *)
Theorem announced_memory_is_served {W Creds Conn} (insecure : Creds) (NewClient : bytes -> Creds -> result Conn)
    (NewPluginClient : Conn -> PluginClient W) (close : Conn -> W -> W * result unit)
    (incoming : Ctx -> Ctx) (fates : Ctx -> MethodEnvelope -> W -> fate)
    (r router : PluginRouter W) (others : list (bytes * PluginServer W)) (real : Memory W)
    s (ann : Announcement) (now : Z) (ctx : Ctx) (creds : option Creds) (conn : Conn) :
  RegisterMemorySkeleton r real = (router, Ok tt) -> portable_memory real ->
  publishable ann now -> manifest_Category (ann_Manifest ann) = CategoryMemory ->
  admissible (host s) ann -> Z.abs (clock s - now) <= AnnounceWindow ->
  dialable ctx creds (ann_GrpcAddr ann) ->
  NewClient (ann_GrpcAddr ann) (default insecure creds) = Ok conn ->
  connected incoming fates (Plugin.Call (register_all router others).1) (NewPluginClient conn) ->
  discovered secret s ann now Memories
  /\ exists p,
       DialMemory insecure NewClient NewPluginClient close ctx (entry ann) creds = Ok p
       /\ remote_memory incoming fates real (MemoryProxy_Memory p)
       /\ mem_Close (MemoryProxy_Memory p) = close conn.
Proof.
  intros Hreg Hreal Hpub Hcat Hadm Hwin Hdial Hconn Hc. split; [by apply announcement_discovered|].
  exists (Memory.Proxy (NewPluginClient conn) (Some (close conn))).
  split_and!; [|eapply memory_proxy_remote; [exact Hc| |done]|done].
  - unfold DialMemory. by rewrite (proj2 (dialConn_ok insecure NewClient ctx (entry ann) creds conn)).
  - apply register_all_kept. by eapply add_ok.
Qed.

(** C26. End to end, the orchestrator port, in the same way. *)
Theorem announced_orchestrator_is_served {W Creds Conn} (insecure : Creds)
    (NewClient : bytes -> Creds -> result Conn)
    (NewPluginClient : Conn -> PluginClient W) (close : Conn -> W -> W * result unit)
    (incoming : Ctx -> Ctx) (fates : Ctx -> MethodEnvelope -> W -> fate)
    (r router : PluginRouter W) (others : list (bytes * PluginServer W)) (real : Orchestrator W)
    s (ann : Announcement) (now : Z) (ctx : Ctx) (creds : option Creds) (conn : Conn) :
  RegisterOrchestratorSkeleton r real = (router, Ok tt) -> portable_orchestrator real ->
  publishable ann now -> manifest_Category (ann_Manifest ann) = CategoryOrchestrator ->
  admissible (host s) ann -> Z.abs (clock s - now) <= AnnounceWindow ->
  dialable ctx creds (ann_GrpcAddr ann) ->
  NewClient (ann_GrpcAddr ann) (default insecure creds) = Ok conn ->
  connected incoming fates (Plugin.Call (register_all router others).1) (NewPluginClient conn) ->
  discovered secret s ann now Orchestrators
  /\ exists p,
       DialOrchestrator insecure NewClient NewPluginClient close ctx (entry ann) creds = Ok p
       /\ remote_orchestrator incoming fates real (OrchestratorProxy_Orchestrator p)
       /\ orc_Close (OrchestratorProxy_Orchestrator p) = close conn.
Proof.
  intros Hreg Hreal Hpub Hcat Hadm Hwin Hdial Hconn Hc. split; [by apply announcement_discovered|].
  exists (Orchestrator.Proxy (NewPluginClient conn) (Some (close conn))).
  split_and!; [|eapply orchestrator_proxy_remote; [exact Hc| |done]|done].
  - unfold DialOrchestrator. by rewrite (proj2 (dialConn_ok insecure NewClient ctx (entry ann) creds conn)).
  - apply register_all_kept. by eapply add_ok.
Qed.

(** C27. End to end, the backend port: the host finds and dials the backend, and every
    turn the connection carries to the registered handler runs the backend once,
    and is seen by the caller whole, or up to a first part of its events and an
    error. *)
Theorem announced_backend_is_served {W W' Creds Conn U} (insecure : Creds)
    (NewClient : bytes -> Creds -> result Conn) (NewStream : Conn -> Ctx -> bytes -> result ClientStream)
    (close : Conn -> W' -> W' * result unit)
    (SendMsg : ResultEnvelope -> list ResultEnvelope -> list ResultEnvelope * result unit)
    (incoming WithCancel : Ctx -> Ctx) (cancel : Ctx -> U -> U) (real : Backend W) (f : BackendEvent -> U -> U)
    s (ann : Announcement) (now : Z) (ctx : Ctx) (creds : option Creds) (conn : Conn) :
  carries SendMsg ->
  publishable ann now -> manifest_Category (ann_Manifest ann) = CategoryBackend ->
  admissible (host s) ann -> Z.abs (clock s - now) <= AnnounceWindow ->
  dialable ctx creds (ann_GrpcAddr ann) ->
  NewClient (ann_GrpcAddr ann) (default insecure creds) = Ok conn ->
  discovered secret s ann now Backends
  /\ exists p,
       DialBackend insecure NewClient NewStream close ctx (entry ann) creds = Ok p
       /\ Backend.Close p = close conn
       /\ forall turn prompt payload w w1 w2 events reply respErr (u : U),
            lossless prompt -> encodeArgs (prompt, tt) = Ok payload ->
            real (incoming (WithCancel turn)) prompt w = (w1, (events, (reply, respErr))) ->
            Forall lossless_event events -> Utf8 reply -> Utf8 (errString respErr) ->
            carried SendMsg real incoming (cc _ p) (WithCancel turn) payload w w2 ->
            w2 = w1
            /\ turn_seen f (cancel (WithCancel turn)) u events reply respErr
                 (Respond WithCancel cancel (cc _ p) turn prompt (Some f) u).
Proof.
  intros Hsend Hpub Hcat Hadm Hwin Hdial Hconn. split; [by apply announcement_discovered|].
  exists (Backend.Proxy _ (NewStream conn) (Some (close conn))). split_and!; [|done|].
  - unfold DialBackend. by rewrite (proj2 (dialConn_ok insecure NewClient ctx (entry ann) creds conn)).
  - intros. by eapply carried_turn.
Qed.
End theorems.

(* ------------------------------------------------------------------ *)
(** ** Witnesses *)

#[local] Existing Instance sample_env.

Definition sample_allow : option (bytes -> bool) := Some (fun addr => bool_decide (addr = B "127.0.0.1:50111")).

Lemma noise_unforged issued : unforged sample_secret issued (B "noise").
Proof.
  intros t body Hd.
  assert (match decodeStrict (B "noise") (zero : announceEnvelope) with Ok _ => true | Err _ => false end = false)
    as Hn by vm_refl.
  by rewrite Hd in Hn.
Qed.

(** A run: noise is sent, a plugin announces, the host receives the noise and
    then the announcement, and a minute goes by. *)
Definition sample_heard : RemoteRegistry * list error :=
  host_handler sample_secret sample_now (B "noise") (NewRemoteRegistry [WithAddrAllow sample_allow], []).

Definition sample_host : RemoteRegistry * list error :=
  host_handler sample_secret sample_now Announce.sample_payload (sample_heard.1, sample_heard.2).

Definition sample_at (now : Z) (past : list Z) (heard : RemoteRegistry * list error) : system :=
  Sys now past [(sample_announcement, sample_now)] [B "noise"; Announce.sample_payload] heard.1 heard.2.

Definition sample_system : system := sample_at (sample_now + 60 * Second) [sample_now] sample_host.

Lemma sample_received data now past heard :
  data ∈ [B "noise"; Announce.sample_payload] ->
  step sample_secret (sample_at now past heard) (Received data)
    (sample_at now past (host_handler sample_secret now data (heard.1, heard.2))).
Proof. intros Hin. apply step_receive; [done|]. apply surjective_pairing. Qed.

Lemma sample_system_reachable : rtc (happens sample_secret) (system_start sample_allow sample_now) sample_system.
Proof.
  eapply rtc_l; [exists (Injected (B "noise")); apply step_inject, noise_unforged|].
  apply rtc_l with (sample_at sample_now [] (NewRemoteRegistry [WithAddrAllow sample_allow], [])).
  { exists (Announced sample_announcement sample_now).
    refine (step_announce sample_secret sample_announcement sample_now (Ok tt) sample_now [] [] [B "noise"]
              (NewRemoteRegistry [WithAddrAllow sample_allow]) [] [B "noise"; Announce.sample_payload] (Ok tt) _).
    vm_refl. }
  apply rtc_l with (sample_at sample_now [] sample_heard).
  { exists (Received (B "noise")). apply (sample_received _ _ _ (NewRemoteRegistry [WithAddrAllow sample_allow], [])). left. }
  apply rtc_l with (sample_at sample_now [] sample_host).
  { exists (Received Announce.sample_payload). apply sample_received. right. left. }
  apply rtc_once. exists (Ticked (sample_now + 60 * Second)). by apply step_tick.
Qed.

Lemma host_trusts_key_holders_witness :
  (forall id e, entries (host sample_system) !! id = Some e ->
     exists ann t a arrived f,
       (ann, t) ∈ issued sample_system /\ reads ann a /\ (publishable ann t -> a = ann)
       /\ e = entry a /\ id = ann_InstanceID a
       /\ Z.abs (arrived - time_UnixNano t) <= AnnounceWindow /\ arrived ∈ clock sample_system :: past sample_system
       /\ sample_allow = Some f /\ f (entry_GrpcAddr e) = true)
  /\ Forall documented (hooked sample_system).
Proof. exact (host_trusts_key_holders sample_secret sample_allow sample_now _ sample_system_reachable). Defined.

Lemma sample_system_order : iteration [B "abc"] (host sample_system).
Proof.
  unfold iteration. replace (map_to_list (entries (host sample_system))).*1 with [B "abc"]; [done|vm_refl].
Qed.

Lemma sample_system_found : entry sample_announcement ∈ byCategory [B "abc"] (host sample_system) CategoryMemory.
Proof.
  assert (byCategory [B "abc"] (host sample_system) CategoryMemory = [entry sample_announcement]) as -> by vm_refl.
  left.
Qed.

Lemma dials_are_vouched_witness :
  sample_client (B "127.0.0.1:50111") false = Ok (B "127.0.0.1:50111")
  /\ (exists id, vouched_entry sample_allow (directory_of sample_system) id (entry sample_announcement))
  /\ manifest_Category (entry_Manifest (entry sample_announcement)) = CategoryMemory
  /\ (@None bool = None -> loopback_addr (B "127.0.0.1:50111")).
Proof.
  apply (dials_are_vouched sample_secret false sample_client sample_allow sample_now sample_system
           [B "abc"] CategoryMemory (entry sample_announcement) None None (B "127.0.0.1:50111")
           sample_system_reachable sample_system_order sample_system_found).
  vm_refl.
Defined.

(** The same host after its clock is set back by ten seconds and the announcement
    is replayed, fifty seconds too late. *)
Definition sample_set_back : system :=
  sample_at (sample_now + 50 * Second) [sample_now + 60 * Second; sample_now] sample_host.

Definition sample_replayed : system :=
  sample_at (sample_now + 50 * Second) [sample_now + 60 * Second; sample_now]
    (host_handler sample_secret (sample_now + 50 * Second) Announce.sample_payload (sample_host.1, sample_host.2)).

Lemma silence_freezes_registry_witness : host sample_replayed = host sample_system.
Proof.
  apply (silence_freezes_registry sample_secret sample_allow sample_now sample_system sample_replayed
           sample_system_reachable).
  - intros ann t [= -> ->]%list_elem_of_singleton. unfold sample_system, sample_at. cbn [clock]. by compute.
  - apply rtc_l with sample_set_back.
    + exists (Ticked (sample_now + 50 * Second)). split; [apply step_tick|].
      intros ann t [= -> ->]%list_elem_of_singleton. by compute.
    + apply rtc_once. exists (Received Announce.sample_payload). split; [|done].
      apply sample_received. right. left.
Defined.

Lemma sample_publishable : publishable sample_announcement sample_now.
Proof. split; [apply sample_manifest_lossless; utf8|utf8|utf8|reflexivity]. Qed.

Lemma sample_admissible (ann : Announcement) (r : RemoteRegistry) :
  allow r = sample_allow -> ann_InstanceID ann = B "abc" -> manifest_Category (ann_Manifest ann) <> [] ->
  ann_GrpcAddr ann = B "127.0.0.1:50111" -> admissible r ann.
Proof.
  intros Ha Hi Hc Hg. unfold admissible. rewrite Hi, Hg, Ha.
  split_and!; [done|done|by exists (B "127.0.0.1"), (B "50111")|].
  eexists. split; [reflexivity|]. by apply bool_decide_eq_true_2.
Qed.

Lemma sample_dialable : dialable (Creds := bool) None None (B "127.0.0.1:50111").
Proof. split; [reflexivity|]. intros _. vm_refl. Qed.

Lemma announced_memory_is_served_witness :
  discovered sample_secret (system_start sample_allow sample_now) sample_announcement sample_now Memories
  /\ exists p,
       DialMemory false sample_client (fun _ => Plugin.Call Memory.sample_router) (fun _ w => (w, Ok tt)) None
         (entry sample_announcement) None = Ok p
       /\ remote_memory id (fun _ _ _ => Delivered) sample_memory (MemoryProxy_Memory p)
       /\ mem_Close (MemoryProxy_Memory p) = fun w => (w, Ok tt).
Proof.
  apply (announced_memory_is_served sample_secret false sample_client (fun _ => Plugin.Call Memory.sample_router)
           (fun _ w => (w, Ok tt)) id (fun _ _ _ => Delivered) (Router ∅) Memory.sample_router [] sample_memory
           (system_start sample_allow sample_now) sample_announcement sample_now None None (B "127.0.0.1:50111"));
    [reflexivity|apply sample_memory_portable|apply sample_publishable|reflexivity
    |by apply sample_admissible|by compute|apply sample_dialable|reflexivity|done].
Defined.

Definition sample_announced (category : bytes) : Announcement :=
  Ann {| m_kind := B "sqlite"; m_category := category |} (B "127.0.0.1:50111") (B "abc").

Lemma sample_announced_publishable category : Utf8 category -> publishable (sample_announced category) sample_now.
Proof. intros Hc. split; [apply sample_manifest_lossless; [utf8|done]|utf8|utf8|reflexivity]. Qed.

Lemma announced_orchestrator_is_served_witness :
  discovered sample_secret (system_start sample_allow sample_now) (sample_announced (B "orchestrator")) sample_now
    Orchestrators
  /\ exists p,
       DialOrchestrator false sample_client (fun _ => Plugin.Call Orchestrator.sample_router) (fun _ w => (w, Ok tt))
         None (entry (sample_announced (B "orchestrator"))) None = Ok p
       /\ remote_orchestrator id (fun _ _ _ => Delivered) sample_orchestrator (OrchestratorProxy_Orchestrator p)
       /\ orc_Close (OrchestratorProxy_Orchestrator p) = fun w => (w, Ok tt).
Proof.
  apply (announced_orchestrator_is_served sample_secret false sample_client
           (fun _ => Plugin.Call Orchestrator.sample_router)
           (fun _ w => (w, Ok tt)) id (fun _ _ _ => Delivered) (Router ∅) Orchestrator.sample_router []
           sample_orchestrator (system_start sample_allow sample_now) (sample_announced (B "orchestrator"))
           sample_now None None (B "127.0.0.1:50111"));
    [reflexivity|apply sample_orchestrator_portable|apply sample_announced_publishable; utf8|reflexivity
    |by apply sample_admissible|by compute|apply sample_dialable|reflexivity|done].
Defined.

Lemma announced_backend_is_served_witness :
  discovered sample_secret (system_start sample_allow sample_now) (sample_announced (B "backend")) sample_now Backends
  /\ exists p,
       DialBackend false sample_client (fun _ _ _ => Ok sample_stream) (fun _ (w : nat) => (w, Ok tt)) None
         (entry (sample_announced (B "backend"))) None = Ok p
       /\ Backend.Close p = (fun w => (w, Ok tt))
       /\ forall turn prompt payload w w1 w2 events reply respErr (u : list bytes),
            lossless prompt -> encodeArgs (prompt, tt) = Ok payload ->
            sample_backend (id (id turn)) prompt w = (w1, (events, (reply, respErr))) ->
            Forall lossless_event events -> Utf8 reply -> Utf8 (errString respErr) ->
            carried sample_send sample_backend id (cc _ p) (id turn) payload w w2 ->
            w2 = w1
            /\ turn_seen log_event (log_cancel (id turn)) u events reply respErr
                 (Respond id log_cancel (cc _ p) turn prompt (Some log_event) u).
Proof.
  apply (announced_backend_is_served sample_secret false sample_client (fun _ _ _ => Ok sample_stream)
           (fun _ (w : nat) => (w, Ok tt)) sample_send id id log_cancel sample_backend log_event
           (system_start sample_allow sample_now) (sample_announced (B "backend")) sample_now None None
           (B "127.0.0.1:50111"));
    [apply sample_send_carries|apply sample_announced_publishable; utf8|reflexivity
    |by apply sample_admissible|by compute|apply sample_dialable|reflexivity].
Defined.
