(* ===== verification/Tls.v ===== *)
(** * Tls: tls.go

    The TLS settings and the credentials built from them. The files and the
    X.509 functions are parameters; a [tls.Config] is a record of the fields
    the code sets, and [credentials.NewTLS] keeps it. *)

From S2P Require Import Prelude Text Json Encoding Env Sample Errors.

Record TLSConfig := { CAFile : bytes; CertFile : bytes; KeyFile : bytes }.

Definition Enabled (c : TLSConfig) : bool :=
  bool_decide (CAFile c <> []) || bool_decide (CertFile c <> []) || bool_decide (KeyFile c <> []).

Section tls.
Context `{Env}.

Definition Validate (c : TLSConfig) : result unit :=
  if negb (Enabled c) then Ok tt
  else
    let missing := [] in
    let missing := if decide (CAFile c = []) then missing ++ [EnvTLSCA] else missing in
    let missing := if decide (CertFile c = []) then missing ++ [EnvTLSCert] else missing in
    let missing := if decide (KeyFile c = []) then missing ++ [EnvTLSKey] else missing in
    if decide (0 < length missing)%nat then Err (TLSHalfConfiguredError missing) else Ok tt.

Section files.
Context {Certificate CertPool : Type}.
(** [tls.LoadX509KeyPair], [os.ReadFile], and the pool [AppendCertsFromPEM]
    makes of an empty one when it finds a certificate. *)
Context (LoadX509KeyPair : bytes -> bytes -> result Certificate) (ReadFile : bytes -> result bytes)
  (AppendCertsFromPEM : bytes -> option CertPool).

Definition loadCertAndPool (c : TLSConfig) : result (Certificate * CertPool) :=
  if negb (Enabled c) then Err (Sentinel ErrTLSNotConfigured)
  else
    let? _ := Validate c in
    let? cert := map_err (wrap (B "transport: load keypair: ")) (LoadX509KeyPair (CertFile c) (KeyFile c)) in
    let? caPEM := map_err (wrap (B "transport: read CA: ")) (ReadFile (CAFile c)) in
    match AppendCertsFromPEM caPEM with
    | None => Err (CAFileError (CAFile c))
    | Some pool => Ok (cert, pool)
    end.

Inductive ClientAuthType : Type := NoClientCert | RequireAndVerifyClientCert.

(** [None] is a nil pool: the system's for [RootCAs]. *)
Record tls_Config := {
  Certificates : list Certificate;
  ClientCAs : option CertPool;
  RootCAs : option CertPool;
  ClientAuth : ClientAuthType;
  MinVersion : Z
}.

Definition VersionTLS12 : Z := 0x0303.

Definition ServerCredentials (c : TLSConfig) : result tls_Config :=
  let? (cert, pool) := loadCertAndPool c in
  Ok {| Certificates := [cert]; ClientCAs := Some pool; RootCAs := None;
        ClientAuth := RequireAndVerifyClientCert; MinVersion := VersionTLS12 |}.

Definition ClientCredentials (c : TLSConfig) : result tls_Config :=
  let? (cert, pool) := loadCertAndPool c in
  Ok {| Certificates := [cert]; ClientCAs := None; RootCAs := Some pool;
        ClientAuth := NoClientCert; MinVersion := VersionTLS12 |}.
End files.
End tls.

(* ------------------------------------------------------------------ *)
(** ** Lemmas *)

(** The settings with the variables that name them. *)
Definition settings (c : TLSConfig) : list (bytes * bytes) :=
  [(EnvTLSCA, CAFile c); (EnvTLSCert, CertFile c); (EnvTLSKey, KeyFile c)].

Definition unset (c : TLSConfig) : list bytes :=
  (filter (fun s => s.2 = []) (settings c)).*1.

Section lemmas.
Context `{E : Env}.

Lemma Validate_unset c :
  Validate c = if decide (0 < length (unset c) < 3)%nat then Err (TLSHalfConfiguredError (unset c)) else Ok tt.
Proof. unfold Validate, Enabled, unset. by destruct c as [[|] [|] [|]]. Qed.

Lemma Enabled_unset c : Enabled c = negb (bool_decide (length (unset c) = 3%nat)).
Proof. unfold Enabled, unset. by destruct c as [[|] [|] [|]]. Qed.

Lemma unset_cases c :
  unset c = [] \/ unset c = [EnvTLSCA; EnvTLSCert; EnvTLSKey] \/ (0 < length (unset c) < 3)%nat.
Proof.
  destruct c as [[|] [|] [|]];
    first [by left | by right; left
          |right; right; split; apply Nat.ltb_lt; reflexivity].
Qed.

Lemma unset_nil c : unset c = [] <-> CAFile c <> [] /\ CertFile c <> [] /\ KeyFile c <> [].
Proof. unfold unset. destruct c as [[|] [|] [|]]; cbn; naive_solver. Qed.

(** What credentials are made of: complete settings, the certificate of the
    configured pair and the pool of the configured CA file. *)
Definition configured {Certificate CertPool} (LoadX509KeyPair : bytes -> bytes -> result Certificate)
    (ReadFile : bytes -> result bytes) (AppendCertsFromPEM : bytes -> option CertPool) (c : TLSConfig)
    (cert : Certificate) (pool : CertPool) : Prop :=
  CAFile c <> [] /\ CertFile c <> [] /\ KeyFile c <> []
  /\ LoadX509KeyPair (CertFile c) (KeyFile c) = Ok cert
  /\ exists caPEM, ReadFile (CAFile c) = Ok caPEM /\ AppendCertsFromPEM caPEM = Some pool.

Lemma loadCertAndPool_ok {Certificate CertPool} LoadX509KeyPair ReadFile
    (AppendCertsFromPEM : bytes -> option CertPool) c (cert : Certificate) pool :
  loadCertAndPool LoadX509KeyPair ReadFile AppendCertsFromPEM c = Ok (cert, pool) <->
  configured LoadX509KeyPair ReadFile AppendCertsFromPEM c cert pool.
Proof.
  unfold loadCertAndPool, configured. rewrite Enabled_unset, Validate_unset.
  pose proof (unset_nil c) as Hu. split.
  - case_bool_decide as Ha; [done|]. cbn [negb]. case_decide as Hd; [done|]. cbn [res_bind].
    destruct (unset_cases c) as [Hn|[Hn|Hn]]; [|by rewrite Hn in Ha|done].
    apply Hu in Hn as (? & ? & ?).
    destruct (LoadX509KeyPair _ _) as [cert'|]; [|done].
    destruct (ReadFile _) as [caPEM|] eqn:Hca; [|done]. cbn [map_err res_bind].
    destruct (AppendCertsFromPEM caPEM) as [pool'|] eqn:Hpool; [|done]. cbn.
    intros [= -> ->]. split_and!; [done..|]. by exists caPEM.
  - intros (H1 & H2 & H3 & Hcert & caPEM & Hca & Hpool).
    destruct Hu as [_ ->]; [|done]. cbn. rewrite Hcert. cbn. rewrite Hca. cbn. by rewrite Hpool.
Qed.
End lemmas.

(* ------------------------------------------------------------------ *)
(** ** Theorems *)

Section theorems.
Context `{E : Env} {Certificate CertPool : Type}.
Implicit Types c : TLSConfig.

(** Validate accepts exactly the settings that are all set or all empty, and
    otherwise its error names the empty ones, in order. *)
Theorem Validate_spec c :
  (Validate c = Ok tt <-> unset c = [] \/ unset c = [EnvTLSCA; EnvTLSCert; EnvTLSKey])
  /\ (Validate c <> Ok tt -> Validate c = Err (TLSHalfConfiguredError (unset c))).
Proof.
  rewrite Validate_unset. case_decide as Hd.
  - split; [|done]. split; [done|]. intros [Hn|Hn]; rewrite Hn in Hd; cbn in Hd; lia.
  - split; [|done]. split; [intros _|done]. destruct (unset_cases c) as [|[|]]; tauto.
Qed.

(** C32. Credentials are mutual TLS or nothing, on each side for itself. When a
    server's are built, or a client's, all three settings are set, the
    certificate is the one of the configured pair, the pool is the one of the
    configured CA file, and TLS 1.2 is the least version. The server requires
    and verifies a client certificate against that pool; the client verifies the
    server against it and not against the system's. *)
Theorem credentials_are_mutual (LoadX509KeyPair : bytes -> bytes -> result Certificate)
    (ReadFile : bytes -> result bytes) (AppendCertsFromPEM : bytes -> option CertPool) c :
  (forall server : tls_Config,
     ServerCredentials LoadX509KeyPair ReadFile AppendCertsFromPEM c = Ok server <->
     exists cert pool,
       configured LoadX509KeyPair ReadFile AppendCertsFromPEM c cert pool
       /\ server = {| Certificates := [cert]; ClientCAs := Some pool; RootCAs := None;
                      ClientAuth := RequireAndVerifyClientCert; MinVersion := VersionTLS12 |})
  /\ (forall client : tls_Config,
     ClientCredentials LoadX509KeyPair ReadFile AppendCertsFromPEM c = Ok client <->
     exists cert pool,
       configured LoadX509KeyPair ReadFile AppendCertsFromPEM c cert pool
       /\ client = {| Certificates := [cert]; ClientCAs := None; RootCAs := Some pool;
                      ClientAuth := NoClientCert; MinVersion := VersionTLS12 |}).
Proof.
  unfold ServerCredentials, ClientCredentials. split; intros config; split.
  1, 3: destruct (loadCertAndPool _ _ _ c) as [[cert pool]|err] eqn:Hl; [|done];
    intros [= <-]; exists cert, pool; split; [by apply loadCertAndPool_ok|done].
  all: by intros (cert & pool & ->%loadCertAndPool_ok & ->).
Qed.

(** When credentials cannot be built, both sides report the same error, and it
    is the first of: TLS is not configured; the settings are incomplete; the key
    pair cannot be loaded; the CA file cannot be read; it holds no certificate. *)
Theorem credentials_errors (LoadX509KeyPair : bytes -> bytes -> result Certificate)
    (ReadFile : bytes -> result bytes) (AppendCertsFromPEM : bytes -> option CertPool) c (err : error) :
  ServerCredentials LoadX509KeyPair ReadFile AppendCertsFromPEM c = Err err ->
  ClientCredentials LoadX509KeyPair ReadFile AppendCertsFromPEM c = Err err
  /\ if decide (length (unset c) = 3%nat) then err = Sentinel ErrTLSNotConfigured
     else if decide (unset c <> []) then err = TLSHalfConfiguredError (unset c)
     else
       match LoadX509KeyPair (CertFile c) (KeyFile c) with
       | Err e => err = wrap (B "transport: load keypair: ") e
       | Ok _ =>
           match ReadFile (CAFile c) with
           | Err e => err = wrap (B "transport: read CA: ") e
           | Ok caPEM => AppendCertsFromPEM caPEM = None /\ err = CAFileError (CAFile c)
           end
       end.
Proof.
  unfold ServerCredentials, ClientCredentials, loadCertAndPool.
  rewrite Enabled_unset, Validate_unset.
  destruct (decide (length (unset c) = 3%nat)) as [Ha|Ha];
    [rewrite bool_decide_eq_true_2 by done; cbn; by intros [= <-]|].
  rewrite bool_decide_eq_false_2 by done. cbn [negb].
  assert (length (unset c) <= 3)%nat.
  { unfold unset. rewrite length_fmap. apply (length_filter _ (settings c)). }
  case_decide as Hd; cbn [res_bind].
  - rewrite decide_True; [by intros [= <-]|]. intros Hn. rewrite Hn in Hd. cbn in Hd. lia.
  - rewrite decide_False by (intros Hn; apply Hn, length_zero_iff_nil; lia).
    destruct (LoadX509KeyPair _ _) as [cert|e]; [|by intros [= <-]].
    destruct (ReadFile _) as [caPEM|e]; [|by intros [= <-]]. cbn [map_err res_bind].
    destruct (AppendCertsFromPEM caPEM) as [pool|]; [done|]. by intros [= <-].
Qed.
End theorems.

(* ------------------------------------------------------------------ *)
(** ** Witnesses *)

#[local] Existing Instance sample_env.

Definition sample_tls : TLSConfig :=
  {| CAFile := B "ca.pem"; CertFile := B "host.pem"; KeyFile := B "host.key" |}.

Definition sample_keypair (cert key : bytes) : result bytes := Ok (cert ++ key).
Definition sample_file (path : bytes) : result bytes := Ok (B "PEM " ++ path).
Definition sample_pool (pem : bytes) : option bytes := if decide (pem = []) then None else Some pem.

Lemma credentials_errors_witness :
  ClientCredentials sample_keypair sample_file (fun _ => None (A := bytes)) sample_tls
  = Err (CAFileError (B "ca.pem"))
  /\ (None (A := bytes) = None /\ CAFileError (B "ca.pem") = CAFileError (B "ca.pem")).
Proof.
  apply (credentials_errors sample_keypair sample_file (fun _ => None (A := bytes)) sample_tls
           (CAFileError (B "ca.pem"))).
  reflexivity.
Defined.
