(* ===== verification/Path.v ===== *)
(** * Path: package path/filepath on Unix

    The functions of the standard library the tools use on file paths. A path
    is cleaned component by component: [clean_step] keeps the components kept so
    far, last first. *)

From S2P Require Import Prelude Text NetAddr.

Definition slash : byte := "/"%byte.

(** Whether [..] can remove the last component kept. *)
Definition removable (kept : list bytes) : bool :=
  match kept with
  | [] => false
  | last :: _ => negb (bool_decide (last = B ".."))
  end.

Definition clean_step (rooted : bool) (kept : list bytes) (component : bytes) : list bytes :=
  if decide (component = [] \/ component = B ".") then kept
  else if decide (component = B "..") then
    if removable kept then drop 1 kept
    else if rooted then kept
    else component :: kept
  else component :: kept.

Definition is_rooted (path : bytes) : bool :=
  match path with
  | c :: _ => bool_decide (c = slash)
  | [] => false
  end.

Definition Clean (path : bytes) : bytes :=
  let rooted := is_rooted path in
  let kept := rev (foldl (clean_step rooted) [] (split_on slash path)) in
  match (if rooted then [slash] else []) ++ join (B "/") kept with
  | [] => B "."
  | cleaned => cleaned
  end.

Fixpoint drop_empty (elements : list bytes) : list bytes :=
  match elements with
  | [] :: elements => drop_empty elements
  | _ => elements
  end.

Definition Join (elements : list bytes) : bytes :=
  match drop_empty elements with
  | [] => []
  | elements => Clean (join (B "/") elements)
  end.

Definition Dir (path : bytes) : bytes :=
  match last_index_byte slash path with
  | None => Clean []
  | Some i => Clean (take (S i) path)
  end.

Fixpoint drop_slashes (reversed : bytes) : bytes :=
  match reversed with
  | c :: rest => if decide (c = slash) then drop_slashes rest else reversed
  | [] => []
  end.

Definition Base (path : bytes) : bytes :=
  match path with
  | [] => B "."
  | _ =>
      let path := rev (drop_slashes (rev path)) in
      let name := match last_index_byte slash path with
                  | None => path
                  | Some i => drop (S i) path
                  end in
      match name with [] => B "/" | _ => name end
  end.

(** On Unix the separator is the slash already. *)
Definition ToSlash (path : bytes) : bytes := path.

Example clean_examples :
  map Clean [B "a//b/../c/."; B "/../a"; B "../../x/.."; B ""; B "a/.."; B "/"]
  = [B "a/c"; B "/a"; B "../.."; B "."; B "."; B "/"].
Proof. reflexivity. Qed.

Example join_dir_base_examples :
  (Join [B "out"; B "../x.go"], Join [B ""; B "b"], Dir (B "a/b/c.go"), Dir (B "c.go"), Base (B "a/b//"), Base (B "//"))
  = (B "x.go", B "b", B "a/b", B ".", B "b", B "/").
Proof. reflexivity. Qed.

(* ------------------------------------------------------------------ *)
(** ** Plain paths *)

(** A component that cleaning keeps. *)
Definition plain (component : bytes) : Prop :=
  component <> [] /\ component <> B "." /\ component <> B ".." /\ slash ∉ component.

Lemma split_on_join components :
  components <> [] -> Forall (fun c => slash ∉ c) components ->
  split_on slash (join (B "/") components) = components.
Proof.
  intros Hne Hp. induction Hp as [|c components Hs Hp IH]; [done|].
  destruct components as [|c' components]; [by apply split_on_none|].
  rewrite join_cons by done. change (B "/" ++ ?r) with (slash :: r). rewrite split_on_app by done.
  by rewrite IH.
Qed.

Lemma plain_no_slash components : Forall plain components -> Forall (fun c => slash ∉ c) components.
Proof. intros Hp. eapply Forall_impl; [exact Hp|]. by intros c (_ & _ & _ & ?). Qed.

Lemma clean_plain components kept :
  Forall plain components -> foldl (clean_step false) kept components = rev components ++ kept.
Proof.
  intros Hp. revert kept. induction Hp as [|c components (H1 & H2 & H3 & _) Hp IH]; intros kept; [done|].
  cbn [foldl]. unfold clean_step at 2. rewrite decide_False by tauto. rewrite decide_False by done.
  rewrite IH. cbn. by rewrite <-app_assoc.
Qed.

Lemma plain_not_rooted c components : plain c -> is_rooted (join (B "/") (c :: components)) = false.
Proof.
  intros (Hc & _ & _ & Hs). destruct c as [|b c]; [done|]. apply not_elem_of_cons in Hs as [Hb _].
  destruct components; cbn; by apply bool_decide_eq_false.
Qed.

Lemma join_not_empty c components : plain c -> join (B "/") (c :: components) <> [].
Proof. intros (Hc & _). destruct c as [|b c]; [done|]. by destruct components. Qed.

(** Cleaning leaves a path of plain components alone. *)
Lemma Clean_plain components :
  components <> [] -> Forall plain components ->
  Clean (join (B "/") components) = join (B "/") components.
Proof.
  intros Hne Hp. unfold Clean. destruct components as [|c components]; [done|].
  pose proof Hp as [Hc _]%Forall_cons.
  rewrite (plain_not_rooted c components Hc), split_on_join, clean_plain by (done || by apply plain_no_slash).
  rewrite app_nil_r, rev_involutive. cbn [app].
  pose proof (join_not_empty c components Hc). by destruct (join _ _).
Qed.

Lemma join_app sep l k : l <> [] -> k <> [] -> join sep (l ++ k) = join sep l ++ sep ++ join sep k.
Proof.
  intros Hl Hk. induction l as [|p l IH]; [done|]. destruct l as [|q l]; [by apply join_cons|].
  cbn [app]. rewrite join_cons by done. rewrite (join_cons sep p (q :: l)) by done.
  change (q :: l ++ k) with ((q :: l) ++ k). rewrite IH by done. by rewrite <-!app_assoc.
Qed.

(** Joining two such paths puts the one under the other. *)
Lemma Join_plain l k :
  l <> [] -> k <> [] -> Forall plain l -> Forall plain k ->
  Join [join (B "/") l; join (B "/") k] = join (B "/") l ++ slash :: join (B "/") k.
Proof.
  intros Hl Hk Pl Pk.
  assert (join (B "/") [join (B "/") l; join (B "/") k] = join (B "/") (l ++ k)) as Hj
    by (by rewrite join_app).
  unfold Join. assert (drop_empty [join (B "/") l; join (B "/") k] = [join (B "/") l; join (B "/") k]) as ->.
  { destruct Pl as [|c l (Hc & _) _]; [done|]. destruct c as [|b c]; [done|]. by destruct l. }
  rewrite Hj, Clean_plain; [|by destruct l|by apply Forall_app]. by rewrite join_app.
Qed.

(** A name that climbs out of the last component is not under it. *)
Lemma Join_climbing dir d x :
  dir <> [] -> Forall plain dir -> plain d -> plain x ->
  Join [join (B "/") (dir ++ [d]); B ".." ++ slash :: x] = join (B "/") (dir ++ [x]).
Proof.
  intros Hne Pdir Pd Px. destruct dir as [|c dir]; [done|]. pose proof Pdir as [Pc _]%Forall_cons.
  assert (forall l, join (B "/") [join (B "/") (l ++ [d]); B ".." ++ slash :: x]
    = join (B "/") (l ++ [d; B ".."; x])) as Hj.
  { intros l. change (B ".." ++ slash :: x) with (join (B "/") [B ".."; x]).
    change [d; B ".."; x] with ([d] ++ [B ".."; x]). rewrite app_assoc.
    rewrite (join_app _ (l ++ [d]) [B ".."; x]); [done|by destruct l|done]. }
  unfold Join. assert (forall r, drop_empty (join (B "/") ((c :: dir) ++ [d]) :: r)
                            = join (B "/") ((c :: dir) ++ [d]) :: r) as Hd.
  { intros r. pose proof (join_not_empty c (dir ++ [d]) Pc) as Hn. cbn [app] in *. by destruct (join _ _). }
  rewrite Hd, Hj. unfold Clean. cbn [app]. rewrite (plain_not_rooted c _ Pc).
  rewrite split_on_join; [|done|].
  2: { change (c :: dir ++ ?l) with ((c :: dir) ++ l). apply Forall_app. split; [by apply plain_no_slash|].
       rewrite !Forall_cons. split_and!; [apply Pd|by apply (bool_decide_unpack _)|apply Px|by apply Forall_nil]. }
  change (c :: dir ++ ?l) with ((c :: dir) ++ l). rewrite foldl_app, (clean_plain (c :: dir)) by done.
  change (foldl (clean_step false) (rev (c :: dir) ++ []) [d; B ".."; x])
    with (clean_step false (clean_step false (foldl (clean_step false) (rev (c :: dir) ++ []) [d]) (B "..")) x).
  rewrite clean_plain by (by constructor). cbn [rev app]. unfold clean_step at 2.
  rewrite decide_False by (intros [?|?]; done). rewrite decide_True by done.
  unfold removable. rewrite bool_decide_eq_false_2 by apply Pd. cbn [negb drop].
  change (clean_step false ?k x) with (foldl (clean_step false) k [x]).
  rewrite clean_plain by (by constructor). cbn [rev app]. rewrite app_nil_r.
  cbn [rev]. rewrite drop_0, rev_app_distr, rev_involutive. cbn [rev app]. pose proof (join_not_empty c (dir ++ [x]) Pc). by destruct (join (B "/") (c :: dir ++ [x])).
Qed.

Lemma drop_slashes_plain p x : plain x -> drop_slashes (rev (p ++ x)) = rev (p ++ x).
Proof.
  intros (Hx & _ & _ & Hs). rewrite rev_app_distr. destruct x as [|b x _] using rev_ind; [done|].
  rewrite rev_app_distr. cbn. rewrite decide_False; [done|]. intros ->. apply Hs. set_solver.
Qed.

(** The base name of a plain name, under another or alone. *)
Lemma Base_under p x : plain x -> Base (p ++ slash :: x) = x.
Proof.
  intros Hx. unfold Base. destruct (p ++ slash :: x) as [|b r] eqn:Hp; [by destruct p|]. rewrite <-Hp.
  replace (p ++ slash :: x) with ((p ++ [slash]) ++ x) by (by rewrite <-app_assoc).
  rewrite drop_slashes_plain, rev_involutive by done. rewrite <-app_assoc. cbn [app].
  rewrite last_index_byte_app by apply Hx.
  replace (drop (S (length p)) (p ++ slash :: x)) with x.
  - by destruct Hx as [? _], x.
  - change (S (length p)) with (1 + length p)%nat. rewrite Nat.add_comm, <-drop_drop, drop_app_length. done.
Qed.

Lemma Base_plain x : plain x -> Base x = x.
Proof.
  intros Hx. unfold Base. destruct x as [|b r] eqn:Hb; [by destruct Hx|]. rewrite <-Hb in *.
  pose proof (drop_slashes_plain [] x Hx) as Hd. cbn [app] in Hd. rewrite Hd, rev_involutive.
  rewrite last_index_byte_none by apply Hx. by rewrite Hb.
Qed.

(* ------------------------------------------------------------------ *)
(** ** Lengths *)

(** The bytes of some components, each with a separator. *)
Fixpoint weight (components : list bytes) : nat :=
  match components with
  | [] => 0%nat
  | c :: components => (S (length c) + weight components)%nat
  end.

Lemma weight_split c s : weight (split_on c s) = S (length s).
Proof.
  induction s as [|d s IH]; [done|]. cbn. case_decide; cbn; [lia|].
  destruct (split_on c s) as [|p ps]; cbn in *; lia.
Qed.

Lemma length_join_weight components : components <> [] -> S (length (join (B "/") components)) = weight components.
Proof.
  induction components as [|c components IH]; [done|]. intros _.
  destruct components as [|c' components]; [cbn; lia|].
  rewrite join_cons by done. rewrite !length_app. cbn in *.
  change (length (B "/")) with 1%nat. specialize (IH ltac:(done)). lia.
Qed.

Lemma weight_clean_step rooted kept c :
  (weight (clean_step rooted kept c) <= weight kept + S (length c))%nat.
Proof.
  unfold clean_step. repeat case_decide; [lia| |cbn; lia].
  destruct (removable kept); [destruct kept; cbn; rewrite ?drop_0; lia|]. destruct rooted; cbn; lia.
Qed.

Lemma weight_clean rooted components kept :
  (weight (foldl (clean_step rooted) kept components) <= weight kept + weight components)%nat.
Proof.
  revert kept. induction components as [|c components IH]; intros kept; [cbn; lia|].
  cbn [foldl]. etrans; [apply IH|]. pose proof (weight_clean_step rooted kept c). cbn. lia.
Qed.

Lemma weight_rev l : weight (rev l) = weight l.
Proof.
  assert (forall l k, weight (l ++ k) = (weight l + weight k)%nat) as Ha
    by (intros m k; induction m; cbn; lia).
  induction l as [|c l IH]; [done|]. cbn. rewrite Ha, IH. cbn. lia.
Qed.

Lemma length_join_kept rooted components :
  (length (join (B "/") (rev (foldl (clean_step rooted) [] components))) <= weight components - 1)%nat.
Proof.
  destruct (rev (foldl (clean_step rooted) [] components)) as [|c kept] eqn:E; [cbn; lia|].
  pose proof (length_join_weight (c :: kept) ltac:(done)) as H. rewrite <-E, weight_rev in H.
  pose proof (weight_clean rooted components []) as H'. rewrite <-E. change (weight []) with 0%nat in H'. lia.
Qed.

Lemma Clean_length s : s <> [] -> (length (Clean s) <= length s)%nat.
Proof.
  intros Hs. unfold Clean. destruct s as [|c s]; [done|].
  assert (forall l, (length l <= S (length s))%nat -> (length (match l with [] => B "." | d :: r => d :: r end) <= length (c :: s))%nat) as Hl
    by (intros [|] ?; unfold B; cbn in *; lia).
  apply Hl. cbn [is_rooted]. case_bool_decide as E.
  - subst c. cbn [split_on]. rewrite decide_True by done. cbn [foldl app length].
    pose proof (length_join_kept true (split_on slash s)). rewrite weight_split in *.
    change (clean_step true [] []) with (@nil bytes). lia.
  - cbn [app]. pose proof (length_join_kept false (split_on slash (c :: s))) as Hk. rewrite weight_split in Hk.
    cbn [length] in Hk. lia.
Qed.

Lemma split_on_trailing c s : split_on c (s ++ [c]) = split_on c s ++ [[]].
Proof.
  induction s as [|d s IH]; cbn; [by rewrite decide_True|].
  rewrite IH. case_decide; [done|]. pose proof (weight_split c s). by destruct (split_on c s).
Qed.

Lemma Clean_trailing s : s <> [] -> Clean (s ++ [slash]) = Clean s.
Proof.
  intros Hs. unfold Clean. rewrite split_on_trailing, foldl_app. by destruct s.
Qed.

Lemma last_index_byte_some c s i : last_index_byte c s = Some i -> take (S i) s = take i s ++ [c] /\ (i < length s)%nat.
Proof.
  revert i. induction s as [|d s IH]; intros i; cbn; [done|].
  destruct (last_index_byte c s) as [j|].
  - intros [= <-]. destruct (IH j eq_refl) as [E ?]. rewrite E. cbn. split; [done|lia].
  - case_decide as E; [|done]. intros [= <-]. subst. cbn. rewrite take_0. split; [done|lia].
Qed.

(** The parent of a path is shorter than the path, or a root of all paths. *)
Lemma Dir_cases p : Dir p = B "." \/ Dir p = B "/" \/ (length (Dir p) < length p)%nat.
Proof.
  unfold Dir. destruct (last_index_byte slash p) as [i|] eqn:E; [|by left]. right.
  apply last_index_byte_some in E as [-> Hi]. destruct (take i p) as [|c s] eqn:Et; [by left|right].
  rewrite Clean_trailing by done. pose proof (Clean_length (c :: s) ltac:(done)) as H.
  rewrite <-Et, length_take in H. rewrite <-Et. lia.
Qed.
