(* ===== verification/Protogen.v ===== *)
(** * Protogen: tools/protogen/main.go

    The generator of the protobuf code: its command line, the order of the
    descriptors it hands to the plugins, the check of the plugins' outputs, the
    writing of the files and the exit code. The compiler, the plugins, the
    protobuf codec and the file system are parameters that run in a world [W]
    and fail with the text of a foreign error. *)

From S2P Require Import Prelude Text NetAddr Path.

(* ------------------------------------------------------------------ *)
(** ** Errors *)

Inductive tool_sentinel : Type :=
| errUsage
| errUnreadable
| errCompile
| errPlugin
| errOutputMismatch
| errWrite.

#[global] Instance tool_sentinel_eq_dec : EqDecision tool_sentinel.
Proof. solve_decision. Defined.

Definition tool_sentinel_text (s : tool_sentinel) : bytes :=
  match s with
  | errUsage => B "bad command line"
  | errUnreadable => B "cannot read the proto file"
  | errCompile => B "cannot compile the proto file"
  | errPlugin => B "plugin failed"
  | errOutputMismatch => B "plugins returned other files than -output"
  | errWrite => B "cannot write the generated file"
  end.

Inductive tool_error : Type :=
| ToolSentinel (s : tool_sentinel)
| ToolForeign (text : bytes)
| ToolErrorf (text : bytes) (wrapped : list tool_error).

Definition tool_text (err : tool_error) : bytes :=
  match err with
  | ToolSentinel s => tool_sentinel_text s
  | ToolForeign text => text
  | ToolErrorf text _ => text
  end.

(** [errors.Is] *)
Fixpoint tool_is (s : tool_sentinel) (err : tool_error) : bool :=
  match err with
  | ToolSentinel s' => bool_decide (s = s')
  | ToolForeign _ => false
  | ToolErrorf _ wrapped => existsb (tool_is s) wrapped
  end.

(** [fmt.Errorf("%w: " + ..., s, ...)] with a detail that wraps no error, and
    with a foreign error as the last operand. *)
Definition fail_with (s : tool_sentinel) (detail : bytes) : tool_error :=
  ToolErrorf (tool_sentinel_text s ++ B ": " ++ detail) [ToolSentinel s].

Definition fail_wrapping (s : tool_sentinel) (prefix err : bytes) : tool_error :=
  ToolErrorf (tool_sentinel_text s ++ B ": " ++ prefix ++ err) [ToolSentinel s; ToolForeign err].

(** [errors.Join] *)
Definition errors_Join (err err' : tool_error) : tool_error :=
  ToolErrorf (tool_text err ++ "010"%byte :: tool_text err') [err; err'].

Notation outcome A := (res tool_error A).

Definition exitUsage : Z := 2.
Definition exitNoInput : Z := 66.
Definition exitIOError : Z := 74.

(** The permissions of what is generated: 0o750 and 0o600. *)
Definition generatedDirMode : Z := 488.
Definition generatedFileMode : Z := 384.

(** [None] is a nil error. *)
Definition exitCode (err : option tool_error) : Z :=
  match err with
  | None => 0
  | Some err =>
      if tool_is errUsage err then exitUsage
      else if tool_is errUnreadable err then exitNoInput
      else if tool_is errWrite err then exitIOError
      else 1
  end.

(* ------------------------------------------------------------------ *)
(** ** The command line *)

Record config := Config { root : bytes; proto : bytes; goOut : bytes; outputs : list bytes }.

(** The value of the repeatable flag. *)
Definition outputList_String (outputs : list bytes) : bytes := join (B ",") outputs.
Definition outputList_Set (value : bytes) (outputs : list bytes) : list bytes := outputs ++ [value].

(** [flag.FlagSet.Parse] over the four string flags of the tool. A flag takes
    the value after its equals sign, or the next argument. *)
Definition set_flag (name value : bytes) (cfg : config) : option config :=
  if decide (name = B "root") then Some (Config value (proto cfg) (goOut cfg) (outputs cfg))
  else if decide (name = B "proto") then Some (Config (root cfg) value (goOut cfg) (outputs cfg))
  else if decide (name = B "go_out") then Some (Config (root cfg) (proto cfg) value (outputs cfg))
  else if decide (name = B "output") then Some (Config (root cfg) (proto cfg) (goOut cfg) (outputList_Set value (outputs cfg)))
  else None.

Definition is_flag (name : bytes) : bool :=
  bool_decide (name ∈ [B "root"; B "proto"; B "go_out"; B "output"]).

(** The name and the value of a flag, cut at the first equals sign that is not
    its first byte. *)
Definition cut_flag (text : bytes) : bytes * option bytes :=
  match index_byte "="%byte (drop 1 text) with
  | None => (text, None)
  | Some i => (take (S i) text, Some (drop (S (S i)) text))
  end.

(** What an argument is to the flag package. *)
Inductive flag_argument : Type :=
| NotAFlag
| Terminator
| BadSyntax
| Flag (name : bytes) (value : option bytes).

Definition read_flag (argument : bytes) : flag_argument :=
  match argument with
  | "-"%byte :: "-"%byte :: [] => Terminator
  | "-"%byte :: c :: rest =>
      let text := if decide (c = "-"%byte) then rest else c :: rest in
      match text with
      | "-"%byte :: _ | "="%byte :: _ => BadSyntax
      | _ => let (name, value) := cut_flag text in Flag name value
      end
  | _ => NotAFlag
  end.

(** The configuration and the arguments left, or the text of the error. *)
Fixpoint parse_flags (args : list bytes) (cfg : config) : res bytes (config * list bytes) :=
  match args with
  | [] => Ok (cfg, [])
  | argument :: rest =>
      match read_flag argument with
      | NotAFlag => Ok (cfg, args)
      | Terminator => Ok (cfg, rest)
      | BadSyntax => Err (B "bad flag syntax: " ++ argument)
      | Flag name value =>
          if negb (is_flag name) then
            if decide (name = B "help" \/ name = B "h") then Err (B "flag: help requested")
            else Err (B "flag provided but not defined: -" ++ name)
          else
            match value, rest with
            | Some value, _ =>
                parse_flags rest (default cfg (set_flag name value cfg))
            | None, value :: rest =>
                parse_flags rest (default cfg (set_flag name value cfg))
            | None, [] => Err (B "flag needs an argument: -" ++ name)
            end
      end
  end.

Section parse.
Context `{Unicode}.

Definition parseArgs (args : list bytes) : outcome config :=
  match parse_flags args (Config (B ".") [] [] []) with
  | Err text => Err (fail_wrapping errUsage [] text)
  | Ok (_, argument :: _) => Err (fail_with errUsage (B "unexpected argument " ++ quote argument))
  | Ok (cfg, []) =>
      if decide (proto cfg = [] \/ goOut cfg = [] \/ outputs cfg = [])
      then Err (fail_with errUsage (B "-proto, -go_out and at least one -output are required"))
      else Ok cfg
  end.
End parse.

(* ------------------------------------------------------------------ *)
(** ** The compilation request *)

(** A file of the compiled closure. The compiler refuses import cycles. *)
Inductive FileDescriptor : Type :=
| File (Path : bytes) (Imports : list FileDescriptor).

Definition Path (f : FileDescriptor) : bytes := let (path, _) := f in path.
Definition Imports (f : FileDescriptor) : list FileDescriptor := let (_, imports) := f in imports.

(** [visit]: the visited paths and the descriptors in order. *)
Fixpoint visit (file : FileDescriptor) (st : gset bytes * list FileDescriptor) : gset bytes * list FileDescriptor :=
  match file with
  | File path imports =>
      if decide (path ∈ st.1) then st
      else
        let st := foldl (fun st import => visit import st) ({[path]} ∪ st.1, st.2) imports in
        (st.1, st.2 ++ [file])
  end.

Definition descriptorsInDependencyOrder (root : FileDescriptor) : list FileDescriptor :=
  (visit root (∅, [])).2.

Record CodeGeneratorRequest := {
  FileToGenerate : list bytes;
  Parameter_ : bytes;
  ProtoFile : list FileDescriptor
}.

Record ResponseFile := { GetName : bytes; GetContent : bytes }.
Record CodeGeneratorResponse := { GetError : bytes; GetFile : list ResponseFile }.

Definition parameter : bytes := B "paths=source_relative".

Definition checkOutputs (wanted : list bytes) (files : list ResponseFile) : outcome unit :=
  let expected : gset bytes := list_to_set (Base <$> wanted) in
  let produced : gset bytes := list_to_set (Base <$> (GetName <$> files)) in
  if decide (size produced <> length files \/ expected <> produced)
  then Err (fail_with errOutputMismatch
              (B "expected [" ++ join (B " ") wanted ++ B "], got " ++ format_int (len files) ++ B " files"))
  else Ok tt.

Section world.
Context {W : Type}.
Context (ReadFile : bytes -> W -> W * res bytes bytes)
  (Compile : bytes -> bytes -> W -> W * res bytes (list FileDescriptor))
  (MarshalRequest : CodeGeneratorRequest -> res bytes bytes)
  (go_tool : bytes -> bytes -> W -> W * res bytes bytes)
  (UnmarshalResponse : bytes -> res bytes CodeGeneratorResponse)
  (MkdirAll : bytes -> Z -> W -> W * res bytes unit)
  (WriteFile : bytes -> bytes -> Z -> W -> W * res bytes unit)
  (Fprintln : bytes -> W -> W * res bytes unit).

Definition compileRequest (root protoPath : bytes) : W -> W * outcome CodeGeneratorRequest :=
  do read <- ReadFile (Join [root; protoPath]);
  match read with
  | Err err => state_ret (Err (fail_wrapping errUnreadable [] err))
  | Ok _ =>
      let name := ToSlash (Clean protoPath) in
      do compiled <- Compile root name;
      state_ret
        match compiled with
        | Err err => Err (fail_wrapping errCompile [] err)
        | Ok [file] =>
            Ok {| FileToGenerate := [name]; Parameter_ := parameter;
                  ProtoFile := descriptorsInDependencyOrder file |}
        | Ok _ => Err (fail_with errCompile name)
        end
  end.

Definition runPlugin (tool input : bytes) : W -> W * outcome (list ResponseFile) :=
  do stdout <- go_tool tool input;
  state_ret
    match stdout with
    | Err err => Err (fail_wrapping errPlugin (tool ++ B ": ") err)
    | Ok stdout =>
        match UnmarshalResponse stdout with
        | Err err => Err (fail_wrapping errPlugin (tool ++ B ": ") err)
        | Ok response =>
            if decide (GetError response <> [])
            then Err (fail_with errPlugin (tool ++ B ": " ++ GetError response))
            else Ok (GetFile response)
        end
    end.

(** The loop over the tools, with the files so far. *)
Fixpoint run_tools (tools : list bytes) (input : bytes) (files : list ResponseFile) : W -> W * outcome (list ResponseFile) :=
  match tools with
  | [] => state_ret (Ok files)
  | tool :: tools =>
      do produced <- runPlugin tool input;
      match produced with
      | Err err => state_ret (Err err)
      | Ok produced => run_tools tools input (files ++ produced)
      end
  end.

Definition runPlugins (request : CodeGeneratorRequest) : W -> W * outcome (list ResponseFile) :=
  match MarshalRequest request with
  | Err err => state_ret (Err (fail_wrapping errPlugin [] err))
  | Ok input => run_tools [B "protoc-gen-go"; B "protoc-gen-go-grpc"] input []
  end.

Fixpoint writeFiles (goOut : bytes) (files : list ResponseFile) : W -> W * outcome unit :=
  match files with
  | [] => state_ret (Ok tt)
  | file :: files =>
      let target := Join [goOut; GetName file] in
      do made <- MkdirAll (Dir target) generatedDirMode;
      match made with
      | Err err => state_ret (Err (fail_wrapping errWrite [] err))
      | Ok _ =>
          do written <- WriteFile target (GetContent file) generatedFileMode;
          match written with
          | Err err => state_ret (Err (fail_wrapping errWrite [] err))
          | Ok _ => writeFiles goOut files
          end
      end
  end.

Definition generate (cfg : config) : W -> W * outcome unit :=
  do request <- compileRequest (root cfg) (proto cfg);
  match request with
  | Err err => state_ret (Err err)
  | Ok request =>
      do files <- runPlugins request;
      match files with
      | Err err => state_ret (Err err)
      | Ok files =>
          match checkOutputs (outputs cfg) files with
          | Err err => state_ret (Err err)
          | Ok _ => writeFiles (goOut cfg) files
          end
      end
  end.

Definition run `{Unicode} (args : list bytes) : W -> W * Z :=
  do err <- match parseArgs args with
            | Err err => state_ret (Some err)
            | Ok cfg =>
                do generated <- generate cfg;
                state_ret (match generated with Err err => Some err | Ok _ => None end)
            end;
  match err with
  | None => state_ret (exitCode None)
  | Some err =>
      do printed <- Fprintln (tool_text err ++ ["010"%byte]);
      state_ret (exitCode (Some (match printed with
                                 | Err writeErr => errors_Join err (ToolForeign writeErr)
                                 | Ok _ => err
                                 end)))
  end.

(** The program: its arguments without its name, and the status it exits with. *)
Definition main `{Unicode} (os_Args : list bytes) : W -> W * Z := run (drop 1 os_Args).
End world.

(* ------------------------------------------------------------------ *)
(** ** Lemmas: errors *)

Lemma tool_is_wrapping s s' prefix err : tool_is s (fail_wrapping s' prefix err) = bool_decide (s = s').
Proof. cbn. by rewrite orb_false_r. Qed.

Lemma tool_is_with s s' detail : tool_is s (fail_with s' detail) = bool_decide (s = s').
Proof. cbn. by rewrite orb_false_r. Qed.

Lemma tool_is_Join s err text : tool_is s (errors_Join err (ToolForeign text)) = tool_is s err.
Proof. cbn. by rewrite orb_false_r. Qed.

Lemma exitCode_ext err err' : (forall s, tool_is s err = tool_is s err') -> exitCode (Some err) = exitCode (Some err').
Proof. intros He. cbn. by rewrite !He. Qed.

(* ------------------------------------------------------------------ *)
(** ** Lemmas: the closure of a file *)

Section descriptors.
Implicit Types f g : FileDescriptor.

Fixpoint subfiles f : list FileDescriptor :=
  match f with
  | File path imports => f :: concat (map subfiles imports)
  end.

Fixpoint file_size f : nat :=
  match f with
  | File _ imports => S (list_sum (map file_size imports))
  end.

(** Induction over a file and the files it imports. *)
Lemma file_induction (P : FileDescriptor -> Prop) :
  (forall path imports, Forall P imports -> P (File path imports)) -> forall f, P f.
Proof.
  intros HP. fix IH 1. intros [path imports]. apply HP.
  induction imports as [|f imports IHl]; [constructor|]. constructor; [apply IH|exact IHl].
Qed.

Lemma subfiles_self f : f ∈ subfiles f.
Proof. destruct f. cbn. apply list_elem_of_here. Qed.

Lemma elem_of_subfiles f g :
  g ∈ subfiles f <-> g = f \/ exists i, i ∈ Imports f /\ g ∈ subfiles i.
Proof.
  destruct f as [path imports]. cbn. rewrite elem_of_cons. f_equiv.
  rewrite list_elem_of_In, in_concat. setoid_rewrite in_map_iff. setoid_rewrite list_elem_of_In.
  naive_solver.
Qed.

Lemma subfiles_trans f g h : g ∈ subfiles f -> h ∈ subfiles g -> h ∈ subfiles f.
Proof.
  revert g h. induction f as [path imports IH] using file_induction. intros g h Hg Hh.
  apply elem_of_subfiles in Hg as [->|(i & Hi & Hg)]; [done|].
  apply elem_of_subfiles. right. exists i. split; [done|]. cbn in Hi.
  rewrite Forall_forall in IH. eauto.
Qed.

Lemma import_size f l : f ∈ l -> (file_size f <= list_sum (map file_size l))%nat.
Proof.
  induction l as [|g l IH]; [by intros ?%not_elem_of_nil|]. unfold list_sum in *. cbn.
  intros [->|Hf]%elem_of_cons; [lia|]. specialize (IH Hf). lia.
Qed.

Lemma subfiles_size f g : g ∈ subfiles f -> (file_size g <= file_size f)%nat.
Proof.
  revert g. induction f as [path imports IH] using file_induction. intros g Hg.
  apply elem_of_subfiles in Hg as [->|(i & Hi & Hg)]; [done|]. cbn in Hi |- *.
  rewrite Forall_forall in IH. specialize (IH i Hi g Hg).
  pose proof (import_size i imports Hi). lia.
Qed.

Lemma import_smaller f i g : i ∈ Imports f -> g ∈ subfiles i -> (file_size g < file_size f)%nat.
Proof.
  intros Hi Hg. apply subfiles_size in Hg. destruct f as [path imports]. cbn in *.
  pose proof (import_size i imports Hi). lia.
Qed.

(** The compiler knows one file by each path. *)
Definition coherent (root : FileDescriptor) : Prop :=
  forall f g, f ∈ subfiles root -> g ∈ subfiles root -> Path f = Path g -> f = g.

(** Each file of [l] comes after the files it imports, of [before] or of [l]. *)
Definition in_order (before l : list FileDescriptor) : Prop :=
  forall l1 g l2, l = l1 ++ g :: l2 -> forall i, i ∈ Imports g -> Path i ∈ Path <$> (before ++ l1).

Lemma in_order_app before l k : in_order before l -> in_order (before ++ l) k -> in_order before (l ++ k).
Proof.
  intros Hl Hk l1 g l2 He i Hi. symmetry in He. apply app_eq_inv in He as [(m & -> & He)|(m & -> & He)].
  - specialize (Hk m g l2 He i Hi). by rewrite app_assoc.
  - destruct m as [|x m]; cbn in He; [subst k|injection He as <- ->].
    + specialize (Hk [] g l2 eq_refl i Hi). by rewrite !app_nil_r in *.
    + by apply (Hl l1 g m).
Qed.

Lemma in_order_nil before : in_order before [].
Proof. intros [|] ? ? ?; done. Qed.

(** What a visit adds. *)
Definition adds (V : gset bytes) (O : list FileDescriptor) (fs : list FileDescriptor)
    (st : gset bytes * list FileDescriptor) : Prop :=
  exists new, st = (list_to_set (Path <$> new) ∪ V, O ++ new)
    /\ NoDup (Path <$> new) /\ (forall p, p ∈ Path <$> new -> p ∉ V)
    /\ (forall g, g ∈ new -> exists f, f ∈ fs /\ g ∈ subfiles f)
    /\ (forall f, f ∈ fs -> Path f ∈ V \/ Path f ∈ Path <$> new)
    /\ in_order O new.

Lemma visit_unfold f st :
  visit f st = if decide (Path f ∈ st.1) then st
               else let st := foldl (fun st import => visit import st) ({[Path f]} ∪ st.1, st.2) (Imports f) in
                    (st.1, st.2 ++ [f]).
Proof. by destruct f. Qed.

Lemma adds_nil V O : adds V O [] (V, O).
Proof.
  exists []. rewrite app_nil_r. split_and!.
  - cbn. by rewrite union_empty_l_L.
  - constructor.
  - intros p Hp. by apply not_elem_of_nil in Hp.
  - intros g Hg. by apply not_elem_of_nil in Hg.
  - intros f Hf. by apply not_elem_of_nil in Hf.
  - apply in_order_nil.
Qed.

Lemma adds_visited V O f : Path f ∈ V -> adds V O [f] (V, O).
Proof.
  intros Hf. destruct (adds_nil V O) as (new & He & Hn & Hv & Hs & _ & Ho). exists new.
  split_and!; try done.
  - intros g Hg. destruct (Hs g Hg) as (? & Hin & _). by apply not_elem_of_nil in Hin.
  - intros g ->%list_elem_of_singleton. by left.
Qed.

Lemma adds_app V O l V1 O1 k st :
  adds V O l (V1, O1) -> adds V1 O1 k st -> adds V O (l ++ k) st.
Proof.
  intros (new & He & Hn & Hv & Hs & Hl & Ho) (new' & -> & Hn' & Hv' & Hs' & Hl' & Ho').
  injection He as -> ->. exists (new ++ new'). rewrite fmap_app, list_to_set_app_L. split_and!.
  - f_equal; [set_solver|by rewrite app_assoc].
  - apply NoDup_app. split_and!; [done| |done]. intros p Hp Hp'. apply Hv' in Hp'. set_solver.
  - intros p [Hp|Hp]%elem_of_app; [by apply Hv|]. apply Hv' in Hp. set_solver.
  - intros g [Hg|Hg]%elem_of_app; [apply Hs in Hg|apply Hs' in Hg];
      destruct Hg as (f & ? & ?); exists f; rewrite elem_of_app; tauto.
  - intros f [Hf|Hf]%elem_of_app; rewrite elem_of_app; [destruct (Hl f Hf); tauto|].
    destruct (Hl' f Hf) as [Hp|Hp]; [|tauto]. apply elem_of_union in Hp as [Hp|Hp]; [|tauto].
    apply elem_of_list_to_set in Hp. tauto.
  - by apply in_order_app.
Qed.

(** The file itself comes after what its imports added. *)
Lemma adds_self V O f V1 O1 :
  Path f ∉ V ->
  adds ({[Path f]} ∪ V) O (Imports f) (V1, O1) ->
  (forall i, i ∈ Imports f -> Path i ∈ {[Path f]} ∪ V -> Path i ∈ Path <$> O) ->
  adds V O [f] (V1, O1 ++ [f]).
Proof.
  intros Hf (new & He & Hn & Hv & Hs & Hl & Ho) Hout. injection He as -> ->.
  exists (new ++ [f]). rewrite fmap_app, list_to_set_app_L. cbn. split_and!.
  - f_equal; [set_solver|by rewrite app_assoc].
  - apply NoDup_app. split_and!; [done| |apply NoDup_singleton].
    intros p Hp ->%list_elem_of_singleton. apply Hv in Hp. set_solver.
  - intros p [Hp| ->%list_elem_of_singleton]%elem_of_app; [|done]. apply Hv in Hp. set_solver.
  - intros g [Hg| ->%list_elem_of_singleton]%elem_of_app.
    + apply Hs in Hg as (i & Hi & Hg). exists f. split; [by apply list_elem_of_singleton|].
      apply elem_of_subfiles. eauto.
    + exists f. split; [by apply list_elem_of_singleton|apply subfiles_self].
  - intros g ->%list_elem_of_singleton. right. rewrite elem_of_app, list_elem_of_singleton. by right.
  - apply in_order_app; [done|]. intros l1 g l2 Hg i Hi.
    destruct l1 as [|x l1]; [|by destruct l1]. injection Hg as <- <-. rewrite app_nil_r, fmap_app, elem_of_app.
    destruct (Hl i Hi); auto.
Qed.

(** A visit adds the files below [f] that are not visited, in order, provided
    the visited ones below [f] are already out. *)
Lemma visit_adds root f V O :
  coherent root -> f ∈ subfiles root ->
  (forall g, g ∈ subfiles f -> Path g ∈ V -> Path g ∈ Path <$> O) ->
  adds V O [f] (visit f (V, O)).
Proof.
  intros Hco. revert V O. induction f as [path imports IH] using file_induction. intros V O Hf Hout.
  rewrite visit_unfold. cbn [fst snd]. case_decide as Hin; [by apply adds_visited|].
  set (f := File path imports) in *. rewrite Forall_forall in IH.
  assert (forall i g, i ∈ imports -> g ∈ subfiles i -> Path g ∈ {[Path f]} ∪ V -> Path g ∈ Path <$> O) as Hbelow.
  { intros i g Hi Hg [Hp%elem_of_singleton|Hp]%elem_of_union.
    - assert (g ∈ subfiles f) as Hgf by (apply elem_of_subfiles; eauto).
      assert (g = f) as -> by (apply Hco; [by eapply subfiles_trans|done|done]).
      pose proof (import_smaller f i f Hi Hg). lia.
    - apply Hout; [|done]. apply elem_of_subfiles. eauto. }
  assert (forall l, (forall i, i ∈ l -> i ∈ imports) ->
    adds ({[Path f]} ∪ V) O l (foldl (fun st import => visit import st) ({[Path f]} ∪ V, O) l)) as Hfold.
  { induction l as [|i l IHl] using rev_ind; intros Hl; [apply adds_nil|]. rewrite foldl_app. cbn.
    assert (i ∈ imports) as Hi by (apply Hl; set_solver).
    specialize (IHl ltac:(set_solver)). destruct (foldl _ _ l) as [V1 O1] eqn:He.
    eapply adds_app; [done|]. destruct IHl as (new & Hnew & _). injection Hnew as -> ->.
    apply (IH i Hi); [eapply subfiles_trans; [done|]; apply elem_of_subfiles; right; exists i;
                      split; [done|apply subfiles_self]|].
    intros g Hg Hp. rewrite fmap_app, elem_of_app. apply elem_of_union in Hp as [Hp|Hp]; [right; set_solver|].
    left. by eapply Hbelow. }
  specialize (Hfold imports ltac:(done)). cbn [Imports f].
  destruct (foldl _ _ imports) as [V1 O1]. apply (adds_self V O f); [done|done|].
  intros i Hi. apply (Hbelow i i Hi), subfiles_self.
Qed.
End descriptors.

(* ------------------------------------------------------------------ *)
(** ** Lemmas: sets of names *)

Lemma size_names_le (l : list bytes) : (size (list_to_set l : gset bytes) <= length l)%nat.
Proof.
  induction l as [|x l IH]; [done|]. cbn. rewrite size_union_alt, size_singleton.
  assert (size ((list_to_set l : gset bytes) ∖ {[x]}) <= size (list_to_set l : gset bytes))%nat; [|lia].
  apply subseteq_size. set_solver.
Qed.

(** A list of names has no duplicate when its set is as large. *)
Lemma size_names (l : list bytes) : size (list_to_set l : gset bytes) = length l <-> NoDup l.
Proof.
  split; [|apply size_list_to_set]. induction l as [|x l IH]; [constructor|]. cbn.
  destruct (decide (x ∈ (list_to_set l : gset bytes))) as [Hin|Hin].
  - rewrite subseteq_union_1_L by set_solver. pose proof (size_names_le l). lia.
  - rewrite size_union by set_solver. rewrite size_singleton. intros Hs.
    constructor; [set_solver|]. apply IH. lia.
Qed.

(* ------------------------------------------------------------------ *)
(** ** Lemmas: the command line *)

(** A flag with its value in the same argument. *)
Definition equals_flag (name value : bytes) : bytes := B "-" ++ name ++ "="%byte :: value.

(** The arguments that give a configuration: every flag is written either in
    one argument or in two, and -root may be left out. *)
Inductive gives : list bytes -> config -> config -> Prop :=
| gives_nil cfg : gives [] cfg cfg
| gives_two name value args cfg cfg1 cfg2 :
    is_flag name = true -> set_flag name value cfg = Some cfg1 -> gives args cfg1 cfg2 ->
    gives ((B "-" ++ name) :: value :: args) cfg cfg2
| gives_one name value args cfg cfg1 cfg2 :
    is_flag name = true -> set_flag name value cfg = Some cfg1 -> gives args cfg1 cfg2 ->
    gives (equals_flag name value :: args) cfg cfg2.

Lemma is_flag_cases name :
  is_flag name = true -> name = B "root" \/ name = B "proto" \/ name = B "go_out" \/ name = B "output".
Proof. intros Hf%bool_decide_eq_true. set_solver. Qed.

Lemma read_flag_two name : is_flag name = true -> read_flag (B "-" ++ name) = Flag name None.
Proof. by intros [->|[->|[->| ->]]]%is_flag_cases. Qed.

Lemma read_flag_one name value : is_flag name = true -> read_flag (equals_flag name value) = Flag name (Some value).
Proof. by intros [->|[->|[->| ->]]]%is_flag_cases. Qed.

Lemma parse_flags_gives args cfg cfg' : gives args cfg cfg' -> parse_flags args cfg = Ok (cfg', []).
Proof.
  induction 1 as [|name value args cfg cfg1 cfg2 Hf Hs _ IH|name value args cfg cfg1 cfg2 Hf Hs _ IH]; [done|..];
    cbn [parse_flags].
  - rewrite (read_flag_two _ Hf), Hf. cbn. by rewrite Hs.
  - rewrite (read_flag_one _ _ Hf), Hf. cbn. by rewrite Hs.
Qed.

(* ------------------------------------------------------------------ *)
(** ** Theorems *)

(** C39. The descriptors go to the plugins in dependency order: each file of the
    closure of the root once, every file after all the files it imports, the
    root last. *)
Theorem dependency_order (root : FileDescriptor) :
  coherent root ->
  let l := descriptorsInDependencyOrder root in
  NoDup l /\ (forall g, g ∈ l <-> g ∈ subfiles root) /\ last l = Some root
  /\ forall l1 g l2, l = l1 ++ g :: l2 -> forall i, i ∈ Imports g -> i ∈ l1.
Proof.
  intros Hco l. unfold l, descriptorsInDependencyOrder.
  assert (last (visit root (∅, [])).2 = Some root) as Hlast.
  { rewrite visit_unfold, decide_False by (cbn; set_solver). cbn [snd]. apply last_snoc. }
  destruct (visit_adds root root ∅ [] Hco (subfiles_self root)) as (new & Hv & Hn & _ & Hs & _ & Ho);
    [intros g _ Hg; set_solver|]. rewrite Hv in *. cbn [snd app] in *.
  assert (forall g, g ∈ new -> g ∈ subfiles root) as Hsub.
  { intros g (f & ->%list_elem_of_singleton & Hg)%Hs. done. }
  assert (forall l1 g l2, new = l1 ++ g :: l2 -> forall i, i ∈ Imports g -> i ∈ l1) as Horder.
  { intros l1 g l2 He i Hi. pose proof (Ho l1 g l2 He i Hi) as Hp.
    apply list_elem_of_fmap in Hp as (h & Hp & Hh).
    assert (g ∈ subfiles root) by (apply Hsub; rewrite He; set_solver).
    assert (h ∈ subfiles root) by (apply Hsub; rewrite He; set_solver).
    assert (i = h) as ->; [|done]. apply Hco; [|done|done]. apply (subfiles_trans root g); [done|].
    apply elem_of_subfiles. right. exists i. split; [done|apply subfiles_self]. }
  split; [by eapply NoDup_fmap_1|]. split; [|by split].
  intros g. split; [apply Hsub|].
  assert (forall f, f ∈ new -> forall g, g ∈ subfiles f -> g ∈ new) as Hclosed.
  { induction f as [path imports IH] using file_induction. intros Hf h Hh.
    apply elem_of_subfiles in Hh as [->|(i & Hi & Hh)]; [done|]. rewrite Forall_forall in IH.
    apply (IH i Hi); [|done]. apply list_elem_of_split in Hf as (l1 & l2 & He).
    rewrite He. apply elem_of_app. left. by eapply Horder. }
  apply Hclosed. by apply last_Some_elem_of.
Qed.

(** The outputs are accepted exactly when the base names of the files the
    plugins returned are pairwise different and are the names asked for. *)
Theorem checkOutputs_spec (wanted : list bytes) (files : list ResponseFile) :
  checkOutputs wanted files = Ok tt
  <-> NoDup (Base <$> (GetName <$> files))
      /\ forall name, name ∈ Base <$> wanted <-> name ∈ Base <$> (GetName <$> files).
Proof.
  unfold checkOutputs. set (names := Base <$> (GetName <$> files)).
  assert (length files = length names) as -> by (unfold names; by rewrite !length_fmap).
  pose proof (size_names names) as Hsize.
  assert ((list_to_set (Base <$> wanted) : gset bytes) = list_to_set names
          <-> forall name, name ∈ Base <$> wanted <-> name ∈ names) as Hset.
  { rewrite set_eq. by setoid_rewrite elem_of_list_to_set. }
  case_decide as Hd; split; [done| | |done].
  - intros [H1 H2]. apply Hsize in H1. apply Hset in H2. tauto.
  - intros _. rewrite <-Hset, <-Hsize. destruct (decide (size (list_to_set names : gset bytes) = length names));
      destruct (decide ((list_to_set (Base <$> wanted) : gset bytes) = list_to_set names)); tauto.
Qed.

(** The command line is read back: arguments that give a configuration, in
    either form of each flag, are parsed to it when it is complete, and a
    configuration is only ever returned complete. *)
Theorem parseArgs_reads `{Unicode} (args : list bytes) (cfg : config) :
  gives args (Config (B ".") [] [] []) cfg ->
  parseArgs args
  = if decide (proto cfg <> [] /\ goOut cfg <> [] /\ outputs cfg <> []) then Ok cfg
    else Err (fail_with errUsage (B "-proto, -go_out and at least one -output are required")).
Proof.
  intros Hg. unfold parseArgs. rewrite (parse_flags_gives _ _ _ Hg).
  destruct (decide (proto cfg = [] \/ goOut cfg = [] \/ outputs cfg = [])) as [Hd|Hd].
  - rewrite decide_False by tauto. done.
  - rewrite decide_True by tauto. done.
Qed.

(* ------------------------------------------------------------------ *)
(** ** Lemmas: the stages of a run *)

(** [err] matches the sentinel [s] and no other. *)
Definition classed (s : tool_sentinel) (err : tool_error) : Prop :=
  forall s', tool_is s' err = bool_decide (s' = s).

Lemma classed_wrapping s prefix err : classed s (fail_wrapping s prefix err).
Proof. intros s'. apply tool_is_wrapping. Qed.

Lemma classed_with s detail : classed s (fail_with s detail).
Proof. intros s'. apply tool_is_with. Qed.

#[export] Hint Resolve classed_wrapping classed_with : go.

Lemma exitCode_classed s err :
  classed s err ->
  exitCode (Some err)
  = match s with errUsage => 2 | errUnreadable => 66 | errWrite => 74 | _ => 1 end.
Proof. intros Hc. cbn. rewrite !Hc. by destruct s. Qed.

Lemma parseArgs_err `{Unicode} args err : parseArgs args = Err err -> classed errUsage err.
Proof.
  unfold parseArgs. destruct (parse_flags args _) as [[cfg [|a rest]]|text]; [|intros [= <-]; auto with go..].
  case_decide; [intros [= <-]; auto with go|done].
Qed.

Lemma checkOutputs_err wanted files err : checkOutputs wanted files = Err err -> classed errOutputMismatch err.
Proof. unfold checkOutputs. case_decide; [intros [= <-]; auto with go|done]. Qed.

Section stages.
Context {W : Type}.
Context (ReadFile : bytes -> W -> W * res bytes bytes)
  (Compile : bytes -> bytes -> W -> W * res bytes (list FileDescriptor))
  (MarshalRequest : CodeGeneratorRequest -> res bytes bytes)
  (go_tool : bytes -> bytes -> W -> W * res bytes bytes)
  (UnmarshalResponse : bytes -> res bytes CodeGeneratorResponse)
  (MkdirAll : bytes -> Z -> W -> W * res bytes unit)
  (WriteFile : bytes -> bytes -> Z -> W -> W * res bytes unit).

(** Everything before the files are written: the files the plugins made, once
    their names are checked. *)
Definition produce (cfg : config) : W -> W * outcome (list ResponseFile) :=
  do request <- compileRequest ReadFile Compile (root cfg) (proto cfg);
  match request with
  | Err err => state_ret (Err err)
  | Ok request =>
      do files <- runPlugins MarshalRequest go_tool UnmarshalResponse request;
      state_ret
        match files with
        | Err err => Err err
        | Ok files => let? _ := checkOutputs (outputs cfg) files in Ok files
        end
  end.

Lemma generate_stages cfg w :
  generate ReadFile Compile MarshalRequest go_tool UnmarshalResponse MkdirAll WriteFile cfg w
  = match produce cfg w with
    | (w, Err err) => (w, Err err)
    | (w, Ok files) => writeFiles MkdirAll WriteFile (goOut cfg) files w
    end.
Proof.
  unfold generate, produce, state_bind, state_ret.
  destruct (compileRequest _ _ _ _ w) as [w1 [request|err]]; [|done].
  destruct (runPlugins _ _ _ request w1) as [w2 [files|err]]; [|done]. by destruct (checkOutputs _ _).
Qed.

Lemma runPlugin_err tool input w w' err :
  runPlugin go_tool UnmarshalResponse tool input w = (w', Err err) -> classed errPlugin err.
Proof.
  unfold runPlugin, state_bind, state_ret. destruct (go_tool tool input w) as [w1 [stdout|text]];
    [|intros [= _ <-]; auto with go].
  destruct (UnmarshalResponse stdout) as [response|text]; [|intros [= _ <-]; auto with go].
  case_decide; [intros [= _ <-]; auto with go|done].
Qed.

Lemma run_tools_err tools input files w w' err :
  run_tools go_tool UnmarshalResponse tools input files w = (w', Err err) -> classed errPlugin err.
Proof.
  revert files w. induction tools as [|tool tools IH]; intros files w; [done|].
  cbn. unfold state_bind at 1. destruct (runPlugin _ _ tool input w) as [w1 [produced|e]] eqn:Hp; [apply IH|].
  intros [= _ <-]. by eapply runPlugin_err.
Qed.

Lemma writeFiles_err dir files w w' err :
  writeFiles MkdirAll WriteFile dir files w = (w', Err err) -> classed errWrite err.
Proof.
  revert w. induction files as [|file files IH]; intros w; [done|]. cbn. unfold state_bind, state_ret.
  destruct (MkdirAll _ _ w) as [w1 [[]|text]]; [|intros [= _ <-]; auto with go].
  destruct (WriteFile _ _ _ w1) as [w2 [[]|text]]; [apply IH|intros [= _ <-]; auto with go].
Qed.

(** The error of a production that failed. *)
Lemma produce_err cfg w w' err :
  produce cfg w = (w', Err err) ->
  match (ReadFile (Join [root cfg; proto cfg]) w).2 with
  | Err _ => classed errUnreadable err
  | Ok _ => exists s, s ∈ [errCompile; errPlugin; errOutputMismatch] /\ classed s err
  end.
Proof.
  clear MkdirAll WriteFile. unfold produce, compileRequest, runPlugins, state_bind, state_ret.
  destruct (ReadFile _ w) as [w1 [text|text]]; cbn -[run_tools]; [|intros [= _ <-]; auto with go].
  destruct (Compile _ _ w1) as [w2 [compiled|text']];
    [|intros [= _ <-]; exists errCompile; split; [set_solver|auto with go]].
  destruct compiled as [|file [|? ?]];
    [intros [= _ <-]; exists errCompile; split; [set_solver|auto with go]|
    |intros [= _ <-]; exists errCompile; split; [set_solver|auto with go]].
  destruct (MarshalRequest _) as [input|text'];
    [|intros [= _ <-]; exists errPlugin; split; [set_solver|auto with go]].
  destruct (run_tools _ _ _ input [] w2) as [w3 [files|e]] eqn:Ht.
  - destruct (checkOutputs (outputs cfg) files) as [[]|e] eqn:Hc; [done|]. intros [= _ <-].
    exists errOutputMismatch. split; [set_solver|by eapply checkOutputs_err].
  - intros [= _ <-]. exists errPlugin. split; [set_solver|by eapply run_tools_err].
Qed.
End stages.

(** C40. The exit code tells the stage that failed: 2 for the command line, 66 for
    an unreadable proto file, 1 for the compiler, a plugin or other files than
    the ones asked for, 74 for a file that cannot be written, 0 for none. A
    failure to print the diagnostic does not change it. *)
Theorem run_exit_code `{Unicode} {W : Type}
    (ReadFile : bytes -> W -> W * res bytes bytes)
    (Compile : bytes -> bytes -> W -> W * res bytes (list FileDescriptor))
    (MarshalRequest : CodeGeneratorRequest -> res bytes bytes)
    (go_tool : bytes -> bytes -> W -> W * res bytes bytes)
    (UnmarshalResponse : bytes -> res bytes CodeGeneratorResponse)
    (MkdirAll : bytes -> Z -> W -> W * res bytes unit)
    (WriteFile : bytes -> bytes -> Z -> W -> W * res bytes unit)
    (Fprintln : bytes -> W -> W * res bytes unit) (args : list bytes) (w : W) :
  (run ReadFile Compile MarshalRequest go_tool UnmarshalResponse MkdirAll WriteFile Fprintln args w).2
  = match parseArgs args with
    | Err _ => 2
    | Ok cfg =>
        match produce ReadFile Compile MarshalRequest go_tool UnmarshalResponse cfg w with
        | (_, Err _) => match (ReadFile (Join [root cfg; proto cfg]) w).2 with Err _ => 66 | Ok _ => 1 end
        | (w', Ok files) =>
            match (writeFiles MkdirAll WriteFile (goOut cfg) files w').2 with Err _ => 74 | Ok _ => 0 end
        end
    end.
Proof.
  unfold run, state_bind, state_ret.
  assert (forall err w s, classed s err ->
    (let (w', printed) := Fprintln (tool_text err ++ ["010"%byte]) w in
     (w', exitCode (Some match printed with
                         | Err writeErr => errors_Join err (ToolForeign writeErr)
                         | Ok _ => err
                         end))).2 = match s with errUsage => 2 | errUnreadable => 66 | errWrite => 74 | _ => 1 end)
    as Hprint.
  { intros err w1 s Hc. destruct (Fprintln _ w1) as [w2 [[]|text]]; cbn [snd];
      [|rewrite (exitCode_ext _ err) by (intros; apply tool_is_Join)]; by apply exitCode_classed. }
  destruct (parseArgs args) as [cfg|err] eqn:Hargs; [|apply (Hprint _ _ errUsage); by eapply parseArgs_err].
  rewrite generate_stages.
  destruct (produce _ _ _ _ _ cfg w) as [w1 [files|err]] eqn:Hp.
  - destruct (writeFiles _ _ _ files w1) as [w2 [[]|err]] eqn:Hw; [done|].
    apply (Hprint _ _ errWrite). by eapply writeFiles_err.
  - apply produce_err in Hp. destruct (ReadFile _ w) as [? [text|text]]; cbn in Hp |- *.
    + destruct Hp as (s & Hs & Hc). rewrite (Hprint _ _ s Hc). set_unfold. naive_solver.
    + by apply (Hprint _ _ errUnreadable).
Qed.

(** A plugin's file with a plain relative name is written under -go_out. *)
Theorem plain_output_stays_under (dir name : list bytes) :
  dir <> [] -> name <> [] -> Forall plain dir -> Forall plain name ->
  Join [join (B "/") dir; join (B "/") name] = join (B "/") dir ++ B "/" ++ join (B "/") name.
Proof. apply Join_plain. Qed.

(** What [writeFiles] does to the file system: for each file, in order, its
    directory and then the file, for nobody but the owner to write. *)
Inductive file_op : Type :=
| MakeDirs (path : bytes) (mode : Z)
| Write (path content : bytes) (mode : Z).

Definition write_ops (goOut : bytes) (files : list ResponseFile) : list file_op :=
  concat (map (fun f => [MakeDirs (Dir (Join [goOut; GetName f])) generatedDirMode;
                         Write (Join [goOut; GetName f]) (GetContent f) generatedFileMode]) files).

(** On any file system the operations are made in order up to the first that
    fails, and nothing else is: all of them when there is no error, and the
    error is the write error otherwise. *)
Theorem writeFiles_ops {W} (perform : file_op -> W -> W * res bytes unit) (goOut : bytes)
    (files : list ResponseFile) (w : W) (log : list file_op) :
  let logged op '(w, log) := let (w, r) := perform op w in ((w, log ++ [op]), r) in
  let '((w', log'), r) :=
    writeFiles (fun path mode => logged (MakeDirs path mode)) (fun path content mode => logged (Write path content mode))
      goOut files (w, log) in
  exists made, log' = log ++ made /\ made `prefix_of` write_ops goOut files
    /\ match r with
       | Ok _ => made = write_ops goOut files
       | Err err => classed errWrite err
       end.
Proof.
  intros logged. revert w log. induction files as [|f files IH]; intros w log.
  { exists []. by rewrite app_nil_r. }
  unfold write_ops. cbn [writeFiles map concat app]. fold (write_ops goOut files).
  unfold state_bind, state_ret, logged at 1.
  destruct (perform (MakeDirs _ _) w) as [w1 [[]|text]].
  2: { eexists [_]. split_and!; [done|by apply prefix_cons, prefix_nil|auto with go]. }
  unfold logged at 1. destruct (perform (Write _ _ _) w1) as [w2 [[]|text]].
  2: { eexists [_; _]. rewrite <-app_assoc. split_and!; [done|by do 2 apply prefix_cons; apply prefix_nil|auto with go]. }
  specialize (IH w2 ((log ++ [MakeDirs (Dir (Join [goOut; GetName f])) generatedDirMode])
                      ++ [Write (Join [goOut; GetName f]) (GetContent f) generatedFileMode])).
  destruct (writeFiles _ _ goOut files _) as [[w3 log'] r]. destruct IH as (made & -> & Hp & Hr).
  eexists (_ :: _ :: made). rewrite <-!app_assoc. split_and!; [done|by do 2 apply prefix_cons|].
  destruct r; [by rewrite Hr|done].
Qed.

(** The check of the outputs compares base names only, so a plugin's file whose
    name climbs out of -go_out passes it and is written beside -go_out: for a
    -go_out of plain components, the file ../x goes to the parent. *)
Theorem output_may_escape (dir : list bytes) (d x content : bytes) :
  dir <> [] -> Forall plain dir -> plain d -> plain x ->
  let file := {| GetName := B "../" ++ x; GetContent := content |} in
  checkOutputs [x] [file] = Ok tt
  /\ writeFiles (fun made mode log => (log, Ok tt)) (fun path content mode log => (log ++ [(path, content)], Ok tt))
       (join (B "/") (dir ++ [d])) [file] [] = ([(join (B "/") (dir ++ [x]), content)], Ok tt).
Proof.
  intros Hne Hdir Hd Hx file. split.
  - unfold checkOutputs. change (B "../" ++ x) with (B ".." ++ slash :: x) in *. cbn [fmap list_fmap file GetName].
    change (B "../" ++ x) with (B ".." ++ slash :: x). rewrite Base_under, Base_plain by done.
    cbn [list_to_set]. rewrite decide_False; [done|]. rewrite union_empty_r_L, size_singleton. naive_solver.
  - cbn [writeFiles state_bind file GetName GetContent]. unfold state_bind, state_ret.
    change (B "../" ++ x) with (B ".." ++ slash :: x). by rewrite Join_climbing.
Qed.

(* ------------------------------------------------------------------ *)
(** ** Witnesses *)

(** A root with two imports that share one. *)
Definition sample_shared : FileDescriptor := File (B "c.proto") [].
Definition sample_root : FileDescriptor :=
  File (B "root.proto") [File (B "a.proto") [sample_shared]; File (B "b.proto") [sample_shared]].

Lemma sample_root_coherent : coherent sample_root.
Proof.
  intros f g Hf Hg. cbn in Hf, Hg. set_unfold.
  repeat match goal with H : _ \/ _ |- _ => destruct H as [-> |H] | H : _ = _ |- _ => subst end;
    try done; subst; done.
Qed.

Lemma dependency_order_witness :
  let l := descriptorsInDependencyOrder sample_root in
  NoDup l /\ (forall g, g ∈ l <-> g ∈ subfiles sample_root) /\ last l = Some sample_root
  /\ forall l1 g l2, l = l1 ++ g :: l2 -> forall i, i ∈ Imports g -> i ∈ l1.
Proof. apply (dependency_order sample_root). exact sample_root_coherent. Defined.

Definition sample_unicode_tables : Unicode :=
  {| print_table _ := false; upper_table _ := false; lower_table _ := false; digit_table _ := false; letter_table _ := false |}.

Lemma parseArgs_reads_witness :
  parseArgs (H := sample_unicode_tables)
    [B "-proto"; B "transport.proto"; B "-go_out=."; B "-output"; B "a.pb.go"; B "-output=b.pb.go"]
  = Ok (Config (B ".") (B "transport.proto") (B ".") [B "a.pb.go"; B "b.pb.go"]).
Proof.
  apply (parseArgs_reads (H := sample_unicode_tables)
    [B "-proto"; B "transport.proto"; B "-go_out=."; B "-output"; B "a.pb.go"; B "-output=b.pb.go"]
    (Config (B ".") (B "transport.proto") (B ".") [B "a.pb.go"; B "b.pb.go"])).
  eapply (gives_two (B "proto")); [reflexivity..|].
  eapply (gives_one (B "go_out") (B ".")); [reflexivity..|].
  eapply (gives_two (B "output")); [reflexivity..|].
  eapply (gives_one (B "output") (B "b.pb.go")); [reflexivity..|].
  apply gives_nil.
Defined.

Lemma plain_output_stays_under_witness :
  Join [B "proto/gen"; B "v1/x.pb.go"] = B "proto/gen/v1/x.pb.go".
Proof.
  apply (plain_output_stays_under [B "proto"; B "gen"] [B "v1"; B "x.pb.go"]); [done|done|..];
    repeat constructor; by apply (bool_decide_unpack _).
Defined.

Lemma output_may_escape_witness :
  let file := {| GetName := B "../x.pb.go"; GetContent := B "package x" |} in
  checkOutputs [B "x.pb.go"] [file] = Ok tt
  /\ writeFiles (fun made mode log => (log, Ok tt)) (fun path content mode log => (log ++ [(path, content)], Ok tt))
       (B "proto/gen") [file] [] = ([(B "proto/x.pb.go", B "package x")], Ok tt).
Proof.
  apply (output_may_escape [B "proto"] (B "gen") (B "x.pb.go") (B "package x")); [done|..];
    repeat constructor; by apply (bool_decide_unpack _).
Defined.
