(* ===== verification/Words.v ===== *)
(** * Words: the parts of strings, unicode, utf8 and strconv the comment checker uses

    Runes with the bytes they are read from ([chunks]), the functions of package
    strings that cut and trim at runes, and [strconv.Unquote], with the round
    trip between [strconv.Quote] and [strconv.Unquote]. *)

From S2P Require Import Prelude Text NetAddr Json.

(* ------------------------------------------------------------------ *)
(** ** Cutting at bytes *)

(** [strings.CutPrefix]: the text after the prefix, if it is there. *)
Definition CutPrefix (s prefix : bytes) : bytes * bool :=
  if has_prefix s prefix then (drop (length prefix) s, true) else (s, false).

(** [strings.TrimPrefix] *)
Definition TrimPrefix (s prefix : bytes) : bytes := (CutPrefix s prefix).1.

(** [strings.HasSuffix] *)
Definition has_suffix (s suffix : bytes) : bool := has_prefix (rev s) (rev suffix).

(** [strings.Cut] at a separator of one byte. *)
Definition cut_byte (s : bytes) (c : byte) : bytes * bytes * bool :=
  match index_byte c s with
  | Some i => (take i s, drop (S i) s, true)
  | None => (s, [], false)
  end.

(** [strings.Compare]: the order of the bytes, a negative, zero or positive number. *)
Fixpoint Compare (s t : bytes) : Z :=
  match s, t with
  | [], [] => 0
  | [], _ => -1
  | _, [] => 1
  | c :: s, d :: t => if b2z c <? b2z d then -1 else if b2z d <? b2z c then 1 else Compare s t
  end.

(** [strings.Lines]: the lines of a text with their newlines. *)
Fixpoint Lines (s : bytes) : list bytes :=
  match s with
  | [] => []
  | c :: s =>
      if decide (c = "010"%byte) then [c] :: Lines s
      else match Lines s with
           | [] => [[c]]
           | line :: lines => (c :: line) :: lines
           end
  end.

(* ------------------------------------------------------------------ *)
(** ** Runes *)

(** [unicode.IsSpace] *)
Definition IsSpace (r : rune) : bool :=
  match r with
  | Bad _ => false
  | Good r =>
      in_range r 9 13 || (r =? 0x20) || (r =? 0x85) || (r =? 0xA0) || (r =? 0x1680)
      || in_range r 0x2000 0x200A || (r =? 0x2028) || (r =? 0x2029) || (r =? 0x202F)
      || (r =? 0x205F) || (r =? 0x3000)
  end.

Definition notSpace (r : rune) : bool := negb (IsSpace r).

Section tables.
Context `{Unicode}.

(** [unicode.IsUpper], [unicode.IsLower], [unicode.IsDigit] *)
Definition IsUpper (r : rune) : bool :=
  match r with
  | Bad _ => false
  | Good r => if r <? 0x80 then in_range r 65 90 else upper_table r
  end.

Definition IsLower (r : rune) : bool :=
  match r with
  | Bad _ => false
  | Good r => if r <? 0x80 then in_range r 97 122 else lower_table r
  end.

Definition IsDigit (r : rune) : bool :=
  match r with
  | Bad _ => false
  | Good r => if r <? 0x80 then in_range r 48 57 else digit_table r
  end.

(** [unicode.IsLetter] *)
Definition IsLetter (r : rune) : bool :=
  match r with
  | Bad _ => false
  | Good r => if r <? 0x80 then in_range r 65 90 || in_range r 97 122 else letter_table r
  end.

(** [token.IsExported]: whether the first rune of a name is upper case. *)
Definition IsExported (name : bytes) : bool :=
  match name with
  | [] => false
  | c :: s => IsUpper (decode_rune c s).1
  end.
End tables.

(** The runes of a string, each with its bytes. *)
Fixpoint chunks_skip (skip : nat) (s : bytes) : list (rune * bytes) :=
  match s with
  | [] => []
  | c :: s' =>
      match skip with
      | S k => chunks_skip k s'
      | O => let (r, width) := decode_rune c s' in (r, take width s) :: chunks_skip (width - 1) s'
      end
  end.

Definition chunks (s : bytes) : list (rune * bytes) := chunks_skip 0 s.

Fixpoint index_chunk (p : rune -> bool) (cs : list (rune * bytes)) : option nat :=
  match cs with
  | [] => None
  | (r, b) :: cs => if p r then Some O else (Nat.add (length b)) <$> index_chunk p cs
  end.

(** [strings.IndexFunc] *)
Definition IndexFunc (s : bytes) (p : rune -> bool) : option nat := index_chunk p (chunks s).

(** [strings.ContainsFunc] *)
Definition ContainsFunc (s : bytes) (p : rune -> bool) : bool := bool_decide (is_Some (IndexFunc s p)).

(** [strings.TrimLeftFunc] *)
Definition TrimLeftFunc (s : bytes) (p : rune -> bool) : bytes :=
  match IndexFunc s (fun r => negb (p r)) with
  | Some i => drop i s
  | None => []
  end.

(** [utf8.DecodeLastRune] of the non-empty string that ends in the byte [c0]
    and has the bytes [back] before it, last first. *)
Definition decode_last_rune (c0 : byte) (back : bytes) : rune * nat :=
  if b2z c0 <? 0x80 then (Good (b2z c0), 1%nat)
  else
    let attempt (start : byte) (tail : bytes) :=
      let (r, width) := decode_rune start tail in
      if decide (width = S (length tail)) then (r, width) else (Bad c0, 1%nat) in
    if negb (cont c0) then attempt c0 []
    else match back with
    | [] => (Bad c0, 1%nat)
    | c1 :: back =>
        if negb (cont c1) then attempt c1 [c0]
        else match back with
        | [] => (Bad c0, 1%nat)
        | c2 :: back =>
            if negb (cont c2) then attempt c2 [c1; c0]
            else match back with
            | [] => (Bad c0, 1%nat)
            | c3 :: _ => if negb (cont c3) then attempt c3 [c2; c1; c0] else (Bad c0, 1%nat)
            end
        end
    end.

Fixpoint trim_back (p : rune -> bool) (skip : nat) (reversed : bytes) : bytes :=
  match reversed with
  | [] => []
  | c :: back =>
      match skip with
      | S k => trim_back p k back
      | O =>
          let (r, width) := decode_last_rune c back in
          if p r then trim_back p (width - 1) back else reversed
      end
  end.

(** [strings.TrimRightFunc] *)
Definition TrimRightFunc (s : bytes) (p : rune -> bool) : bytes := rev (trim_back p 0 (rev s)).

(** [strings.TrimSpace] *)
Definition TrimSpace (s : bytes) : bytes := TrimRightFunc (TrimLeftFunc s IsSpace) IsSpace.

(** [strings.Fields]: the words between the runs of white space. [word] is the
    word being read. *)
Fixpoint fields_from (word : bytes) (cs : list (rune * bytes)) : list bytes :=
  match cs with
  | [] => match word with [] => [] | _ => [word] end
  | (r, b) :: cs =>
      if IsSpace r then match word with [] => fields_from [] cs | _ => word :: fields_from [] cs end
      else fields_from (word ++ b) cs
  end.

Definition Fields (s : bytes) : list bytes := fields_from [] (chunks s).

(* ------------------------------------------------------------------ *)
(** ** strconv.Unquote *)

(** The value of the first [n] bytes, as hexadecimal digits, and what follows. *)
Fixpoint unhex (n : nat) (acc : Z) (s : bytes) : option (Z * bytes) :=
  match n with
  | O => Some (acc, s)
  | S n =>
      match s with
      | [] => None
      | c :: s => d ← hex_value c; unhex n (acc * 16 + d) s
      end
  end.

Definition octal_value (c : byte) : option Z := if in_range (b2z c) 48 55 then Some (b2z c - 48) else None.

(** The bytes an escape sequence of a string in double quotes stands for, and
    what follows; [s] starts after the backslash. *)
Definition unquote_escape (s : bytes) : option (bytes * bytes) :=
  match s with
  | [] => None
  | c :: s =>
      if bool_decide (c = "a"%byte) then Some (["007"%byte], s)
      else if bool_decide (c = "b"%byte) then Some (["008"%byte], s)
      else if bool_decide (c = "f"%byte) then Some (["012"%byte], s)
      else if bool_decide (c = "n"%byte) then Some (["010"%byte], s)
      else if bool_decide (c = "r"%byte) then Some (["013"%byte], s)
      else if bool_decide (c = "t"%byte) then Some (["009"%byte], s)
      else if bool_decide (c = "v"%byte) then Some (["011"%byte], s)
      else if bool_decide (c = "\"%byte) then Some (["\"%byte], s)
      else if bool_decide (c = "034"%byte) then Some (["034"%byte], s)
      else if bool_decide (c = "x"%byte) then '(v, s) ← unhex 2 0 s; Some ([z2b v], s)
      else if bool_decide (c = "u"%byte) then
        '(v, s) ← unhex 4 0 s; if valid_rune v then Some (encode_rune v, s) else None
      else if bool_decide (c = "U"%byte) then
        '(v, s) ← unhex 8 0 s; if valid_rune v then Some (encode_rune v, s) else None
      else
        a ← octal_value c;
        match s with
        | d :: e :: s =>
            b ← octal_value d; c ← octal_value e;
            let v := (a * 8 + b) * 8 + c in
            if v <=? 255 then Some ([z2b v], s) else None
        | _ => None
        end
  end.

Arguments unquote_escape _ : simpl never.

(** The text after the opening double quote: its value, and what follows the
    closing quote. A byte that is no UTF-8 reads as U+FFFD. Every round consumes
    a byte, so fuel of the length of the text is enough ([unquote_fuel]). *)
Fixpoint unquote_from (fuel : nat) (s : bytes) : option (bytes * bytes) :=
  match fuel with
  | O => None
  | S fuel =>
      match s with
      | [] => None
      | c :: s' =>
          if bool_decide (c = "034"%byte) then Some ([], s')
          else if bool_decide (c = "010"%byte) then None
          else if bool_decide (c = "\"%byte) then
            '(value, rest) ← unquote_escape s';
            '(tail, rest) ← unquote_from fuel rest;
            Some (value ++ tail, rest)
          else
            let (r, width) := decode_rune c s' in
            let value := match r with Good _ => take width s | Bad _ => encode_rune 0xFFFD end in
            '(tail, rest) ← unquote_from fuel (drop width s);
            Some (value ++ tail, rest)
      end
  end.

Definition carriage_return : byte := "013"%byte.

(** [strconv.Unquote] of a word in double quotes or in backquotes; [None] is
    [ErrSyntax]. *)
Definition Unquote (s : bytes) : option bytes :=
  match s with
  | "034"%byte :: s' =>
      match unquote_from (length s) s' with
      | Some (value, []) => Some value
      | _ => None
      end
  | "096"%byte :: s' =>
      match index_byte "096"%byte s' with
      | Some i =>
          if decide (drop (S i) s' = [])
          then Some (filter (fun c => c <> carriage_return) (take i s'))
          else None
      | None => None
      end
  | _ => None
  end.

Example unquote_examples :
  map Unquote [["034"; "a"; "\"; "x"; "4"; "1"; "\"; "1"; "0"; "1"; "034"]%byte;
               ["096"; "\"; "n"; "013"; "096"]%byte; ["034"; "034"; "034"]%byte; B "a"]
  = [Some (B "aAA"); Some (B "\n"); None; None].
Proof. reflexivity. Qed.

Example fields_trim_examples :
  (Fields (B " tool  a/b "), TrimSpace (B "  x y "), Lines ["a"; "010"; "b"]%byte, cut_byte (B "k=v=w") "="%byte)
  = ([B "tool"; B "a/b"], B "x y", [["a"; "010"]; ["b"]]%byte, (B "k", B "v=w", true)).
Proof. reflexivity. Qed.

(* ------------------------------------------------------------------ *)
(** ** Lemmas: cutting *)

Lemma has_prefix_spec s prefix : has_prefix s prefix = true <-> exists t, s = prefix ++ t.
Proof.
  unfold has_prefix. rewrite bool_decide_eq_true. split.
  - intros E. exists (drop (length prefix) s). by rewrite <-E at 1; rewrite take_drop.
  - intros [t ->]. by rewrite take_app_length.
Qed.

Lemma has_prefix_app prefix t : has_prefix (prefix ++ t) prefix = true.
Proof. apply has_prefix_spec. eauto. Qed.

Lemma CutPrefix_app prefix t : CutPrefix (prefix ++ t) prefix = (t, true).
Proof. unfold CutPrefix. by rewrite has_prefix_app, drop_app_length. Qed.

Lemma CutPrefix_true s prefix t : CutPrefix s prefix = (t, true) -> s = prefix ++ t.
Proof.
  unfold CutPrefix. destruct (has_prefix s prefix) eqn:E; [|done].
  apply has_prefix_spec in E as [u ->]. rewrite drop_app_length. congruence.
Qed.

(** Prefixes of one byte are the first byte. *)
Lemma has_prefix_byte s c : has_prefix s [c] = bool_decide (head s = Some c).
Proof.
  unfold has_prefix. destruct s as [|d s]; cbn; apply bool_decide_ext; [done|].
  rewrite take_0. split; congruence.
Qed.

Lemma cut_byte_app k v c : c ∉ k -> cut_byte (k ++ c :: v) c = (k, v, true).
Proof.
  intros Hk. unfold cut_byte.
  assert (index_byte c (k ++ c :: v) = Some (length k)) as ->.
  { induction k as [|d k IH]; cbn; [by rewrite decide_True|].
    apply not_elem_of_cons in Hk as [Hd Hk]. rewrite decide_False by done. by rewrite IH. }
  rewrite take_app_length. by rewrite <-Nat.add_1_r, <-drop_drop, drop_app_length.
Qed.

Lemma index_byte_none c s : index_byte c s = None <-> (c ∉ s).
Proof.
  induction s as [|d s IH]; cbn; [split; [by intros _ ?%not_elem_of_nil|done]|].
  rewrite not_elem_of_cons. case_decide as E; [naive_solver|].
  destruct (index_byte c s); cbn; naive_solver.
Qed.

Lemma index_byte_some c s i :
  index_byte c s = Some i -> (c ∉ take i s) /\ s = take i s ++ c :: drop (S i) s.
Proof.
  revert i. induction s as [|d s IH]; intros i; cbn; [done|]. case_decide as E.
  - intros [= <-]. subst d. split; [apply not_elem_of_nil|]. done.
  - intros (j & Hj & ->)%fmap_Some. destruct (IH j Hj) as [Hn Hs]. cbn. split.
    + apply not_elem_of_cons. split; [congruence|done].
    + by f_equal.
Qed.

Lemma cut_byte_true s c k v : cut_byte s c = (k, v, true) -> s = k ++ c :: v /\ c ∉ k.
Proof.
  unfold cut_byte. destruct (index_byte c s) as [i|] eqn:E; [|done]. intros [= <- <-].
  apply index_byte_some in E as [Hn Hs]. done.
Qed.

Lemma cut_byte_false s c k v : cut_byte s c = (k, v, false) -> (c ∉ s) /\ k = s /\ v = [].
Proof.
  unfold cut_byte. destruct (index_byte c s) as [i|] eqn:E; [done|]. intros [= <- <-].
  by apply index_byte_none in E.
Qed.

(* ------------------------------------------------------------------ *)
(** ** Lemmas: the order of strings *)

Lemma Compare_refl s : Compare s s = 0.
Proof. induction s as [|c s IH]; [done|]. cbn. by rewrite Z.ltb_irrefl. Qed.

Lemma Compare_eq s t : Compare s t = 0 -> s = t.
Proof.
  revert t. induction s as [|c s IH]; intros [|d t]; cbn; try done.
  repeat if_lia; try done. intros E. f_equal; [apply b2z_inj; lia|auto].
Qed.

Lemma Compare_antisym s t : Compare t s = - Compare s t.
Proof.
  revert t. induction s as [|c s IH]; intros [|d t]; cbn; [done..|].
  by repeat if_lia.
Qed.

Lemma Compare_trans s t u : Compare s t <= 0 -> Compare t u <= 0 -> Compare s u <= 0.
Proof.
  revert t u. induction s as [|c s IH]; intros [|d t] [|e u]; cbn; try lia.
  repeat if_lia; try lia. intros ? ?. by apply (IH t).
Qed.

(* ------------------------------------------------------------------ *)
(** ** Lemmas: runes and white space *)

Lemma decode_rune_width c s r w : decode_rune c s = (r, w) -> (1 <= w <= S (length s))%nat.
Proof.
  unfold decode_rune. intros D.
  repeat match type of D with
  | context [if ?b then _ else _] => lazymatch b with context [if _ then _ else _] => fail | _ => destruct b eqn:? end
  | context [match ?l with [] => _ | _ :: _ => _ end] => destruct l as [|? ?]
  end; injection D as <- <-; cbn; lia.
Qed.

(** A byte that decodes to no rune is taken alone. *)
Lemma decode_rune_bad c s b w : decode_rune c s = (Bad b, w) -> b = c /\ w = 1%nat.
Proof.
  unfold decode_rune. intros D.
  repeat match type of D with
  | context [if ?b then _ else _] => lazymatch b with context [if _ then _ else _] => fail | _ => destruct b eqn:? end
  | context [match ?l with [] => _ | _ :: _ => _ end] => destruct l as [|? ?]
  end; by simplify_eq.
Qed.

Lemma decode_rune_ascii c s : b2z c < 0x80 -> decode_rune c s = (Good (b2z c), 1%nat).
Proof. intros Hc. unfold decode_rune. by rewrite (proj2 (Z.ltb_lt _ _) Hc). Qed.

Lemma chunks_ascii c s : b2z c < 0x80 -> chunks (c :: s) = (Good (b2z c), [c]) :: chunks s.
Proof. intros Hc. unfold chunks. cbn. by rewrite decode_rune_ascii. Qed.

(** White space that starts a string is trimmed, anything else in ASCII stays. *)
Lemma IndexFunc_ascii c s p :
  b2z c < 0x80 -> IndexFunc (c :: s) p = if p (Good (b2z c)) then Some O else S <$> IndexFunc s p.
Proof. intros Hc. unfold IndexFunc. rewrite chunks_ascii by done. done. Qed.

Lemma TrimLeftFunc_space c s p :
  b2z c < 0x80 -> p (Good (b2z c)) = true -> TrimLeftFunc (c :: s) p = TrimLeftFunc s p.
Proof.
  intros Hc Hp. unfold TrimLeftFunc. rewrite IndexFunc_ascii, Hp by done. cbn.
  by destruct (IndexFunc s _).
Qed.

Lemma TrimLeftFunc_stop c s p :
  b2z c < 0x80 -> p (Good (b2z c)) = false -> TrimLeftFunc (c :: s) p = c :: s.
Proof. intros Hc Hp. unfold TrimLeftFunc. by rewrite IndexFunc_ascii, Hp. Qed.

Lemma TrimRightFunc_stop s c p :
  b2z c < 0x80 -> p (Good (b2z c)) = false -> TrimRightFunc (s ++ [c]) p = s ++ [c].
Proof.
  intros Hc Hp. unfold TrimRightFunc. rewrite rev_app_distr. cbn. unfold decode_last_rune.
  rewrite (proj2 (Z.ltb_lt _ _) Hc), Hp. cbn. by rewrite rev_involutive.
Qed.

Lemma trim_back_length p skip s : (length (trim_back p skip s) <= length s)%nat.
Proof.
  revert skip. induction s as [|c s IH]; intros [|k]; cbn; [lia..| |].
  - destruct (decode_last_rune c s) as [r w]. destruct (p r); cbn; [specialize (IH (w - 1)%nat)|]; lia.
  - specialize (IH k). lia.
Qed.

Lemma TrimSpace_length s : (length (TrimSpace s) <= length s)%nat.
Proof.
  unfold TrimSpace, TrimRightFunc. rewrite length_rev.
  etrans; [apply trim_back_length|]. rewrite length_rev. unfold TrimLeftFunc.
  destruct (IndexFunc s _); [rewrite length_drop; lia|cbn; lia].
Qed.

(* ------------------------------------------------------------------ *)
(** ** Lemmas: text between white space *)

(** Texts of runes with a property. *)
Inductive text_of (P : Z -> Prop) : bytes -> Prop :=
| text_nil : text_of P []
| text_rune r s : valid_rune r = true -> P r -> text_of P s -> text_of P (encode_rune r ++ s).

Definition space (r : Z) : Prop := IsSpace (Good r) = true.
Definition solid (r : Z) : Prop := IsSpace (Good r) = false.

Lemma chunks_skip_drop k s : chunks_skip k s = chunks (drop k s).
Proof.
  revert k. induction s as [|c s IH]; intros [|k]; [done..|]. cbn. apply IH.
Qed.

Lemma IndexFunc_encode r s p :
  valid_rune r = true ->
  IndexFunc (encode_rune r ++ s) p
  = if p (Good r) then Some O else Nat.add (length (encode_rune r)) <$> IndexFunc s p.
Proof.
  intros V. destruct (decode_rune_encode r s V) as (c & t & E & D). unfold IndexFunc.
  rewrite E. unfold chunks at 1. cbn [app chunks_skip]. rewrite D.
  replace (S (length t) - 1)%nat with (length t) by lia. rewrite chunks_skip_drop, drop_app_length.
  cbn [index_chunk take]. by rewrite take_app_length.
Qed.

Lemma TrimLeft_encode r s p :
  valid_rune r = true -> TrimLeftFunc (encode_rune r ++ s) p = if p (Good r) then TrimLeftFunc s p else encode_rune r ++ s.
Proof.
  intros V. unfold TrimLeftFunc. rewrite IndexFunc_encode by done. destruct (p (Good r)); [|done]. cbn [negb].
  destruct (IndexFunc s _); cbn; [|done]. by rewrite <-drop_drop, drop_app_length.
Qed.

(** The first byte of a rune is the only one that continues none. *)
Lemma encode_rune_shape r :
  valid_rune r = true ->
  exists c t, encode_rune r = c :: t /\ cont c = false /\ Forall (fun d => cont d = true) t /\ (length t <= 3)%nat
    /\ (t = [] -> b2z c < 0x80).
Proof.
  intros V. unfold encode_rune.
  repeat if_lia; (eexists _, _; split; [reflexivity|]); split_and!; try (cbn; lia); try done;
    repeat apply Forall_cons_2; try apply Forall_nil_2; unfold cont, in_range; rewrite ?b2z_z2b_small by (bdec; zlia);
    try (apply andb_false_iff; rewrite !Z.leb_gt; bdec; zlia); try (apply andb_true_iff; rewrite !Z.leb_le; bdec; zlia).
  all: intros _; lia.
Qed.

(** The last rune of a text, whatever comes before it. *)
Lemma decode_last_encode r back :
  valid_rune r = true ->
  exists c t, rev (encode_rune r) = c :: t /\ decode_last_rune c (t ++ back) = (Good r, S (length t)).
Proof.
  intros V. destruct (encode_rune_shape r V) as (c & t & E & Hc & Ht & Hl & H1).
  destruct (decode_rune_encode r [] V) as (c' & t' & E' & D). rewrite E in E'. injection E' as <- <-.
  rewrite app_nil_r in D. rewrite E.
  assert (forall d, cont d = true -> (b2z d <? 0x80) = false) as Hge.
  { intros d Hd. apply Z.ltb_ge. bdec; lia. }
  destruct t as [|t1 [|t2 [|t3 [|]]]]; cbn in Hl; try lia; repeat (apply Forall_cons in Ht as [? Ht]);
    (eexists _, _; split; [reflexivity|]); cbn [app rev]; unfold decode_last_rune.
  - specialize (H1 eq_refl). rewrite decode_rune_ascii in D by done. injection D as D. by rewrite (proj2 (Z.ltb_lt _ _) H1), D.
  - rewrite Hge by done. rewrite ?Hc, ?H. cbn [negb]. by rewrite D.
  - rewrite Hge by done. rewrite ?Hc, ?H, ?H0. cbn [negb]. by rewrite D.
  - rewrite Hge by done. rewrite ?Hc, ?H, ?H0, ?H2. cbn [negb]. by rewrite D.
Qed.

Lemma trim_back_skip p xs back : trim_back p (length xs) (xs ++ back) = trim_back p 0 back.
Proof. induction xs as [|x xs IH]; [done|]. apply IH. Qed.

Lemma TrimRight_encode s r p :
  valid_rune r = true ->
  TrimRightFunc (s ++ encode_rune r) p = if p (Good r) then TrimRightFunc s p else s ++ encode_rune r.
Proof.
  intros V. destruct (decode_last_encode r (rev s) V) as (c & t & E & D).
  unfold TrimRightFunc. rewrite rev_app_distr, E. cbn [app trim_back]. rewrite D. cbn [Nat.sub].
  rewrite Nat.sub_0_r. destruct (p (Good r)); [by rewrite trim_back_skip|].
  rewrite <-(rev_involutive s) at 2. rewrite <-(rev_involutive (encode_rune r)), E, <-rev_app_distr. done.
Qed.

Lemma TrimLeft_space a s : text_of space a -> TrimLeftFunc (a ++ s) IsSpace = TrimLeftFunc s IsSpace.
Proof.
  induction 1 as [|r a V Hr _ IH]; [done|]. rewrite <-app_assoc, TrimLeft_encode by done. by rewrite Hr.
Qed.

Lemma TrimRight_space s b : text_of space b -> TrimRightFunc (s ++ b) IsSpace = TrimRightFunc s IsSpace.
Proof.
  intros Hb. revert s. induction Hb as [|r b V Hr _ IH]; intros s; [by rewrite app_nil_r|].
  rewrite app_assoc, IH, TrimRight_encode by done. by rewrite Hr.
Qed.

(** A text that starts and ends with a rune that is no white space. *)
Definition framed (s : bytes) : Prop :=
  (exists r t, s = encode_rune r ++ t /\ valid_rune r = true /\ solid r)
  /\ (exists t r, s = t ++ encode_rune r /\ valid_rune r = true /\ solid r).

Lemma framed_app s t u : framed s -> framed t -> framed (s ++ u ++ t).
Proof.
  intros [(r & m & -> & Hr) _] [_ (m' & q & -> & Hq)]. split.
  - exists r. eexists. split; [by rewrite <-!app_assoc|done].
  - eexists _, q. split; [|done]. by rewrite !app_assoc.
Qed.

Lemma TrimSpace_framed a s b : text_of space a -> framed s -> text_of space b -> TrimSpace (a ++ s ++ b) = s.
Proof.
  intros Ha [(r & m & Hs & Vr & Hr) (m' & q & Hs' & Vq & Hq)] Hb. unfold TrimSpace. rewrite TrimLeft_space by done.
  assert (TrimLeftFunc (s ++ b) IsSpace = s ++ b) as ->.
  { rewrite Hs, <-app_assoc, TrimLeft_encode by done. by rewrite Hr. }
  rewrite TrimRight_space by done. rewrite Hs', TrimRight_encode by done. by rewrite Hq.
Qed.

Lemma TrimSpace_space a : text_of space a -> TrimSpace a = [].
Proof. intros Ha. unfold TrimSpace. rewrite <-(app_nil_r a), TrimLeft_space by done. done. Qed.

(** What follows a word: nothing, or white space. *)
Definition ends_word (u : bytes) : Prop :=
  u = [] \/ exists r t, u = encode_rune r ++ t /\ valid_rune r = true /\ space r.

(** The first white space after other runes. *)
Lemma IndexFunc_solid s t :
  text_of solid s -> ends_word t ->
  match IndexFunc (s ++ t) IsSpace with
  | Some i => i = length s
  | None => t = []
  end.
Proof.
  intros Hs Ht. induction Hs as [|r s V Hr _ IH]; cbn [app].
  - destruct Ht as [->|(r & t' & -> & V & Hr)]; [done|]. by rewrite IndexFunc_encode, Hr.
  - rewrite <-app_assoc, IndexFunc_encode, Hr by done.
    destruct (IndexFunc (s ++ t) IsSpace); cbn; [|done]. subst. by rewrite length_app.
Qed.

Lemma solid_framed s : text_of solid s -> s <> [] -> framed s.
Proof.
  intros Hs Hne. split.
  - destruct Hs as [|r s V Hr Hs]; [done|]. by exists r, s.
  - induction Hs as [|r s V Hr Hs IH]; [done|]. destruct (decide (s = [])) as [->|Hs'].
    + exists [], r. by rewrite app_nil_r.
    + destruct (IH Hs') as (t & q & -> & ? & ?). exists (encode_rune r ++ t), q. by rewrite app_assoc.
Qed.

(** A text of ASCII bytes. *)
Lemma text_of_ascii (P : Z -> Prop) s : Forall (fun c => b2z c < 0x80 /\ P (b2z c)) s -> text_of P s.
Proof.
  induction 1 as [|c s [Hc HP] _ IH]; [constructor|]. pose proof (b2z_range c).
  assert (c :: s = encode_rune (b2z c) ++ s) as ->.
  { unfold encode_rune. rewrite (proj2 (Z.ltb_lt _ _) Hc). cbn. by rewrite z2b_b2z. }
  constructor; [apply valid_rune_iff; lia|done..].
Qed.

(* ------------------------------------------------------------------ *)
(** ** Lemmas: quoting *)

Lemma unhex_app m n acc s : unhex (m + n) acc s = '(v, s) ← unhex m acc s; unhex n v s.
Proof.
  revert acc s. induction m as [|m IH]; intros acc s; [done|].
  cbn [Nat.add unhex]. destruct s as [|c s]; [done|]. by destruct (hex_value c); cbn.
Qed.

Lemma unhex_length n acc s v r : unhex n acc s = Some (v, r) -> (length r <= length s)%nat.
Proof.
  revert acc s. induction n as [|n IH]; intros acc s; cbn; [by intros [= _ ->]|].
  destruct s as [|c s]; [done|]. destruct (hex_value c); [|done]. cbn. intros E%IH. lia.
Qed.

Lemma unquote_escape_shorter s v r : unquote_escape s = Some (v, r) -> (length r < length s)%nat.
Proof.
  destruct s as [|c s]; [done|]. unfold unquote_escape.
  repeat (case_bool_decide; [intros [= _ <-]; cbn; lia|]).
  repeat (case_bool_decide;
    [destruct (unhex _ 0 s) as [[z t]|] eqn:Eu; [|done]; apply unhex_length in Eu; cbn; intros E;
     repeat case_match; simplify_eq; cbn; lia|]).
  intros E. destruct (octal_value c); [|done]. destruct s as [|d [|e s]]; [done..|]. cbn in E.
  destruct (octal_value d), (octal_value e); try done. cbn in E. case_match; simplify_eq. cbn. lia.
Qed.

(** Fuel above the length of the text never runs out: any two give the same. *)
Lemma unquote_fuel f g s :
  (length s < f)%nat -> (length s < g)%nat -> unquote_from f s = unquote_from g s.
Proof.
  revert g s. induction f as [|f IH]; intros [|g] s Hf Hg; [lia..|]. cbn [unquote_from].
  destruct s as [|c s]; [done|]. cbn in Hf, Hg. repeat (case_bool_decide; [try done|]).
  - destruct (unquote_escape s) as [[v r]|] eqn:E; [|done]. apply unquote_escape_shorter in E. cbn.
    by rewrite (IH g r) by lia.
  - destruct (decode_rune c s) as [r w] eqn:E. apply decode_rune_width in E.
    by rewrite (IH g (drop w (c :: s))) by (rewrite length_drop; cbn; lia).
Qed.

Lemma unhex_hex n z acc t :
  0 <= z < 16 ^ Z.of_nat n -> unhex n acc (hex n z ++ t) = Some (acc * 16 ^ Z.of_nat n + z, t).
Proof.
  revert z acc t. induction n as [|n IH]; intros z acc t Hz.
  - cbn in *. do 2 f_equal. lia.
  - replace (S n) with (n + 1)%nat at 1 by lia. rewrite unhex_app. cbn [hex].
    rewrite Nat2Z.inj_succ, Z.pow_succ_r in * by lia.
    rewrite <-app_assoc, IH by zlia. cbn -[Z.mul]. rewrite hex_value_digit by zlia. cbn -[Z.mul].
    do 2 f_equal. zlia.
Qed.

(** The bytes a rune of a string was read from. *)
Definition rune_bytes (r : rune) : bytes := match r with Good r => encode_rune r | Bad b => [b] end.

Definition valid_chunk (r : rune) : Prop := match r with Good r => valid_rune r = true | Bad _ => True end.

(** Induction over the runes of a string. *)
Lemma runes_induction (P : bytes -> Prop) :
  P [] ->
  (forall r s, valid_chunk r -> runes (rune_bytes r ++ s) = r :: runes s -> P s -> P (rune_bytes r ++ s)) ->
  forall s, P s.
Proof.
  intros H0 HS s. remember (length s) as n eqn:En. revert s En.
  induction (lt_wf n) as [n _ IH]; intros [|c s] ->; [done|].
  destruct (decode_rune c s) as [r w] eqn:D.
  assert (runes (c :: s) = r :: runes (drop (w - 1) s)) as Hr
    by (unfold runes; cbn; by rewrite D, runes_skip_drop).
  assert (c :: s = rune_bytes r ++ drop (w - 1) s /\ valid_chunk r) as [E V].
  { destruct r as [r|b]; [by apply decode_rune_good in D as [? ?]|].
    by apply decode_rune_bad in D as [-> ->]. }
  rewrite E in *. apply HS; [done..|]. eapply IH; [|done].
  apply decode_rune_width in D. rewrite <-E, length_drop. cbn. lia.
Qed.

Section quote_round_trip.
Context `{Unicode}.

(** The escape sequences [quote_rune] writes are read back. *)
Lemma unquote_escape_hex2 z u :
  0 <= z < 256 -> unquote_escape ("x"%byte :: hex 2 z ++ u) = Some ([z2b z], u).
Proof.
  intros Hz. unfold unquote_escape. repeat (rewrite bool_decide_eq_false_2 by done).
  rewrite bool_decide_eq_true_2 by done. rewrite unhex_hex by (cbn; lia). cbn [mbind option_bind].
  do 3 f_equal.
Qed.

Lemma unquote_escape_hex4 z u :
  valid_rune z = true -> z < 0x10000 -> unquote_escape ("u"%byte :: hex 4 z ++ u) = Some (encode_rune z, u).
Proof.
  intros V Hz. pose proof (proj1 (valid_rune_iff z) V).
  unfold unquote_escape. repeat (rewrite bool_decide_eq_false_2 by done).
  rewrite bool_decide_eq_true_2 by done. rewrite unhex_hex by (cbn; lia). cbn [mbind option_bind].
  change (0 * _ + z) with z. by rewrite V.
Qed.

Lemma unquote_escape_hex8 z u :
  valid_rune z = true -> unquote_escape ("U"%byte :: hex 8 z ++ u) = Some (encode_rune z, u).
Proof.
  intros V. pose proof (proj1 (valid_rune_iff z) V).
  unfold unquote_escape. repeat (rewrite bool_decide_eq_false_2 by done).
  rewrite bool_decide_eq_true_2 by done. rewrite unhex_hex by (cbn; lia). cbn [mbind option_bind].
  change (0 * _ + z) with z. by rewrite V.
Qed.

(** Bytes that neither end nor escape a quotation. *)
Definition inner (c : byte) : Prop := c <> "034"%byte /\ c <> "\"%byte.

Lemma hex_value_inner c d : hex_value c = Some d -> inner c.
Proof.
  intros Hc. split; intros ->; by vm_compute in Hc.
Qed.

Lemma unhex_inner n acc s v r :
  unhex n acc s = Some (v, r) -> exists e, s = e ++ r /\ Forall inner e.
Proof.
  revert acc s. induction n as [|n IH]; intros acc s; cbn; [intros [= _ ->]; by exists []|].
  destruct s as [|c s]; [done|]. destruct (hex_value c) as [d|] eqn:Hd; [|done]. cbn. intros (e & -> & He)%IH.
  exists (c :: e). split; [done|]. constructor; [by eapply hex_value_inner|done].
Qed.

(** An escape sequence is any byte and bytes that neither end nor escape. *)
Lemma unquote_escape_inner s v r :
  unquote_escape s = Some (v, r) -> exists c e, s = c :: e ++ r /\ Forall inner e.
Proof.
  destruct s as [|c s]; [done|]. unfold unquote_escape.
  repeat (case_bool_decide; [intros [= _ <-]; by exists c, []|]).
  repeat (case_bool_decide;
    [destruct (unhex _ 0 s) as [[z t]|] eqn:Eu; [|done]; apply unhex_inner in Eu as (e & -> & He); cbn; intros E;
     repeat case_match; simplify_eq; by eexists _, e|]).
  assert (forall d o, octal_value d = Some o -> inner d) as Ho by (intros d o Hd; split; intros ->; by vm_compute in Hd).
  intros E. destruct (octal_value c); [|done]. destruct s as [|d [|e s]]; [done..|]. cbn in E.
  destruct (octal_value d) eqn:Hd, (octal_value e) eqn:He; try done. cbn in E. case_match; simplify_eq.
  exists c, [d; e]. split; [done|]. repeat constructor; by eapply Ho.
Qed.

Lemma hex_inner n z : Forall inner (hex n z).
Proof.
  revert z. induction n as [|n IH]; intros z; cbn; [constructor|]. apply Forall_app. split; [apply IH|].
  constructor; [|constructor]. unfold inner, hex_digit.
  split; apply byte_neq_z; repeat if_lia; rewrite b2z_z2b_small by zlia; change (b2z "034"%byte) with 34;
    change (b2z "\"%byte) with 92; zlia.
Qed.

Lemma encode_rune_inner z : valid_rune z = true -> z <> 34 -> z <> 92 -> Forall inner (encode_rune z).
Proof.
  intros V%valid_rune_iff H1 H2. unfold encode_rune, inner.
  repeat if_lia; repeat apply Forall_cons_2; try apply Forall_nil_2; split; apply byte_neq_z; rewrite b2z_z2b_small by zlia;
    change (b2z "034"%byte) with 34; change (b2z "\"%byte) with 92; zlia.
Qed.

Lemma encode_rune_ascii r : 0 <= r < 128 -> encode_rune r = [z2b r].
Proof. intros Hr. unfold encode_rune. by if_lia. Qed.

(** A quoted rune is an escape sequence that stands for its bytes, or its bytes. *)
Lemma quote_rune_cases r :
  valid_chunk r ->
  (exists c e, quote_rune r = "\"%byte :: c :: e /\ Forall inner e
     /\ forall u, unquote_escape (c :: e ++ u) = Some (rune_bytes r, u))
  \/ (exists z, r = Good z /\ quote_rune r = encode_rune z /\ z <> 34 /\ z <> 92 /\ z <> 10).
Proof.
  intros V. destruct r as [r|b]; cbn -[hex encode_rune B].
  2: { left. eexists _, _. split_and!; [reflexivity|apply (hex_inner 2)|]. intros u.
       etrans; [exact (unquote_escape_hex2 (b2z b) u (b2z_range b))|]. by rewrite z2b_b2z. }
  apply valid_rune_iff in V.
  destruct ((r =? 34) || (r =? 92)) eqn:Hq.
  { left. eexists _, _. split_and!; [reflexivity|constructor|]. intros u.
    bdec; subst r; reflexivity. }
  apply orb_false_iff in Hq as [H34%Z.eqb_neq H92%Z.eqb_neq].
  destruct (is_print r) eqn:Hp.
  { right. exists r. split_and!; [done..|]. intros ->. done. }
  left. repeat if_lia; subst; eexists _, _; (split_and!; [reflexivity|first [exact (hex_inner _ _)|constructor]|]); intros u;
    match goal with
    | |- context [hex 2] =>
        cbn [rune_bytes]; rewrite encode_rune_ascii by (bdec; lia);
        refine (unquote_escape_hex2 _ _ _); bdec; lia
    | |- context [hex 4] => refine (unquote_escape_hex4 _ _ _ _); [apply valid_rune_iff; lia|done]
    | |- context [hex 8] => refine (unquote_escape_hex8 _ _ _); apply valid_rune_iff; lia
    | |- _ => reflexivity
    end.
Qed.

(** One round of [unquote_from] reads one quoted rune. *)
Lemma unquote_from_rune fuel r u :
  valid_chunk r ->
  unquote_from (S fuel) (quote_rune r ++ u)
  = '(tail, rest) ← unquote_from fuel u; Some (rune_bytes r ++ tail, rest).
Proof.
  intros V. destruct (quote_rune_cases r V) as [(c & e & -> & _ & He)|(z & -> & -> & H34 & H92 & H10)].
  - cbn. by rewrite He.
  - cbn in V. pose proof (proj1 (valid_rune_iff z) V) as Vz.
    destruct (decode_rune_encode z u V) as (c & t & E & D). cbn [rune_bytes]. rewrite E. cbn [app].
    assert (forall k, 0 <= k < 128 -> z <> k -> c <> z2b k) as Hne.
    { intros k Hk Hz ->. destruct (encode_rune_first z V) as (c' & t' & E' & Hc).
      rewrite E in E'. simplify_eq. destruct Hc as [[? Hc]|[? Hc]].
      - apply (f_equal b2z) in Hc. rewrite !b2z_z2b_small in Hc by lia. lia.
      - rewrite b2z_z2b_small in Hc by lia. lia. }
    cbn [unquote_from]. rewrite !bool_decide_eq_false_2.
    2: apply (Hne 92); lia. 2: apply (Hne 10); lia. 2: apply (Hne 34); lia.
    rewrite D. cbn [take drop]. by rewrite drop_app_length, take_app_length.
Qed.

Lemma unquote_from_quoted fuel s u :
  (length (runes s) < fuel)%nat ->
  unquote_from fuel (concat (quote_rune <$> runes s) ++ "034"%byte :: u) = Some (s, u).
Proof.
  revert fuel. induction s as [|r s V Hr IH] using runes_induction; intros [|fuel] Hf; [cbn in Hf; lia|done|lia|].
  rewrite Hr in *. cbn [fmap list_fmap concat length] in *. rewrite <-app_assoc, unquote_from_rune by done.
  rewrite IH by lia. done.
Qed.

Lemma encode_rune_nonempty r : (1 <= length (encode_rune r))%nat.
Proof. unfold encode_rune. repeat case_match; cbn; lia. Qed.

Lemma quote_rune_nonempty r : (1 <= length (quote_rune r))%nat.
Proof.
  destruct r as [r|b]; cbn -[hex encode_rune B]; unfold B; [|cbn -[hex]; lia].
  repeat case_match; first [apply encode_rune_nonempty|cbn -[hex]; lia].
Qed.

Lemma quoted_length s : (length (runes s) <= length (concat (quote_rune <$> runes s)))%nat.
Proof.
  induction (runes s) as [|r l IH]; [done|]. cbn. rewrite length_app.
  pose proof (quote_rune_nonempty r). unfold fmap in *. lia.
Qed.

(** [strconv.Unquote] reads back what [strconv.Quote] wrote. *)
Lemma Unquote_quote s : Unquote (quote s) = Some s.
Proof.
  unfold quote. cbn [app Unquote]. rewrite unquote_from_quoted; [done|].
  cbn [length]. rewrite length_app. pose proof (quoted_length s). lia.
Qed.

Lemma quote_inj s t : quote s = quote t -> s = t.
Proof. intros E. apply (f_equal Unquote) in E. rewrite !Unquote_quote in E. congruence. Qed.
End quote_round_trip.

(* ------------------------------------------------------------------ *)
(** ** Lemmas: the words of a line of ASCII *)

Definition graphic (c : byte) : Prop := 33 <= b2z c < 127.

Lemma graphic_not_space c : graphic c -> b2z c < 0x80 /\ IsSpace (Good (b2z c)) = false.
Proof.
  intros Hc. unfold graphic in Hc. split; [lia|].
  match goal with |- ?b = false => destruct b eqn:E; [exfalso|done] end. unfold IsSpace in E. bdec; lia.
Qed.

(** Words with blanks between them are the fields of the line. *)
Lemma fields_graphic w word s :
  Forall graphic w -> fields_from word (chunks (w ++ s)) = fields_from (word ++ w) (chunks s).
Proof.
  intros Hw. revert word. induction Hw as [|c w Hc Hw IH]; intros word; cbn [app]; [by rewrite app_nil_r|].
  destruct (graphic_not_space c Hc) as [Ha Hs]. rewrite chunks_ascii by done. cbn [fields_from].
  rewrite Hs, IH. by rewrite <-app_assoc.
Qed.

Lemma fields_space c word s :
  b2z c < 0x80 -> IsSpace (Good (b2z c)) = true -> word <> [] ->
  fields_from word (chunks (c :: s)) = word :: fields_from [] (chunks s).
Proof. intros Hc Hs Hw. rewrite chunks_ascii by done. cbn [fields_from]. rewrite Hs. by destruct word. Qed.

Definition is_word (w : bytes) : Prop := w <> [] /\ Forall graphic w.

Definition newline : byte := "010"%byte.

Lemma Fields_line words : Forall is_word words -> Fields (join (B " ") words ++ [newline]) = words.
Proof.
  unfold Fields. induction 1 as [|w words [Hw Hg] Hf IH]; [done|]. destruct words as [|w' words].
  - cbn [join]. rewrite fields_graphic by done. rewrite fields_space by done. done.
  - rewrite join_cons by done. change (B " ") with [" "%byte] at 1. rewrite <-!app_assoc. cbn [app].
    rewrite fields_graphic by done. cbn [app]. rewrite fields_space by done. by rewrite IH.
Qed.

Lemma Lines_app l s : newline ∉ l -> Lines (l ++ newline :: s) = (l ++ [newline]) :: Lines s.
Proof.
  intros Hl. induction l as [|c l IH]; [cbn; by rewrite decide_True|].
  apply not_elem_of_cons in Hl as [Hc Hl]. cbn. rewrite decide_False by done. by rewrite IH.
Qed.

Lemma join_no_newline words : Forall is_word words -> newline ∉ join (B " ") words.
Proof.
  induction 1 as [|w words [_ Hg] Hf IH]; [apply not_elem_of_nil|].
  assert (newline ∉ w) as Hw by (intros Hin; rewrite Forall_forall in Hg; specialize (Hg _ Hin); by destruct Hg).
  destruct words; [done|]. rewrite join_cons by done. intros [?|[Hb|?]%elem_of_app]%elem_of_app; [done| |done].
  by apply list_elem_of_singleton in Hb.
Qed.
