(* ===== verification/Build.v ===== *)
(** * Build: go/build/constraint.Parse of a //go:build line

    Whether the expression of a build constraint parses: the lexer, the recursive
    descent parser with its bound on the size of an expression, and the grammar
    it decides. Only whether there is an error is modelled. *)

From S2P Require Import Prelude Text NetAddr Words.

Inductive token : Type :=
| TOpen
| TClose
| TNot
| TAnd
| TOr
| TTag (tag : bytes).

#[global] Instance token_eq_dec : EqDecision token.
Proof. solve_decision. Defined.

Section lexer.
Context `{Unicode}.

Definition tag_rune (r : rune) : bool :=
  IsLetter r || IsDigit r
  || match r with Good r => (r =? 95) || (r =? 46) | Bad _ => false end.

(** The tokens of an expression; [None] when a byte starts none. Every round
    consumes a byte ([lex_fuel]). *)
Fixpoint lex (fuel : nat) (s : bytes) : option (list token) :=
  match fuel with
  | O => None
  | S fuel =>
      match s with
      | [] => Some []
      | c :: s' =>
          if bool_decide (c = " "%byte \/ c = "009"%byte) then lex fuel s'
          else if bool_decide (c = "("%byte) then ts ← lex fuel s'; Some (TOpen :: ts)
          else if bool_decide (c = ")"%byte) then ts ← lex fuel s'; Some (TClose :: ts)
          else if bool_decide (c = "!"%byte) then ts ← lex fuel s'; Some (TNot :: ts)
          else if bool_decide (c = "&"%byte \/ c = "|"%byte) then
            match s' with
            | d :: s'' =>
                if bool_decide (d = c)
                then ts ← lex fuel s''; Some ((if bool_decide (c = "&"%byte) then TAnd else TOr) :: ts)
                else None
            | [] => None
            end
          else
            let n := match IndexFunc s (fun r => negb (tag_rune r)) with Some n => n | None => length s end in
            if bool_decide (n = O) then None
            else ts ← lex fuel (drop n s); Some (TTag (take n s) :: ts)
      end
  end.

(** The text of the expression of a //go:build line. *)
Definition splitGoBuild (line : bytes) : option bytes :=
  let line := if bool_decide (last line = Some "010"%byte) then take (length line - 1) line else line in
  if contains_byte "010"%byte line then None
  else if negb (has_prefix line (B "//go:build")) then None
  else
    let line := drop (length (B "//go:build")) (TrimSpace line) in
    let trim := TrimSpace line in
    if bool_decide (length line = length trim) && negb (bool_decide (line = [])) then None else Some trim.
End lexer.

(** The bound on the operands of an expression. *)
Definition maxSize : Z := 1000.

(** The levels of the parser: [exprParser.or], [and], [not] with [atom]. *)
Inductive level : Type := LOr | LAnd | LNot.

(** What is left after an expression of a level, with the operands counted so
    far; [None] is a syntax error. *)
Fixpoint parse (fuel : nat) (l : level) (size : Z) (ts : list token) : option (Z * list token) :=
  match fuel with
  | O => None
  | S fuel =>
      match l with
      | LOr =>
          '(size, ts) ← parse fuel LAnd size ts;
          match ts with
          | TOr :: ts => parse fuel LOr size ts
          | _ => Some (size, ts)
          end
      | LAnd =>
          '(size, ts) ← parse fuel LNot size ts;
          match ts with
          | TAnd :: ts => parse fuel LAnd size ts
          | _ => Some (size, ts)
          end
      | LNot =>
          let size := size + 1 in
          if maxSize <? size then None
          else
            match (match ts with TNot :: ts => ts | _ => ts end) with
            | TOpen :: ts =>
                '(size, ts) ← parse fuel LOr size ts;
                match ts with
                | TClose :: ts => Some (size, ts)
                | _ => None
                end
            | TTag _ :: ts => Some (size, ts)
            | _ => None
            end
      end
  end.

(** Fuel for a list of tokens ([parse_fuel]). *)
Definition enough (ts : list token) : nat := 3 * length ts + 3.

(** Whether [constraint.Parse] of a line that starts with //go: succeeds. *)
Definition constraint_Parse `{Unicode} (line : bytes) : bool :=
  match splitGoBuild line with
  | None => false
  | Some text =>
      match lex (S (length text)) text with
      | None => false
      | Some ts =>
          match parse (enough ts) LOr 0 ts with
          | Some (_, []) => true
          | _ => false
          end
      end
  end.

(* ------------------------------------------------------------------ *)
(** ** Fuel *)

Lemma lex_fuel `{Unicode} f g s : (length s < f)%nat -> (length s < g)%nat -> lex f s = lex g s.
Proof.
  revert g s. induction f as [|f IH]; intros [|g] s Hf Hg; [lia..|]. cbn [lex].
  destruct s as [|c s]; [done|]. cbn in Hf, Hg.
  do 4 (case_bool_decide; [by rewrite (IH g) by lia|]). case_bool_decide.
  - destruct s as [|d s]; [done|]. cbn in Hf, Hg. case_bool_decide; [|done]. by rewrite (IH g) by lia.
  - cbv zeta. match goal with |- context [lex f (drop ?n _)] => generalize n; intros k end.
    case_bool_decide; [done|]. rewrite (IH g); [done|rewrite length_drop; cbn [length]; lia..].
Qed.

(** The rank of a level: a level calls the next one on the same tokens. *)
Definition rank (l : level) : nat := match l with LOr => 3 | LAnd => 2 | LNot => 1 end.

Lemma parse_shorter f l size ts size' rest :
  parse f l size ts = Some (size', rest) -> (length rest < length ts)%nat.
Proof.
  revert l size ts size' rest. induction f as [|f IH]; intros l size ts size' rest; [done|]. cbn [parse].
  destruct l.
  - destruct (parse f LAnd size ts) as [[n us]|] eqn:E; [|done]. apply IH in E. cbn.
    destruct us as [|[] us]; [by intros [= _ <-]|try (intros [= _ <-]; cbn in *; lia)..].
    all: intros E'%IH; cbn in *; lia.
  - destruct (parse f LNot size ts) as [[n us]|] eqn:E; [|done]. apply IH in E. cbn.
    destruct us as [|[] us]; [by intros [= _ <-]|try (intros [= _ <-]; cbn in *; lia)..].
    all: intros E'%IH; cbn in *; lia.
  - cbv zeta. destruct (maxSize <? size + 1); [done|].
    assert (length (match ts with TNot :: ts => ts | _ => ts end) <= length ts)%nat as Hl
      by (destruct ts as [|[] ts]; cbn; lia).
    destruct (match ts with TNot :: ts => ts | _ => ts end) as [|[] us]; try done; cbn in Hl.
    + destruct (parse f LOr (size + 1) us) as [[n vs]|] eqn:E; [|done]. apply IH in E. cbn.
      destruct vs as [|[] vs]; try done. intros [= _ <-]. cbn in E. lia.
    + intros [= _ <-]. lia.
Qed.

(** Enough fuel never runs out: any two amounts give the same. *)
Lemma parse_fuel f g l size ts :
  (3 * length ts + rank l <= f)%nat -> (3 * length ts + rank l <= g)%nat -> parse f l size ts = parse g l size ts.
Proof.
  revert g l size ts. induction f as [|f IH]; intros [|g] l size ts Hf Hg; [by destruct l; cbn in *; lia..|].
  cbn [parse]. destruct l; cbn [rank] in *.
  - rewrite (IH g LAnd) by (cbn; lia). destruct (parse g LAnd size ts) as [[n us]|] eqn:E; [|done]. cbn.
    apply parse_shorter in E. destruct us as [|[] us]; try done. cbn in E. apply IH; cbn; lia.
  - rewrite (IH g LNot) by (cbn; lia). destruct (parse g LNot size ts) as [[n us]|] eqn:E; [|done]. cbn.
    apply parse_shorter in E. destruct us as [|[] us]; try done. cbn in E. apply IH; cbn; lia.
  - cbv zeta. destruct (maxSize <? size + 1); [done|].
    assert (length (match ts with TNot :: ts => ts | _ => ts end) <= length ts)%nat as Hl
      by (destruct ts as [|[] ts]; cbn; lia).
    destruct (match ts with TNot :: ts => ts | _ => ts end) as [|[] us]; try done; cbn in Hl.
    by rewrite (IH g LOr) by (cbn; lia).
Qed.

(* ------------------------------------------------------------------ *)
(** ** The grammar *)

(** The sentences of each level, with the number of their operands. *)
Inductive derives : level -> list token -> Z -> Prop :=
| derives_or_one ts n : derives LAnd ts n -> derives LOr ts n
| derives_or ts us n m : derives LAnd ts n -> derives LOr us m -> derives LOr (ts ++ TOr :: us) (n + m)
| derives_and_one ts n : derives LNot ts n -> derives LAnd ts n
| derives_and ts us n m : derives LNot ts n -> derives LAnd us m -> derives LAnd (ts ++ TAnd :: us) (n + m)
| derives_tag tag : derives LNot [TTag tag] 1
| derives_not_tag tag : derives LNot [TNot; TTag tag] 1
| derives_group ts n : derives LOr ts n -> derives LNot (TOpen :: ts ++ [TClose]) (n + 1)
| derives_not_group ts n : derives LOr ts n -> derives LNot (TNot :: TOpen :: ts ++ [TClose]) (n + 1).

Lemma derives_positive l ts n : derives l ts n -> 1 <= n.
Proof. induction 1; lia. Qed.

(** An operand starts after at most one negation. *)
Lemma operand (ts : list token) :
  exists neg us, ts = neg ++ us /\ (neg = [] \/ neg = [TNot]) /\ (match ts with TNot :: ts => ts | _ => ts end) = us.
Proof. destruct ts as [|[] ts]; first [by eexists [], _; eauto|by eexists [TNot], _; eauto]. Qed.

(** What the parser reads derives from the grammar. *)
Lemma parse_sound f l size ts size' rest :
  parse f l size ts = Some (size', rest) ->
  exists used n, ts = used ++ rest /\ derives l used n /\ size' = size + n /\ size' <= maxSize.
Proof.
  revert l size ts size' rest. induction f as [|f IH]; intros l size ts size' rest; [done|]. cbn [parse].
  assert (forall l' r size0 ts0 (op : token) us1 n1,
    (forall us2 m, derives l' us1 n1 -> derives l us2 m -> derives l (us1 ++ op :: us2) (n1 + m)) ->
    derives l' us1 n1 -> ts0 = us1 ++ op :: r ->
    parse f l (size0 + n1) r = Some (size', rest) ->
    exists used n, ts0 = used ++ rest /\ derives l used n /\ size' = size0 + n /\ size' <= maxSize) as Hop.
  { intros l' r size0 ts0 op us1 n1 Hd H1 -> (us2 & m & -> & H2 & -> & Hm)%IH.
    exists (us1 ++ op :: us2), (n1 + m). split_and!; [by rewrite <-app_assoc|by apply Hd|lia|lia]. }
  destruct l.
  - destruct (parse f LAnd size ts) as [[n us]|] eqn:E; [|done]. apply IH in E as (u1 & n1 & -> & H1 & -> & Hm). cbn.
    destruct us as [|[] us]; try (intros [= <- <-]; exists u1, n1; by split_and!; [|constructor|..]).
    intros E. eapply (Hop LAnd us size _ TOr); [|exact H1|done|exact E]. intros. by constructor.
  - destruct (parse f LNot size ts) as [[n us]|] eqn:E; [|done]. apply IH in E as (u1 & n1 & -> & H1 & -> & Hm). cbn.
    destruct us as [|[] us]; try (intros [= <- <-]; exists u1, n1; by split_and!; [|constructor|..]).
    intros E. eapply (Hop LNot us size _ TAnd); [|exact H1|done|exact E]. intros. by constructor.
  - cbv zeta. destruct (Z.ltb_spec maxSize (size + 1)) as [|Hs]; [done|]. clear Hop.
    destruct (operand ts) as (neg & us & Ets & Hneg & Hstrip). rewrite Hstrip, Ets. clear Hstrip Ets ts.
    destruct us as [|[] us]; try done.
    + destruct (parse f LOr (size + 1) us) as [[n vs]|] eqn:E; [|done]. cbn.
      apply IH in E as (u1 & n1 & -> & H1 & -> & Hm). destruct vs as [|[] vs]; try done. intros [= <- <-].
      exists (neg ++ TOpen :: u1 ++ [TClose]), (n1 + 1). split_and!; [|destruct Hneg as [->| ->]; by constructor|lia|done].
      by rewrite <-app_assoc; cbn; rewrite <-app_assoc.
    + intros [= <- <-]. exists (neg ++ [TTag tag]), 1. split_and!; [by rewrite <-app_assoc|destruct Hneg as [->| ->]; constructor|done|lia].
Qed.

(** The tokens after which a sentence of a level goes on. *)
Definition stops (l : level) (rest : list token) : Prop :=
  match l, rest with
  | LOr, (TOr | TAnd) :: _ => False
  | LAnd, TAnd :: _ => False
  | _, _ => True
  end.

(** The parser reads every sentence within the bound. *)
Lemma parse_complete l ts n :
  derives l ts n -> forall f size rest,
  size + n <= maxSize -> stops l rest -> (3 * length (ts ++ rest) + rank l <= f)%nat ->
  parse f l size (ts ++ rest) = Some (size + n, rest).
Proof.
  induction 1 as [ts n Hd IH|ts us n m Hd IH Hd' IH'|ts n Hd IH|ts us n m Hd IH Hd' IH'|tag|tag|ts n Hd IH|ts n Hd IH];
    intros [|f] size rest Hs Hr Hf; cbn [rank] in *; try lia; cbn [parse].
  - rewrite (IH f size rest) by (cbn [rank]; first [lia|by destruct rest as [|[]]]). cbn. by destruct rest as [|[] rest].
  - pose proof (derives_positive _ _ _ Hd'). rewrite <-app_assoc in *. cbn [app] in *.
    rewrite (IH f size (TOr :: us ++ rest)) by (cbn [rank]; first [lia|done]). cbn.
    rewrite length_app in Hf. cbn in Hf. rewrite (IH' f (size + n) rest) by (cbn [rank]; first [lia|done]). by rewrite Z.add_assoc.
  - rewrite (IH f size rest) by (cbn [rank]; first [lia|done]). cbn. by destruct rest as [|[] rest].
  - pose proof (derives_positive _ _ _ Hd'). rewrite <-app_assoc in *. cbn [app] in *.
    rewrite (IH f size (TAnd :: us ++ rest)) by (cbn [rank]; first [lia|done]). cbn.
    rewrite length_app in Hf. cbn in Hf. rewrite (IH' f (size + n) rest) by (cbn [rank]; first [lia|done]). by rewrite Z.add_assoc.
  - cbv zeta. by rewrite (proj2 (Z.ltb_ge _ _)) by lia.
  - cbv zeta. by rewrite (proj2 (Z.ltb_ge _ _)) by lia.
  - pose proof (derives_positive _ _ _ Hd). cbv zeta. rewrite (proj2 (Z.ltb_ge _ _)) by lia. cbn [app] in *. rewrite <-app_assoc in *. cbn [app] in *.
    cbn in Hf. rewrite (IH f (size + 1) (TClose :: rest)) by (cbn [rank app]; first [lia|done]). cbn. do 2 f_equal. lia.
  - pose proof (derives_positive _ _ _ Hd). cbv zeta. rewrite (proj2 (Z.ltb_ge _ _)) by lia. cbn [app] in *. rewrite <-app_assoc in *. cbn [app] in *.
    cbn in Hf. rewrite (IH f (size + 1) (TClose :: rest)) by (cbn [rank app]; first [lia|done]). cbn. do 2 f_equal. lia.
Qed.

(** A line whose expression is a sentence of the grammar, with at most a
    thousand operands. *)
Definition build_constraint `{Unicode} (line : bytes) : Prop :=
  exists text ts n, splitGoBuild line = Some text /\ lex (S (length text)) text = Some ts
    /\ derives LOr ts n /\ n <= maxSize.

Lemma constraint_Parse_spec `{Unicode} line : constraint_Parse line = true <-> build_constraint line.
Proof.
  unfold constraint_Parse, build_constraint. split.
  - destruct (splitGoBuild line) as [text|]; [|done]. destruct (lex _ text) as [ts|] eqn:El; [|done].
    destruct (parse _ _ _ _) as [[n [|]]|] eqn:Ep; try done. intros _.
    apply parse_sound in Ep as (used & k & -> & Hd & -> & Hm). rewrite app_nil_r in *.
    by exists text, used, k.
  - intros (text & ts & n & -> & El & Hd & Hn). rewrite El.
    pose proof (parse_complete LOr ts n Hd (enough ts) 0 []) as Hp. rewrite app_nil_r in Hp.
    rewrite Hp; [done|lia|done|unfold enough; cbn; lia].
Qed.

Example build_examples :
  let tables := {| print_table _ := false; upper_table _ := false; lower_table _ := false;
                   digit_table _ := false; letter_table _ := false |} in
  map constraint_Parse
    [B "//go:build linux"; B "//go:build !a && (b || c.d_1)"; B "//go:build"; B "//go:build a b"; B "//go:build !!a";
     B "//go:build a &"; B "//go:buildx"; B "//go:build (a"]
  = [true; true; false; false; false; false; false; false].
Proof. reflexivity. Qed.
