(* ===== verification/Syntax.v ===== *)
(** * Syntax: the parts of go/token and go/ast the comment checker uses

    Positions and the files they belong to, comments and comment groups, and the
    syntax tree of a file as far as the checker looks at it. A pointer to a
    comment group is a number, nil is [None]: two pointers are equal when their
    numbers are. Below an expression or a body the tree is kept as the function
    literals found there, in the order in which [ast.Inspect] meets them. *)

From S2P Require Import Prelude Text NetAddr Words.

(* ------------------------------------------------------------------ *)
(** ** go/token *)

(** [token.Position] *)
Record Position := MkPosition { Filename : bytes; Line : Z; Column : Z }.

#[global] Instance Position_eq_dec : EqDecision Position.
Proof. solve_decision. Defined.

(** A line directive of a file: from [info_Offset] on, positions count from it. *)
Record lineInfo := { info_Offset : Z; info_Filename : bytes; info_Line : Z; info_Column : Z }.

(** [token.File]: its base and size in the file set, the offsets at which its
    lines start, and its line directives. *)
Record TokenFile := {
  tf_name : bytes;
  tf_base : Z;
  tf_size : Z;
  tf_lines : list Z;
  tf_infos : list lineInfo
}.

(** The last element of an increasing list that is not above a bound, with its
    index; [i] is the index of the first element of the list. *)
Fixpoint search_last {A} (key : A -> Z) (bound : Z) (i : Z) (l : list A) : option (Z * A) :=
  match l with
  | [] => None
  | x :: l =>
      if key x <=? bound
      then match search_last key bound (i + 1) l with Some found => Some found | None => Some (i, x) end
      else None
  end.

(** [File.unpack] with adjustment. *)
Definition unpack (f : TokenFile) (offset : Z) : Position :=
  let '(line, column) :=
    match search_last id offset 0 (tf_lines f) with
    | Some (i, start) => (i + 1, offset - start + 1)
    | None => (0, 0)
    end in
  match search_last info_Offset offset 0 (tf_infos f) with
  | None => MkPosition (tf_name f) line column
  | Some (_, alt) =>
      match search_last id (info_Offset alt) 0 (tf_lines f) with
      | None => MkPosition (info_Filename alt) line column
      | Some (i, _) =>
          let d := line - (i + 1) in
          MkPosition (info_Filename alt) (info_Line alt + d)
            (if info_Column alt =? 0 then 0
             else if d =? 0 then info_Column alt + (offset - info_Offset alt)
             else column)
      end
  end.

(** [FileSet.Position]: the file that holds the position, and its line there. *)
Definition FileSet_Position (files : list TokenFile) (pos : Z) : Position :=
  match List.find (fun f => in_range pos (tf_base f) (tf_base f + tf_size f)) files with
  | Some f => if pos =? 0 then MkPosition [] 0 0 else unpack f (pos - tf_base f)
  | None => MkPosition [] 0 0
  end.

(* ------------------------------------------------------------------ *)
(** ** Comments *)

(** [ast.Comment]: where it starts, and its text with the comment marker. *)
Record Comment := MkComment { Slash : Z; Comment_Text : bytes }.

(** [ast.CommentGroup], which holds at least one comment. *)
Record CommentGroup := MkGroup { group_ptr : nat; first_comment : Comment; more_comments : list Comment }.

Definition group_List (group : CommentGroup) : list Comment := first_comment group :: more_comments group.

Definition Comment_End (c : Comment) : Z := Slash c + len (Comment_Text c).

(** [CommentGroup.Pos], [CommentGroup.End] *)
Definition Pos (group : CommentGroup) : Z := Slash (first_comment group).
Definition End (group : CommentGroup) : Z :=
  Comment_End (List.last (more_comments group) (first_comment group)).

Notation doc := (option nat).

(* ------------------------------------------------------------------ *)
(** ** Expressions and declarations *)

Record FieldOf (E : Type) := MkField { Field_Doc : doc; Field_Names : list bytes; Field_Type : E }.
Arguments MkField {E} _ _ _.
Arguments Field_Doc {E} _.
Arguments Field_Names {E} _.
Arguments Field_Type {E} _.

Inductive Expr : Type :=
| Ident (Name : bytes)
| SelectorExpr (X : Expr) (Sel : bytes)
| StarExpr (X : Expr)
| IndexExpr (X : Expr)
| IndexListExpr (X : Expr)
| ArrayType (Elt : Expr)
| MapType (Key Value : Expr)
| ChanType (Value : Expr)
| StructType (Fields : list (FieldOf Expr))
| InterfaceType (Methods : list (FieldOf Expr))
| OtherExpr.

Notation Field := (FieldOf Expr).

(** [FieldList.NumFields]; nil is [None]. *)
Definition NumFields (fields : option (list Field)) : nat :=
  match fields with
  | None => 0
  | Some fields => list_sum ((fun f => match Field_Names f with [] => 1%nat | names => length names end) <$> fields)
  end.

Record BlockStmt := MkBlock { Lbrace : Z; Rbrace : Z }.

(** A function literal, with the literals inside it. *)
Inductive FuncLit : Type :=
| MkFuncLit (Body : BlockStmt) (inside : list FuncLit).

Record FuncDecl := {
  Func_Doc : doc;
  Recv : option (list Field);
  Func_Name : bytes;
  Params : option (list Field);
  Results : option (list Field);
  Func_Body : option BlockStmt;
  Func_inside : list FuncLit
}.

Inductive Spec : Type :=
| ImportSpec
| TypeSpec (Doc : doc) (Name : bytes) (Type_ : Expr)
| ValueSpec (Doc : doc) (Names : list bytes) (Type_ : option Expr).

Record GenDecl := { Gen_Doc : doc; Specs : list Spec; Gen_inside : list FuncLit }.

Inductive Decl : Type :=
| DeclFunc (d : FuncDecl)
| DeclGen (d : GenDecl).

(** [ast.File]; [Package] is the position of the package clause. *)
Record File := {
  File_Doc : doc;
  Package : Z;
  Decls : list Decl;
  Comments : list CommentGroup
}.

(* ------------------------------------------------------------------ *)
(** ** Generated files *)

Definition generated_prefix : bytes := B "// Code generated ".
Definition generated_suffix : bytes := B " DO NOT EDIT.".

(** A line that says [// Code generated ... DO NOT EDIT.], the prefix and the
    suffix not overlapping. *)
Definition is_generated_line (line : bytes) : bool :=
  let (rest, ok) := CutPrefix line generated_prefix in ok && has_suffix rest generated_suffix.

Definition is_generated_comment (c : Comment) : bool :=
  existsb is_generated_line (split_on "010"%byte (Comment_Text c)).

(** The comments of a group up to the package clause. *)
Fixpoint before_package (package : Z) (cs : list Comment) : list Comment :=
  match cs with
  | [] => []
  | c :: cs => if package <? Slash c then [] else c :: before_package package cs
  end.

(** [ast.IsGenerated] *)
Definition IsGenerated (file : File) : bool :=
  existsb (fun group => existsb is_generated_comment (before_package (Package file) (group_List group)))
    (Comments file).

(* ------------------------------------------------------------------ *)
(** ** Positions identify offsets *)

(** The lines of a file start at increasing offsets, the first at zero. *)
Definition lines_ok (f : TokenFile) : Prop :=
  head (tf_lines f) = Some 0 /\ StronglySorted Z.lt (tf_lines f).

(** A file without line directives. *)
Definition plain_file (f : TokenFile) : Prop := tf_infos f = [] /\ lines_ok f.

(** A line directive has a line from one on, and a column or none, which is 0. *)
Definition info_ok (info : lineInfo) : Prop := 1 <= info_Line info /\ 0 <= info_Column info.

Lemma search_last_above (bound i : Z) l :
  Forall (fun x => bound < x) l -> search_last id bound i l = None.
Proof. intros H. destruct H as [|x l Hx _]; [done|]. cbn. destruct (Z.leb_spec x bound); [lia|done]. Qed.

(** The line found starts at or before the offset, and the next one after it. *)
Lemma search_last_spec (bound i : Z) l :
  StronglySorted Z.lt l ->
  match search_last id bound i l with
  | Some (j, x) => i <= j /\ l !! Z.to_nat (j - i) = Some x /\ x <= bound
                   /\ forall k y, l !! k = Some y -> (Z.to_nat (j - i) < k)%nat -> bound < y
  | None => Forall (fun x => bound < x) l
  end.
Proof.
  intros Hs. revert i. induction Hs as [|x l Hs IH Hx]; intros i; [constructor|].
  cbn. destruct (Z.leb_spec x bound) as [Hb|Hb].
  - specialize (IH (i + 1)). destruct (search_last id bound (i + 1) l) as [[j y]|].
    + destruct IH as (Hj & Hl & Hy & Hn). split_and!; [lia| |done|].
      * replace (Z.to_nat (j - i)) with (S (Z.to_nat (j - (i + 1)))) by lia. done.
      * intros [|k] z Hk Hlt; [lia|]. apply (Hn k z Hk). lia.
    + replace (i - i) with 0 by lia. split_and!; [lia|done|done|].
      intros [|k] y Hk Hlt; [cbn in Hlt; lia|]. rewrite Forall_forall in IH.
      apply IH. by eapply list_elem_of_lookup_2.
  - constructor; [done|]. eapply Forall_impl; [exact Hx|]. cbn. lia.
Qed.

(** In a plain file an offset has a line, and line and column give it back. *)
Lemma unpack_plain f offset :
  plain_file f -> 0 <= offset ->
  exists start,
    Filename (unpack f offset) = tf_name f
    /\ 1 <= Line (unpack f offset) /\ 1 <= Column (unpack f offset)
    /\ tf_lines f !! Z.to_nat (Line (unpack f offset) - 1) = Some start
    /\ offset = start + (Column (unpack f offset) - 1).
Proof.
  intros (Hi & Hh & Hs) Ho. unfold unpack. rewrite Hi. cbn [search_last].
  pose proof (search_last_spec offset 0 (tf_lines f) Hs) as H.
  destruct (search_last id offset 0 (tf_lines f)) as [[j x]|].
  - destruct H as (Hj & Hl & Hx & _). exists x. cbn. rewrite Z.sub_0_r in Hl.
    split_and!; [done|lia|lia| |lia]. by replace (j + 1 - 1) with j by lia.
  - destruct (tf_lines f) as [|z l]; [done|]. injection Hh as ->. inversion H. lia.
Qed.

Lemma search_last_in {A} (key : A -> Z) bound i l j (x : A) :
  search_last key bound i l = Some (j, x) -> x ∈ l /\ key x <= bound.
Proof.
  revert i. induction l as [|y l IH]; intros i; cbn; [done|].
  destruct (Z.leb_spec (key y) bound) as [Hy|]; [|done].
  destruct (search_last key bound (i + 1) l) as [[k z]|] eqn:E.
  - intros [= -> ->]. destruct (IH _ E) as [Hin ?]. split; [by right|done].
  - intros [= _ ->]. split; [left|done].
Qed.

(** The line of an offset, counted from zero. *)
Lemma line_of_offset f offset :
  lines_ok f -> 0 <= offset ->
  exists j x, search_last id offset 0 (tf_lines f) = Some (j, x) /\ 0 <= j /\ x <= offset.
Proof.
  intros (Hh & Hs) Ho. pose proof (search_last_spec offset 0 (tf_lines f) Hs) as H.
  destruct (search_last id offset 0 (tf_lines f)) as [[j x]|].
  - destruct H as (Hj & _ & Hx & _). eauto.
  - destruct (tf_lines f) as [|z l]; [done|]. injection Hh as ->. inversion H. lia.
Qed.

(** An offset further on is on the same line or on a later one. *)
Lemma lines_monotone f a b i j x y :
  lines_ok f -> a <= b -> search_last id a 0 (tf_lines f) = Some (i, x) ->
  search_last id b 0 (tf_lines f) = Some (j, y) -> i <= j.
Proof.
  intros (_ & Hs) Hab Ea Eb. pose proof (search_last_spec a 0 (tf_lines f) Hs) as Ha.
  pose proof (search_last_spec b 0 (tf_lines f) Hs) as Hb. rewrite Ea in Ha. rewrite Eb in Hb.
  destruct Ha as (Hi & Hl & Hx & _), Hb as (Hj & _ & _ & Hn). destruct (Z.le_gt_cases i j) as [|Hlt]; [done|].
  specialize (Hn _ _ Hl ltac:(lia)). lia.
Qed.

(** The place of an offset of any file: a line from one on, of the file itself
    with a column from one on, or of the file a line directive of it names, with
    a column or none. *)
Definition place_in (f : TokenFile) (p : Position) : Prop :=
  1 <= Line p
  /\ ((Filename p = tf_name f /\ 1 <= Column p)
      \/ exists info, info ∈ tf_infos f /\ Filename p = info_Filename info /\ 0 <= Column p).

Lemma unpack_place f offset :
  lines_ok f -> Forall info_ok (tf_infos f) -> 0 <= offset -> place_in f (unpack f offset).
Proof.
  intros Hf Hinfos Ho. destruct (line_of_offset f offset Hf Ho) as (j & x & E & Hj & Hx). unfold unpack. rewrite E.
  destruct (search_last info_Offset offset 0 (tf_infos f)) as [[k alt]|] eqn:Ei.
  2: { split; cbn; [lia|]. left. split; [done|lia]. }
  apply search_last_in in Ei as [Hin Hle]. rewrite Forall_forall in Hinfos.
  destruct (Hinfos alt Hin) as [Hl Hc].
  destruct (search_last id (info_Offset alt) 0 (tf_lines f)) as [[i y]|] eqn:Ea.
  - pose proof (lines_monotone f _ _ i j y x Hf Hle Ea E). split; cbn; [lia|]. right. exists alt.
    split_and!; [done..|]. destruct (Z.eqb_spec (info_Column alt) 0); [lia|].
    destruct (Z.eqb_spec (j + 1 - (i + 1)) 0); lia.
  - split; cbn; [lia|]. right. exists alt. split_and!; [done..|lia].
Qed.

Lemma unpack_plain_inj f a b :
  plain_file f -> 0 <= a -> 0 <= b -> unpack f a = unpack f b -> a = b.
Proof.
  intros Hf Ha Hb E. destruct (unpack_plain f a Hf Ha) as (s & _ & _ & _ & Hs & ->).
  destruct (unpack_plain f b Hf Hb) as (t & _ & _ & _ & Ht & ->). rewrite E in *. congruence.
Qed.

Example position_example :
  map (unpack {| tf_name := B "a.go"; tf_base := 1; tf_size := 30; tf_lines := [0; 10; 12]; tf_infos := [] |}) [0; 9; 11; 20]
  = [MkPosition (B "a.go") 1 1; MkPosition (B "a.go") 1 10; MkPosition (B "a.go") 2 2; MkPosition (B "a.go") 3 9].
Proof. reflexivity. Qed.
