(* ===== verification/Directives.v ===== *)
(** * Directives: tools/commentcheck/directives.go

    The words of a //go: directive, the forms in which each directive is known,
    and the outputs a generate directive names. The file system is read through
    the class [FileSystem]; the expression of a build constraint is parsed by
    [Build]. *)

From S2P Require Import Prelude Text NetAddr Path Words Build Syntax.

(** What the checker asks the file system: the working directory; whether a path
    exists, and then whether it is a directory; the contents of a file; the
    matches of a pattern, or none when the pattern is malformed. *)
Class FileSystem := {
  Getwd : option bytes;
  Stat : bytes -> option bool;
  ReadFile : bytes -> option bytes;
  Glob : bytes -> option (list bytes)
}.

(* ------------------------------------------------------------------ *)
(** ** The words of a directive *)

Record directive := Directive { name : bytes; arguments : list bytes }.

Definition toolDirective : bytes := B "tool".

Definition double_quote : byte := "034"%byte.
Definition backquote : byte := "096"%byte.

Definition is_quote (c : byte) : bool := bool_decide (c = double_quote \/ c = backquote).

(** The loop of [closingQuote] from an index on; [s] is the text from there. *)
Fixpoint closing_from (quote : byte) (index : Z) (s : bytes) : Z :=
  match s with
  | [] => -1
  | c :: s' =>
      if bool_decide (c = "\"%byte /\ quote = double_quote) then
        match s' with
        | [] => -1
        | _ :: s'' => closing_from quote (index + 2) s''
        end
      else if bool_decide (c = quote) then index
      else closing_from quote (index + 1) s'
  end.

Definition closingQuote (quoted : bytes) : Z :=
  match quoted with
  | [] => -1
  | quote :: s => closing_from quote 1 s
  end.

Definition unquotePattern (word : bytes) : option bytes :=
  match word with
  | c :: _ => if is_quote c then Unquote word else Some word
  | [] => Some word
  end.

(** The end of the word at the start of [rest]. *)
Definition word_end (rest : bytes) : nat :=
  let end_ :=
    if match rest with c :: _ => is_quote c | [] => false end then closingQuote rest + 1
    else match IndexFunc rest IsSpace with Some i => Z.of_nat i | None => -1 end in
  if end_ <=? 0 then length rest else Z.to_nat end_.

(** The loop of [directiveWords]; [None] when the fuel is spent. *)
Fixpoint words_loop (fuel : nat) (rest : bytes) (patterns : list bytes) : option (option (list bytes)) :=
  match fuel with
  | O => None
  | S fuel =>
      match rest with
      | [] => Some (Some patterns)
      | _ =>
          match unquotePattern (take (word_end rest) rest) with
          | None => Some None
          | Some pattern =>
              words_loop fuel (TrimSpace (drop (word_end rest) rest)) (patterns ++ [pattern])
          end
      end
  end.

(** The words, or [None] for the answer [nil, false]. One round for each byte
    is enough ([words_loop_total]). *)
Definition directiveWords (arguments : bytes) : option (list bytes) :=
  match words_loop (S (length arguments)) (TrimSpace arguments) [] with
  | Some words => words
  | None => None
  end.

Definition no_directive : directive := Directive [] [].

Definition splitDirective (text : bytes) : directive :=
  let (line, isGoDirective) := CutPrefix text (B "//go:") in
  let nameEnd := match IndexFunc line IsSpace with Some i => i | None => length line end in
  match directiveWords (drop nameEnd line) with
  | None => no_directive
  | Some words =>
      if negb isGoDirective || bool_decide (nameEnd = O) then no_directive
      else Directive (take nameEnd line) words
  end.

(* ------------------------------------------------------------------ *)
(** ** Generators *)

Definition isVersionedModule (command : bytes) : bool :=
  let '(module, version, versioned) := cut_byte command "@"%byte in
  versioned && contains_byte "."%byte module && negb (has_prefix module (B ".")) && has_prefix version (B "v").

(** The loop of [isFlagList], over what is left of the arguments. *)
Fixpoint isFlagList (arguments : list bytes) : bool :=
  match arguments with
  | [] => true
  | argument :: rest =>
      if negb (has_prefix argument (B "-")) then false
      else
        let takesNextValue := negb (contains_byte "="%byte argument) in
        match rest with
        | next :: rest' => if takesNextValue && negb (has_prefix next (B "-")) then isFlagList rest' else isFlagList rest
        | [] => isFlagList rest
        end
  end.

(** The loop of [outputFlagValues]. *)
Fixpoint outputFlagValues (arguments : list bytes) : list bytes :=
  match arguments with
  | [] => []
  | argument :: rest =>
      let '(flagName, value, hasValue) := cut_byte argument "="%byte in
      if bool_decide (flagName <> B "-output" /\ flagName <> B "-o") then outputFlagValues rest
      else if hasValue : bool then value :: outputFlagValues rest
      else match rest with
           | next :: _ => next :: outputFlagValues rest
           | [] => outputFlagValues rest
           end
  end.

(** One line of go.mod: whether the scan is inside a tool block, and the tools so far. *)
Definition manifest_line (st : bool * list bytes) (line : bytes) : bool * list bytes :=
  let (inToolBlock, tools) := st in
  match Fields line with
  | [] => st
  | word :: words =>
      if inToolBlock && bool_decide (word = B ")") then (false, tools)
      else if inToolBlock then (inToolBlock, tools ++ [word; Base word])
      else if bool_decide (word = toolDirective) then
        match words with
        | [argument] =>
            if bool_decide (argument = B "(") then (true, tools)
            else (inToolBlock, tools ++ [argument; Base argument])
        | _ => st
        end
      else st
  end.

Definition manifest_tools (manifest : bytes) : list bytes := (foldl manifest_line (false, []) (Lines manifest)).2.

Definition isSetting `{Unicode} (argument : bytes) : bool :=
  let '(key, value, hasValue) := cut_byte argument "="%byte in
  hasValue && negb (bool_decide (key = [])) && negb (bool_decide (value = []))
  && negb (ContainsFunc key (fun letter => negb (IsLower letter) && negb (IsDigit letter))).

Section file_system.
Context `{FileSystem} `{Unicode}.

(** [filepath.Abs] *)
Definition Abs (path : bytes) : option bytes :=
  if is_rooted path then Some (Clean path)
  else wd ← Getwd; Some (Join [wd; path]).

(** The loop of [moduleRoot]; the outer [None] when the fuel is spent. *)
Fixpoint root_loop (fuel : nat) (current : bytes) : option (option bytes) :=
  match fuel with
  | O => None
  | S fuel =>
      if bool_decide (is_Some (Stat (Join [current; B "go.mod"]))) then Some (Some current)
      else if bool_decide (Dir current = current) then Some None
      else root_loop fuel (Dir current)
  end.

(** The ancestors of a path are fewer than its bytes and one ([root_loop_total]). *)
Definition moduleRoot (directory : bytes) : option bytes :=
  absolute ← Abs directory;
  match root_loop (S (S (length absolute))) absolute with
  | Some root => root
  | None => None
  end.

Definition declaredTools (directory : bytes) : list bytes :=
  match moduleRoot directory with
  | None => []
  | Some root =>
      match ReadFile (Join [root; B "go.mod"]) with
      | None => []
      | Some manifest => manifest_tools manifest
      end
  end.

Definition isLocalPackage (directory command : bytes) : bool :=
  if bool_decide (command <> B ".") && negb (has_prefix command (B "./")) && negb (has_prefix command (B "../"))
  then false
  else bool_decide (Stat (Join [directory; command]) = Some true).

Definition isPinnedGenerator (directory : bytes) (arguments : list bytes) : bool :=
  match arguments with
  | go :: verb :: command :: flags =>
      if bool_decide (go <> B "go") || negb (isFlagList flags) then false
      else if bool_decide (verb = B "run") then isVersionedModule command || isLocalPackage directory command
      else if bool_decide (verb = toolDirective) then bool_decide (command ∈ declaredTools directory)
      else false
  | _ => false
  end.

Definition matchesAFile (directory pattern : bytes) : bool :=
  match Glob (Join [directory; TrimPrefix pattern (B "all:")]) with
  | Some (_ :: _) => true
  | _ => false
  end.

Definition isKnownDirective (directory text : bytes) : bool :=
  let found := splitDirective text in
  let arguments := arguments found in
  if bool_decide (name found ∈ [B "noinline"; B "nosplit"; B "noescape"; B "norace"; B "uintptrescapes"])
  then bool_decide (arguments = [])
  else if bool_decide (name found = B "build") then constraint_Parse text
  else if bool_decide (name found = B "generate") then isPinnedGenerator directory arguments
  else if bool_decide (name found = B "embed") then
    negb (bool_decide (arguments = [])) && negb (existsb (fun pattern => negb (matchesAFile directory pattern)) arguments)
  else if bool_decide (name found = B "fix") then bool_decide (arguments = [B "inline"])
  else if bool_decide (name found = B "debug") then
    match arguments with
    | [argument] => isSetting argument
    | _ => false
    end
  else false.

(** A parsed file, with its path. *)
Record parsedFile := ParsedFile { path : bytes; file : File }.

(** The outputs one comment line names. *)
Definition line_outputs (directory : bytes) (line : Comment) : list bytes :=
  let found := splitDirective (Comment_Text line) in
  if bool_decide (name found = B "generate") && isKnownDirective directory (Comment_Text line)
  then outputFlagValues (arguments found) else [].

Definition file_outputs (candidate : parsedFile) : list bytes :=
  if IsGenerated (file candidate) then []
  else concat ((fun group => concat (line_outputs (Dir (path candidate)) <$> group_List group))
                 <$> Comments (file candidate)).

Definition generatorOutputs (parsed : list parsedFile) : list bytes := concat (file_outputs <$> parsed).
End file_system.

(* ------------------------------------------------------------------ *)
(** ** Termination of the loops *)

(** The rounds of the loop of [directiveWords]: [words_run n rest patterns
    result] when [n] rounds from [rest] on, with [patterns] read before, end in
    [result]. *)
Inductive words_run : nat -> bytes -> list bytes -> option (list bytes) -> Prop :=
| words_end patterns :
    words_run 0 [] patterns (Some patterns)
| words_fail rest patterns :
    rest <> [] -> unquotePattern (take (word_end rest) rest) = None ->
    words_run 1 rest patterns None
| words_round n rest patterns pattern result :
    rest <> [] -> unquotePattern (take (word_end rest) rest) = Some pattern ->
    words_run n (TrimSpace (drop (word_end rest) rest)) (patterns ++ [pattern]) result ->
    words_run (S n) rest patterns result.

(** A round consumes at least a byte. *)
Lemma word_end_positive rest : rest <> [] -> (0 < word_end rest)%nat.
Proof.
  intros Hr. unfold word_end. cbv zeta.
  match goal with |- context [if ?e <=? 0 then _ else _] => destruct (Z.leb_spec e 0) end; [|lia]. destruct rest; [done|cbn; lia].
Qed.

Lemma round_shorter rest :
  rest <> [] -> (length (TrimSpace (drop (word_end rest) rest)) < length rest)%nat.
Proof.
  intros Hr. pose proof (TrimSpace_length (drop (word_end rest) rest)) as Ht.
  rewrite length_drop in Ht. pose proof (word_end_positive rest Hr). destruct rest; [done|cbn in *; lia].
Qed.

Lemma words_loop_total fuel rest patterns :
  (length rest < fuel)%nat ->
  exists n result, words_loop fuel rest patterns = Some result /\ words_run n rest patterns result
                   /\ (n <= length rest)%nat.
Proof.
  revert rest patterns. induction fuel as [|fuel IH]; intros rest patterns Hf; [lia|].
  destruct rest as [|c rest]; [exists 0%nat; eexists; split_and!; [done|constructor|done]|].
  cbn [words_loop]. remember (c :: rest) as r eqn:Er. assert (r <> []) as Hr by (by subst).
  destruct (unquotePattern (take (word_end r) r)) as [pattern|] eqn:Hp.
  - pose proof (round_shorter r Hr). destruct (IH (TrimSpace (drop (word_end r) r)) (patterns ++ [pattern])) as (n & result & E & R & Hn); [lia|].
    exists (S n), result. split_and!; [done|by econstructor|lia].
  - exists 1%nat, None. split_and!; [done|by constructor|subst; cbn; lia].
Qed.

Lemma directiveWords_unfold arguments :
  exists n, words_run n (TrimSpace arguments) [] (directiveWords arguments) /\ (n <= length arguments)%nat.
Proof.
  unfold directiveWords. pose proof (TrimSpace_length arguments).
  destruct (words_loop_total (S (length arguments)) (TrimSpace arguments) []) as (n & r & -> & R & Hn); [lia|].
  exists n. split; [done|lia].
Qed.

(** Once enough, fuel does not matter. *)
Lemma words_run_deterministic n m rest patterns r r' :
  words_run n rest patterns r -> words_run m rest patterns r' -> r = r' /\ n = m.
Proof.
  intros R. revert m r'. induction R; inversion 1; subst; simplify_eq; [done..|].
  match goal with H : words_run _ (TrimSpace _) _ r' |- _ => apply IHR in H as [-> ->] end. done.
Qed.

Section roots.
Context `{FileSystem}.

(** The ancestors of a path: the path, its parent, and so on. *)
Fixpoint ancestor (n : nat) (p : bytes) : bytes :=
  match n with
  | O => p
  | S n => ancestor n (Dir p)
  end.

Lemma ancestor_fixed n p : Dir p = p -> ancestor n p = p.
Proof. intros E. induction n as [|n IH]; [done|]. cbn. by rewrite E. Qed.

Definition hasManifest (p : bytes) : Prop := is_Some (Stat (Join [p; B "go.mod"])).

Lemma root_loop_fixed fuel p : (0 < fuel)%nat -> Dir p = p -> exists r, root_loop fuel p = Some r.
Proof.
  intros Hf E. destruct fuel as [|fuel]; [lia|]. cbn. case_bool_decide; [eauto|].
  rewrite bool_decide_eq_true_2 by done. eauto.
Qed.

Lemma root_loop_total fuel p : (S (length p) < fuel)%nat -> exists r, root_loop fuel p = Some r.
Proof.
  revert p. induction fuel as [|fuel IH]; intros p Hf; [lia|]. cbn.
  case_bool_decide; [eauto|]. case_bool_decide as E; [eauto|].
  destruct (Dir_cases p) as [Hd|[Hd|Hd]]; [apply root_loop_fixed; [lia|by rewrite Hd]..|].
  apply IH. lia.
Qed.

(** What the loop answers, if it answers: the nearest ancestor with a manifest. *)
Lemma root_loop_nearest fuel p r :
  root_loop fuel p = Some r ->
  match r with
  | Some root => exists n, root = ancestor n p /\ hasManifest root /\ forall k, (k < n)%nat -> ~ hasManifest (ancestor k p)
  | None => forall n, ~ hasManifest (ancestor n p)
  end.
Proof.
  revert p. induction fuel as [|fuel IH]; intros p; [done|]. cbn.
  case_bool_decide as Hm; [|case_bool_decide as Hd].
  - intros [= <-]. exists 0%nat. split_and!; [done|done|lia].
  - intros [= <-] n. by rewrite ancestor_fixed.
  - intros E. specialize (IH _ E). destruct r as [root|].
    + destruct IH as (n & -> & Hr & Hn). exists (S n). split_and!; [done..|].
      intros [|k] Hk; [done|]. apply Hn. lia.
    + intros [|n]; [done|]. apply IH.
Qed.
End roots.

(* ------------------------------------------------------------------ *)
(** ** Spelling a word *)

Section spelling.
Context `{Unicode}.

Lemma closing_inner q i s u :
  Forall (fun c => c <> q /\ c <> "\"%byte) s -> closing_from q i (s ++ u) = closing_from q (i + len s) u.
Proof.
  intros Hs. revert i. induction Hs as [|c s [Hq Hb] Hs IH]; intros i; [by rewrite Z.add_0_r|].
  cbn [app closing_from]. rewrite !bool_decide_eq_false_2 by tauto. rewrite IH. f_equal. unfold len. cbn [length]. lia.
Qed.

(** The ways to write a word: as it is, when it has no white space and starts with
    no quote, or in double quotes or backquotes, in any way [strconv.Unquote]
    reads as the word. *)
Inductive spelled (word : bytes) : bytes -> Prop :=
| spelled_bare c s :
    word = c :: s -> is_quote c = false -> text_of solid word -> spelled word word
| spelled_quoted t :
    Unquote t = Some word -> spelled word t.

(** Every string can be written as a word: [%q] does. *)
Lemma spelled_quote word : spelled word (quote word).
Proof. apply spelled_quoted, Unquote_quote. Qed.

Lemma closing_raw word i u : backquote ∉ word -> closing_from backquote i (word ++ backquote :: u) = i + len word.
Proof.
  revert i. induction word as [|c word IH]; intros i Hw; cbn [app closing_from].
  - rewrite bool_decide_eq_false_2 by (by intros []). rewrite bool_decide_eq_true_2 by done. unfold len. cbn [length]. lia.
  - apply not_elem_of_cons in Hw as [Hc Hw]. rewrite bool_decide_eq_false_2 by (by intros []).
    rewrite bool_decide_eq_false_2 by congruence. rewrite IH by done. unfold len. cbn [length]. lia.
Qed.

(** What [strconv.Unquote] reads up to the closing quote, [closingQuote] passes
    over. *)
Lemma unquote_closing fuel s v rest :
  unquote_from fuel s = Some (v, rest) ->
  exists body, s = body ++ double_quote :: rest
    /\ forall i u, closing_from double_quote i (body ++ double_quote :: u) = i + len body.
Proof.
  revert s v rest. induction fuel as [|fuel IH]; intros s v rest; [done|]. cbn [unquote_from].
  destruct s as [|c s]; [done|]. case_bool_decide as Hq; [|case_bool_decide as Hn; [done|case_bool_decide as Hb]].
  - intros [= <- <-]. exists []. subst c. split; [done|]. intros i u.
    cbn [app closing_from]. rewrite bool_decide_eq_false_2 by (by intros []).
    rewrite bool_decide_eq_true_2 by done. unfold len. cbn. lia.
  - destruct (unquote_escape s) as [[v1 r1]|] eqn:Ee; [|done]. cbn.
    destruct (unquote_from fuel r1) as [[v2 r2]|] eqn:Ef; [|done]. intros [= <- <-].
    apply unquote_escape_inner in Ee as (d & e & -> & He). apply IH in Ef as (body & -> & Hc).
    exists (c :: d :: e ++ body). split; [cbn; by rewrite <-app_assoc|]. intros i u. subst c.
    cbn [app closing_from]. rewrite bool_decide_eq_true_2 by done. rewrite <-app_assoc, closing_inner by done.
    rewrite Hc. unfold len. cbn [length]. rewrite length_app. lia.
  - destruct (decode_rune c s) as [r w] eqn:D.
    assert (exists e, c :: s = e ++ drop w (c :: s) /\ Forall inner e) as (e & E & He).
    { destruct r as [r|b].
      - pose proof (decode_rune_width _ _ _ _ D) as Hw. apply decode_rune_good in D as [V E].
        exists (encode_rune r). destruct w as [|w]; [lia|]. cbn [drop]. rewrite Nat.sub_succ, Nat.sub_0_r in E.
        split; [done|]. apply encode_rune_inner; [done|..]; intros ->; injection E as E _; by destruct (Hq E) || by destruct (Hb E).
      - apply decode_rune_bad in D as [-> ->]. exists [c]. split; [done|]. by repeat constructor. }
    destruct (unquote_from fuel (drop w (c :: s))) as [[v2 r2]|] eqn:Ef; [|done]. cbn. intros [= <- <-].
    apply IH in Ef as (body & Hd & Hc). exists (e ++ body). rewrite E, Hd, <-app_assoc. split; [done|].
    intros i u. rewrite <-app_assoc, closing_inner, Hc by done. unfold len. rewrite length_app. lia.
Qed.

(** A text [strconv.Unquote] reads is quoted, and [closingQuote] finds its end. *)
Lemma Unquote_closing t word :
  Unquote t = Some word ->
  exists q body, is_quote q = true /\ t = q :: body ++ [q]
    /\ forall u, closing_from q 1 (body ++ q :: u) = 1 + len body.
Proof.
  intros Hu. destruct t as [|q s]; [done|]. destruct (is_quote q) eqn:Hq.
  - apply bool_decide_eq_true in Hq as [-> | ->]; cbn -[unquote_from] in Hu.
    + destruct (unquote_from _ s) as [[v [|]]|] eqn:E; try done.
      apply unquote_closing in E as (body & -> & Hc). exists double_quote, body. by split_and!.
    + destruct (index_byte "096"%byte s) as [i|] eqn:E; [|done]. apply index_byte_some in E as [Hn Hs].
      case_decide as Hd; [|done]. rewrite Hd in Hs. exists backquote, (take i s). split_and!; [done|by f_equal|].
      intros u. by apply closing_raw.
  - exfalso. apply bool_decide_eq_false in Hq. destruct q; try done; apply Hq; [by left|by right].
Qed.

Lemma word_end_spelled word t u : spelled word t -> ends_word u -> word_end (t ++ u) = length t.
Proof.
  intros Ht Hu. unfold word_end. destruct Ht as [c s Hw Hq Hg|t Ht].
  - assert (match word ++ u with c :: _ => is_quote c | [] => false end = false) as -> by (by rewrite Hw).
    pose proof (IndexFunc_solid word u Hg Hu) as Hi. destruct (IndexFunc (word ++ u) IsSpace) as [i|].
    + subst i. destruct (Z.leb_spec (Z.of_nat (length word)) 0); [|lia]. rewrite Hw in *. cbn in *; lia.
    + subst u. by rewrite app_nil_r.
  - apply Unquote_closing in Ht as (q & body & Hq & -> & Hc). rewrite <-app_comm_cons, <-app_assoc. cbn [app].
    rewrite Hq. cbn [closingQuote]. rewrite Hc. unfold len. cbn [length]. rewrite !length_app. cbn [length].
    match goal with |- context [?e <=? 0] => destruct (Z.leb_spec e 0) end; lia.
Qed.

Lemma unquotePattern_spelled word t : spelled word t -> unquotePattern t = Some word.
Proof.
  intros [c s -> Hq _|t' Ht]; cbn; [by rewrite Hq|].
  pose proof (Unquote_closing _ _ Ht) as (q & body & Hq & -> & _). cbn. by rewrite Hq.
Qed.

Lemma quote_solid q : is_quote q = true -> exists r, [q] = encode_rune r /\ valid_rune r = true /\ solid r.
Proof. intros [-> | ->]%bool_decide_eq_true; [by exists 34|by exists 96]. Qed.

Lemma spelled_framed word t : spelled word t -> framed t.
Proof.
  intros [c s Hw _ Hg|t' Ht]; [apply solid_framed; [done|by rewrite Hw]|].
  apply Unquote_closing in Ht as (q & body & (r & E & V & Hr)%quote_solid & -> & _). split.
  - exists r, (body ++ [q]). by rewrite <-E.
  - exists (q :: body), r. by rewrite <-E.
Qed.

(** Words written one after the other, with white space between them. *)
Inductive spelled_words : list bytes -> bytes -> Prop :=
| spelled_one word t :
    spelled word t -> spelled_words [word] t
| spelled_more word t white words text :
    spelled word t -> white <> [] -> text_of space white -> spelled_words words text ->
    spelled_words (word :: words) (t ++ white ++ text).

Lemma spelled_words_framed words text : spelled_words words text -> framed text.
Proof. induction 1; [by eapply spelled_framed|]. apply framed_app; [by eapply spelled_framed|done]. Qed.

Lemma framed_not_nil s : framed s -> s <> [].
Proof.
  intros [(r & t & -> & V & _) _] [E _]%app_eq_nil. pose proof (encode_rune_nonempty r) as Hl. rewrite E in Hl. cbn in Hl. lia.
Qed.

(** White space ends a word. *)
Lemma white_ends white t : white <> [] -> text_of space white -> ends_word (white ++ t).
Proof.
  intros Hne Hw. right. destruct Hw as [|r w V Hr _]; [done|]. exists r, (w ++ t). by rewrite app_assoc.
Qed.

(** A round of the loop reads one spelled word. *)
Lemma words_loop_word fuel word t u patterns :
  spelled word t -> ends_word u ->
  words_loop (S fuel) (t ++ u) patterns = words_loop fuel (TrimSpace u) (patterns ++ [word]).
Proof.
  intros Ht Hu. cbn [words_loop]. rewrite (word_end_spelled word t u Ht Hu), take_app_length, drop_app_length.
  rewrite (unquotePattern_spelled word t Ht).
  destruct (t ++ u) as [|c s] eqn:E; [|done].
  apply app_eq_nil in E as [-> _]. by apply spelled_framed, framed_not_nil in Ht.
Qed.

Lemma words_loop_spelled fuel words text patterns :
  spelled_words words text -> (length words < fuel)%nat ->
  words_loop fuel text patterns = Some (Some (patterns ++ words)).
Proof.
  intros Hw. revert fuel patterns. induction Hw as [word t Ht|word t white words text Ht Hne Hb Hw IH];
    intros [|fuel] patterns Hf; cbn in Hf; [lia| |lia|].
  - rewrite <-(app_nil_r t), (words_loop_word fuel word t) by (try done; by left).
    destruct fuel; [lia|done].
  - rewrite (words_loop_word fuel word t) by (try done; by apply white_ends).
    pose proof (spelled_words_framed _ _ Hw) as Hfr.
    rewrite <-(app_nil_r text), (TrimSpace_framed white text []) by (try done; constructor).
    rewrite IH by lia. by rewrite <-app_assoc.
Qed.

Lemma spelled_words_length words text : spelled_words words text -> (length words <= length text)%nat.
Proof.
  assert (forall word t, spelled word t -> (1 <= length t)%nat) as H1.
  { intros word t Ht%spelled_framed%framed_not_nil. destruct t; [done|cbn; lia]. }
  induction 1 as [word t Ht|word t white words text Ht _ _ _ IH]; [by eapply H1|].
  cbn. rewrite !length_app. specialize (H1 word t Ht). lia.
Qed.

Lemma directiveWords_blank b : text_of space b -> directiveWords b = Some [].
Proof. intros Hb. unfold directiveWords. by rewrite TrimSpace_space. Qed.

Lemma directiveWords_spelled a words text b :
  text_of space a -> spelled_words words text -> text_of space b ->
  directiveWords (a ++ text ++ b) = Some words.
Proof.
  intros Ha Hw Hb. unfold directiveWords. pose proof (spelled_words_length words text Hw).
  rewrite TrimSpace_framed by (try done; by eapply spelled_words_framed).
  rewrite words_loop_spelled with (words := words) by (rewrite ?length_app; first [done|lia]). done.
Qed.
End spelling.

(** C21. The loop of [directiveWords] ends after at most as many rounds as the
    text has bytes, on every text, and its answer is the one of its rounds: each
    round consumes at least a byte, whatever quotes, bytes outside UTF-8 or white
    space the text has. *)
Theorem directiveWords_terminates (arguments : bytes) :
  exists n, words_run n (TrimSpace arguments) [] (directiveWords arguments)
            /\ (n <= length arguments)%nat
            /\ forall m r, words_run m (TrimSpace arguments) [] r -> r = directiveWords arguments /\ m = n.
Proof.
  destruct (directiveWords_unfold arguments) as (n & R & Hn). exists n. split_and!; [done..|].
  intros m r R'. by destruct (words_run_deterministic _ _ _ _ _ _ R' R).
Qed.

(** C24. [moduleRoot] ends on every path, and answers the nearest ancestor of the
    absolute directory that holds a go.mod, or that no ancestor does; without an
    absolute directory there is none. *)
Theorem moduleRoot_nearest `{FileSystem} (directory : bytes) :
  match Abs directory, moduleRoot directory with
  | Some absolute, Some root =>
      exists n, root = ancestor n absolute /\ hasManifest root
                /\ forall k, (k < n)%nat -> ~ hasManifest (ancestor k absolute)
  | Some absolute, None => forall n, ~ hasManifest (ancestor n absolute)
  | None, root => root = None
  end.
Proof.
  unfold moduleRoot. destruct (Abs directory) as [absolute|]; [|done]. cbn [mbind option_bind].
  destruct (root_loop_total (S (S (length absolute))) absolute) as [r E]; [lia|].
  rewrite E. apply root_loop_nearest in E. by destruct r.
Qed.

(** C22. A directive line is read back whatever way its words are written: each
    as it is, if it has no white space and starts with no quote, or in double
    quotes or backquotes in any way [strconv.Unquote] reads as the word, with any
    white space of Unicode between them and around, and none at all when there are
    no words. So every string can be written as a word ([spelled_quote]), and no
    spelling changes the words the checker sees. Texts are valid UTF-8, as Go
    source is. *)
Theorem directive_round_trip `{Unicode} nm white words text b :
  nm <> [] -> text_of solid nm -> text_of space b ->
  splitDirective (B "//go:" ++ nm ++ b) = Directive nm []
  /\ (white <> [] -> text_of space white -> spelled_words words text ->
      splitDirective (B "//go:" ++ nm ++ white ++ text ++ b) = Directive nm words).
Proof.
  intros Hn Hg Hb. assert (forall rest words', ends_word rest -> directiveWords rest = Some words' ->
    splitDirective (B "//go:" ++ nm ++ rest) = Directive nm words') as Hsplit.
  { intros rest words' He Hw. unfold splitDirective. rewrite CutPrefix_app.
    pose proof (IndexFunc_solid nm rest Hg He) as Hi. rewrite bool_decide_eq_false_2.
    - destruct (IndexFunc (nm ++ rest) IsSpace) as [i|].
      + subst i. by rewrite drop_app_length, take_app_length, Hw.
      + subst rest. rewrite app_nil_r, drop_all, take_ge, Hw by done. done.
    - destruct (IndexFunc (nm ++ rest) IsSpace) as [i|]; [subst i|subst rest; rewrite app_nil_r]; by destruct nm. }
  split.
  - apply Hsplit; [|by apply directiveWords_blank]. destruct (decide (b = [])) as [->|]; [by left|].
    rewrite <-(app_nil_r b). by apply white_ends.
  - intros Hne Hwhite Hw. apply Hsplit; [by apply white_ends|by apply directiveWords_spelled].
Qed.

(* ------------------------------------------------------------------ *)
(** ** Flags and generators *)

(** A flag, and a flag that may take the next argument as its value. *)
Definition isFlag (argument : bytes) : Prop := exists rest, argument = "-"%byte :: rest.
Definition takesValue (argument : bytes) : Prop := isFlag argument /\ "="%byte ∉ argument.

(** A list of flags, by the neighbours of each argument: every argument is a
    flag, or the value of the flag before it. *)
Definition FlagList (arguments : list bytes) : Prop :=
  forall i argument, arguments !! i = Some argument ->
    isFlag argument \/ exists j flag, i = S j /\ arguments !! j = Some flag /\ takesValue flag.

Lemma is_flag_spec argument : has_prefix argument (B "-") = true <-> isFlag argument.
Proof.
  rewrite has_prefix_spec. unfold isFlag. split; intros [rest ->]; eauto.
Qed.

Lemma is_flag_false argument : has_prefix argument (B "-") = false <-> ~ isFlag argument.
Proof. rewrite <-is_flag_spec. by destruct (has_prefix argument (B "-")). Qed.

Lemma FlagList_nil : FlagList [].
Proof. intros i argument. by rewrite lookup_nil. Qed.

Lemma FlagList_head argument rest : FlagList (argument :: rest) -> isFlag argument.
Proof. intros Hf. destruct (Hf 0%nat argument eq_refl) as [?|(j & flag & ? & _)]; [done|lia]. Qed.

Lemma FlagList_skip argument next rest :
  takesValue argument -> ~ isFlag next -> FlagList (argument :: next :: rest) <-> FlagList rest.
Proof.
  intros Ha Hn. split; intros Hf i x Hx.
  - destruct (Hf (S (S i)) x Hx) as [?|(j & flag & [= <-] & Hl & Ht)]; [by left|].
    destruct i as [|i]; cbn in Hl; [|right; eauto]. injection Hl as <-. by destruct Ht.
  - destruct i as [|[|i]]; cbn in Hx; [injection Hx as <-; left; apply Ha|injection Hx as <-; right; eauto 10|].
    destruct (Hf i x Hx) as [?|(j & flag & -> & Hl & Ht)]; [by left|right]. by exists (S (S j)), flag.
Qed.

Lemma FlagList_tail argument rest :
  isFlag argument ->
  (match rest with next :: _ => isFlag next | [] => True end \/ ~ takesValue argument) ->
  FlagList (argument :: rest) <-> FlagList rest.
Proof.
  intros Ha Hn. split; intros Hf i x Hx.
  - destruct (Hf (S i) x Hx) as [?|(j & flag & [= <-] & Hl & Ht)]; [by left|].
    destruct i as [|i]; cbn in Hl; [|right; eauto]. injection Hl as <-.
    destruct rest as [|next rest]; [done|]. injection Hx as <-. left. tauto.
  - destruct i as [|i]; cbn in Hx; [injection Hx as <-; by left|].
    destruct (Hf i x Hx) as [?|(j & flag & -> & Hl & Ht)]; [by left|right]. by exists (S j), flag.
Qed.

(** The index loop of [isFlagList], which steps over the value of a flag, decides
    the property of the argument list that needs no loop. *)
Lemma isFlagList_correct arguments : isFlagList arguments = true <-> FlagList arguments.
Proof.
  remember (length arguments) as n eqn:En. revert arguments En.
  induction (lt_wf n) as [n _ IH]; intros [|argument rest] ->; [split; [intros _; apply FlagList_nil|done]|].
  cbn [isFlagList]. destruct (has_prefix argument (B "-")) eqn:Ha; cbn [negb].
  2: { apply is_flag_false in Ha. split; [done|]. by intros ?%FlagList_head. }
  apply is_flag_spec in Ha. assert (forall l, (length l < length (argument :: rest))%nat -> isFlagList l = true <-> FlagList l) as IHl
    by (intros l Hl; by apply (IH (length l))).
  destruct rest as [|next rest]; [rewrite FlagList_tail by tauto; apply IHl; cbn; lia|].
  destruct (negb (contains_byte "="%byte argument) && negb (has_prefix next (B "-"))) eqn:E.
  - apply andb_prop in E as [He%negb_true_iff Hp%negb_true_iff].
    apply is_flag_false in Hp. unfold contains_byte in He. apply bool_decide_eq_false in He.
    rewrite FlagList_skip by done. apply IHl. cbn. lia.
  - rewrite FlagList_tail; [apply IHl; cbn; lia|done|].
    apply andb_false_iff in E as [He%negb_false_iff|Hp%negb_false_iff].
    + right. intros [_ Hne]. unfold contains_byte in He. by apply bool_decide_eq_true in He.
    + left. by apply is_flag_spec.
Qed.

(* ------------------------------------------------------------------ *)
(** ** The tools of a go.mod *)

(** The directives of a go.mod, by what they mean to the checker: a tool, a block
    of tools, or anything else. *)
Inductive manifest_entry : Type :=
| OtherLine (words : list bytes)
| ToolLine (tool : bytes)
| ToolBlock (tools : list bytes).

Definition manifest_text_line (words : list bytes) : bytes := join (B " ") words ++ [newline].

Definition entry_lines (entry : manifest_entry) : list (list bytes) :=
  match entry with
  | OtherLine words => [words]
  | ToolLine tool => [[toolDirective; tool]]
  | ToolBlock tools => [[toolDirective; B "("]] ++ map (fun tool => [tool]) tools ++ [[B ")"]]
  end.

Definition entry_ok (entry : manifest_entry) : Prop :=
  Forall (Forall is_word) (entry_lines entry)
  /\ match entry with
     | OtherLine words => head words <> Some toolDirective
     | ToolLine tool => tool <> B "("
     | ToolBlock tools => B ")" ∉ tools
     end.

Definition entry_tools (entry : manifest_entry) : list bytes :=
  match entry with
  | OtherLine _ => []
  | ToolLine tool => [tool; Base tool]
  | ToolBlock tools => concat (map (fun tool => [tool; Base tool]) tools)
  end.

Lemma Lines_manifest lines :
  Forall (Forall is_word) lines -> Lines (concat (map manifest_text_line lines)) = map manifest_text_line lines.
Proof.
  induction 1 as [|words lines Hw Hl IH]; [done|]. cbn [map concat]. unfold manifest_text_line at 1.
  rewrite <-app_assoc. cbn [app]. rewrite Lines_app by (by apply join_no_newline). by rewrite IH.
Qed.

(** A scan outside a block reads an entry and is outside a block again. *)
Lemma scan_entry entry tools :
  entry_ok entry ->
  foldl manifest_line (false, tools) (map manifest_text_line (entry_lines entry)) = (false, tools ++ entry_tools entry).
Proof.
  assert (forall words, Forall is_word words -> Fields (manifest_text_line words) = words) as Hfields
    by (intros; by apply Fields_line).
  intros [Hw Hk]. destruct entry as [words|tool|ts]; cbn [entry_lines entry_tools map foldl] in *.
  - apply Forall_cons in Hw as [Hw _]. unfold manifest_line. rewrite Hfields by done.
    destruct words as [|word words]; [by rewrite app_nil_r|]. cbn [andb].
    rewrite bool_decide_eq_false_2 by (intros ->; by destruct Hk). by rewrite app_nil_r.
  - apply Forall_cons in Hw as [Hw _]. unfold manifest_line. rewrite Hfields by done. cbn [andb].
    rewrite bool_decide_eq_true_2, bool_decide_eq_false_2 by done. done.
  - cbn [app map foldl] in *. apply Forall_cons in Hw as [Hw Hws]. unfold manifest_line at 2. rewrite Hfields by done.
    cbn [andb]. rewrite !bool_decide_eq_true_2 by done. rewrite map_app, foldl_app.
    apply Forall_app in Hws as [Hts Hend].
    assert (foldl manifest_line (true, tools) (map manifest_text_line (map (fun tool => [tool]) ts))
            = (true, tools ++ concat (map (fun tool => [tool; Base tool]) ts))) as ->.
    { clear Hw Hend. revert tools. induction ts as [|t ts IH]; intros tools; cbn [map foldl concat]; [by rewrite app_nil_r|].
      apply not_elem_of_cons in Hk as [Hne Hk]. cbn in Hts. apply Forall_cons in Hts as [Ht Hts].
      unfold manifest_line at 2. rewrite Hfields by done. cbn [andb].
      rewrite bool_decide_eq_false_2 by congruence. rewrite IH by done. by rewrite <-app_assoc. }
    apply Forall_cons in Hend as [Hend _]. cbn [map foldl]. unfold manifest_line. rewrite Hfields by done. done.
Qed.

(** The tools of a go.mod are read back from its text: each tool directive and
    each line of a tool block gives the tool and its base name, in order, and no
    other line gives any. *)
Theorem manifest_tools_exact (entries : list manifest_entry) :
  Forall entry_ok entries ->
  manifest_tools (concat (map manifest_text_line (concat (map entry_lines entries)))) = concat (map entry_tools entries).
Proof.
  intros Hok. unfold manifest_tools. rewrite Lines_manifest.
  2: { induction Hok as [|e es [Hw _] _ IH]; [constructor|]. cbn. by apply Forall_app. }
  assert (forall tools, foldl manifest_line (false, tools) (map manifest_text_line (concat (map entry_lines entries)))
          = (false, tools ++ concat (map entry_tools entries))) as E; [|by rewrite E].
  induction Hok as [|e es He _ IH]; intros tools; cbn; [by rewrite app_nil_r|].
  rewrite map_app, foldl_app, scan_entry, IH by done. by rewrite <-app_assoc.
Qed.

(* ------------------------------------------------------------------ *)
(** ** The known directives *)

Section known.
Context `{FileSystem} `{Unicode}.

(** A command with a pinned version: a module path with a dot in it, not first,
    then the first at sign, then a version. *)
Definition pinned (command : bytes) : Prop :=
  exists module version, command = module ++ "@"%byte :: "v"%byte :: version
    /\ ("@"%byte ∉ module) /\ ("."%byte ∈ module) /\ head module <> Some "."%byte.

(** A package of the repository: a directory at a relative path. *)
Definition local (directory command : bytes) : Prop :=
  (command = B "." \/ (exists p, command = B "./" ++ p) \/ exists p, command = B "../" ++ p)
  /\ Stat (Join [directory; command]) = Some true.

Definition matched (directory pattern : bytes) : Prop :=
  exists matches, Glob (Join [directory; TrimPrefix pattern (B "all:")]) = Some matches /\ matches <> [].

Definition setting (argument : bytes) : Prop :=
  exists key value, argument = key ++ "="%byte :: value /\ ("="%byte ∉ key) /\ key <> [] /\ value <> []
    /\ ContainsFunc key (fun letter => negb (IsLower letter) && negb (IsDigit letter)) = false.

Lemma isVersionedModule_spec command : isVersionedModule command = true <-> pinned command.
Proof.
  unfold isVersionedModule, pinned. destruct (cut_byte command "@"%byte) as [[module version] versioned] eqn:E.
  destruct versioned; cbn [andb].
  - apply cut_byte_true in E as [-> Hm]. rewrite !andb_true_iff, negb_true_iff. unfold contains_byte.
    change (B ".") with ["."%byte]. change (B "v") with ["v"%byte].
    rewrite (has_prefix_byte module "."%byte), (has_prefix_byte version "v"%byte), !bool_decide_eq_true, bool_decide_eq_false. split.
    + intros [[? ?] Hv]. destruct version as [|v version]; [done|]. injection Hv as ->. eauto 10.
    + intros (module' & version' & Hc & Hm' & Hd & Hh). apply app_sep_inj in Hc as [-> ->]; done.
  - apply cut_byte_false in E as (Hc & _ & _). split; [done|].
    intros (module' & version' & -> & _). destruct Hc. apply elem_of_app. right. left.
Qed.

Lemma isLocalPackage_spec directory command : isLocalPackage directory command = true <-> local directory command.
Proof.
  unfold isLocalPackage, local.
  pose proof (has_prefix_spec command (B "./")) as H1. pose proof (has_prefix_spec command (B "../")) as H2.
  destruct (has_prefix command (B "./")), (has_prefix command (B "../"));
    repeat case_bool_decide; cbn; naive_solver.
Qed.

Lemma isPinnedGenerator_spec directory words :
  isPinnedGenerator directory words = true <->
  exists verb command flags, words = B "go" :: verb :: command :: flags /\ FlagList flags
    /\ (verb = B "run" /\ (pinned command \/ local directory command)
        \/ verb = toolDirective /\ command ∈ declaredTools directory).
Proof.
  unfold isPinnedGenerator. destruct words as [|go [|verb [|command flags]]]; [split; [done|naive_solver]..|].
  pose proof (isFlagList_correct flags) as Hf.
  destruct (bool_decide_reflect (go <> B "go")) as [Hg|Hg]; cbn [orb]; [split; [done|naive_solver]|].
  apply dec_stable in Hg. subst go.
  destruct (isFlagList flags); cbn [negb]; [|split; [done|]; intros (? & ? & ? & [= <- <- <-] & Hfl & _); by apply Hf in Hfl].
  assert (FlagList flags) as Hfl by (by apply Hf). clear Hf.
  case_bool_decide as Hr; [|case_bool_decide as Ht; [rewrite bool_decide_eq_true|]].
  - subst verb. rewrite orb_true_iff, isVersionedModule_spec, isLocalPackage_spec. split; [eauto 10|].
    intros (? & ? & ? & [= <- <- <-] & _ & [[_ ?]|[? _]]); done.
  - subst verb. split; [eauto 10|]. intros (? & ? & ? & [= <- <- <-] & _ & [[? _]|[_ ?]]); done.
  - split; [done|]. intros (? & ? & ? & [= <- <- <-] & _ & [[? _]|[? _]]); done.
Qed.

Lemma matchesAFile_spec directory pattern : matchesAFile directory pattern = true <-> matched directory pattern.
Proof.
  unfold matchesAFile, matched. destruct (Glob _) as [[|m ms]|]; naive_solver.
Qed.

Lemma isSetting_spec argument : isSetting argument = true <-> setting argument.
Proof.
  unfold isSetting, setting. destruct (cut_byte argument "="%byte) as [[key value] hasValue] eqn:E.
  destruct hasValue; cbn [andb].
  - apply cut_byte_true in E as [-> Hk]. rewrite !andb_true_iff, !negb_true_iff, !bool_decide_eq_false. split.
    + intros [[? ?] ?]. eauto 10.
    + intros (key' & value' & Hc & Hk' & ? & ? & ?). apply app_sep_inj in Hc as [-> ->]; done.
  - apply cut_byte_false in E as (Hc & _ & _). split; [done|].
    intros (key' & value' & -> & _). destruct Hc. apply elem_of_app. right. left.
Qed.
Lemma embed_spec directory words :
  negb (bool_decide (words = [])) && negb (existsb (fun pattern => negb (matchesAFile directory pattern)) words) = true
  <-> words <> [] /\ Forall (matched directory) words.
Proof.
  rewrite andb_true_iff, !negb_true_iff, bool_decide_eq_false. f_equiv. rewrite Forall_forall. split.
  - intros He pattern Hp. apply matchesAFile_spec. destruct (matchesAFile directory pattern) eqn:Em; [done|].
    apply not_true_iff_false in He. destruct He. apply existsb_exists. exists pattern.
    split; [by apply list_elem_of_In|by rewrite Em].
  - intros Hm. apply not_true_iff_false. intros (pattern & Hp & Hn)%existsb_exists.
    apply list_elem_of_In, Hm, matchesAFile_spec in Hp. by rewrite Hp in Hn.
Qed.


(** The directives the checker knows in a directory, each in its form. *)
Inductive known (directory text : bytes) : directive -> Prop :=
| known_pragma nm :
    nm ∈ [B "noinline"; B "nosplit"; B "noescape"; B "norace"; B "uintptrescapes"] ->
    known directory text (Directive nm [])
| known_build words :
    build_constraint text -> known directory text (Directive (B "build") words)
| known_run command flags :
    pinned command \/ local directory command -> FlagList flags ->
    known directory text (Directive (B "generate") (B "go" :: B "run" :: command :: flags))
| known_tool command flags :
    command ∈ declaredTools directory -> FlagList flags ->
    known directory text (Directive (B "generate") (B "go" :: toolDirective :: command :: flags))
| known_embed patterns :
    patterns <> [] -> Forall (matched directory) patterns ->
    known directory text (Directive (B "embed") patterns)
| known_fix : known directory text (Directive (B "fix") [B "inline"])
| known_debug argument :
    setting argument -> known directory text (Directive (B "debug") [argument]).

Lemma isKnownDirective_correct directory text :
  isKnownDirective directory text = true <-> known directory text (splitDirective text).
Proof.
  unfold isKnownDirective. destruct (splitDirective text) as [nm words]. cbn [name arguments].
  split.
  - case_bool_decide as Hn; [intros ->%bool_decide_eq_true; by apply known_pragma|clear Hn].
    destruct (bool_decide_reflect (nm = B "build")) as [->|_]; [intros ?%constraint_Parse_spec; by apply known_build|].
    destruct (bool_decide_reflect (nm = B "generate")) as [->|_].
    { intros (verb & command & flags & -> & Hf & [[-> Hr]|[-> Ht]])%isPinnedGenerator_spec;
        [by apply known_run|by apply known_tool]. }
    destruct (bool_decide_reflect (nm = B "embed")) as [->|_].
    { rewrite embed_spec. intros [Hne Hm]. by apply known_embed. }
    destruct (bool_decide_reflect (nm = B "fix")) as [->|_]; [intros ->%bool_decide_eq_true; apply known_fix|].
    destruct (bool_decide_reflect (nm = B "debug")) as [->|_]; [|done].
    destruct words as [|argument [|]]; [done| |done]. intros ?%isSetting_spec. by apply known_debug.
  - intros K. inversion K; subst; clear K.
    + by rewrite bool_decide_eq_true_2, bool_decide_eq_true_2.
    + by apply constraint_Parse_spec.
    + apply isPinnedGenerator_spec. eauto 10.
    + apply isPinnedGenerator_spec. eauto 10.
    + cbn. by apply embed_spec.
    + done.
    + by apply isSetting_spec.
Qed.
End known.

Lemma splitDirective_prefix text :
  name (splitDirective text) <> [] -> exists rest, text = B "//go:" ++ name (splitDirective text) ++ rest.
Proof.
  unfold splitDirective. destruct (CutPrefix text (B "//go:")) as [line isGo] eqn:E.
  destruct (directiveWords _); [|done]. destruct isGo; [|done]. cbn [negb orb].
  case_bool_decide; [done|]. intros _. apply CutPrefix_true in E as ->. eexists. cbn [name].
  by rewrite take_drop.
Qed.

(** C17. The directives [isKnownDirective] accepts are exactly those of the
    closed list [known], each in its form: the five pragmas without arguments, a
    build constraint that parses, a generator run at a pinned version, from a
    directory of the repository or by a declared tool, with flags only after it,
    an embed whose every pattern matches a file, [fix inline] and one debug
    setting. So no other comment line is ever a known directive, and a known
    directive is a [//go:] line with its name right after the colon. *)
Theorem known_directives_exact `{FileSystem} `{Unicode} directory text :
  (isKnownDirective directory text = true
   <-> known directory text (splitDirective text))
  /\ (isKnownDirective directory text = true ->
      exists rest, text = B "//go:" ++ name (splitDirective text) ++ rest).
Proof.
  split; [apply isKnownDirective_correct|]. intros K%isKnownDirective_correct.
  apply splitDirective_prefix. destruct K as [nm Hn| | | | | |]; cbn; [|done..].
  rewrite !elem_of_cons in Hn. by destruct Hn as [->|[->|[->|[->|[->|?%not_elem_of_nil]]]]].
Qed.

(* ------------------------------------------------------------------ *)
(** ** Examples and witnesses *)

#[local] Definition tables : Unicode :=
  {| print_table _ := false; upper_table _ := false; lower_table _ := false; digit_table _ := false; letter_table _ := false |}.

#[local] Existing Instance tables.

(** A module at /r with one tool, read from its directory /r/a. *)
Definition sample_files : FileSystem := {|
  Getwd := Some (B "/r");
  Stat p := if bool_decide (p = B "/r/go.mod") then Some false
            else if bool_decide (p = B "a/gen") then Some true else None;
  ReadFile p := if bool_decide (p = B "/r/go.mod") then Some (B "module x" ++ ["010"%byte] ++ B "tool q.dev/stringer") else None;
  Glob p := if bool_decide (p = B "a/x.txt") then Some [p] else Some []
|}.

#[local] Existing Instance sample_files.

Example known_examples :
  map (isKnownDirective (B "a"))
    [B "//go:noinline"; B "//go:noinline x"; B "// go:noinline"; B "//go:linkname a b"; B "//go:generate go tool stringer -o=x.go";
     B "//go:generate go run x.dev/y@v1.2 -o out.go"; B "//go:generate go run x.dev/y@latest"; B "//go:generate go run ./gen -a b c";
     B "//go:generate go run ./gen -a b"; B "//go:embed x.txt"; B "//go:embed x.txt y.txt"; B "//go:fix inline"; B "//go:debug a=1";
     B "//go:build !linux || (a && b)"; B "//go:build !linux ||"]
  = [true; false; false; false; true; true; false; false; true; true; false; true; true; true; false].
Proof. vm_compute. reflexivity. Qed.

(** A name, a line separator, a quotation with an escape [%q] would not write, a
    no-break space, a bare word outside ASCII, and an empty raw word. *)
Definition sample_spelling : bytes :=
  ["034"; "a"; "\"; "0"; "4"; "0"; "b"; "034"]%byte ++ encode_rune 0xA0 ++ encode_rune 0xE9 ++ B " " ++ ["096"; "096"]%byte.

Lemma text_of_encode (P : Z -> Prop) r : valid_rune r = true -> P r -> text_of P (encode_rune r).
Proof. intros V Hr. rewrite <-(app_nil_r (encode_rune r)). by repeat constructor. Qed.

Lemma sample_spelled : spelled_words [B "a b"; encode_rune 0xE9; []] sample_spelling.
Proof.
  apply spelled_more; [by apply spelled_quoted|done|by apply text_of_encode|].
  apply spelled_more; [|done|by apply text_of_ascii; repeat constructor|by apply spelled_one, spelled_quoted].
  eapply spelled_bare; [reflexivity|reflexivity|by apply text_of_encode].
Qed.

Lemma directive_round_trip_witness :
  splitDirective (B "//go:" ++ B "embed" ++ B " ") = Directive (B "embed") []
  /\ splitDirective (B "//go:" ++ B "embed" ++ encode_rune 0x2028 ++ sample_spelling ++ B " ")
     = Directive (B "embed") [B "a b"; encode_rune 0xE9; []].
Proof.
  destruct (directive_round_trip (B "embed") (encode_rune 0x2028) [B "a b"; encode_rune 0xE9; []] sample_spelling (B " "))
    as [H1 H2].
  - done.
  - apply text_of_ascii. by repeat constructor.
  - apply text_of_ascii. by repeat constructor.
  - split; [exact H1|]. apply H2; [done|by apply text_of_encode|apply sample_spelled].
Defined.
