(* ===== verification/Docs.v ===== *)
(** * Docs: tools/commentcheck/docs.go

    The comment groups a syntax tree allows: the docs of exported declarations,
    and in a test file the docs and the output comments of its examples. The Go
    map from groups to booleans is a [gmap] keyed by the pointer; the pointer nil
    is [None]. *)

From S2P Require Import Prelude Text Words Syntax.

Abbreviation Allowed := (gmap doc bool).

(** [allowed[group]]: absent is false. *)
Definition allows (allowed : Allowed) (group : doc) : bool := default false (allowed !! group).

Section docs.
Context `{Unicode}.

(** The loop of [isExportedTypeName]. *)
Fixpoint isExportedTypeName (typeExpression : Expr) : bool :=
  match typeExpression with
  | StarExpr X => isExportedTypeName X
  | IndexExpr X => isExportedTypeName X
  | IndexListExpr X => isExportedTypeName X
  | SelectorExpr _ Sel => IsExported Sel
  | Ident Name => IsExported Name
  | _ => false
  end.

Definition isAccessibleField (field : Field) : bool :=
  match Field_Names field with
  | [] => isExportedTypeName (Field_Type field)
  | names => existsb IsExported names
  end.

(** [allowAccessibleFieldDocs], with the recursive call on the type of a field. *)
Definition allowAccessibleFieldDocs (allowFieldDocs : Expr -> Allowed -> Allowed)
    (fields : list Field) (allowed : Allowed) : Allowed :=
  foldl (fun allowed field =>
    let accessible := isAccessibleField field in
    let allowed := <[Field_Doc field := accessible]> allowed in
    if accessible then allowFieldDocs (Field_Type field) allowed else allowed) allowed fields.

Fixpoint allowFieldDocs (typeExpression : Expr) (allowed : Allowed) : Allowed :=
  match typeExpression with
  | StructType Fields => allowAccessibleFieldDocs allowFieldDocs Fields allowed
  | InterfaceType Methods => allowAccessibleFieldDocs allowFieldDocs Methods allowed
  | StarExpr X => allowFieldDocs X allowed
  | ArrayType Elt => allowFieldDocs Elt allowed
  | MapType Key Value => allowFieldDocs Value (allowFieldDocs Key allowed)
  | ChanType Value => allowFieldDocs Value allowed
  | _ => allowed
  end.

Definition hasAnExportedReceiver (function : FuncDecl) : bool :=
  match Recv function with
  | Some (receiver :: _) => isExportedTypeName (Field_Type receiver)
  | _ => true
  end.

Definition isExportedSpec (spec : Spec) : bool :=
  match spec with
  | TypeSpec _ Name _ => IsExported Name
  | ValueSpec _ Names _ => existsb IsExported Names
  | ImportSpec => false
  end.

Definition allowSpecDocs (allowed : Allowed) (spec : Spec) : Allowed :=
  match spec with
  | TypeSpec Doc Name Type_ =>
      let allowed := <[Doc := IsExported Name]> allowed in
      if IsExported Name then allowFieldDocs Type_ allowed else allowed
  | ValueSpec Doc Names Type_ =>
      let exported := existsb IsExported Names in
      let allowed := <[Doc := exported]> allowed in
      match Type_ with
      | Some Type_ => if exported then allowFieldDocs Type_ allowed else allowed
      | None => allowed
      end
  | ImportSpec => allowed
  end.

(** One round of the loop of [allowedDocs]. *)
Definition allowDeclDocs (allowed : Allowed) (declared : Decl) : Allowed :=
  match declared with
  | DeclFunc top => <[Func_Doc top := IsExported (Func_Name top) && hasAnExportedReceiver top]> allowed
  | DeclGen top => foldl allowSpecDocs (<[Gen_Doc top := existsb isExportedSpec (Specs top)]> allowed) (Specs top)
  end.

Definition allowedDocs (file : File) : Allowed :=
  delete None (foldl allowDeclDocs {[File_Doc file := true]} (Decls file)).

Definition isRunnableExample (example : FuncDecl) : bool :=
  let (suffix, isExample) := CutPrefix (Func_Name example) (B "Example") in
  if negb isExample || bool_decide (is_Some (Recv example)) || bool_decide (Func_Body example = None) then false
  else if negb (bool_decide (NumFields (Params example) = O)) || negb (bool_decide (NumFields (Results example) = O)) then false
  else match suffix with
       | [] => true
       | c :: s => let first := (decode_rune c s).1 in
                   bool_decide (c = "_"%byte) || IsUpper first
       end.

Definition allowExampleDoc (allowed : Allowed) (declared : Decl) : Allowed :=
  match declared with
  | DeclFunc example =>
      if isRunnableExample example && bool_decide (is_Some (Func_Doc example))
      then <[Func_Doc example := true]> allowed else allowed
  | DeclGen _ => allowed
  end.

Definition exampleDocs (file : File) : Allowed := foldl allowExampleDoc ∅ (Decls file).
End docs.

(** A group that lies between the braces of a body. *)
Definition between (body : BlockStmt) (group : CommentGroup) : bool :=
  (Lbrace body <? Pos group) && (End group <? Rbrace body).

Definition lastCommentIn (file : File) (body : BlockStmt) : option CommentGroup :=
  foldl (fun last group => if between body group then Some group else last) None (Comments file).

Definition isExampleOutput (group : CommentGroup) : bool :=
  let first := TrimSpace (TrimPrefix (Comment_Text (first_comment group)) (B "//")) in
  has_prefix first (B "Output:") || has_prefix first (B "Unordered output:").

Section outputs.
Context `{Unicode}.

(** One round of the loop of [allowExampleOutputs]. *)
Definition allowExampleOutput (file : File) (allowed : Allowed) (declared : Decl) : Allowed :=
  match declared with
  | DeclFunc example =>
      match Func_Body example with
      | Some body =>
          if isRunnableExample example then
            match lastCommentIn file body with
            | Some last => if isExampleOutput last then <[Some (group_ptr last) := true]> allowed else allowed
            | None => allowed
            end
          else allowed
      | None => allowed
      end
  | DeclGen _ => allowed
  end.

Definition allowExampleOutputs (file : File) (allowed : Allowed) : Allowed :=
  foldl (allowExampleOutput file) allowed (Decls file).
End outputs.

(* ------------------------------------------------------------------ *)
(** ** The assignments of a walk, in order *)

(** Induction over a type expression and the types of its fields. *)
Lemma expr_induction (P : Expr -> Prop) :
  (forall n, P (Ident n)) -> (forall X s, P X -> P (SelectorExpr X s)) -> (forall X, P X -> P (StarExpr X)) ->
  (forall X, P X -> P (IndexExpr X)) -> (forall X, P X -> P (IndexListExpr X)) -> (forall X, P X -> P (ArrayType X)) ->
  (forall K V, P K -> P V -> P (MapType K V)) -> (forall X, P X -> P (ChanType X)) ->
  (forall fields, Forall (fun f => P (Field_Type f)) fields -> P (StructType fields)) ->
  (forall fields, Forall (fun f => P (Field_Type f)) fields -> P (InterfaceType fields)) ->
  P OtherExpr -> forall e, P e.
Proof.
  intros H1 H2 H3 H4 H5 H6 H7 H8 H9 H10 H11. fix IH 1.
  intros [n|X s|X|X|X|X|K V|X|fields|fields|];
    [apply H1|apply H2, IH|apply H3, IH|apply H4, IH|apply H5, IH|apply H6, IH|apply H7; apply IH|apply H8, IH| | |exact H11].
  - apply H9. induction fields as [|[d ns e] fields IHl]; constructor; [apply IH|exact IHl].
  - apply H10. induction fields as [|[d ns e] fields IHl]; constructor; [apply IH|exact IHl].
Qed.

Definition assign (allowed : Allowed) (a : doc * bool) : Allowed := <[a.1 := a.2]> allowed.

Notation assigns := (foldl assign).

(** The last assignment of a key counts, so it is one of the list. *)
Lemma assigns_lookup l allowed d b :
  assigns allowed l !! d = Some b -> (d, b) ∈ l \/ allowed !! d = Some b.
Proof.
  revert allowed. induction l as [|[d' b'] l IH]; intros allowed; [by right|]. cbn [foldl].
  intros [Hl|Hl]%IH; [by left; right|]. unfold assign in Hl. cbn in Hl.
  apply lookup_insert_Some in Hl as [[-> ->]|[_ Hl]]; [left; left|by right].
Qed.

Definition keys (l : list (doc * bool)) : list nat := omap fst l.

Lemma elem_of_keys l g b : (Some g, b) ∈ l -> g ∈ keys l.
Proof. intros Hl. apply list_elem_of_omap. by exists (Some g, b). Qed.

Lemma assigns_other l allowed g : g ∉ keys l -> assigns allowed l !! Some g = allowed !! Some g.
Proof.
  revert allowed. induction l as [|[[g'|] b] l IH]; intros allowed Hg; [done|..]; cbn [foldl]; unfold keys in *; cbn in Hg.
  - apply not_elem_of_cons in Hg as [Hne Hg]. rewrite IH by done. unfold assign. cbn.
    apply lookup_insert_ne. congruence.
  - rewrite IH by done. unfold assign. cbn. by apply lookup_insert_ne.
Qed.

(** Where each group has one assignment, the map holds it. *)
Lemma assigns_distinct l allowed g b :
  NoDup (keys l) -> (Some g, b) ∈ l -> assigns allowed l !! Some g = Some b.
Proof.
  revert allowed. induction l as [|[[g'|] b'] l IH]; intros allowed Hd Hl; [by apply not_elem_of_nil in Hl|..]; cbn [foldl]; unfold keys in *; cbn in Hd.
  - apply NoDup_cons in Hd as [Hg Hd]. apply elem_of_cons in Hl as [[= -> ->]|Hl]; [|auto].
    rewrite assigns_other by done. unfold assign. cbn. apply lookup_insert_eq.
  - apply elem_of_cons in Hl as [?|Hl]; [done|auto].
Qed.

Section exported.
Context `{Unicode}.

(** The docs of the fields of a type, with whether they are accessible. *)
Fixpoint field_docs (e : Expr) : list (doc * bool) :=
  match e with
  | StructType fields | InterfaceType fields =>
      concat (map (fun field => (Field_Doc field, isAccessibleField field)
                    :: (if isAccessibleField field then field_docs (Field_Type field) else [])) fields)
  | StarExpr X => field_docs X
  | ArrayType Elt => field_docs Elt
  | MapType Key Value => field_docs Key ++ field_docs Value
  | ChanType Value => field_docs Value
  | _ => []
  end.

Definition spec_docs (spec : Spec) : list (doc * bool) :=
  match spec with
  | TypeSpec Doc Name Type_ => (Doc, IsExported Name) :: (if IsExported Name then field_docs Type_ else [])
  | ValueSpec Doc Names Type_ =>
      (Doc, existsb IsExported Names)
      :: (if existsb IsExported Names then match Type_ with Some Type_ => field_docs Type_ | None => [] end else [])
  | ImportSpec => []
  end.

Definition decl_docs (declared : Decl) : list (doc * bool) :=
  match declared with
  | DeclFunc top => [(Func_Doc top, IsExported (Func_Name top) && hasAnExportedReceiver top)]
  | DeclGen top => (Gen_Doc top, existsb isExportedSpec (Specs top)) :: concat (map spec_docs (Specs top))
  end.

Definition file_docs (file : File) : list (doc * bool) :=
  (File_Doc file, true) :: concat (map decl_docs (Decls file)).

(** A fold of assignments is the assignments of the concatenation. *)
Lemma foldl_assigns {A} (f : Allowed -> A -> Allowed) (g : A -> list (doc * bool)) l allowed :
  Forall (fun x => forall allowed, f allowed x = assigns allowed (g x)) l ->
  foldl f allowed l = assigns allowed (concat (map g l)).
Proof.
  intros Hl. revert allowed. induction Hl as [|x l Hx Hl IH]; intros allowed; [done|].
  cbn. by rewrite Hx, IH, foldl_app.
Qed.

Lemma allowFieldDocs_assigns e allowed : allowFieldDocs e allowed = assigns allowed (field_docs e).
Proof.
  revert allowed. induction e as [n|X s IHX|X IHX|X IHX|X IHX|X IHX|K V IHK IHV|X IHX|fields IH|fields IH|] using expr_induction; intros allowed; cbn [allowFieldDocs field_docs];
    try done; try by rewrite IHX.
  1: by rewrite IHK, IHV, foldl_app.
  all: unfold allowAccessibleFieldDocs; apply foldl_assigns; eapply Forall_impl; [exact IH|];
    intros f Hf allowed'; cbn; destruct (isAccessibleField f); [by rewrite Hf|done].
Qed.

Lemma allowSpecDocs_assigns spec allowed : allowSpecDocs allowed spec = assigns allowed (spec_docs spec).
Proof.
  destruct spec as [|d nm e|d nms [e|]]; cbn; [done|..].
  - destruct (IsExported nm); [by rewrite allowFieldDocs_assigns|done].
  - destruct (existsb IsExported nms); [by rewrite allowFieldDocs_assigns|done].
  - by destruct (existsb IsExported nms).
Qed.

Lemma allowedDocs_assigns file : allowedDocs file = delete None (assigns ∅ (file_docs file)).
Proof.
  unfold allowedDocs. f_equal. cbn [file_docs foldl].
  rewrite (foldl_assigns allowDeclDocs decl_docs); [done|].
  apply Forall_forall. intros d _ allowed. destruct d as [top|top]; [done|]. cbn.
  apply foldl_assigns, Forall_forall. intros spec _ allowed'. apply allowSpecDocs_assigns.
Qed.

(* ------------------------------------------------------------------ *)
(** ** The docs of exported identifiers *)

(** The docs of the accessible fields and methods a type has, at any depth. *)
Inductive accessible_doc : Expr -> nat -> Prop :=
| accessible_struct fields f g :
    f ∈ fields -> accessible_field f g -> accessible_doc (StructType fields) g
| accessible_interface methods f g :
    f ∈ methods -> accessible_field f g -> accessible_doc (InterfaceType methods) g
| accessible_star X g : accessible_doc X g -> accessible_doc (StarExpr X) g
| accessible_array X g : accessible_doc X g -> accessible_doc (ArrayType X) g
| accessible_key K V g : accessible_doc K g -> accessible_doc (MapType K V) g
| accessible_value K V g : accessible_doc V g -> accessible_doc (MapType K V) g
| accessible_chan X g : accessible_doc X g -> accessible_doc (ChanType X) g
with accessible_field : Field -> nat -> Prop :=
| accessible_own f g : isAccessibleField f = true -> Field_Doc f = Some g -> accessible_field f g
| accessible_inside f g : isAccessibleField f = true -> accessible_doc (Field_Type f) g -> accessible_field f g.

(** The group [g] is the package doc, or the doc of an exported identifier. *)
Inductive exported_doc (file : File) (g : nat) : Prop :=
| exported_package : File_Doc file = Some g -> exported_doc file g
| exported_func d :
    DeclFunc d ∈ Decls file -> Func_Doc d = Some g ->
    IsExported (Func_Name d) = true -> hasAnExportedReceiver d = true -> exported_doc file g
| exported_group d spec :
    DeclGen d ∈ Decls file -> Gen_Doc d = Some g -> spec ∈ Specs d -> isExportedSpec spec = true -> exported_doc file g
| exported_type d nm e :
    DeclGen d ∈ Decls file -> TypeSpec (Some g) nm e ∈ Specs d -> IsExported nm = true -> exported_doc file g
| exported_type_field d sd nm e :
    DeclGen d ∈ Decls file -> TypeSpec sd nm e ∈ Specs d -> IsExported nm = true ->
    accessible_doc e g -> exported_doc file g
| exported_value d nms e :
    DeclGen d ∈ Decls file -> ValueSpec (Some g) nms e ∈ Specs d -> existsb IsExported nms = true -> exported_doc file g
| exported_value_field d sd nms e :
    DeclGen d ∈ Decls file -> ValueSpec sd nms (Some e) ∈ Specs d -> existsb IsExported nms = true ->
    accessible_doc e g -> exported_doc file g.

Lemma accessible_field_iff f g :
  (accessible_doc (Field_Type f) g <-> (Some g, true) ∈ field_docs (Field_Type f)) ->
  accessible_field f g <->
  (Some g, true) ∈ (Field_Doc f, isAccessibleField f) :: (if isAccessibleField f then field_docs (Field_Type f) else []).
Proof.
  intros IH. rewrite elem_of_cons. split.
  - intros K. inversion K; subst; [left; congruence|right].
    match goal with Ha : isAccessibleField f = true |- _ => rewrite Ha end. by apply IH.
  - intros [E|Hin]; [constructor; congruence|]. destruct (isAccessibleField f) eqn:Ha; [|by apply not_elem_of_nil in Hin].
    apply accessible_inside; [done|]. by apply IH.
Qed.

Lemma accessible_doc_iff e g : accessible_doc e g <-> (Some g, true) ∈ field_docs e.
Proof.
  induction e as [n|X s IHX|X IHX|X IHX|X IHX|X IHX|K V IHK IHV|X IHX|fields IH|fields IH|] using expr_induction; cbn [field_docs];
    rewrite ?elem_of_app, <-?IHX, <-?IHK, <-?IHV, ?elem_of_concat_map.
  all: try (split; [by inversion 1|by intros ?%not_elem_of_nil]).
  all: try (split; [by inversion 1|by constructor]).
  - split; [by inversion 1; subst; auto|]. intros [?|?]; [by apply accessible_key|by apply accessible_value].
  - rewrite Forall_forall in IH. split.
    + inversion 1 as [? f ? Hf Ha| | | | | |]; subst. exists f. split; [done|]. by apply accessible_field_iff; [apply IH|].
    + intros (f & Hf & Ha). apply accessible_field_iff in Ha; [by econstructor|by apply IH].
  - rewrite Forall_forall in IH. split.
    + inversion 1 as [|? f ? Hf Ha| | | | |]; subst. exists f. split; [done|]. by apply accessible_field_iff; [apply IH|].
    + intros (f & Hf & Ha). apply accessible_field_iff in Ha; [by econstructor|by apply IH].
Qed.
Lemma spec_docs_iff spec g :
  (Some g, true) ∈ spec_docs spec <->
  isExportedSpec spec = true
  /\ match spec with
     | TypeSpec d _ e => d = Some g \/ accessible_doc e g
     | ValueSpec d _ (Some e) => d = Some g \/ accessible_doc e g
     | ValueSpec d _ None => d = Some g
     | ImportSpec => False
     end.
Proof.
  destruct spec as [|d nm e|d nms [e|]]; cbn.
  - split; [by intros ?%not_elem_of_nil|naive_solver].
  - rewrite elem_of_cons, accessible_doc_iff. destruct (IsExported nm); rewrite ?elem_of_nil; naive_solver.
  - rewrite elem_of_cons, accessible_doc_iff. destruct (existsb IsExported nms); rewrite ?elem_of_nil; naive_solver.
  - rewrite elem_of_cons. destruct (existsb IsExported nms); rewrite ?elem_of_nil; naive_solver.
Qed.

Lemma exported_specs d : existsb isExportedSpec (Specs d) = true <-> exists spec, spec ∈ Specs d /\ isExportedSpec spec = true.
Proof. rewrite existsb_exists. by setoid_rewrite list_elem_of_In. Qed.

Lemma exported_doc_iff file g : exported_doc file g <-> (Some g, true) ∈ file_docs file.
Proof.
  unfold file_docs. rewrite elem_of_cons, elem_of_concat_map. split.
  - intros K. inversion K as [Hd|d Hd Hg He Hr|d spec Hd Hg Hs He|d nm e Hd Hs He|d sd nm e Hd Hs He Ha|d nms e Hd Hs He|d sd nms e Hd Hs He Ha];
      [left; congruence|right..]; eexists; (split; [exact Hd|]); cbn [decl_docs].
    { rewrite He, Hr. apply elem_of_cons. left. cbn. congruence. }
    { apply elem_of_cons. left. rewrite (proj2 (exported_specs d)) by eauto. congruence. }
    all: apply elem_of_cons; right; apply elem_of_concat_map; eexists; (split; [exact Hs|]); apply spec_docs_iff;
      (split; [exact He|]); auto. by destruct e; auto.
  - intros [E|(d & Hd & Hin)]; [by apply exported_package; congruence|]. destruct d as [top|top]; cbn [decl_docs] in Hin.
    + apply list_elem_of_singleton in Hin. injection Hin as Hg He. symmetry in He. apply andb_prop in He as [? ?].
      by eapply exported_func.
    + apply elem_of_cons in Hin as [E|(spec & Hs & Hin)%elem_of_concat_map].
      * injection E as Hg He. symmetry in He. apply exported_specs in He as (spec & Hs & He). by eapply exported_group.
      * apply spec_docs_iff in Hin as [He Hin]. destruct spec as [|sd nm e|sd nms [e|]]; [done|..].
        -- destruct Hin as [->|Ha]; [by eapply exported_type|by eapply exported_type_field].
        -- destruct Hin as [->|Ha]; [by eapply exported_value|by eapply exported_value_field].
        -- subst sd. by eapply exported_value.
Qed.

(** Each group documents at most one declaration, spec or field: the parser
    attaches a comment to the node that starts on the next line. *)
Definition distinct_docs (file : File) : Prop := NoDup (keys (file_docs file)).
End exported.

Section allowed.
Context `{Unicode}.

Lemma allowed_sound file g : allows (allowedDocs file) (Some g) = true -> exported_doc file g.
Proof.
  rewrite allowedDocs_assigns. unfold allows. rewrite lookup_delete_ne by done.
  destruct (_ !! Some g) as [b|] eqn:E; [|done]. cbn. intros ->.
  apply exported_doc_iff. apply assigns_lookup in E as [?|E]; [done|by rewrite lookup_empty in E].
Qed.

Lemma allowed_complete file g :
  distinct_docs file -> exported_doc file g -> allows (allowedDocs file) (Some g) = true.
Proof.
  intros Hd Hg%exported_doc_iff. rewrite allowedDocs_assigns. unfold allows. rewrite lookup_delete_ne by done.
  by rewrite (assigns_distinct _ _ g true).
Qed.
End allowed.

(** C18. In a file that is no test, [allowedDocs] allows only the package doc and
    the docs of exported identifiers: functions, methods of exported receivers,
    groups with an exported spec, types, values, and the accessible fields and
    methods of their types at any depth. Where no group documents two nodes it
    allows every one of them. The pointer nil is never allowed. *)
Theorem allowed_docs_exact `{Unicode} (file : File) :
  allows (allowedDocs file) None = false
  /\ (forall g, allows (allowedDocs file) (Some g) = true -> exported_doc file g)
  /\ (distinct_docs file -> forall g, exported_doc file g -> allows (allowedDocs file) (Some g) = true).
Proof.
  split_and!; [|apply allowed_sound|intros; by apply allowed_complete].
  rewrite allowedDocs_assigns. unfold allows. by rewrite lookup_delete_eq.
Qed.

(* ------------------------------------------------------------------ *)
(** ** Examples of test files *)

(** The last group of the file between the braces: none comes after it. *)
Lemma lastCommentIn_spec file body :
  match lastCommentIn file body with
  | Some last => exists before after, Comments file = before ++ last :: after
                   /\ between body last = true /\ Forall (fun group => between body group = false) after
  | None => Forall (fun group => between body group = false) (Comments file)
  end.
Proof.
  unfold lastCommentIn. induction (Comments file) as [|group l IH] using rev_ind; [constructor|].
  rewrite foldl_app. cbn [foldl]. destruct (between body group) eqn:E.
  - by exists l, [].
  - destruct (foldl _ None l) as [last|].
    + destruct IH as (before & after & -> & Hl & Ha). exists before, (after ++ [group]).
      split_and!; [by rewrite <-app_assoc|done|]. apply Forall_app. auto.
    + apply Forall_app. auto.
Qed.

Section examples.
Context `{Unicode}.

(** The comments an example contributes. *)
Definition example_docs (declared : Decl) : list (doc * bool) :=
  match declared with
  | DeclFunc example => if isRunnableExample example && bool_decide (is_Some (Func_Doc example)) then [(Func_Doc example, true)] else []
  | DeclGen _ => []
  end.

Definition output_docs (file : File) (declared : Decl) : list (doc * bool) :=
  match declared with
  | DeclFunc example =>
      match Func_Body example with
      | Some body =>
          if isRunnableExample example then
            match lastCommentIn file body with
            | Some last => if isExampleOutput last then [(Some (group_ptr last), true)] else []
            | None => []
            end
          else []
      | None => []
      end
  | DeclGen _ => []
  end.

Definition test_docs (file : File) : list (doc * bool) :=
  concat (map example_docs (Decls file)) ++ concat (map (output_docs file) (Decls file)).

Lemma test_allowed_assigns file :
  allowExampleOutputs file (exampleDocs file) = assigns ∅ (test_docs file).
Proof.
  unfold allowExampleOutputs, exampleDocs, test_docs. rewrite foldl_app.
  rewrite (foldl_assigns allowExampleDoc example_docs), (foldl_assigns (allowExampleOutput file) (output_docs file)); [done|..];
    apply Forall_forall; intros [d|d] _ allowed; cbn; try done.
  - destruct (Func_Body d); [|done]. destruct (isRunnableExample d); [|done].
    destruct (lastCommentIn file _); [|done]. by destruct (isExampleOutput _).
  - by destruct (isRunnableExample d && _).
Qed.

(** Assignments of true only add groups. *)
Lemma assigns_true l g :
  Forall (fun a => a.2 = true) l -> allows (assigns ∅ l) (Some g) = true <-> (Some g, true) ∈ l.
Proof.
  intros Hl. unfold allows. induction l as [|[d b] l IH] using rev_ind; cbn.
  - rewrite lookup_empty. split; [done|by intros ?%not_elem_of_nil].
  - apply Forall_app in Hl as [Hl [Hb _]%Forall_cons]. cbn in Hb. subst b.
    rewrite foldl_app, elem_of_app, list_elem_of_singleton. cbn. unfold assign. cbn.
    destruct (decide (d = Some g)) as [->|Hne]; [rewrite lookup_insert_eq; naive_solver|].
    rewrite lookup_insert_ne by done. rewrite IH by done. naive_solver.
Qed.

(** The output comment that closes a runnable example. *)
Definition closing_output (file : File) (d : FuncDecl) (group : CommentGroup) : Prop :=
  exists body before after,
    Func_Body d = Some body /\ Comments file = before ++ group :: after
    /\ between body group = true /\ Forall (fun other => between body other = false) after
    /\ isExampleOutput group = true.

Lemma closing_output_iff file d group body :
  Func_Body d = Some body ->
  lastCommentIn file body = Some group /\ isExampleOutput group = true -> closing_output file d group.
Proof.
  intros Hb [Hl Ho]. pose proof (lastCommentIn_spec file body) as Hs. rewrite Hl in Hs.
  destruct Hs as (before & after & Hc & Hg & Ha). by exists body, before, after.
Qed.

Lemma closing_output_last file d group :
  closing_output file d group ->
  exists body, Func_Body d = Some body /\ lastCommentIn file body = Some group /\ isExampleOutput group = true.
Proof.
  intros (body & before & after & Hb & Hc & Hg & Ha & Ho). exists body. split_and!; [done| |done].
  unfold lastCommentIn. rewrite Hc, foldl_app. cbn [foldl]. rewrite Hg. clear Hc.
  induction Ha as [|x after Hx Ha IH]; [done|]. cbn. by rewrite Hx.
Qed.
Lemma test_allowed file g :
  allows (allowExampleOutputs file (exampleDocs file)) (Some g) = true <->
  exists d, DeclFunc d ∈ Decls file /\ isRunnableExample d = true
    /\ (Func_Doc d = Some g \/ exists group, closing_output file d group /\ group_ptr group = g).
Proof.
  rewrite test_allowed_assigns, assigns_true.
  2: { apply Forall_forall. intros a [(d & _ & Ha)%elem_of_concat_map|(d & _ & Ha)%elem_of_concat_map]%elem_of_app;
       destruct d as [d|d]; cbn in Ha; crush; by first [apply not_elem_of_nil in Ha|apply list_elem_of_singleton in Ha; subst]. }
  unfold test_docs. rewrite elem_of_app, !elem_of_concat_map. split.
  - intros [([d|d] & Hd & Hin)|([d|d] & Hd & Hin)]; cbn in Hin; try by apply not_elem_of_nil in Hin.
    + destruct (isRunnableExample d) eqn:Hr; [|by apply not_elem_of_nil in Hin].
      cbn in Hin. case_bool_decide; [|by apply not_elem_of_nil in Hin].
      apply list_elem_of_singleton in Hin. exists d. split_and!; [done..|left; congruence].
    + destruct (Func_Body d) as [body|] eqn:Hb; [|by apply not_elem_of_nil in Hin].
      destruct (isRunnableExample d) eqn:Hr; [|by apply not_elem_of_nil in Hin].
      destruct (lastCommentIn file body) as [last|] eqn:Hl; [|by apply not_elem_of_nil in Hin].
      destruct (isExampleOutput last) eqn:Ho; [|by apply not_elem_of_nil in Hin].
      apply list_elem_of_singleton in Hin. exists d. split_and!; [done..|right]. exists last.
      split; [by eapply closing_output_iff|congruence].
  - intros (d & Hd & Hr & [Hg|(group & Hc & <-)]); [left|right]; (eexists; split; [exact Hd|]); cbn.
    + rewrite Hr, Hg. by apply list_elem_of_singleton.
    + apply closing_output_last in Hc as (body & -> & -> & ->). rewrite Hr. by apply list_elem_of_singleton.
Qed.
End examples.

(** C35. In a test file the allowed groups are exactly the docs of the runnable
    examples, and the comment that closes the body of a runnable example and
    starts with its output marker. No other doc of the file is allowed. *)
Theorem test_docs_exact `{Unicode} (file : File) (g : nat) :
  allows (allowExampleOutputs file (exampleDocs file)) (Some g) = true <->
  exists d, DeclFunc d ∈ Decls file /\ isRunnableExample d = true
    /\ (Func_Doc d = Some g \/ exists group, closing_output file d group /\ group_ptr group = g).
Proof. apply test_allowed. Qed.
