(* ===== verification/Comments.v ===== *)
(** * Comments: tools/commentcheck/comments.go

    Which comment groups of a parsed file are stray, and why. *)

From S2P Require Import Prelude Text Path Words Syntax Directives Docs.

Inductive reason : Type :=
| refusedReason
| nolintReason
| unreadableReason.

#[global] Instance reason_eq_dec : EqDecision reason.
Proof. solve_decision. Defined.

Definition reason_text (r : reason) : bytes :=
  match r with
  | refusedReason => B "comment refused (decision 1): only the docs of exported identifiers, the known //go: directives and example outputs are allowed"
  | nolintReason => B "//nolint is refused (decision 4): fix the code, or exclude the lint by path and text in .golangci.yml"
  | unreadableReason => B "not checked (decision 1): only regular files and directories are read, so a symbolic link or special file is refused"
  end.

Record finding := Finding { position : Position; finding_reason : reason }.

#[global] Instance finding_eq_dec : EqDecision finding.
Proof. solve_decision. Defined.

Definition at_ (files : list TokenFile) (pos : Z) (r : reason) : finding := Finding (FileSet_Position files pos) r.

Definition isNolintDirective (text : bytes) : bool :=
  let (body, isLineComment) := CutPrefix text (B "//") in
  isLineComment && has_prefix (TrimLeftFunc body IsSpace) (B "nolint").

Definition nolintDirectives (files : list TokenFile) (group : CommentGroup) : list finding :=
  (fun line => at_ files (Slash line) nolintReason) <$> List.filter (fun line => isNolintDirective (Comment_Text line)) (group_List group).

(** The bodies of a function literal and of the literals inside it. *)
Fixpoint lit_bodies (lit : FuncLit) : list BlockStmt :=
  match lit with
  | MkFuncLit Body inside => Body :: concat (map lit_bodies inside)
  end.

Definition decl_bodies (declared : Decl) : list BlockStmt :=
  match declared with
  | DeclFunc d => match Func_Body d with Some body => [body] | None => [] end ++ concat (map lit_bodies (Func_inside d))
  | DeclGen d => concat (map lit_bodies (Gen_inside d))
  end.

Definition functionBodies (file : File) : list BlockStmt := concat (map decl_bodies (Decls file)).

Definition isInside (group : CommentGroup) (bodies : list BlockStmt) : bool :=
  existsb (fun body => between body group) bodies.

Section check.
Context `{FileSystem} `{Unicode}.

Definition strayDirectiveLines (files : list TokenFile) (directory : bytes) (group : CommentGroup) : list finding :=
  (fun line => at_ files (Slash line) refusedReason)
  <$> List.filter (fun line => has_prefix (Comment_Text line) (B "//go:")
                               && negb (isKnownDirective directory (Comment_Text line))) (group_List group).

Definition isDirective (directory : bytes) (group : CommentGroup) : bool :=
  negb (existsb (fun line => negb (isKnownDirective directory (Comment_Text line))) (group_List group)).

(** One round of the loop of [strayComments]. *)
Definition group_findings (files : list TokenFile) (directory : bytes) (allowed : Allowed)
    (bodies : list BlockStmt) (group : CommentGroup) : list finding :=
  match nolintDirectives files group with
  | [] =>
      let isAllowed := allows allowed (Some (group_ptr group)) in
      if isInside group bodies then
        if isAllowed then [] else [at_ files (Pos group) refusedReason]
      else if isAllowed then strayDirectiveLines files directory group
      else if negb (isDirective directory group) then [at_ files (Pos group) refusedReason]
      else []
  | nolints => nolints
  end.

(** The groups the docs of a file allow. *)
Definition allowed_groups (path : bytes) (file : File) : Allowed :=
  if has_suffix path (B "_test.go") then allowExampleOutputs file (exampleDocs file) else allowedDocs file.

Definition strayComments (files : list TokenFile) (path : bytes) (file : File) (namedByAGenerator : bool) : list finding :=
  if namedByAGenerator && IsGenerated file then []
  else
    let allowed := allowed_groups path file in
    let bodies := functionBodies file in
    let directory := Dir path in
    concat (map (group_findings files directory allowed bodies) (Comments file)).
End check.

(* ------------------------------------------------------------------ *)
(** ** Function bodies *)

(** A body of the tree: of a function, or of a literal at any depth. *)
Inductive lit_body : FuncLit -> BlockStmt -> Prop :=
| lit_own body inside : lit_body (MkFuncLit body inside) body
| lit_inside body inside lit b : lit ∈ inside -> lit_body lit b -> lit_body (MkFuncLit body inside) b.

Definition function_body (file : File) (b : BlockStmt) : Prop :=
  (exists d, DeclFunc d ∈ Decls file /\ Func_Body d = Some b)
  \/ (exists d lit, DeclFunc d ∈ Decls file /\ lit ∈ Func_inside d /\ lit_body lit b)
  \/ (exists d lit, DeclGen d ∈ Decls file /\ lit ∈ Gen_inside d /\ lit_body lit b).

Lemma lit_induction (P : FuncLit -> Prop) :
  (forall body inside, Forall P inside -> P (MkFuncLit body inside)) -> forall lit, P lit.
Proof.
  intros HP. fix IH 1. intros [body inside]. apply HP.
  induction inside as [|lit inside IHl]; constructor; [apply IH|exact IHl].
Qed.

Lemma lit_bodies_spec lit b : b ∈ lit_bodies lit <-> lit_body lit b.
Proof.
  induction lit as [body inside IH] using lit_induction. cbn. rewrite elem_of_cons, elem_of_concat_map.
  rewrite Forall_forall in IH. split.
  - intros [->|(lit & Hl & Hb)]; [constructor|]. apply lit_inside with lit; [done|]. by apply IH.
  - inversion 1; subst; [by left|right]. eexists. split; [done|]. by apply IH.
Qed.

Lemma functionBodies_spec file b : b ∈ functionBodies file <-> function_body file b.
Proof.
  unfold functionBodies, function_body. rewrite elem_of_concat_map. split.
  - intros ([d|d] & Hd & Hb); cbn in Hb.
    + apply elem_of_app in Hb as [Hb|(lit & Hl & Hb)%elem_of_concat_map].
      * left. destruct (Func_Body d) as [b'|] eqn:E; [|by apply not_elem_of_nil in Hb].
        apply list_elem_of_singleton in Hb. subst. eauto.
      * right. left. exists d, lit. by rewrite <-lit_bodies_spec.
    + apply elem_of_concat_map in Hb as (lit & Hl & Hb). right. right. exists d, lit. by rewrite <-lit_bodies_spec.
  - intros [(d & Hd & Hb)|[(d & lit & Hd & Hl & Hb)|(d & lit & Hd & Hl & Hb)]]; (eexists; split; [exact Hd|]); cbn.
    + rewrite Hb. left.
    + apply elem_of_app. right. apply elem_of_concat_map. exists lit. by rewrite lit_bodies_spec.
    + apply elem_of_concat_map. exists lit. by rewrite lit_bodies_spec.
Qed.

(** Inside a function: between the braces of a body of the tree. *)
Definition inside_function (file : File) (group : CommentGroup) : Prop :=
  exists b, function_body file b /\ Lbrace b < Pos group /\ End group < Rbrace b.

Lemma isInside_spec file group : isInside group (functionBodies file) = true <-> inside_function file group.
Proof.
  unfold isInside, inside_function. rewrite existsb_exists. setoid_rewrite <-list_elem_of_In.
  setoid_rewrite functionBodies_spec. unfold between. setoid_rewrite andb_true_iff. by setoid_rewrite Z.ltb_lt.
Qed.

(* ------------------------------------------------------------------ *)
(** ** What is accepted *)

Section accepted.
Context `{FileSystem} `{Unicode}.

(** The doc of an exported identifier; in a test file, the doc of a runnable
    example or the output that closes one. *)
Definition allowed_doc (path : bytes) (file : File) (g : nat) : Prop :=
  if has_suffix path (B "_test.go") then
    exists d, DeclFunc d ∈ Decls file /\ isRunnableExample d = true
      /\ (Func_Doc d = Some g \/ exists group, closing_output file d group /\ group_ptr group = g)
  else exported_doc file g.

Definition no_nolint (group : CommentGroup) : Prop :=
  Forall (fun line => isNolintDirective (Comment_Text line) = false) (group_List group).

Definition known_line (directory : bytes) (line : Comment) : Prop :=
  isKnownDirective directory (Comment_Text line) = true.

Lemma isDirective_spec directory group :
  isDirective directory group = true <-> Forall (known_line directory) (group_List group).
Proof.
  unfold isDirective, known_line. rewrite negb_true_iff, Forall_forall. split.
  - intros Hf line Hl. apply not_false_iff_true. intros Hk.
    apply not_true_iff_false in Hf. apply Hf, existsb_exists. exists line.
    split; [by apply list_elem_of_In|by rewrite Hk].
  - intros Hf. apply not_true_iff_false. intros (line & Hl%list_elem_of_In & Hk)%existsb_exists.
    by rewrite (Hf line Hl) in Hk.
Qed.

(** The groups of a file that are accepted. *)
Inductive accepted (path : bytes) (file : File) (group : CommentGroup) : Prop :=
| accepted_doc :
    no_nolint group -> ~ inside_function file group -> allowed_doc path file (group_ptr group) ->
    Forall (fun line => has_prefix (Comment_Text line) (B "//go:") = true -> known_line (Dir path) line) (group_List group) ->
    accepted path file group
| accepted_inside :
    no_nolint group -> inside_function file group -> allowed_doc path file (group_ptr group) ->
    accepted path file group
| accepted_directives :
    no_nolint group -> ~ inside_function file group ->
    Forall (known_line (Dir path)) (group_List group) ->
    accepted path file group.

(** Each branch of a round, with the boolean the map answers. *)
Lemma group_findings_nil files directory allowed bodies group :
  group_findings files directory allowed bodies group = [] <->
  no_nolint group
  /\ (isInside group bodies = true /\ allows allowed (Some (group_ptr group)) = true
      \/ isInside group bodies = false
         /\ (allows allowed (Some (group_ptr group)) = true
              /\ Forall (fun line => has_prefix (Comment_Text line) (B "//go:") = true -> known_line directory line) (group_List group)
             \/ Forall (known_line directory) (group_List group))).
Proof.
  unfold group_findings. destruct (nolintDirectives files group) as [|f fs] eqn:En.
  2: { split; [done|]. intros [Hn _]. exfalso. unfold nolintDirectives, no_nolint in *.
       apply filter_nil_iff in Hn. by rewrite Hn in En. }
  assert (no_nolint group) as Hn by (by apply filter_nil_iff; apply fmap_nil_inv in En).
  assert (strayDirectiveLines files directory group = [] <->
          Forall (fun line => has_prefix (Comment_Text line) (B "//go:") = true -> known_line directory line) (group_List group)) as Hs.
  { unfold strayDirectiveLines, known_line. split.
    - intros Hf%fmap_nil_inv. apply filter_nil_iff in Hf. eapply Forall_impl; [exact Hf|]. cbn. intros line Hl Hg.
      rewrite Hg in Hl. cbn in Hl. by apply negb_false_iff in Hl.
    - intros Hf. match goal with |- _ <$> ?l = [] => assert (l = []) as ->; [|done] end. apply filter_nil_iff. eapply Forall_impl; [exact Hf|]. cbn. intros line Hl.
      destruct (has_prefix _ _); [|done]. by rewrite Hl. }
  pose proof (isDirective_spec directory group) as Hd.
  destruct (isInside group bodies), (allows allowed (Some (group_ptr group))).
  - naive_solver.
  - naive_solver.
  - rewrite Hs. split; [naive_solver|]. intros [_ [[? _]|[_ [[_ ?]|Hk]]]]; [done|done|].
    eapply Forall_impl; [exact Hk|]. naive_solver.
  - destruct (isDirective directory group); cbn; naive_solver.
Qed.

Lemma allowed_doc_iff path file g :
  (allows (allowed_groups path file) (Some g) = true -> allowed_doc path file g)
  /\ (distinct_docs file -> allowed_doc path file g -> allows (allowed_groups path file) (Some g) = true).
Proof.
  unfold allowed_groups, allowed_doc. destruct (has_suffix path (B "_test.go")).
  - rewrite test_allowed. auto.
  - split; [apply allowed_sound|apply allowed_complete].
Qed.

(** The boolean decision of a round is the inductive one. *)
Lemma group_accepted files path file group :
  (group_findings files (Dir path) (allowed_groups path file) (functionBodies file) group = [] ->
   accepted path file group)
  /\ (distinct_docs file -> accepted path file group ->
      group_findings files (Dir path) (allowed_groups path file) (functionBodies file) group = []).
Proof.
  destruct (allowed_doc_iff path file (group_ptr group)) as [Hs Hc].
  pose proof (isInside_spec file group) as Hi. rewrite group_findings_nil. split.
  - intros [Hn [[Hin Ha]|[Hin [[Ha Hk]|Hk]]]].
    + apply accepted_inside; naive_solver.
    + apply accepted_doc; [done| |auto|done]. rewrite <-Hi. by rewrite Hin.
    + apply accepted_directives; [done| |done]. rewrite <-Hi. by rewrite Hin.
  - intros Hd Ha. destruct Ha as [Hn Hin Ha Hk|Hn Hin Ha|Hn Hin Hk]; (split; [done|]).
    + right. split; [apply not_true_iff_false; naive_solver|left; auto].
    + left. naive_solver.
    + right. split; [apply not_true_iff_false; naive_solver|by right].
Qed.
End accepted.

Lemma stray_groups `{FileSystem} `{Unicode} files path file named :
  strayComments files path file named = [] ->
  named && IsGenerated file = true \/ Forall (accepted path file) (Comments file).
Proof.
  unfold strayComments. destruct (named && IsGenerated file); [auto|]. rewrite concat_nil_iff. intros Hf.
  right. eapply Forall_impl; [exact Hf|]. intros group. apply group_accepted.
Qed.

(** A file without findings is one whose every comment group is accepted,
    or a generated file that a generator of its directory names: a group is
    accepted when no line of it is a nolint directive and it is an allowed doc
    (outside functions with known //go: lines only) or, outside functions, known
    directives only. Conversely, where no group documents two nodes, such a file
    has no findings. *)
Theorem stray_comments_exact `{FileSystem} `{Unicode} files path file named :
  (strayComments files path file named = [] ->
   named && IsGenerated file = true \/ Forall (accepted path file) (Comments file))
  /\ (distinct_docs file ->
      named && IsGenerated file = true \/ Forall (accepted path file) (Comments file) ->
      strayComments files path file named = []).
Proof.
  split; [apply stray_groups|]. unfold strayComments. destruct (named && IsGenerated file); [auto|].
  rewrite concat_nil_iff. intros Hd [|Hf]; [done|]. eapply Forall_impl; [exact Hf|].
  intros group. by apply group_accepted.
Qed.

Lemma at_eq files pos r f : f = at_ files pos r <-> position f = FileSet_Position files pos /\ finding_reason f = r.
Proof. destruct f. unfold at_. cbn. split; [by intros [= -> ->]|by intros [-> ->]]. Qed.

Lemma elem_of_at files r (p : Comment -> bool) l f :
  f ∈ (fun line => at_ files (Slash line) r) <$> List.filter p l <->
  exists line, line ∈ l /\ p line = true /\ f = at_ files (Slash line) r.
Proof.
  rewrite list_elem_of_fmap. setoid_rewrite list_elem_of_In. setoid_rewrite filter_In. naive_solver.
Qed.

(** What a finding says: the nolint line it points at, the first line of a
    refused group, or an unknown directive in a doc. *)
Definition finding_of `{FileSystem} `{Unicode} (files : list TokenFile) (path : bytes) (file : File)
    (group : CommentGroup) (f : finding) : Prop :=
  (exists line, line ∈ group_List group /\ isNolintDirective (Comment_Text line) = true
     /\ f = at_ files (Slash line) nolintReason)
  \/ (no_nolint group /\ f = at_ files (Pos group) refusedReason
      /\ allows (allowed_groups path file) (Some (group_ptr group)) = false
      /\ (inside_function file group \/ ~ Forall (known_line (Dir path)) (group_List group)))
  \/ (no_nolint group /\ ~ inside_function file group
      /\ allows (allowed_groups path file) (Some (group_ptr group)) = true
      /\ exists line, line ∈ group_List group /\ has_prefix (Comment_Text line) (B "//go:") = true
           /\ ~ known_line (Dir path) line /\ f = at_ files (Slash line) refusedReason).

Lemma group_findings_spec `{FileSystem} `{Unicode} files path file group f :
  f ∈ group_findings files (Dir path) (allowed_groups path file) (functionBodies file) group
  <-> finding_of files path file group f.
Proof.
  unfold group_findings, finding_of. pose proof (isInside_spec file group) as Hi.
  destruct (nolintDirectives files group) as [|g gs] eqn:En.
  - assert (no_nolint group) as Hn by (by apply filter_nil_iff; apply fmap_nil_inv in En).
    assert (~ exists line, line ∈ group_List group /\ isNolintDirective (Comment_Text line) = true
              /\ f = at_ files (Slash line) nolintReason) as Hno.
    { intros (line & Hl & Hb & _). unfold no_nolint in Hn. rewrite Forall_forall in Hn. by rewrite (Hn line Hl) in Hb. }
    destruct (isInside group (functionBodies file)), (allows _ _).
    + rewrite elem_of_nil. naive_solver.
    + rewrite list_elem_of_singleton. naive_solver.
    + unfold strayDirectiveLines. rewrite elem_of_at. setoid_rewrite andb_true_iff. setoid_rewrite negb_true_iff.
      setoid_rewrite <-not_true_iff_false. unfold known_line. naive_solver.
    + pose proof (isDirective_spec (Dir path) group) as Hd.
      destruct (isDirective (Dir path) group); cbn [negb]; rewrite ?elem_of_nil, ?list_elem_of_singleton; naive_solver.
  - rewrite <-En. unfold nolintDirectives. rewrite elem_of_at. split; [by left|].
    intros [?|[(Hn & _)|(Hn & _)]]; [done|..]; exfalso; unfold nolintDirectives in En;
      apply filter_nil_iff in Hn; by rewrite Hn in En.
Qed.

Lemma stray_elem `{FileSystem} `{Unicode} files path file named f :
  f ∈ strayComments files path file named <->
  named && IsGenerated file = false
  /\ exists group, group ∈ Comments file /\ finding_of files path file group f.
Proof.
  unfold strayComments. destruct (named && IsGenerated file).
  - rewrite elem_of_nil. naive_solver.
  - rewrite elem_of_concat_map. setoid_rewrite group_findings_spec. naive_solver.
Qed.

(** C23. The findings of a file, one by one: a file that is not exempt has a
    finding exactly for each nolint line, wherever it stands; for each other
    group that is no allowed doc and stands inside a function or has a line that
    is no known directive; and for each unknown //go: line of an allowed doc. A
    finding of the first or last kind points at its line, one of the second at
    the start of the group. *)
Theorem findings_exact `{FileSystem} `{Unicode} files path file named f :
  f ∈ strayComments files path file named <->
  named && IsGenerated file = false
  /\ exists group, group ∈ Comments file /\ finding_of files path file group f.
Proof. apply stray_elem. Qed.

(** A line directive of a file moves the positions after it: the report then
    names the file and the line the directive gives. *)
Example line_directive_moves_position :
  FileSet_Position
    [{| tf_name := B "a.go"; tf_base := 1; tf_size := 60; tf_lines := [0; 10; 30];
        tf_infos := [{| info_Offset := 30; info_Filename := B "other.go"; info_Line := 7; info_Column := 0 |}] |}] 41
  = MkPosition (B "other.go") 7 0.
Proof. reflexivity. Qed.
