(* ===== verification/Commentcheck.v ===== *)
(** * Commentcheck: tools/commentcheck/main.go

    The command: the walk over a directory tree, the order of the report, its
    lines and the exit code. The listing of a tree, the parser and the writers
    are parameters; the order in which the runtime iterates a map and the way
    [slices.SortFunc] orders equal elements are arguments, restricted only by
    what the language and its library promise. *)

From S2P Require Import Prelude Text Json Encoding Env Sample Words Path Syntax Directives Docs Comments.

(* ------------------------------------------------------------------ *)
(** ** Errors *)

(** The errors the command meets: its own sentinels, a [fs.PathError], the
    [scanner.ErrorList] of the parser with the positions of its errors, errors of
    other packages, and [fmt.Errorf] with [%w]. *)
Inductive check_error : Type :=
| errNoDirectory
| errNotGoSource
| PathError (Op ErrPath : bytes) (Err_ : check_error)
| ErrorList (text : bytes) (positions : list Position)
| OtherError (text : bytes) (wrapped : option check_error)
| Errorf (text : bytes) (wrapped : check_error).

Fixpoint check_text (err : check_error) : bytes :=
  match err with
  | errNoDirectory => B "give at least one directory to check"
  | errNotGoSource => B "not valid Go source"
  | PathError op path err => op ++ B " " ++ path ++ B ": " ++ check_text err
  | ErrorList text _ => text
  | OtherError text _ => text
  | Errorf text _ => text
  end.

(** [errors.As] with a target [*fs.PathError]: the [Err] of the first one. *)
Fixpoint as_PathError (err : check_error) : option check_error :=
  match err with
  | PathError _ _ err => Some err
  | OtherError _ (Some err) => as_PathError err
  | Errorf _ err => as_PathError err
  | _ => None
  end.

(** [errors.As] with a target [scanner.ErrorList]. *)
Fixpoint as_ErrorList (err : check_error) : option (list Position) :=
  match err with
  | ErrorList _ positions => Some positions
  | PathError _ _ err => as_ErrorList err
  | OtherError _ (Some err) => as_ErrorList err
  | Errorf _ err => as_ErrorList err
  | _ => None
  end.

Definition exitClean : Z := 0.
Definition exitStray : Z := 1.
Definition exitUsage : Z := 2.
Definition exitNoInput : Z := 66.
Definition exitIOError : Z := 74.

(* ------------------------------------------------------------------ *)
(** ** The report *)

Definition compareFindings (first second : finding) : Z :=
  let order := Compare (Filename (position first)) (Filename (position second)) in
  if negb (order =? 0) then order
  else if negb (Line (position first) =? Line (position second))
  then Line (position first) - Line (position second)
  else Column (position first) - Column (position second).

Section location.
Context `{Unicode}.

Definition location (position : Position) : bytes :=
  if Line position =? 0 then quote (Filename position)
  else quote (Filename position) ++ B ":" ++ format_int (Line position) ++ B ":" ++ format_int (Column position).

Definition report_line (item : finding) : bytes := location (position item) ++ B ": " ++ reason_text (finding_reason item).

Definition cannotRead (path : bytes) (err : check_error) : check_error :=
  let err := default err (as_PathError err) in
  Errorf (B "cannot read " ++ quote path ++ B ": " ++ check_text err) err.

(** The result of [parser.ParseFile] as [parseGoFile] returns it. *)
Definition parseGoFile (path : bytes) (parsed : res check_error File) : res check_error File :=
  match parsed with
  | Ok file => Ok file
  | Err err =>
      match as_ErrorList err with
      | Some (first :: _) =>
          Err (Errorf (B "cannot parse " ++ location first ++ B ": " ++ check_text errNotGoSource) errNotGoSource)
      | _ => Err (cannotRead path err)
      end
  end.
End location.

(** [filepath.Ext]: from the last dot of the last component on. *)
Fixpoint ext_back (reversed : bytes) (kept : bytes) : bytes :=
  match reversed with
  | [] => []
  | c :: back =>
      if decide (c = slash) then []
      else if decide (c = "."%byte) then c :: kept
      else ext_back back (c :: kept)
  end.

Definition Ext (path : bytes) : bytes := ext_back (rev path) [].

(** A call of the callback of [filepath.WalkDir]: the path, and its error or the
    type of the entry. *)
Inductive entry_type : Type := Directory | Regular | Special.
Record visit := Visit { visit_path : bytes; visit_entry : res check_error entry_type }.

Section command.
Context `{FileSystem} `{Unicode}.
(** The listing of a tree, the parser (the token file it adds to the file set,
    and its result), the order of a map and the sort. *)
Context (WalkDir : bytes -> list visit)
  (ParseFile : list TokenFile -> bytes -> list TokenFile * res check_error File)
  (order : gmap bytes (list parsedFile) -> list bytes)
  (SortFunc : list finding -> list finding).

(** What the walk of a tree has collected. *)
Record walked := Walked {
  walk_files : list TokenFile;
  byDirectory : gmap bytes (list parsedFile);
  walk_found : list finding
}.

(** The callback of the walk. *)
Definition walk_step (st : walked) (v : visit) : res check_error walked :=
  match visit_entry v with
  | Err walkErr => Err (cannotRead (visit_path v) walkErr)
  | Ok Directory => Ok st
  | Ok Special =>
      Ok (Walked (walk_files st) (byDirectory st)
            (walk_found st ++ [Finding (MkPosition (visit_path v) 0 0) unreadableReason]))
  | Ok Regular =>
      if bool_decide (Ext (visit_path v) <> B ".go") then Ok st
      else
        let (files, parsed) := ParseFile (walk_files st) (visit_path v) in
        let? file := parseGoFile (visit_path v) parsed in
        let directory := Dir (visit_path v) in
        Ok (Walked files
              (<[directory := default [] (byDirectory st !! directory) ++ [ParsedFile (visit_path v) file]]> (byDirectory st))
              (walk_found st))
  end.

(** The walk ends at the first error of the callback. *)
Fixpoint walk (st : walked) (visits : list visit) : res check_error walked :=
  match visits with
  | [] => Ok st
  | v :: visits => let? st := walk_step st v in walk st visits
  end.

(** The findings of the files of one directory. *)
Definition directory_findings (files : list TokenFile) (parsed : list parsedFile) : list finding :=
  let outputs := generatorOutputs parsed in
  concat (map (fun candidate =>
    strayComments files (path candidate) (file candidate)
      (bool_decide (Base (path candidate) ∈ outputs))) parsed).

Definition tree_findings (st : walked) : list finding :=
  walk_found st
  ++ concat (map (fun directory => directory_findings (walk_files st) (default [] (byDirectory st !! directory)))
               (order (byDirectory st))).

Definition straysUnder (root : bytes) : res check_error (list bytes) :=
  let? st := walk (Walked [] ∅ []) (WalkDir root) in
  Ok (report_line <$> SortFunc (tree_findings st)).

(** A write to a writer, and its error. *)
Context {W : Type} (stdout stderr : bytes -> W -> W * option check_error).

Definition report (err : check_error) (code : Z) : W -> W * Z :=
  do writeErr <- stderr (B "commentcheck: " ++ check_text err ++ ["010"%byte]);
  state_ret (match writeErr with Some _ => exitIOError | None => code end).

(** The loop over the directories. *)
Fixpoint all_strays (dirs : list bytes) (strays : list bytes) : res check_error (list bytes) :=
  match dirs with
  | [] => Ok strays
  | dir :: dirs => let? found := straysUnder dir in all_strays dirs (strays ++ found)
  end.

Definition check (dirs : list bytes) : W -> W * Z :=
  match dirs with
  | [] => report errNoDirectory exitUsage
  | _ =>
      match all_strays dirs [] with
      | Err err => report err exitNoInput
      | Ok [] => state_ret exitClean
      | Ok strays =>
          do writeErr <- stdout (join ["010"%byte] strays ++ ["010"%byte]);
          match writeErr with
          | Some err => report err exitIOError
          | None => state_ret exitStray
          end
      end
  end.

(** The program: its arguments without its name, and the status it exits with. *)
Definition main (os_Args : list bytes) : W -> W * Z := check (drop 1 os_Args).
End command.

(* ------------------------------------------------------------------ *)
(** ** The loop over the directories and the exit code *)

(** The report of each directory, in order. *)
Lemma all_strays_ok `{FileSystem} `{Unicode} WalkDir ParseFile order SortFunc dirs acc lines :
  all_strays WalkDir ParseFile order SortFunc dirs acc = Ok lines <->
  exists reports, Forall2 (fun dir found => straysUnder WalkDir ParseFile order SortFunc dir = Ok found) dirs reports
                  /\ lines = acc ++ concat reports.
Proof.
  revert acc. induction dirs as [|dir dirs IH]; intros acc; cbn.
  - split; [intros [= ->]; exists []; by rewrite app_nil_r|]. intros (reports & Hf & ->). inversion Hf. by rewrite app_nil_r.
  - destruct (straysUnder WalkDir ParseFile order SortFunc dir) as [found|err] eqn:E; cbn.
    + rewrite IH. split.
      * intros (reports & Hf & ->). exists (found :: reports). split; [by constructor|]. cbn. by rewrite <-app_assoc.
      * intros (reports & Hf & ->). inversion Hf as [|? x ? xs Hx Hxs]; subst. exists xs. split; [done|].
        cbn. rewrite E in Hx. injection Hx as <-. by rewrite <-app_assoc.
    + split; [done|]. intros (reports & Hf & _). inversion Hf; congruence.
Qed.

(** The first directory that cannot be read decides. *)
Lemma all_strays_err `{FileSystem} `{Unicode} WalkDir ParseFile order SortFunc dirs acc err :
  all_strays WalkDir ParseFile order SortFunc dirs acc = Err err <->
  exists before dir after, dirs = before ++ dir :: after
    /\ Forall (fun d => exists found, straysUnder WalkDir ParseFile order SortFunc d = Ok found) before
    /\ straysUnder WalkDir ParseFile order SortFunc dir = Err err.
Proof.
  revert acc. induction dirs as [|dir dirs IH]; intros acc; cbn.
  - split; [done|]. intros ([|] & ? & ? & ? & _); done.
  - destruct (straysUnder WalkDir ParseFile order SortFunc dir) as [found|err'] eqn:E; cbn.
    + rewrite IH. split.
      * intros (before & d & after & -> & Hf & Hd). exists (dir :: before), d, after. split_and!; [done|constructor; eauto|done].
      * intros ([|b before] & d & after & Hs & Hf & Hd); [injection Hs as -> _; congruence|].
        injection Hs as -> ->. apply Forall_cons in Hf as [_ Hf]. eauto 10.
    + split; [intros [= ->]; by exists [], dir, dirs|].
      intros ([|b before] & d & after & Hs & Hf & Hd); injection Hs as -> ?; [congruence|].
      apply Forall_cons in Hf as [[? ?] _]. congruence.
Qed.

Section endings.
Context `{FileSystem} `{Unicode}.
Context (strays : bytes -> res check_error (list bytes)).
Context {W : Type} (stdout stderr : bytes -> W -> W * option check_error).

(** What is printed for an error. *)
Definition diagnostic (err : check_error) : bytes := B "commentcheck: " ++ check_text err ++ ["010"%byte].

(** The first directory that cannot be read or parsed. *)
Definition first_failure (dirs : list bytes) (err : check_error) : Prop :=
  exists before dir after, dirs = before ++ dir :: after
    /\ Forall (fun d => exists found, strays d = Ok found) before /\ strays dir = Err err.

(** The reports of all directories, in the order given. *)
Definition all_reports (dirs : list bytes) (lines : list bytes) : Prop :=
  exists reports, Forall2 (fun dir found => strays dir = Ok found) dirs reports /\ lines = concat reports.

(** How a run of the command ends: the world after it, and the exit code. *)
Inductive ending (dirs : list bytes) (w : W) : W -> Z -> Prop :=
| ending_clean :
    dirs <> [] -> all_reports dirs [] -> ending dirs w w exitClean
| ending_stray lines w' :
    all_reports dirs lines -> lines <> [] ->
    stdout (join ["010"%byte] lines ++ ["010"%byte]) w = (w', None) ->
    ending dirs w w' exitStray
| ending_unwritten lines err w1 w' reported :
    all_reports dirs lines -> lines <> [] ->
    stdout (join ["010"%byte] lines ++ ["010"%byte]) w = (w1, Some err) ->
    stderr (diagnostic err) w1 = (w', reported) ->
    ending dirs w w' exitIOError
| ending_usage w' reported :
    dirs = [] -> stderr (diagnostic errNoDirectory) w = (w', reported) ->
    ending dirs w w' (match reported with Some _ => exitIOError | None => exitUsage end)
| ending_unreadable err w' reported :
    first_failure dirs err -> stderr (diagnostic err) w = (w', reported) ->
    ending dirs w w' (match reported with Some _ => exitIOError | None => exitNoInput end).

Lemma all_reports_nil dirs : all_reports dirs [] <-> Forall (fun dir => strays dir = Ok []) dirs.
Proof.
  split.
  - intros (reports & Hf & Hr). induction Hf as [|dir found ds rs Hd Hf IH]; [constructor|]. cbn in Hr.
    symmetry in Hr. apply app_eq_nil in Hr as [-> Hr]. constructor; auto.
  - intros Hf. exists (map (fun _ => []) dirs). split; [by induction Hf; constructor|].
    clear Hf. by induction dirs.
Qed.

Lemma all_reports_functional dirs l l' : all_reports dirs l -> all_reports dirs l' -> l = l'.
Proof.
  intros (rs & Hf & ->) (rs' & Hf' & ->). f_equal. revert rs' Hf'.
  induction Hf as [|d r ds rs Hd Hf IH]; inversion 1; subst; [done|]. f_equal; [congruence|auto].
Qed.

Lemma first_failure_no_reports dirs err lines : first_failure dirs err -> ~ all_reports dirs lines.
Proof.
  intros (before & dir & after & -> & _ & Hd) (reports & Hf & _).
  apply Forall2_app_inv_l in Hf as (? & rest & _ & Hf & _). inversion Hf; congruence.
Qed.

(** The code 0 means that every directory is clean. *)
Lemma ending_clean_iff dirs w w' code :
  ending dirs w w' code -> code = exitClean <-> dirs <> [] /\ Forall (fun dir => strays dir = Ok []) dirs.
Proof.
  rewrite <-all_reports_nil. intros E.
  destruct E as [Hd Hr|lines w' Hr Hl _|lines err w1 w' rep Hr Hl _ _|w' rep -> _|err w' rep Hf _].
  - split; [by auto|done].
  - split; [done|]. intros [_ Hn]. by destruct (Hl (all_reports_functional _ _ _ Hr Hn)).
  - split; [done|]. intros [_ Hn]. by destruct (Hl (all_reports_functional _ _ _ Hr Hn)).
  - split; [by destruct rep|by intros [? _]].
  - split; [by destruct rep|]. intros [_ Hn]. by destruct (first_failure_no_reports _ _ _ Hf Hn).
Qed.

Lemma report_ending err code w :
  exists w' reported, stderr (diagnostic err) w = (w', reported)
    /\ report stderr err code w = (w', match reported with Some _ => exitIOError | None => code end).
Proof.
  unfold report, state_bind, state_ret, diagnostic. destruct (stderr _ w) as [w' reported]. eauto.
Qed.
End endings.

Lemma check_ending `{FileSystem} `{Unicode} WalkDir ParseFile order SortFunc
    {W} (stdout stderr : bytes -> W -> W * option check_error) dirs w w' code :
  check WalkDir ParseFile order SortFunc stdout stderr dirs w = (w', code) ->
  ending (straysUnder WalkDir ParseFile order SortFunc) stdout stderr dirs w w' code.
Proof.
  set (strays := straysUnder WalkDir ParseFile order SortFunc). intros E.
  unfold check in E. destruct dirs as [|dir dirs].
  { destruct (report_ending stderr errNoDirectory exitUsage w) as (w0 & rep & Hs & Hr).
    rewrite Hr in E. injection E as <- <-. by eapply ending_usage. }
  destruct (all_strays _ _ _ _ (dir :: dirs) []) as [lines|err] eqn:Ea.
  - apply all_strays_ok in Ea as (reports & Hf & Hl). cbn [app] in Hl.
    assert (all_reports strays (dir :: dirs) lines) as Hr by (exists reports; by split).
    destruct lines as [|line lines]; [injection E as <- <-; by apply ending_clean|].
    unfold state_bind in E. destruct (stdout _ w) as [w1 [err|]] eqn:Eo.
    + destruct (report_ending stderr err exitIOError w1) as (w0 & rep & Hs & Hre). rewrite Hre in E.
      assert (code = exitIOError) as -> by (destruct rep; congruence).
      injection E as -> _. by eapply ending_unwritten.
    + injection E as <- <-. by eapply ending_stray.
  - apply all_strays_err in Ea. destruct (report_ending stderr err exitNoInput w) as (w0 & rep & Hs & Hr).
    rewrite Hr in E. injection E as <- <-. by eapply ending_unreadable.
Qed.

(** C25. Every run of the command ends in one of five ways, and the exit code and
    what was written tell which: 0 with nothing written exactly when directories
    are given and every one is clean; 1 when the reports of all directories, in
    the order given, were written; 2 without directories; 66 with the error of
    the first directory that cannot be read or parsed; 74 when the report or the
    diagnostic could not be written. *)
Theorem check_ends `{FileSystem} `{Unicode} WalkDir ParseFile order SortFunc
    {W} (stdout stderr : bytes -> W -> W * option check_error) dirs w :
  let strays := straysUnder WalkDir ParseFile order SortFunc in
  let '(w', code) := check WalkDir ParseFile order SortFunc stdout stderr dirs w in
  ending strays stdout stderr dirs w w' code
  /\ (code = exitClean <-> dirs <> [] /\ Forall (fun dir => strays dir = Ok []) dirs).
Proof.
  intros strays. destruct (check _ _ _ _ stdout stderr dirs w) as [w' code] eqn:E.
  apply check_ending in E. split; [done|]. by eapply ending_clean_iff.
Qed.

(* ------------------------------------------------------------------ *)
(** ** compareFindings orders findings by position *)

Definition finding_le (f g : finding) : Prop := compareFindings f g <= 0.

(** What package slices promises: a permutation sorted by [compareFindings]. *)
Definition sorts (SortFunc : list finding -> list finding) : Prop :=
  forall l, SortFunc l ≡ₚ l /\ Sorted finding_le (SortFunc l).

(** The lexicographic order of file, line and column. *)
Definition position_lt (p q : Position) : Prop :=
  Compare (Filename p) (Filename q) < 0
  \/ Filename p = Filename q /\ (Line p < Line q \/ Line p = Line q /\ Column p < Column q).

Lemma compareFindings_le f g :
  compareFindings f g <= 0 <-> position_lt (position f) (position g) \/ position f = position g.
Proof.
  unfold compareFindings, position_lt. destruct f as [[a b c] r], g as [[a' b' c'] r']. cbn.
  destruct (Z.eqb_spec (Compare a a') 0) as [E|E]; cbn [negb].
  - rewrite E. apply Compare_eq in E as ->. destruct (Z.eqb_spec b b') as [->|Hb]; cbn [negb].
    + split; [|intros [[?|[_ ?]]|[= ->]]; lia]. intros Hc.
      destruct (decide (c = c')) as [->|]; [by right|left; right; split; [done|right; lia]].
    + split; [intros ?; left; right; split; [done|left; lia]|]. intros [[?|[_ ?]]|E]; [lia|lia|congruence].
  - split; [intros ?; left; left; lia|]. intros [[?|[-> _]]|[= -> -> ->]]; [lia|by rewrite Compare_refl in E..].
Qed.

Lemma compareFindings_antisym f g : compareFindings g f = - compareFindings f g.
Proof.
  unfold compareFindings. rewrite (Compare_antisym (Filename (position f))).
  destruct (Z.eqb_spec (Compare (Filename (position f)) (Filename (position g))) 0) as [E|E].
  - rewrite E, (Z.eqb_sym (Line (position g))). change (- 0 =? 0) with true. cbn [negb].
    destruct (Line (position f) =? Line (position g)); cbn [negb]; lia.
  - destruct (Z.eqb_spec (- Compare (Filename (position f)) (Filename (position g))) 0); [lia|done].
Qed.

#[global] Instance finding_le_total : Total finding_le.
Proof. intros f g. unfold finding_le. pose proof (compareFindings_antisym f g). lia. Qed.

#[global] Instance finding_le_dec : RelDecision finding_le.
Proof. intros f g. unfold finding_le. apply _. Defined.

Lemma Compare_lt_trans s t u : Compare s t < 0 -> Compare t u < 0 -> Compare s u < 0.
Proof.
  intros H1 H2. pose proof (Compare_trans s t u ltac:(lia) ltac:(lia)) as H3.
  destruct (decide (Compare s u = 0)) as [E|E]; [|lia]. apply Compare_eq in E as ->.
  rewrite Compare_antisym in H2. lia.
Qed.

#[global] Instance finding_le_transitive : Transitive finding_le.
Proof.
  intros f g h. unfold finding_le. rewrite !compareFindings_le. unfold position_lt.
  intros [H1|E1] [H2|E2]; [|rewrite <-E2; auto|rewrite E1; auto|right; congruence]. left.
  destruct H1 as [H1|[E1 H1]], H2 as [H2|[E2 H2]].
  - left. by eapply Compare_lt_trans.
  - left. by rewrite <-E2.
  - left. by rewrite E1.
  - right. split; [congruence|lia].
Qed.

(** Two findings neither of which comes first are at the same position. *)
Lemma finding_le_antisym f g : finding_le f g -> finding_le g f -> position f = position g.
Proof.
  unfold finding_le. intros H1 H2. pose proof (compareFindings_antisym f g).
  apply compareFindings_le in H1 as [H1|?]; [|done]. exfalso.
  apply compareFindings_le in H2 as [H2|E]; unfold position_lt in *.
  - rewrite (Compare_antisym (Filename (position f))) in H2.
    destruct H1 as [H1|[E1 H1]], H2 as [H2|[E2 H2]]; try lia.
    + rewrite E2, Compare_refl in H1. lia.
    + rewrite E1, Compare_refl in H2. lia.
  - rewrite E, Compare_refl in H1. lia.
Qed.

(* ------------------------------------------------------------------ *)
(** ** The walk *)

(** What the language promises: the keys of a map in some order. *)
Definition iterates (order : gmap bytes (list parsedFile) -> list bytes) : Prop :=
  forall m, order m ≡ₚ (map_to_list m).*1.

(** The parsed files of a directory. *)
Definition at_dir (st : walked) (directory : bytes) : list parsedFile := default [] (byDirectory st !! directory).

Section walk.
Context `{Unicode}.
Context (ParseFile : list TokenFile -> bytes -> list TokenFile * res check_error File).

(** The steps of the walk that return no error. *)
Inductive stepped (st : walked) (v : visit) : walked -> Prop :=
| stepped_directory : visit_entry v = Ok Directory -> stepped st v st
| stepped_special :
    visit_entry v = Ok Special ->
    stepped st v (Walked (walk_files st) (byDirectory st)
                    (walk_found st ++ [Finding (MkPosition (visit_path v) 0 0) unreadableReason]))
| stepped_other : visit_entry v = Ok Regular -> Ext (visit_path v) <> B ".go" -> stepped st v st
| stepped_go files file :
    visit_entry v = Ok Regular -> Ext (visit_path v) = B ".go" ->
    ParseFile (walk_files st) (visit_path v) = (files, Ok file) ->
    stepped st v (Walked files
      (<[Dir (visit_path v) := at_dir st (Dir (visit_path v)) ++ [ParsedFile (visit_path v) file]]> (byDirectory st))
      (walk_found st)).

Lemma walk_step_ok st v st' : walk_step ParseFile st v = Ok st' -> stepped st v st'.
Proof.
  unfold walk_step. destruct (visit_entry v) as [[| |]|] eqn:Ev; [..|done].
  - intros [= <-]. by apply stepped_directory.
  - case_bool_decide as Hx; [intros [= <-]; by apply stepped_other|].
    destruct (ParseFile (walk_files st) (visit_path v)) as [files parsed] eqn:Ep. unfold parseGoFile.
    destruct parsed as [file|err]; [|by destruct (as_ErrorList err) as [[|]|]].
    intros [= <-]. by apply stepped_go.
  - intros [= <-]. by apply stepped_special.
Qed.

(** Induction over a walk that returns no error: what holds at the start and is
    kept by every step of it holds at the end. *)
Lemma walk_induction (P : walked -> Prop) st visits st' :
  walk ParseFile st visits = Ok st' -> P st ->
  (forall s v s', v ∈ visits -> stepped s v s' -> P s -> P s') -> P st'.
Proof.
  revert st. induction visits as [|v visits IH]; intros st E H0 HP; cbn in E; [by injection E as <-|].
  destruct (walk_step ParseFile st v) as [s|] eqn:Es; [|done]. cbn in E. apply (IH s); [done| |].
  - apply (HP st v s); [left|by apply walk_step_ok|done].
  - intros a b c Hb. apply HP. by right.
Qed.

(** The same for one visit: it was stepped over, and what the step gave was kept. *)
Lemma walk_visit (Q : walked -> Prop) st visits st' v :
  walk ParseFile st visits = Ok st' -> v ∈ visits ->
  (forall s s', stepped s v s' -> Q s') -> (forall s u s', stepped s u s' -> Q s -> Q s') -> Q st'.
Proof.
  revert st. induction visits as [|u visits IH]; intros st E Hv HQ HK; [by apply not_elem_of_nil in Hv|].
  cbn in E. destruct (walk_step ParseFile st u) as [s|] eqn:Es; [|done]. cbn in E. apply walk_step_ok in Es.
  apply elem_of_cons in Hv as [->|Hv]; [|exact (IH s E Hv HQ HK)].
  eapply walk_induction; [exact E|by eapply HQ|]. intros a b c _. apply HK.
Qed.

(** A step adds at most one file, to its own directory. *)
Lemma at_dir_step st v st' d pf :
  stepped st v st' ->
  pf ∈ at_dir st' d ->
  pf ∈ at_dir st d
  \/ (d = Dir (visit_path v) /\ path pf = visit_path v /\ visit_entry v = Ok Regular /\ Ext (visit_path v) = B ".go"
      /\ ParseFile (walk_files st) (visit_path v) = (walk_files st', Ok (file pf))).
Proof.
  intros [Ev|Ev|Ev Hx|files f Ev Hx Hp]; [by left..|]. unfold at_dir at 1. cbn.
  destruct (decide (d = Dir (visit_path v))) as [->|Hd]; [rewrite lookup_insert_eq|rewrite lookup_insert_ne by done; by left].
  cbn. rewrite elem_of_app, list_elem_of_singleton. intros [Hin| ->]; [by left|by right].
Qed.

Lemma at_dir_kept st v st' d pf : stepped st v st' -> pf ∈ at_dir st d -> pf ∈ at_dir st' d.
Proof.
  intros [Ev|Ev|Ev Hx|files f Ev Hx Hp] Hpf; [done..|]. unfold at_dir. cbn.
  destruct (decide (d = Dir (visit_path v))) as [->|Hd]; [rewrite lookup_insert_eq|by rewrite lookup_insert_ne].
  cbn. apply elem_of_app. by left.
Qed.

(** What became of a visit of a walk without error. *)
Definition visited (v : visit) (st : walked) : Prop :=
  visit_entry v = Ok Directory
  \/ visit_entry v = Ok Special /\ Finding (MkPosition (visit_path v) 0 0) unreadableReason ∈ walk_found st
  \/ visit_entry v = Ok Regular /\ Ext (visit_path v) <> B ".go"
  \/ exists files file, (ParseFile files (visit_path v)).2 = Ok file
      /\ ParsedFile (visit_path v) file ∈ at_dir st (Dir (visit_path v)).

Lemma walk_visited st visits st' v : walk ParseFile st visits = Ok st' -> v ∈ visits -> visited v st'.
Proof.
  intros E Hv. eapply walk_visit; [exact E|exact Hv| |].
  - intros s s' [Ev|Ev|Ev Hx|files f Ev Hx Hp].
    + by left.
    + right; left. split; [done|]. cbn. apply elem_of_app. right. by apply list_elem_of_singleton.
    + right; right; left. done.
    + right; right; right. exists (walk_files s), f. rewrite Hp. split; [done|]. unfold at_dir at 1. cbn.
      rewrite lookup_insert_eq. cbn. apply elem_of_app. right. by apply list_elem_of_singleton.
  - intros s u s' Hu [Hd | [[Hs Hf] | [Ho | (files & f & Hp & Hin)]]]; [by left| |by right; right; left|].
    + right; left. split; [done|]. destruct Hu; try done. cbn. apply elem_of_app. by left.
    + right; right; right. exists files, f. split; [done|]. by eapply at_dir_kept.
Qed.

(** Where the parsed files come from. *)
Lemma walk_parsed visits st' d pf :
  walk ParseFile (Walked [] ∅ []) visits = Ok st' -> pf ∈ at_dir st' d ->
  exists v files, v ∈ visits /\ path pf = visit_path v /\ d = Dir (path pf)
    /\ (ParseFile files (path pf)).2 = Ok (file pf).
Proof.
  intros E. revert d pf. pattern st'. eapply walk_induction; [exact E| |].
  - by intros d pf ?%not_elem_of_nil.
  - intros s v s' Hv Hs IH d pf Hpf. destruct (at_dir_step _ _ _ _ _ Hs Hpf) as [Hi | (-> & Hp & _ & _ & Hpa)]; [auto|].
    exists v, (walk_files s). rewrite Hp. split_and!; [done..|]. by rewrite Hpa.
Qed.
End walk.

(* ------------------------------------------------------------------ *)
(** ** A clean tree *)

Section clean.
Context `{FileSystem} `{Unicode}.

Lemma elem_of_tree_findings order st f :
  iterates order ->
  f ∈ tree_findings order st <->
  f ∈ walk_found st \/
  exists d pf, pf ∈ at_dir st d
    /\ f ∈ strayComments (walk_files st) (path pf) (file pf)
            (bool_decide (Base (path pf) ∈ generatorOutputs (at_dir st d))).
Proof.
  intros Ho. unfold tree_findings. rewrite elem_of_app, elem_of_concat_map. f_equiv.
  unfold directory_findings. split.
  - intros (d & _ & Hf). apply elem_of_concat_map in Hf as (pf & Hpf & Hf). by exists d, pf.
  - intros (d & pf & Hpf & Hf). exists d. split.
    + rewrite (Ho (byDirectory st)). apply list_elem_of_fmap. unfold at_dir in Hpf.
      destruct (byDirectory st !! d) as [l|] eqn:E; [|by apply not_elem_of_nil in Hpf].
      exists (d, l). split; [done|]. by apply elem_of_map_to_list.
    + apply elem_of_concat_map. by exists pf.
Qed.

(** A line that names an output: a known generate directive of a file that is
    not itself generated. *)
Definition names_output (pf : parsedFile) (output : bytes) : Prop :=
  IsGenerated (file pf) = false
  /\ exists group line, group ∈ Comments (file pf) /\ line ∈ group_List group
     /\ name (splitDirective (Comment_Text line)) = B "generate"
     /\ known (Dir (path pf)) (Comment_Text line) (splitDirective (Comment_Text line))
     /\ output ∈ outputFlagValues (arguments (splitDirective (Comment_Text line))).

Lemma generatorOutputs_spec parsed output :
  output ∈ generatorOutputs parsed <-> exists pf, pf ∈ parsed /\ names_output pf output.
Proof.
  unfold generatorOutputs. rewrite elem_of_concat_map. f_equiv. intros pf. f_equiv.
  unfold file_outputs, names_output. destruct (IsGenerated (file pf)).
  - rewrite elem_of_nil. naive_solver.
  - rewrite elem_of_concat_map. setoid_rewrite elem_of_concat_map. split.
    + intros (group & Hg & line & Hl & Ho). split; [done|]. exists group, line. unfold line_outputs in Ho.
      destruct (bool_decide _ && _) eqn:E; [|by apply not_elem_of_nil in Ho].
      apply andb_prop in E as [En%bool_decide_eq_true Ek%isKnownDirective_correct]. done.
    + intros (_ & group & line & Hg & Hl & Hn & Hk%isKnownDirective_correct & Ho). exists group. split; [done|].
      exists line. split; [done|]. unfold line_outputs. by rewrite Hk, bool_decide_eq_true_2.
Qed.
End clean.

(** What a visit of a clean tree is: a directory, a file the checker does not
    read, or a Go file that parses and whose every comment group is accepted, or
    a generated file that a generator of its directory names as its output. *)
Definition clean_visit `{FileSystem} `{Unicode}
    (ParseFile : list TokenFile -> bytes -> list TokenFile * res check_error File) (visits : list visit) (v : visit) : Prop :=
  visit_entry v = Ok Directory
  \/ visit_entry v = Ok Regular /\ Ext (visit_path v) <> B ".go"
  \/ exists files file, (ParseFile files (visit_path v)).2 = Ok file
      /\ (Forall (accepted (visit_path v) file) (Comments file)
          \/ IsGenerated file = true
             /\ exists v' files' file', v' ∈ visits /\ Dir (visit_path v') = Dir (visit_path v)
                /\ (ParseFile files' (visit_path v')).2 = Ok file'
                /\ names_output (ParsedFile (visit_path v') file') (Base (visit_path v))).

Lemma clean_strays `{FileSystem} `{Unicode} WalkDir ParseFile order SortFunc dir v :
  iterates order -> sorts SortFunc ->
  straysUnder WalkDir ParseFile order SortFunc dir = Ok [] -> v ∈ WalkDir dir ->
  clean_visit ParseFile (WalkDir dir) v.
Proof.
  intros Ho Hs E Hv. unfold straysUnder in E. destruct (walk _ _ _) as [st|] eqn:Ew; [|done]. cbn in E.
  assert (tree_findings order st = []) as Hnil.
  { injection E as E%fmap_nil_inv. destruct (Hs (tree_findings order st)) as [Hp _]. rewrite E in Hp.
    symmetry in Hp. by apply Permutation_nil_r in Hp. }
  assert (forall f, f ∉ tree_findings order st) as Hno by (intros f; rewrite Hnil; apply not_elem_of_nil).
  destruct (walk_visited _ _ _ _ _ Ew Hv) as [Hd | [[_ Hf] | [Hr | (files & f & Hp & Hin)]]];
    [by left| |by right; left|right; right].
  { exfalso. eapply Hno, elem_of_tree_findings; [done|by left]. }
  exists files, f. split; [done|].
  set (pf := ParsedFile (visit_path v) f) in *. set (d := Dir (visit_path v)) in *.
  destruct (strayComments (walk_files st) (path pf) (file pf)
              (bool_decide (Base (path pf) ∈ generatorOutputs (at_dir st d)))) as [|g gs] eqn:Es.
  2: { exfalso. apply (Hno g). apply elem_of_tree_findings; [done|]. right. exists d, pf. split; [done|].
       rewrite Es. left. }
  apply stray_groups in Es as [[Hn Hg]%andb_prop|Ha]; [right|by left]. split; [done|].
  apply bool_decide_eq_true, generatorOutputs_spec in Hn as (pf' & Hin' & Hn).
  destruct (walk_parsed _ _ _ _ _ Ew Hin') as (v' & files' & Hv' & Hpath & Hd & Hp').
  exists v', files', (file pf'). rewrite <-Hpath. split_and!; [done|by rewrite <-Hd|done|]. by destruct pf'.
Qed.

(** C16. The exit code 0 says what the command's documentation promises: every
    directory given was walked to its end; it holds no symbolic link and no other
    special file; every Go file in it parses; and every comment group of such a
    file is an allowed doc, an example output or known directives, without any
    nolint line, unless the file is generated and a known generate directive of a
    file of its directory, itself not generated, names it. *)
Theorem clean_tree `{FileSystem} `{Unicode} WalkDir ParseFile order SortFunc
    {W} (stdout stderr : bytes -> W -> W * option check_error) dirs w w' :
  iterates order -> sorts SortFunc ->
  check WalkDir ParseFile order SortFunc stdout stderr dirs w = (w', exitClean) ->
  forall dir v, dir ∈ dirs -> v ∈ WalkDir dir -> clean_visit ParseFile (WalkDir dir) v.
Proof.
  intros Ho Hs E dir v Hd Hv. apply check_ending, ending_clean_iff in E.
  destruct (proj1 E eq_refl) as [_ Hf]. rewrite Forall_forall in Hf.
  eapply clean_strays; [exact Ho|exact Hs|by apply Hf|done].
Qed.

(* ------------------------------------------------------------------ *)
(** ** Examples and witnesses *)

#[local] Existing Instance sample_unicode.
#[local] Existing Instance sample_files.

(** The end of the last file of a file set, and one. *)
Definition next_base (files : list TokenFile) : Z :=
  foldr (fun f base => Z.max base (tf_base f + tf_size f + 1)) 1 files.

(** A parser of files with one line of comment, without declarations; the first
    comment is the package doc when [documented]. *)
Definition sample_file (documented : bool) (pos : Z) (text : bytes) : File := {|
  File_Doc := if documented then Some 1%nat else None;
  Package := pos + 100;
  Decls := [];
  Comments := [MkGroup 1 (MkComment pos text) []]
|}.

Definition sample_parser (documented : bool) (text : bytes -> bytes) (files : list TokenFile) (p : bytes)
    : list TokenFile * res check_error File :=
  let base := next_base files in
  (files ++ [{| tf_name := p; tf_base := base; tf_size := 200; tf_lines := [0; 100]; tf_infos := [] |}],
   Ok (sample_file documented base (text p))).

(** The keys of a map as [map_to_list] gives them, and a merge sort. *)
Definition sample_order (m : gmap bytes (list parsedFile)) : list bytes := (map_to_list m).*1.

Lemma sample_order_iterates : iterates sample_order.
Proof. intros m. reflexivity. Qed.

Lemma merge_sorts : sorts (merge_sort finding_le).
Proof. intros l. split; [apply merge_sort_Permutation|apply Sorted_merge_sort, _]. Qed.

(** A tree whose one file names the other, which is generated, as its output. *)
Definition sample_tree (root : bytes) : list visit :=
  [Visit (B "a") (Ok Directory); Visit (B "a/doc.go") (Ok Regular); Visit (B "a/notes.txt") (Ok Regular);
   Visit (B "a/x.go") (Ok Regular)].

Definition sample_text (p : bytes) : bytes :=
  if bool_decide (p = B "a/x.go") then B "// Code generated by stringer. DO NOT EDIT."
  else B "//go:generate go tool stringer -o=x.go".

Definition silent (text : bytes) (w : list bytes) : list bytes * option check_error := (w ++ [text], None).

Example check_runs :
  (check sample_tree (sample_parser false sample_text) sample_order (merge_sort finding_le) silent silent
     [B "a"] [],
   check sample_tree (sample_parser false (fun _ => B "// stray")) sample_order (merge_sort finding_le)
     silent silent [B "a"] [])
  = ([], 0, ([join ["010"%byte] [quote (B "a/doc.go") ++ B ":1:1: " ++ reason_text refusedReason;
                                 quote (B "a/x.go") ++ B ":1:1: " ++ reason_text refusedReason] ++ ["010"%byte]], 1)).
Proof. vm_refl. Qed.

Lemma clean_tree_witness :
  clean_visit (sample_parser false sample_text) (sample_tree (B "a")) (Visit (B "a/x.go") (Ok Regular)).
Proof.
  refine (clean_tree sample_tree (sample_parser false sample_text) sample_order (merge_sort finding_le)
    silent silent [B "a"] [] [] sample_order_iterates merge_sorts _ (B "a") _ _ _).
  - vm_refl.
  - left.
  - right; right; right; left.
Defined.
