(* ===== verification/Report.v ===== *)
(** * Report: the order and the lines of the report of commentcheck

    The report of a tree does not depend on the order in which the runtime
    iterates the map of directories, nor on how the sort orders equal elements,
    and its lines tell every finding apart. *)

From S2P Require Import Prelude Text Json Encoding Env Sample Words Path Syntax Directives Docs Comments Commentcheck.

(* ------------------------------------------------------------------ *)
(** ** Positions of a walk *)

(** The file set after a walk: ranges one after the other, from one on. *)
Definition ranges_ordered (files : list TokenFile) : Prop :=
  StronglySorted (fun a b => tf_base a + tf_size a < tf_base b) files /\ Forall (fun f => 0 < tf_base f) files.

Definition slashes (f : File) : list Z := Slash <$> concat (map group_List (Comments f)).

(** What go/parser and go/token promise of a file that parses without error: its
    token file has the name it was parsed under and comes after the others in
    the file set, its lines are in order, its line directives, if it has any,
    have a line and a column or none, and the comments of the file stand in its
    range, in order. *)
Record token_file_ok (p : bytes) (tf : TokenFile) (f : File) : Prop := {
  tk_name : tf_name tf = p;
  tk_base : 0 < tf_base tf;
  tk_lines : lines_ok tf;
  tk_infos : Forall info_ok (tf_infos tf);
  tk_range : Forall (fun pos => in_range pos (tf_base tf) (tf_base tf + tf_size tf) = true) (slashes f);
  tk_sorted : StronglySorted Z.lt (slashes f)
}.

Definition parser_ok (ParseFile : list TokenFile -> bytes -> list TokenFile * res check_error File) : Prop :=
  forall files p files' f, ParseFile files p = (files', Ok f) ->
    exists tf, files' = files ++ [tf] /\ token_file_ok p tf f
      /\ Forall (fun other => tf_base other + tf_size other < tf_base tf) files.

(** [tf] is the token file the parser makes of the file at [p]. *)
Definition parsed_as (ParseFile : list TokenFile -> bytes -> list TokenFile * res check_error File)
    (p : bytes) (tf : TokenFile) (f : File) : Prop :=
  exists files, ParseFile files p = (files ++ [tf], Ok f).

(** No file of a tree has a line directive. *)
Definition directive_free (ParseFile : list TokenFile -> bytes -> list TokenFile * res check_error File)
    (visits : list visit) : Prop :=
  forall v tf f, v ∈ visits -> parsed_as ParseFile (visit_path v) tf f -> tf_infos tf = [].

(** The paths of the regular files a walk visits. *)
Definition regular_paths (visits : list visit) : list bytes :=
  omap (fun v => match visit_entry v with Ok Regular => Some (visit_path v) | _ => None end) visits.

Lemma find_range files tf pos :
  ranges_ordered files -> tf ∈ files -> in_range pos (tf_base tf) (tf_base tf + tf_size tf) = true ->
  FileSet_Position files pos = unpack tf (pos - tf_base tf) /\ 0 <= pos - tf_base tf.
Proof.
  intros [Hs Hb] Hin Hr. unfold FileSet_Position.
  assert (List.find (fun f => in_range pos (tf_base f) (tf_base f + tf_size f)) files = Some tf) as ->.
  { induction Hs as [|a files Hs IH Ha]; [by apply not_elem_of_nil in Hin|].
    apply Forall_cons in Hb as [_ Hb]. cbn. apply elem_of_cons in Hin as [->|Hin]; [by rewrite Hr|].
    destruct (in_range pos (tf_base a) (tf_base a + tf_size a)) eqn:E; [|auto].
    rewrite Forall_forall in Ha. specialize (Ha tf Hin). bdec. lia. }
  rewrite Forall_forall in Hb. specialize (Hb tf Hin). bdec.
  destruct (Z.eqb_spec pos 0); [lia|]. split; [done|lia].
Qed.

(** Comments of a file are told apart by where they start. *)
Lemma slash_unique groups g1 g2 l1 l2 :
  StronglySorted Z.lt (Slash <$> concat (map group_List groups)) ->
  g1 ∈ groups -> g2 ∈ groups -> l1 ∈ group_List g1 -> l2 ∈ group_List g2 -> Slash l1 = Slash l2 ->
  g1 = g2 /\ l1 = l2.
Proof.
  induction groups as [|g groups IH]; intros Hs H1 H2 Hl1 Hl2 E; [by apply not_elem_of_nil in H1|].
  cbn [map concat] in Hs. rewrite fmap_app in Hs. apply StronglySorted_app in Hs as (Hlt & Hg & Hs).
  assert (forall h la lb, h ∈ groups -> la ∈ group_List g -> lb ∈ group_List h -> Slash la < Slash lb) as Hcross.
  { intros h la lb Hh Hla Hlb. apply Hlt; apply list_elem_of_fmap; [by exists la|]. exists lb. split; [done|].
    apply elem_of_concat_map. by exists h. }
  apply elem_of_cons in H1 as [->|H1], H2 as [->|H2].
  - split; [done|]. clear -Hg Hl1 Hl2 E. induction (group_List g) as [|l ls IHl]; [by apply not_elem_of_nil in Hl1|].
    cbn in Hg. apply StronglySorted_inv in Hg as [Hg Ha]. rewrite Forall_forall in Ha.
    apply elem_of_cons in Hl1 as [->|Hl1], Hl2 as [->|Hl2]; [done|..|auto].
    + specialize (Ha (Slash l2)). ospecialize (Ha _); [apply list_elem_of_fmap; eauto|lia].
    + specialize (Ha (Slash l1)). ospecialize (Ha _); [apply list_elem_of_fmap; eauto|lia].
  - pose proof (Hcross g2 l1 l2 H2 Hl1 Hl2). lia.
  - pose proof (Hcross g1 l2 l1 H1 Hl2 Hl1). lia.
  - auto.
Qed.

(** What a walk keeps: the ranges of the file set, a token file for each parsed
    file, and findings of its own without a line. *)
Record walk_ok (ParseFile : list TokenFile -> bytes -> list TokenFile * res check_error File) (st : walked) : Prop := {
  ok_ranges : ranges_ordered (walk_files st);
  ok_held : forall d pf, pf ∈ at_dir st d ->
    exists tf, tf ∈ walk_files st /\ token_file_ok (path pf) tf (file pf) /\ parsed_as ParseFile (path pf) tf (file pf);
  ok_found : forall f, f ∈ walk_found st -> Line (position f) = 0 /\ finding_reason f = unreadableReason
}.

(** The directories of a walk hold one file for each path, and none of them has
    a line directive. *)
Definition distinct_files (st : walked) : Prop :=
  forall d d' pf pf', pf ∈ at_dir st d -> pf' ∈ at_dir st d' -> path pf = path pf' -> pf = pf'.

Definition plain_files (ParseFile : list TokenFile -> bytes -> list TokenFile * res check_error File) (st : walked) : Prop :=
  forall d pf tf, pf ∈ at_dir st d -> parsed_as ParseFile (path pf) tf (file pf) -> tf_infos tf = [].

(** Every comment of a file is one of those whose positions the file keeps. *)
Lemma slash_in f g line : g ∈ Comments f -> line ∈ group_List g -> Slash line ∈ slashes f.
Proof. intros Hg Hl. apply list_elem_of_fmap. exists line. split; [done|]. apply elem_of_concat_map. by exists g. Qed.

Lemma ranges_snoc files tf :
  ranges_ordered files -> 0 < tf_base tf ->
  Forall (fun other => tf_base other + tf_size other < tf_base tf) files -> ranges_ordered (files ++ [tf]).
Proof.
  intros [Hs Hb] Ht Ho. split; [|apply Forall_app; auto]. apply StronglySorted_app.
  split_and!; [|done|repeat constructor]. intros a b Ha Hb'%list_elem_of_singleton. subst.
  rewrite Forall_forall in Ho. by apply Ho.
Qed.

Section order.
Context `{FileSystem} `{Unicode}.
Context (ParseFile : list TokenFile -> bytes -> list TokenFile * res check_error File).
Context (parser : parser_ok ParseFile).

(** A step keeps it: the file set gets the token file of the file parsed. *)
Lemma step_ok st v st' : stepped ParseFile st v st' -> walk_ok ParseFile st -> walk_ok ParseFile st'.
Proof using parser.
  intros Hs [Hr Hh Hf]. pose proof (fun d pf => at_dir_step ParseFile st v st' d pf Hs) as Hat.
  destruct Hs as [Ev|Ev|Ev Hx|files f Ev Hx Hpa]; [by split| |by split|].
  - split; [done..|]. cbn. intros g [Hg|Hg]%elem_of_app; [auto|]. apply list_elem_of_singleton in Hg as ->. done.
  - destruct (parser _ _ _ _ Hpa) as (tf & -> & Htf & Ho). split; cbn [walk_files walk_found]; [|..|done].
    + apply ranges_snoc; [done|apply (tk_base _ _ _ Htf)|done].
    + intros d pf [Hin|(_ & Hp & _ & _ & Hpa')]%Hat.
      * destruct (Hh d pf Hin) as (tf' & Hin' & Htf'). exists tf'. split; [|done]. apply elem_of_app. by left.
      * exists tf. rewrite Hp. cbn in Hpa'. rewrite Hpa in Hpa'. assert (file pf = f) as -> by congruence.
        split; [apply elem_of_app; right; by apply list_elem_of_singleton|]. split; [done|]. by exists (walk_files st).
Qed.

Lemma walk_start : walk_ok ParseFile (Walked [] ∅ []).
Proof.
  split; [by repeat constructor|..].
  - by intros d pf ?%not_elem_of_nil.
  - by intros f ?%not_elem_of_nil.
Qed.

Lemma walk_end visits st : walk ParseFile (Walked [] ∅ []) visits = Ok st -> walk_ok ParseFile st.
Proof using parser.
  intros E. eapply walk_induction; [exact E|apply walk_start|]. intros a v b _. apply step_ok.
Qed.

(** One file for each path, when the walk visits no path twice. *)
Lemma walk_distinct visits st st' :
  walk ParseFile st visits = Ok st' -> distinct_files st -> NoDup (regular_paths visits) ->
  (forall d pf, pf ∈ at_dir st d -> path pf ∉ regular_paths visits) -> distinct_files st'.
Proof.
  revert st. induction visits as [|v visits IH]; intros st E Hok Hnd Hnew; cbn in E; [by injection E as <-|].
  destruct (walk_step ParseFile st v) as [s|] eqn:Es; [|done]. cbn in E. apply walk_step_ok in Es.
  assert (regular_paths (v :: visits) = match visit_entry v with Ok Regular => [visit_path v] | _ => [] end ++ regular_paths visits) as Hcons
    by (unfold regular_paths; cbn; by destruct (visit_entry v) as [[]|]).
  rewrite Hcons in Hnd, Hnew. apply NoDup_app in Hnd as (_ & Hdis & Hnd).
  pose proof (fun d pf => at_dir_step ParseFile st v s d pf Es) as Hat. apply (IH s); [done| |done|].
  - assert (forall d pf, pf ∈ at_dir st d -> visit_entry v = Ok Regular -> path pf <> visit_path v) as Hold.
    { intros d pf Hin Ev Hpath. apply (Hnew d pf Hin). rewrite Ev, Hpath. left. }
    intros d d' pf pf' [Hin|(_ & Hp & Ev & _ & Hpa)]%Hat [Hin'|(_ & Hp' & Ev' & _ & Hpa')]%Hat E'.
    + by eapply Hok.
    + exfalso. eapply Hold; [exact Hin|done|congruence].
    + exfalso. eapply Hold; [exact Hin'|done|congruence].
    + rewrite Hpa in Hpa'. destruct pf, pf'. cbn in *. congruence.
  - intros d pf [Hin|(_ & Hp & Ev & _)]%Hat.
    + intros Hr. apply (Hnew d pf Hin). apply elem_of_app. by right.
    + rewrite Hp. apply Hdis. rewrite Ev. left.
Qed.

Lemma walk_end_distinct visits st :
  walk ParseFile (Walked [] ∅ []) visits = Ok st -> NoDup (regular_paths visits) -> distinct_files st.
Proof.
  intros E Hnd. eapply walk_distinct; [exact E| |done|]; [|by intros d pf ?%not_elem_of_nil].
  by intros d d' pf pf' ?%not_elem_of_nil.
Qed.

Lemma walk_end_plain visits st :
  walk ParseFile (Walked [] ∅ []) visits = Ok st -> directive_free ParseFile visits -> plain_files ParseFile st.
Proof.
  intros E Hd d pf tf Hpf Htf. destruct (walk_parsed _ _ _ _ _ E Hpf) as (v & _ & Hv & Hp & _).
  rewrite Hp in Htf. by eapply Hd.
Qed.

(** The file set gives the comment of a file its place in the token file of it. *)
Lemma comment_position st d pf g line :
  walk_ok ParseFile st -> pf ∈ at_dir st d -> g ∈ Comments (file pf) -> line ∈ group_List g ->
  exists tf, token_file_ok (path pf) tf (file pf) /\ parsed_as ParseFile (path pf) tf (file pf) /\ tf ∈ walk_files st
    /\ FileSet_Position (walk_files st) (Slash line) = unpack tf (Slash line - tf_base tf)
    /\ 0 <= Slash line - tf_base tf.
Proof.
  intros Hok Hpf Hg Hl. destruct (ok_held _ st Hok d pf Hpf) as (tf & Hin & Htf & Hpa). exists tf.
  split_and!; [done..| |]; apply (find_range _ _ _ (ok_ranges _ st Hok) Hin);
    pose proof (tk_range _ _ _ Htf) as Hr; rewrite Forall_forall in Hr; by eapply Hr, slash_in.
Qed.

(** Without line directives, two comments at the same position are the same
    comment of the same group of the same file. *)
Lemma position_unique st d1 d2 pf1 pf2 g1 g2 l1 l2 :
  walk_ok ParseFile st -> distinct_files st -> plain_files ParseFile st ->
  pf1 ∈ at_dir st d1 -> pf2 ∈ at_dir st d2 ->
  g1 ∈ Comments (file pf1) -> g2 ∈ Comments (file pf2) -> l1 ∈ group_List g1 -> l2 ∈ group_List g2 ->
  FileSet_Position (walk_files st) (Slash l1) = FileSet_Position (walk_files st) (Slash l2) ->
  1 <= Line (FileSet_Position (walk_files st) (Slash l1)) /\ pf1 = pf2 /\ g1 = g2 /\ l1 = l2.
Proof.
  intros Hok Hd Hplain H1 H2 Hg1 Hg2 Hl1 Hl2 E.
  destruct (comment_position st d1 pf1 g1 l1 Hok H1 Hg1 Hl1) as (tf1 & Ht1 & Hpa1 & Hin1 & P1 & O1).
  destruct (comment_position st d2 pf2 g2 l2 Hok H2 Hg2 Hl2) as (tf2 & Ht2 & Hpa2 & _ & P2 & O2).
  assert (plain_file tf1) as Hpl1 by (split; [exact (Hplain _ _ _ H1 Hpa1)|apply Ht1]).
  assert (plain_file tf2) as Hpl2 by (split; [exact (Hplain _ _ _ H2 Hpa2)|apply Ht2]).
  destruct (unpack_plain tf1 _ Hpl1 O1) as (? & F1 & L1 & _). destruct (unpack_plain tf2 _ Hpl2 O2) as (? & F2 & _ & _).
  assert (pf1 = pf2) as <-.
  { eapply Hd; [done..|]. rewrite <-(tk_name _ _ _ Ht1), <-(tk_name _ _ _ Ht2), <-F1, <-F2, <-P1, <-P2. by rewrite E. }
  split; [by rewrite P1|]. split; [done|]. eapply slash_unique; [exact (tk_sorted _ _ _ Ht1)|done..|].
  pose proof (tk_range _ _ _ Ht1) as Hr. rewrite Forall_forall in Hr.
  destruct (find_range _ _ _ (ok_ranges _ st Hok) Hin1 (Hr _ (slash_in _ _ _ Hg2 Hl2))) as [P2' O2'].
  rewrite P1, P2' in E. apply unpack_plain_inj in E; [lia|done..].
Qed.

(** A finding of a group points at one of its lines, and says whether the group
    has a nolint line. *)
Lemma finding_line files p f g item :
  finding_of files p f g item ->
  exists line, line ∈ group_List g /\ position item = FileSet_Position files (Slash line)
    /\ (finding_reason item = nolintReason /\ ~ no_nolint g \/ finding_reason item = refusedReason /\ no_nolint g).
Proof.
  intros [(line & Hl & Hn & ->)|[(Hn & -> & _)|(Hn & _ & _ & line & Hl & _ & _ & ->)]].
  - exists line. split_and!; [done..|left]. split; [done|]. unfold no_nolint. rewrite Forall_forall. intros Hf.
    by rewrite (Hf line Hl) in Hn.
  - exists (first_comment g). split_and!; [left|done|by right].
  - exists line. split_and!; [done..|by right].
Qed.

(** Two findings of a walk at the same position are the same. *)
Lemma findings_unique order st f g :
  iterates order -> walk_ok ParseFile st -> distinct_files st -> plain_files ParseFile st ->
  f ∈ tree_findings order st -> g ∈ tree_findings order st ->
  position f = position g -> f = g.
Proof.
  intros Ho Hok Hd Hpl Hf Hg E. apply elem_of_tree_findings in Hf, Hg; [|done..].
  assert (forall h d pf, pf ∈ at_dir st d ->
    h ∈ strayComments (walk_files st) (path pf) (file pf)
          (bool_decide (Base (path pf) ∈ generatorOutputs (at_dir st d))) ->
    exists gr line, gr ∈ Comments (file pf) /\ line ∈ group_List gr /\ position h = FileSet_Position (walk_files st) (Slash line)
      /\ (finding_reason h = nolintReason /\ ~ no_nolint gr \/ finding_reason h = refusedReason /\ no_nolint gr)) as Hline.
  { intros h d pf _ (_ & gr & Hgr & Hfi)%stray_elem. apply finding_line in Hfi as (line & ? & ? & ?). eauto 10. }
  destruct Hf as [Hf|(d1 & pf1 & H1 & Hf)], Hg as [Hg|(d2 & pf2 & H2 & Hg)].
  - destruct (ok_found _ st Hok f Hf) as [_ Rf], (ok_found _ st Hok g Hg) as [_ Rg]. destruct f, g. cbn in *. congruence.
  - destruct (Hline g d2 pf2 H2 Hg) as (gr & line & Hgr & Hl & Hp & _).
    destruct (position_unique st d2 d2 pf2 pf2 gr gr line line Hok Hd Hpl H2 H2 Hgr Hgr Hl Hl eq_refl) as [L _].
    destruct (ok_found _ st Hok f Hf) as [Lf _]. rewrite <-Hp, <-E in L. lia.
  - destruct (Hline f d1 pf1 H1 Hf) as (gr & line & Hgr & Hl & Hp & _).
    destruct (position_unique st d1 d1 pf1 pf1 gr gr line line Hok Hd Hpl H1 H1 Hgr Hgr Hl Hl eq_refl) as [L _].
    destruct (ok_found _ st Hok g Hg) as [Lg _]. rewrite <-Hp, E in L. lia.
  - destruct (Hline f d1 pf1 H1 Hf) as (gr1 & l1 & Hgr1 & Hl1 & Hp1 & R1).
    destruct (Hline g d2 pf2 H2 Hg) as (gr2 & l2 & Hgr2 & Hl2 & Hp2 & R2).
    assert (FileSet_Position (walk_files st) (Slash l1) = FileSet_Position (walk_files st) (Slash l2)) as EP by congruence.
    destruct (position_unique st d1 d2 pf1 pf2 gr1 gr2 l1 l2 Hok Hd Hpl H1 H2 Hgr1 Hgr2 Hl1 Hl2 EP) as (_ & _ & <- & _).
    destruct f as [pf rf], g as [pg rg]. cbn in *. destruct R1 as [[-> ?]|[-> ?]], R2 as [[-> ?]|[-> ?]]; congruence || tauto.
Qed.
End order.

(* ------------------------------------------------------------------ *)
(** ** The report of a tree *)

Section report.
Context `{FileSystem} `{Unicode}.

Lemma tree_findings_perm order order' st :
  iterates order -> iterates order' -> tree_findings order st ≡ₚ tree_findings order' st.
Proof.
  intros Ho Ho'. unfold tree_findings. f_equiv.
  assert (order (byDirectory st) ≡ₚ order' (byDirectory st)) as Hp by (by rewrite (Ho _), (Ho' _)).
  induction Hp as [|x l k _ IH|x y l|l k m _ IH1 _ IH2]; cbn; [done|by rewrite IH| |by rewrite IH1].
  by rewrite !(assoc_L (++)), (Permutation_app_comm (directory_findings _ _)).
Qed.

(** Where the findings of a walk come from. *)
Lemma walk_found_special ParseFile visits st f :
  walk ParseFile (Walked [] ∅ []) visits = Ok st -> f ∈ walk_found st ->
  exists v, v ∈ visits /\ visit_entry v = Ok Special /\ f = Finding (MkPosition (visit_path v) 0 0) unreadableReason.
Proof.
  intros E. revert f. pattern st. eapply walk_induction; [exact E|by intros f ?%not_elem_of_nil|].
  intros s v s' Hv Hs IH f Hf. destruct Hs as [Ev|Ev|Ev Hx|files g Ev Hx Hp]; [auto| |auto|auto].
  cbn in Hf. apply elem_of_app in Hf as [Hf|Hf%list_elem_of_singleton]; [auto|]. eauto.
Qed.

(** A finding of a tree: a special file, without a line, or a comment of a Go
    file of the tree that parsed, at the place its token file gives it. *)
Definition finding_of_tree (ParseFile : list TokenFile -> bytes -> list TokenFile * res check_error File)
    (visits : list visit) (f : finding) : Prop :=
  (exists v, v ∈ visits /\ visit_entry v = Ok Special /\ position f = MkPosition (visit_path v) 0 0
     /\ finding_reason f = unreadableReason)
  \/ (exists v tf file c,
       v ∈ visits /\ visit_entry v = Ok Regular /\ Ext (visit_path v) = B ".go"
       /\ parsed_as ParseFile (visit_path v) tf file /\ c ∈ concat (map group_List (Comments file))
       /\ position f = unpack tf (Slash c - tf_base tf)
       /\ tf_name tf = visit_path v /\ place_in tf (position f)
       /\ (finding_reason f = refusedReason \/ finding_reason f = nolintReason)).

(** A file of a walk was visited as a regular Go file. *)
Lemma walk_go_file ParseFile visits st d pf :
  walk ParseFile (Walked [] ∅ []) visits = Ok st -> pf ∈ at_dir st d ->
  exists v, v ∈ visits /\ visit_path v = path pf /\ visit_entry v = Ok Regular /\ Ext (visit_path v) = B ".go".
Proof.
  intros E. revert d pf. pattern st. eapply walk_induction; [exact E|by intros d pf ?%not_elem_of_nil|].
  intros s v s' Hv Hs IH d pf Hpf.
  destruct (at_dir_step _ _ _ _ _ _ Hs Hpf) as [Hin|(_ & Hp & Ev & Hx & _)]; [by eapply IH|by exists v].
Qed.

Lemma tree_findings_located ParseFile order visits st f :
  parser_ok ParseFile -> iterates order ->
  walk ParseFile (Walked [] ∅ []) visits = Ok st ->
  f ∈ tree_findings order st -> finding_of_tree ParseFile visits f.
Proof.
  intros Hp Ho E Hf. apply elem_of_tree_findings in Hf as [Hf|(d & pf & Hpf & Hf)]; [..|done].
  { apply (walk_found_special _ _ _ _ E) in Hf as (v & Hv & Ev & ->). left. eauto. }
  right. destruct (walk_go_file _ _ _ _ _ E Hpf) as (v & Hv & Hpath & Ev & Hx).
  apply stray_elem in Hf as (_ & g & Hg & Hfi). apply finding_line in Hfi as (line & Hl & Hpos & Hre).
  destruct (comment_position ParseFile st d pf g line (walk_end _ Hp _ _ E) Hpf Hg Hl) as (tf & Htf & Hpa & _ & P & O).
  exists v, tf, (file pf), line. rewrite Hpos, P, Hpath. split_and!; try done.
  - by rewrite <-Hpath.
  - apply elem_of_concat_map. by exists g.
  - apply (tk_name _ _ _ Htf).
  - apply unpack_place; [apply Htf..|done].
  - tauto.
Qed.
End report.

(** C19. The report of a tree without line directives depends neither on the order
    in which the runtime iterates the map of its directories nor on how
    [slices.SortFunc] treats equal elements: any two runs over the same tree give
    the same lines in the same order, or the same error. It is assumed that the
    walk lists no path twice and that the parser does what go/parser documents
    ([parser_ok]); that no file has a line directive is a condition on the tree,
    without which the claim is false ([line_directives_exchange_reasons]) and only
    the places and their order are the same ([report_same_places]). *)
Theorem report_independent `{FileSystem} `{Unicode} WalkDir ParseFile order order' SortFunc SortFunc' root :
  parser_ok ParseFile -> NoDup (regular_paths (WalkDir root)) -> directive_free ParseFile (WalkDir root) ->
  iterates order -> iterates order' -> sorts SortFunc -> sorts SortFunc' ->
  straysUnder WalkDir ParseFile order SortFunc root = straysUnder WalkDir ParseFile order' SortFunc' root.
Proof.
  intros Hp Hnd Hdf Ho Ho' Hs Hs'. unfold straysUnder. destruct (walk _ _ _) as [st|] eqn:E; [|done]. cbn. do 2 f_equal.
  destruct (Hs (tree_findings order st)) as [P1 S1]. destruct (Hs' (tree_findings order' st)) as [P2 S2].
  apply (Sorted_unique_strong finding_le); [|done..|].
  - intros f g Hf Hg H1 H2. rewrite P1 in Hf. rewrite P2 in Hg.
    rewrite (tree_findings_perm order' order) in Hg by done.
    eapply findings_unique; [exact Ho|by eapply walk_end|by eapply walk_end_distinct|by eapply walk_end_plain|done..|].
    by apply finding_le_antisym.
  - rewrite P1, P2. by apply tree_findings_perm.
Qed.

(** The order of the report looks at positions only. *)
Definition position_le (p q : Position) : Prop := finding_le (Finding p refusedReason) (Finding q refusedReason).

#[global] Instance position_le_transitive : Transitive position_le.
Proof. intros p q r. unfold position_le. apply (transitivity (R := finding_le)). Qed.

Lemma positions_sorted found : Sorted finding_le found -> Sorted position_le (position <$> found).
Proof.
  induction 1 as [|f found _ IH Hd]; cbn; constructor; [done|]. destruct Hd; constructor. done.
Qed.

(** Two sorted reports of the same findings have the same positions. *)
Lemma positions_unique found found' :
  Sorted finding_le found -> Sorted finding_le found' -> found ≡ₚ found' ->
  position <$> found = position <$> found'.
Proof.
  intros S S' P. apply (Sorted_unique_strong position_le); [|by apply positions_sorted..|by rewrite P].
  intros p q _ _ H1 H2. exact (finding_le_antisym _ _ H1 H2).
Qed.

(** C20. Whatever the parser returns, line directives or not, and whatever the tree,
    any two runs fail with the same error, or report the same findings at the
    same places in the same order: only the reasons of findings at one and the
    same place may be exchanged. *)
Theorem report_same_places `{FileSystem} `{Unicode} WalkDir ParseFile order order' SortFunc SortFunc' root :
  iterates order -> iterates order' -> sorts SortFunc -> sorts SortFunc' ->
  match straysUnder WalkDir ParseFile order SortFunc root, straysUnder WalkDir ParseFile order' SortFunc' root with
  | Ok lines, Ok lines' =>
      exists found found', lines = report_line <$> found /\ lines' = report_line <$> found'
        /\ found ≡ₚ found' /\ position <$> found = position <$> found'
  | Err err, Err err' => err = err'
  | _, _ => False
  end.
Proof.
  intros Ho Ho' Hs Hs'. unfold straysUnder. destruct (walk _ _ _) as [st|err]; [|done]. cbn.
  destruct (Hs (tree_findings order st)) as [P1 S1]. destruct (Hs' (tree_findings order' st)) as [P2 S2].
  assert (SortFunc (tree_findings order st) ≡ₚ SortFunc' (tree_findings order' st)) as P
    by (rewrite P1, P2; by apply tree_findings_perm).
  do 2 eexists. split_and!; [done..|]. by apply positions_unique.
Qed.

(** C36. The report of a tree is well formed, whatever line directives its files
    have: its findings come in the order of file, line and column, and each is a
    special file of the tree, named without a line, or a comment of a regular Go
    file of the tree, for one of the two reasons for comments, at the place the
    token file of that file gives it: on a line from one on, of that file with a
    column from one on, or of a file that a line directive in it names, with a
    column or none. The parser is assumed to do what go/parser and go/token
    document ([parser_ok]). *)
Theorem report_well_formed `{FileSystem} `{Unicode} WalkDir ParseFile order SortFunc root lines :
  parser_ok ParseFile -> iterates order -> sorts SortFunc ->
  straysUnder WalkDir ParseFile order SortFunc root = Ok lines ->
  exists found, lines = report_line <$> found /\ StronglySorted finding_le found
    /\ Forall (finding_of_tree ParseFile (WalkDir root)) found.
Proof.
  intros Hp Ho Hs. unfold straysUnder. destruct (walk _ _ _) as [st|] eqn:E; [|done]. intros [= <-].
  destruct (Hs (tree_findings order st)) as [P S]. eexists. split; [done|].
  split; [by apply Sorted_StronglySorted; [apply _|]|]. apply Forall_forall. intros f Hf. rewrite P in Hf.
  by eapply tree_findings_located.
Qed.

(* ------------------------------------------------------------------ *)
(** ** The lines of the report *)

Section lines.
Context `{Unicode}.

(** A quotation ends where it ends: what follows it can be split off. *)
Lemma quote_app_inj s t u v : quote s ++ u = quote t ++ v -> s = t /\ u = v.
Proof.
  unfold quote. rewrite <-!app_assoc. cbn [app]. intros [= E].
  set (fuel := S (length (runes s) + length (runes t))).
  apply (f_equal (unquote_from fuel)) in E.
  rewrite !unquote_from_quoted in E by (unfold fuel; lia). by simplify_eq.
Qed.

Lemma colon_not_in_int z : ":"%byte ∉ format_int z.
Proof.
  intros Hin. pose proof (format_int_bytes z) as Hb. rewrite Forall_forall in Hb.
  by destruct (Hb _ Hin) as [|].
Qed.

Lemma format_int_head z : exists c s, format_int z = c :: s /\ c <> " "%byte.
Proof.
  pose proof (format_int_bytes z) as Hb. destruct (format_int z) as [|c s] eqn:E.
  - exfalso. destruct (format_int_shape z) as (n & [[_ En]|[_ En]]); rewrite E in En; [|done].
    destruct (uint_bytes_nonnil n) as (d & s & En' & _). congruence.
  - exists c, s. split; [done|]. apply Forall_cons in Hb as [[Hc|Hc] _]; by intros ->.
Qed.

Lemma reason_text_inj r r' : reason_text r = reason_text r' -> r = r'.
Proof. by destruct r, r'. Qed.
End lines.

(** C37. A line of the report tells its finding: two findings with the same line
    are at the same place of the same file for the same reason, whatever bytes
    the file names have. (A finding without a line has no column.) *)
Theorem report_line_injective `{Unicode} (f g : finding) :
  (Line (position f) = 0 -> Column (position f) = 0) -> (Line (position g) = 0 -> Column (position g) = 0) ->
  report_line f = report_line g -> f = g.
Proof.
  destruct f as [[a l c] r], g as [[a' l' c'] r']. unfold report_line, location. cbn -[B app format_int].
  intros Hc Hc'. destruct (Z.eqb_spec l 0) as [->|Hl], (Z.eqb_spec l' 0) as [->|Hl']; rewrite <-?app_assoc;
    intros [-> E]%quote_app_inj.
  - apply app_inv_head, reason_text_inj in E as ->. by rewrite Hc, Hc'.
  - exfalso. destruct (format_int_head l') as (d & s & Es & Hd). rewrite Es in E. by injection E.
  - exfalso. destruct (format_int_head l) as (d & s & Es & Hd). rewrite Es in E. by injection E.
  - apply app_inv_head in E. apply (app_sep_inj ":"%byte) in E as [El%format_int_inj E]; [|apply colon_not_in_int..].
    apply (app_sep_inj ":"%byte) in E as [Ec%format_int_inj E]; [|apply colon_not_in_int..].
    apply (app_inv_head [" "%byte]), reason_text_inj in E as ->. by subst.
Qed.

(* ------------------------------------------------------------------ *)
(** ** Witnesses *)

#[local] Existing Instance sample_unicode.
#[local] Existing Instance sample_files.

Lemma next_base_above files :
  0 < next_base files /\ Forall (fun f => tf_base f + tf_size f < next_base files) files.
Proof.
  unfold next_base. induction files as [|f files [H1 H2]]; cbn; [by split|]. split; [lia|].
  constructor; [lia|]. eapply Forall_impl; [exact H2|]. cbn. lia.
Qed.

Lemma sample_parser_ok documented text : parser_ok (sample_parser documented text).
Proof.
  intros files p files' f E. unfold sample_parser in E. injection E as <- <-.
  destruct (next_base_above files) as [H1 H2].
  eexists. split_and!; [reflexivity| |exact H2].
  split; [done|exact H1|by repeat constructor|constructor| |repeat constructor].
  repeat constructor. unfold in_range. cbn. apply andb_true_intro. split; apply Z.leb_le; lia.
Qed.

Lemma sample_parser_free documented text visits : directive_free (sample_parser documented text) visits.
Proof. intros v tf f _ [files E]. unfold sample_parser in E. injection E as E _.
  by apply app_inj_tail in E as [_ <-].
Qed.

(** A map may be iterated in the opposite order, and equal findings sorted in it. *)
Lemma reversed_iterates : iterates (fun m => rev (sample_order m)).
Proof. intros m. rewrite <-Permutation_rev. apply sample_order_iterates. Qed.

Lemma reversed_sorts : sorts (fun l => merge_sort finding_le (rev l)).
Proof.
  intros l. destruct (merge_sorts (rev l)) as [P S]. split; [|done]. rewrite P. symmetry. apply Permutation_rev.
Qed.

Definition link_tree (root : bytes) : list visit :=
  [Visit (B "a/x.go") (Ok Regular); Visit (B "a/y") (Ok Special); Visit (B "b/z.go") (Ok Regular)].

Lemma link_tree_distinct : NoDup (regular_paths (link_tree [])).
Proof. by apply (bool_decide_unpack _). Qed.

Lemma report_independent_witness :
  straysUnder link_tree (sample_parser false (fun _ => B "// stray")) sample_order (merge_sort finding_le) []
  = straysUnder link_tree (sample_parser false (fun _ => B "// stray"))
      (fun m => rev (sample_order m)) (fun l => merge_sort finding_le (rev l)) [].
Proof.
  refine (report_independent link_tree (sample_parser false (fun _ => B "// stray")) sample_order
    (fun m => rev (sample_order m)) (merge_sort finding_le) (fun l => merge_sort finding_le (rev l)) []
    (sample_parser_ok _ _) link_tree_distinct (sample_parser_free _ _ _) sample_order_iterates reversed_iterates merge_sorts reversed_sorts).
Defined.

Lemma report_same_places_witness :
  exists found found',
    [quote (B "a/x.go") ++ B ":1:1: " ++ reason_text refusedReason;
     quote (B "a/y") ++ B ": " ++ reason_text unreadableReason;
     quote (B "b/z.go") ++ B ":1:1: " ++ reason_text refusedReason] = report_line <$> found
    /\ [quote (B "a/x.go") ++ B ":1:1: " ++ reason_text refusedReason;
        quote (B "a/y") ++ B ": " ++ reason_text unreadableReason;
        quote (B "b/z.go") ++ B ":1:1: " ++ reason_text refusedReason] = report_line <$> found'
    /\ found ≡ₚ found' /\ position <$> found = position <$> found'.
Proof.
  refine (report_same_places link_tree (sample_parser false (fun _ => B "// stray")) sample_order
    (fun m => rev (sample_order m)) (merge_sort finding_le) (fun l => merge_sort finding_le (rev l)) []
    sample_order_iterates reversed_iterates merge_sorts reversed_sorts).
Defined.

(** Two files with the text

      package p

      //line /gen.go:7

      //nolint

    where the second has another comment on its last line. *)
Definition directed_file (base : Z) (text : bytes) : File := {|
  File_Doc := None;
  Package := base;
  Decls := [];
  Comments := [MkGroup 1 (MkComment (base + 11) (B "//line /gen.go:7")) [];
               MkGroup 2 (MkComment (base + 29) text) []]
|}.

Definition directed_parser (files : list TokenFile) (p : bytes) : list TokenFile * res check_error File :=
  let base := next_base files in
  (files ++ [{| tf_name := p; tf_base := base; tf_size := 38; tf_lines := [0; 10; 11; 28; 29];
                tf_infos := [{| info_Offset := 28; info_Filename := B "/gen.go"; info_Line := 7; info_Column := 0 |}] |}],
   Ok (directed_file base (if bool_decide (p = B "a/x.go") then B "//nolint" else B "// stray"))).

(** With line directives the report does depend on the order of the map: two
    findings of two directories can be at the same place of a third file, and
    come in the order in which the directories are met. *)
Theorem line_directives_exchange_reasons :
  iterates sample_order /\ iterates (fun m => rev (sample_order m)) /\ sorts (merge_sort finding_le)
  /\ exists nolint stray others,
       nolint <> stray
       /\ straysUnder link_tree directed_parser sample_order (merge_sort finding_le) []
          = Ok (nolint :: stray :: others)
       /\ straysUnder link_tree directed_parser (fun m => rev (sample_order m)) (merge_sort finding_le) []
          = Ok (stray :: nolint :: others).
Proof.
  split_and!; [apply sample_order_iterates|apply reversed_iterates|apply merge_sorts|].
  exists (quote (B "/gen.go") ++ B ":8:0: " ++ reason_text nolintReason),
    (quote (B "/gen.go") ++ B ":8:0: " ++ reason_text refusedReason),
    [quote (B "a/x.go") ++ B ":3:1: " ++ reason_text refusedReason;
     quote (B "a/y") ++ B ": " ++ reason_text unreadableReason;
     quote (B "b/z.go") ++ B ":3:1: " ++ reason_text refusedReason].
  split_and!; [|vm_refl|vm_refl]. intros He. apply (f_equal (fun l => nth 20 l "000"%byte)) in He. vm_compute in He. done.
Qed.

Lemma directed_parser_ok : parser_ok directed_parser.
Proof.
  intros files p files' f E. unfold directed_parser in E. injection E as <- <-.
  destruct (next_base_above files) as [H1 H2].
  eexists. split_and!; [reflexivity| |exact H2].
  split; [done|exact H1| | | |]; unfold slashes; cbn.
  - by repeat constructor.
  - by repeat constructor.
  - repeat constructor; unfold in_range; cbn; apply andb_true_intro; split; apply Z.leb_le; lia.
  - repeat constructor; lia.
Qed.

Lemma report_well_formed_witness :
  exists found,
    [quote (B "/gen.go") ++ B ":8:0: " ++ reason_text nolintReason;
     quote (B "/gen.go") ++ B ":8:0: " ++ reason_text refusedReason;
     quote (B "a/x.go") ++ B ":3:1: " ++ reason_text refusedReason;
     quote (B "a/y") ++ B ": " ++ reason_text unreadableReason;
     quote (B "b/z.go") ++ B ":3:1: " ++ reason_text refusedReason] = report_line <$> found
    /\ StronglySorted finding_le found /\ Forall (finding_of_tree directed_parser (link_tree [])) found.
Proof.
  refine (report_well_formed link_tree directed_parser sample_order
    (merge_sort finding_le) [] _ directed_parser_ok sample_order_iterates merge_sorts _).
  vm_refl.
Defined.

Lemma report_line_injective_witness :
  Finding (MkPosition (B "a.go") 3 1) refusedReason = Finding (MkPosition (B "a.go") (1 + 2) 1) refusedReason.
Proof. apply (report_line_injective _ _); [done|done|reflexivity]. Defined.
